(** * trimesh-boolean: Boolean operations on triangle soups

    A shallow embedding of the Boolean core of the library (intersect,
    classify, split, assemble) together with the two repair primitives
    it consumes.  JavaScript numbers are read as real numbers, as in the
    data model of the specification (a vertex is a triple of finite
    reals); arrays are lists, [null] is [None], and objects used as
    dictionaries are association lists in insertion order. *)

From Stdlib Require Import Reals Lra Lia ZArith List Bool String Ascii Sorted Permutation.
From Stdlib Require DecimalString.
From Stdlib Require PrimFloat.
Import ListNotations.
Open Scope R_scope.

(** ** Numbers *)

(** Comparisons of the source ([<], [<=], [>], [>=]) as boolean tests. *)
Definition Rltb (a b : R) : bool := if Rlt_dec a b then true else false.
Definition Rleb (a b : R) : bool := if Rle_dec a b then true else false.
Definition Rgtb (a b : R) : bool := Rltb b a.
Definition Rgeb (a b : R) : bool := Rleb b a.

(** [Math.min(a, b, c)] and [Math.max(a, b, c)]. *)
Definition Rmin3 (a b c : R) : R := Rmin a (Rmin b c).
Definition Rmax3 (a b c : R) : R := Rmax a (Rmax b c).

(** [lo, lo+1, ..., hi], the values of an integer loop counter
    [for (g = lo; g <= hi; g++)]. *)
Definition Zrange (lo hi : Z) : list Z :=
  map (fun k => (lo + Z.of_nat k)%Z) (seq 0 (Z.to_nat (hi - lo + 1))).

(** ** Data model *)

Record Vertex : Type := mkV { vx : R; vy : R; vz : R }.
Record Triangle : Type := mkT { v0 : Vertex; v1 : Vertex; v2 : Vertex }.
Record Segment : Type := mkSeg { p0 : Vertex; p1 : Vertex }.
Record TaggedSegment : Type :=
  mkTagged { tp0 : Vertex; tp1 : Vertex; idxA : nat; idxB : nat }.
Definition Soup : Type := list Triangle.

(** [{ x: v.x, y: v.y, z: v.z }]. *)
Definition copyVertex (v : Vertex) : Vertex := mkV (vx v) (vy v) (vz v).

Record BBox : Type :=
  mkBB { minX : R; minY : R; minZ : R; maxX : R; maxY : R; maxZ : R }.

(** ** util/math.js *)

Definition dist3 (a b : Vertex) : R :=
  let dx := vx a - vx b in
  let dy := vy a - vy b in
  let dz := vz a - vz b in
  sqrt (dx * dx + dy * dy + dz * dz).

Definition cross (a b : Vertex) : Vertex :=
  mkV (vy a * vz b - vz a * vy b)
      (vz a * vx b - vx a * vz b)
      (vx a * vy b - vy a * vx b).

(** [x.toFixed(6)]: the integer [n] nearest to [|x| * 10^6] (the larger
    one on a tie), printed with six decimals, behind a minus sign when
    [x < 0].  (Below 10^21, where the source's numbers live.) *)
Definition digit (d : Z) : string :=
  String (ascii_of_nat (48 + Z.to_nat d)) EmptyString.

Definition toFixedDigits (n : Z) : string :=
  (DecimalString.NilZero.string_of_uint (N.to_uint (Z.to_N (n / 1000000)))
   ++ "."
   ++ digit (n / 100000 mod 10) ++ digit (n / 10000 mod 10)
   ++ digit (n / 1000 mod 10) ++ digit (n / 100 mod 10)
   ++ digit (n / 10 mod 10) ++ digit (n mod 10))%string.

Definition toFixed6 (r : R) : string :=
  let n := Zfloor (Rabs r * 1000000 + / 2) in
  if Rltb r 0 then ("-" ++ toFixedDigits n)%string else toFixedDigits n.

(** [vKey]; the local helper [vk] of booleanOp.js, classifyTriangles.js
    and splitTriangles.js is the same function with [PREC = 6]. *)
Definition vKey (v : Vertex) : string :=
  (toFixed6 (vx v) ++ "," ++ toFixed6 (vy v) ++ "," ++ toFixed6 (vz v))%string.

Definition vk : Vertex -> string := vKey.

(** [edgeKey], also written inline as
    [from < to ? from + "|" + to : to + "|" + from]. *)
Definition edgeKey (ka kb : string) : string :=
  if String.ltb ka kb then (ka ++ "|" ++ kb)%string else (kb ++ "|" ++ ka)%string.

(** ** normals/triNormal.js *)

Definition triNormal (tri : Triangle) : Vertex :=
  let e1 := mkV (vx (v1 tri) - vx (v0 tri)) (vy (v1 tri) - vy (v0 tri))
                (vz (v1 tri) - vz (v0 tri)) in
  let e2 := mkV (vx (v2 tri) - vx (v0 tri)) (vy (v2 tri) - vy (v0 tri))
                (vz (v2 tri) - vz (v0 tri)) in
  let n := cross e1 e2 in
  let len := sqrt (vx n * vx n + vy n * vy n + vz n * vz n) in
  if Rltb len 1e-15 then mkV 0 0 1
  else mkV (vx n / len) (vy n / len) (vz n / len).

(** ** intersect/spatialGrid.js *)

(** The grid object: cell key ["gx,gy"] to the array of triangle indices
    binned there.  The key string is the pair of integers it prints. *)
Definition Grid : Type := list ((Z * Z) * list nat).

Definition cellEqb (a b : Z * Z) : bool :=
  (fst a =? fst b)%Z && (snd a =? snd b)%Z.

Fixpoint gridGet (g : Grid) (key : Z * Z) : option (list nat) :=
  match g with
  | [] => None
  | (k, cell) :: rest => if cellEqb k key then Some cell else gridGet rest key
  end.

(** [if (!grid[key]) grid[key] = []; grid[key].push(i)]. *)
Fixpoint gridPush (g : Grid) (key : Z * Z) (i : nat) : Grid :=
  match g with
  | [] => [(key, [i])]
  | (k, cell) :: rest =>
      if cellEqb k key then (k, cell ++ [i]) :: rest
      else (k, cell) :: gridPush rest key i
  end.

Definition triBBox (tri : Triangle) : BBox :=
  mkBB (Rmin3 (vx (v0 tri)) (vx (v1 tri)) (vx (v2 tri)))
       (Rmin3 (vy (v0 tri)) (vy (v1 tri)) (vy (v2 tri)))
       (Rmin3 (vz (v0 tri)) (vz (v1 tri)) (vz (v2 tri)))
       (Rmax3 (vx (v0 tri)) (vx (v1 tri)) (vx (v2 tri)))
       (Rmax3 (vy (v0 tri)) (vy (v1 tri)) (vy (v2 tri)))
       (Rmax3 (vz (v0 tri)) (vz (v1 tri)) (vz (v2 tri))).

(** The cells [(gx, gy)] visited by the two nested loops over a box, in
    loop order.  The quotients are quotients of real numbers, so this
    describes the loops for [cellSize <> 0], which is what every caller
    in the library passes ([max(2 * avgEdge, 0.1)]).  With a cell size
    of 0 the source divides by zero and its loop bounds are NaN or
    infinite: the loops then make no pass or do not end, which is
    outside this description. *)
Definition boxCells (bb : BBox) (cellSize : R) : list (Z * Z) :=
  let x0 := Zfloor (minX bb / cellSize) in
  let y0 := Zfloor (minY bb / cellSize) in
  let x1 := Zfloor (maxX bb / cellSize) in
  let y1 := Zfloor (maxY bb / cellSize) in
  flat_map (fun gx => map (fun gy => (gx, gy)) (Zrange y0 y1)) (Zrange x0 x1).

(** One pass of the outer loop of [buildSpatialGrid]: triangle [i] is
    pushed into every cell of its box. *)
Definition insertTriangle (cellSize : R) (g : Grid) (i : nat) (tri : Triangle)
  : Grid :=
  fold_left (fun g' key => gridPush g' key i) (boxCells (triBBox tri) cellSize) g.

Fixpoint buildSpatialGridFrom (cellSize : R) (g : Grid) (i : nat) (tris : Soup)
  : Grid :=
  match tris with
  | [] => g
  | tri :: rest =>
      buildSpatialGridFrom cellSize (insertTriangle cellSize g i tri) (S i) rest
  end.

Definition buildSpatialGrid (tris : Soup) (cellSize : R) : Grid :=
  buildSpatialGridFrom cellSize [] 0%nat tris.

Definition memNat (i : nat) (l : list nat) : bool := existsb (Nat.eqb i) l.

(** The inner loop of [queryGrid] over one cell.  [seen[idx]] is set
    exactly when [idx] is pushed, so the set of seen indices is the
    result array itself. *)
Definition queryCell (result : list nat) (cell : list nat) : list nat :=
  fold_left (fun res idx => if memNat idx res then res else res ++ [idx])
            cell result.

Definition queryGrid (grid : Grid) (bb : BBox) (cellSize : R) : list nat :=
  fold_left (fun res key =>
               match gridGet grid key with
               | None => res
               | Some cell => queryCell res cell
               end)
            (boxCells bb cellSize) [].

Definition bboxOverlap (a b : BBox) : bool :=
  Rleb (minX a) (maxX b) && Rgeb (maxX a) (minX b) &&
  Rleb (minY a) (maxY b) && Rgeb (maxY a) (minY b) &&
  Rleb (minZ a) (maxZ b) && Rgeb (maxZ a) (minZ b).

Definition estimateAvgEdge (tris : Soup) : R :=
  match tris with
  | [] => 1
  | _ =>
      let count := Nat.min (List.length tris) 100 in
      let total :=
        fold_left (fun total t =>
                     total + dist3 (v0 t) (v1 t) + dist3 (v1 t) (v2 t)
                           + dist3 (v2 t) (v0 t))
                  (firstn count tris) 0 in
      total / (INR count * 3)
  end.

(** ** intersect/triTriIntersection.js *)

Record Interval : Type := mkInterval { imin : R; imax : R }.

(** [params.sort(function (a, b) { return a - b; })]. *)
Fixpoint insertSorted (a : R) (l : list R) : list R :=
  match l with
  | [] => [a]
  | b :: rest => if Rleb a b then a :: b :: rest else b :: insertSorted a rest
  end.

Fixpoint sortParams (l : list R) : list R :=
  match l with
  | [] => []
  | a :: rest => insertSorted a (sortParams rest)
  end.

Definition projectOnLine (p lineDir linePoint : Vertex) : R :=
  (vx p - vx linePoint) * vx lineDir + (vy p - vy linePoint) * vy lineDir
  + (vz p - vz linePoint) * vz lineDir.

(** The body of the loop of [computeTriInterval] for the edge from
    vertex [vi] (distance [di]) to vertex [vj] (distance [dj]). *)
Definition edgeParams (vi vj lineDir linePoint : Vertex) (di dj : R) : list R :=
  if (Rgtb di 0 && Rltb dj 0) || (Rltb di 0 && Rgtb dj 0) then
    let t := di / (di - dj) in
    let pt := mkV (vx vi + t * (vx vj - vx vi))
                  (vy vi + t * (vy vj - vy vi))
                  (vz vi + t * (vz vj - vz vi)) in
    [projectOnLine pt lineDir linePoint]
  else if Rltb (Rabs di) 1e-10 then [projectOnLine vi lineDir linePoint]
  else [].

Definition computeTriInterval (tri : Triangle) (lineDir linePoint : Vertex)
  (d0 d1 d2 : R) : option Interval :=
  let params :=
    edgeParams (v0 tri) (v1 tri) lineDir linePoint d0 d1 ++
    edgeParams (v1 tri) (v2 tri) lineDir linePoint d1 d2 ++
    edgeParams (v2 tri) (v0 tri) lineDir linePoint d2 d0 in
  if (List.length params <? 2)%nat then None
  else
    let sorted := sortParams params in
    Some (mkInterval (hd 0 sorted) (last sorted 0)).

Definition findLinePoint (nA : Vertex) (dA : R) (nB : Vertex) (dB : R)
  (lineDir : Vertex) : option Vertex :=
  let ax := Rabs (vx lineDir) in
  let ay := Rabs (vy lineDir) in
  let az := Rabs (vz lineDir) in
  if Rgeb az ax && Rgeb az ay then
    let det := vx nA * vy nB - vy nA * vx nB in
    if Rltb (Rabs det) 1e-12 then None
    else Some (mkV ((- dA * vy nB + dB * vy nA) / det)
                   ((vx nA * (- dB) - vx nB * (- dA)) / det)
                   0)
  else if Rgeb ay ax then
    let det2 := vx nA * vz nB - vz nA * vx nB in
    if Rltb (Rabs det2) 1e-12 then None
    else Some (mkV ((- dA * vz nB + dB * vz nA) / det2)
                   0
                   ((vx nA * (- dB) - vx nB * (- dA)) / det2))
  else
    let det3 := vy nA * vz nB - vz nA * vy nB in
    if Rltb (Rabs det3) 1e-12 then None
    else Some (mkV 0
                   ((- dA * vz nB + dB * vz nA) / det3)
                   ((vy nA * (- dB) - vy nB * (- dA)) / det3)).

Definition dot (a b : Vertex) : R := vx a * vx b + vy a * vy b + vz a * vz b.

Definition allPositive (a b c : R) : bool := Rgtb a 0 && Rgtb b 0 && Rgtb c 0.
Definition allNegative (a b c : R) : bool := Rltb a 0 && Rltb b 0 && Rltb c 0.

Definition triTriIntersection (triA triB : Triangle) : option Segment :=
  let nB := triNormal triB in
  let dB := - (vx nB * vx (v0 triB) + vy nB * vy (v0 triB) + vz nB * vz (v0 triB)) in
  let dA0 := vx nB * vx (v0 triA) + vy nB * vy (v0 triA) + vz nB * vz (v0 triA) + dB in
  let dA1 := vx nB * vx (v1 triA) + vy nB * vy (v1 triA) + vz nB * vz (v1 triA) + dB in
  let dA2 := vx nB * vx (v2 triA) + vy nB * vy (v2 triA) + vz nB * vz (v2 triA) + dB in
  if allPositive dA0 dA1 dA2 then None else
  if allNegative dA0 dA1 dA2 then None else
  let nA := triNormal triA in
  let dA := - (vx nA * vx (v0 triA) + vy nA * vy (v0 triA) + vz nA * vz (v0 triA)) in
  let dB0 := vx nA * vx (v0 triB) + vy nA * vy (v0 triB) + vz nA * vz (v0 triB) + dA in
  let dB1 := vx nA * vx (v1 triB) + vy nA * vy (v1 triB) + vz nA * vz (v1 triB) + dA in
  let dB2 := vx nA * vx (v2 triB) + vy nA * vy (v2 triB) + vz nA * vz (v2 triB) + dA in
  if allPositive dB0 dB1 dB2 then None else
  if allNegative dB0 dB1 dB2 then None else
  let dotN := vx nA * vx nB + vy nA * vy nB + vz nA * vz nB in
  if Rgtb (Rabs dotN) 0.9999 then None else
  let lineDir0 := cross nA nB in
  let lineDirLen :=
    sqrt (vx lineDir0 * vx lineDir0 + vy lineDir0 * vy lineDir0
          + vz lineDir0 * vz lineDir0) in
  if Rltb lineDirLen 1e-12 then None else
  let lineDir := mkV (vx lineDir0 / lineDirLen) (vy lineDir0 / lineDirLen)
                     (vz lineDir0 / lineDirLen) in
  match findLinePoint nA dA nB dB lineDir with
  | None => None
  | Some linePoint =>
  match computeTriInterval triA lineDir linePoint dA0 dA1 dA2 with
  | None => None
  | Some intervalA =>
  match computeTriInterval triB lineDir linePoint dB0 dB1 dB2 with
  | None => None
  | Some intervalB =>
      let overlapMin := Rmax (imin intervalA) (imin intervalB) in
      let overlapMax := Rmin (imax intervalA) (imax intervalB) in
      if Rgeb overlapMin (overlapMax - 1e-10) then None else
      let p0 := mkV (vx linePoint + vx lineDir * overlapMin)
                    (vy linePoint + vy lineDir * overlapMin)
                    (vz linePoint + vz lineDir * overlapMin) in
      let p1 := mkV (vx linePoint + vx lineDir * overlapMax)
                    (vy linePoint + vy lineDir * overlapMax)
                    (vz linePoint + vz lineDir * overlapMax) in
      let dx := vx p0 - vx p1 in
      let dy := vy p0 - vy p1 in
      let dz := vz p0 - vz p1 in
      if Rltb (sqrt (dx * dx + dy * dy + dz * dz)) 1e-8 then None
      else Some (mkSeg p0 p1)
  end end end.

Record Detailed : Type :=
  mkDetailed { dA_ : R * R * R; dB_ : R * R * R; segLen : R }.

Definition triTriIntersectionDetailed (triA triB : Triangle) : option Detailed :=
  let nB := triNormal triB in
  let dB := - (vx nB * vx (v0 triB) + vy nB * vy (v0 triB) + vz nB * vz (v0 triB)) in
  let dA0 := vx nB * vx (v0 triA) + vy nB * vy (v0 triA) + vz nB * vz (v0 triA) + dB in
  let dA1 := vx nB * vx (v1 triA) + vy nB * vy (v1 triA) + vz nB * vz (v1 triA) + dB in
  let dA2 := vx nB * vx (v2 triA) + vy nB * vy (v2 triA) + vz nB * vz (v2 triA) + dB in
  if allPositive dA0 dA1 dA2 then None else
  if allNegative dA0 dA1 dA2 then None else
  let nA := triNormal triA in
  let dA := - (vx nA * vx (v0 triA) + vy nA * vy (v0 triA) + vz nA * vz (v0 triA)) in
  let dB0 := vx nA * vx (v0 triB) + vy nA * vy (v0 triB) + vz nA * vz (v0 triB) + dA in
  let dB1 := vx nA * vx (v1 triB) + vy nA * vy (v1 triB) + vz nA * vz (v1 triB) + dA in
  let dB2 := vx nA * vx (v2 triB) + vy nA * vy (v2 triB) + vz nA * vz (v2 triB) + dA in
  if allPositive dB0 dB1 dB2 then None else
  if allNegative dB0 dB1 dB2 then None else
  let dotN := vx nA * vx nB + vy nA * vy nB + vz nA * vz nB in
  if Rgtb (Rabs dotN) 0.9999 then None else
  let lineDir0 := cross nA nB in
  let lineDirLen :=
    sqrt (vx lineDir0 * vx lineDir0 + vy lineDir0 * vy lineDir0
          + vz lineDir0 * vz lineDir0) in
  if Rltb lineDirLen 1e-12 then None else
  let lineDir := mkV (vx lineDir0 / lineDirLen) (vy lineDir0 / lineDirLen)
                     (vz lineDir0 / lineDirLen) in
  match findLinePoint nA dA nB dB lineDir with
  | None => None
  | Some linePoint =>
  match computeTriInterval triA lineDir linePoint dA0 dA1 dA2 with
  | None => None
  | Some intervalA =>
  match computeTriInterval triB lineDir linePoint dB0 dB1 dB2 with
  | None => None
  | Some intervalB =>
      let overlapMin := Rmax (imin intervalA) (imin intervalB) in
      let overlapMax := Rmin (imax intervalA) (imax intervalB) in
      if Rgeb overlapMin (overlapMax - 1e-10) then None else
      let segLen := overlapMax - overlapMin in
      if Rltb segLen 1e-8 then None
      else Some (mkDetailed (dA0, dA1, dA2) (dB0, dB1, dB2) segLen)
  end end end.

(** ** intersect/intersectMeshPair.js *)

(** The inner loop over the candidates of triangle [i] of mesh A. *)
Definition pairSegments (trisB : Soup) (i : nat) (triA : Triangle)
  (candidates : list nat) : list TaggedSegment :=
  flat_map (fun j =>
              match nth_error trisB j with
              | None => []
              | Some triB =>
                  match triTriIntersection triA triB with
                  | None => []
                  | Some seg => [mkTagged (p0 seg) (p1 seg) i j]
                  end
              end)
           candidates.

Fixpoint intersectFrom (trisB : Soup) (gridB : Grid) (cellSize : R) (i : nat)
  (trisA : Soup) : list TaggedSegment :=
  match trisA with
  | [] => []
  | triA :: rest =>
      pairSegments trisB i triA (queryGrid gridB (triBBox triA) cellSize)
      ++ intersectFrom trisB gridB cellSize (S i) rest
  end.

Definition intersectMeshPairTagged (trisA trisB : Soup) : list TaggedSegment :=
  let avgEdge := estimateAvgEdge trisB in
  let cellSize := Rmax (avgEdge * 2) 0.1 in
  let gridB := buildSpatialGrid trisB cellSize in
  intersectFrom trisB gridB cellSize 0%nat trisA.

(** ** boolean/classifyTriangles.js: the multi-axis point classifier *)

Inductive Axis : Type := AxisZ | AxisX | AxisY.

Record Jitter : Type := mkJitter { da : R; db : R }.

Definition JITTERS (axis : Axis) : list Jitter :=
  match axis with
  | AxisZ => [ mkJitter 0.0000537 0.0000241;
               mkJitter (-0.0000319) 0.0000673;
               mkJitter 0.0000157 (-0.0000489) ]
  | AxisX => [ mkJitter 0.0000443 (-0.0000317);
               mkJitter (-0.0000261) 0.0000559;
               mkJitter 0.0000189 0.0000371 ]
  | AxisY => [ mkJitter (-0.0000397) 0.0000283;
               mkJitter 0.0000521 (-0.0000447);
               mkJitter (-0.0000173) 0.0000613 ]
  end.

(** The two projection coordinates and the ray coordinate of a vertex. *)
Definition axisCoords (axis : Axis) (v : Vertex) : R * R * R :=
  match axis with
  | AxisZ => (vx v, vy v, vz v)
  | AxisX => (vy v, vz v, vx v)
  | AxisY => (vx v, vz v, vy v)
  end.

(** Does the candidate triangle count as a hit above [pr]? *)
Definition rayHits (pa pb pr : R) (tri : Triangle) (axis : Axis) : bool :=
  let '(a0, b0, r0) := axisCoords axis (v0 tri) in
  let '(a1, b1, r1) := axisCoords axis (v1 tri) in
  let '(a2, b2, r2) := axisCoords axis (v2 tri) in
  let d := (b1 - b2) * (a0 - a2) + (a2 - a1) * (b0 - b2) in
  if Rltb (Rabs d) 1e-12 then false else
  let u := ((b1 - b2) * (pa - a2) + (a2 - a1) * (pb - b2)) / d in
  let v := ((b2 - b0) * (pa - a2) + (a0 - a2) * (pb - b2)) / d in
  let w := 1 - u - v in
  if Rltb u (-1e-10) || Rltb v (-1e-10) || Rltb w (-1e-10) then false else
  let rHit := u * r0 + v * r1 + w * r2 in
  Rgtb rHit pr.

Definition castRayOnAxis (pa pb pr : R) (candidates : list nat)
  (otherTris : Soup) (axis : Axis) : nat :=
  fold_left (fun countPos c =>
               match nth_error otherTris c with
               | Some tri => if rayHits pa pb pr tri axis then S countPos
                             else countPos
               | None => countPos
               end)
            candidates 0%nat.

(** Modelled from the spec: [queryGridOnAxes] of intersect/spatialGrid.js
    is exported by index.js but its file is not part of the sources; the
    specification gives it as [queryPoint(grid, (a, b), cellSize)], the
    indices of the single cell containing [(a, b)]. *)
Definition queryGridOnAxes (grid : Grid) (a b : R) (cellSize : R) : list nat :=
  match gridGet grid (Zfloor (a / cellSize), Zfloor (b / cellSize)) with
  | Some cell => cell
  | None => []
  end.

(** One jittered ray: the pair (had a hit, odd number of hits). *)
Definition jitteredRay (basePa basePb pr : R) (otherTris : Soup) (grid : Grid)
  (cellSize : R) (axis : Axis) (jt : Jitter) : bool * bool :=
  let pa := basePa + da jt in
  let pb := basePb + db jt in
  let candidates :=
    match axis with
    | AxisZ => queryGrid grid (mkBB pa pb 0 pa pb 0) cellSize
    | _ => queryGridOnAxes grid pa pb cellSize
    end in
  let count := castRayOnAxis pa pb pr candidates otherTris axis in
  (Nat.ltb 0 count, Nat.eqb (count mod 2) 1).

Definition classifyPointOnAxis (point : Vertex) (otherTris : Soup) (grid : Grid)
  (cellSize : R) (axis : Axis) : Z :=
  let '(basePa, basePb, pr) := axisCoords axis point in
  let rays := map (jitteredRay basePa basePb pr otherTris grid cellSize axis)
                  (JITTERS axis) in
  let hadHits := List.length (filter fst rays) in
  let insideVotes := List.length (filter snd rays) in
  if Nat.eqb hadHits 0 then 0%Z
  else if Nat.leb 2 insideVotes then 1%Z else 2%Z.

Record GridEntry : Type := mkGridEntry { grid : Grid; cellSize : R }.
Record Grids : Type := mkGrids { xy : GridEntry; yz : GridEntry; xz : GridEntry }.

(** The two counters of [classifyPointMultiAxis] after its three
    [if / else if] updates. *)
Definition countVotes (zCount xCount yCount : Z) : nat * nat :=
  let vote (c : Z) (acc : nat * nat) : nat * nat :=
    if (c =? 1)%Z then (S (fst acc), snd acc)
    else if (c =? 2)%Z then (fst acc, S (snd acc))
    else acc in
  vote yCount (vote xCount (vote zCount (0%nat, 0%nat))).

Definition classifyPointMultiAxis (point : Vertex) (otherTris : Soup)
  (grids : Grids) : Z :=
  let zCount := classifyPointOnAxis point otherTris (grid (xy grids))
                                    (cellSize (xy grids)) AxisZ in
  let xCount := classifyPointOnAxis point otherTris (grid (yz grids))
                                    (cellSize (yz grids)) AxisX in
  let yCount := classifyPointOnAxis point otherTris (grid (xz grids))
                                    (cellSize (xz grids)) AxisY in
  let '(insideVotes, outsideVotes) := countVotes zCount xCount yCount in
  if Nat.leb 2 insideVotes then 1%Z
  else if Nat.leb 1 outsideVotes then (-1)%Z
  else if Nat.eqb insideVotes 1 then 1%Z
  else (-1)%Z.

(** ** boolean/splitTriangles.js *)

Section SplitTriangles.

(** The two triangulation packages the splitter imports.
    [Delaunator coords] is [new Delaunator(coords).triangles], read
    three indices at a time, or [None] when the constructor throws.
    [Constrainautor delTris coords edges] is [del.triangles] after the
    [constrainOne] calls for [edges], each of which may fail and is
    then skipped by the source's [try / catch]. *)
Variable Delaunator : list (R * R) -> option (list (nat * nat * nat)).
Variable Constrainautor :
  list (nat * nat * nat) -> list (R * R) -> list (nat * nat) ->
  list (nat * nat * nat).

Definition pointKey (p : Vertex) : string := vKey p.

(** [seen[key]] and [keyToIndex[key]]: the latest write is in front. *)
Definition seenKey (key : string) (seen : list string) : bool :=
  existsb (String.eqb key) seen.

Fixpoint keyToIndexGet (m : list (string * nat)) (key : string) : option nat :=
  match m with
  | [] => None
  | (k, i) :: rest => if String.eqb k key then Some i else keyToIndexGet rest key
  end.

Record Frame : Type := mkFrame {
  lu : Vertex; lv : Vertex; lo : Vertex
}.

Definition toLocal (f : Frame) (p : Vertex) : R * R :=
  let dx := vx p - vx (lo f) in
  let dy := vy p - vy (lo f) in
  let dz := vz p - vz (lo f) in
  (dx * vx (lu f) + dy * vy (lu f) + dz * vz (lu f),
   dx * vx (lv f) + dy * vy (lv f) + dz * vz (lv f)).

Definition baryCoords (l0 l1 l2 : R * R) (baryD : R) (pu pv : R) : R * R * R :=
  let u := ((snd l1 - snd l2) * (pu - fst l2) + (fst l2 - fst l1) * (pv - snd l2))
           / baryD in
  let v := ((snd l2 - snd l0) * (pu - fst l2) + (fst l0 - fst l2) * (pv - snd l2))
           / baryD in
  (u, v, 1 - u - v).

Definition anyBelow (bc : R * R * R) (tol : R) : bool :=
  let '(u, v, w) := bc in Rltb u tol || Rltb v tol || Rltb w tol.

Definition BARY_TOL : R := -1e-4.
Definition MIN_AREA_RATIO : R := 1e-8.

(** Step 2: the Steiner points that survive, in order, with their
    keys.  The state is the pair ([seen], [validSteiner]). *)
Definition collectEndpoint (f : Frame) (l0 l1 l2 : R * R) (baryD : R)
  (st : list string * list (Vertex * string)) (p : Vertex)
  : list string * list (Vertex * string) :=
  let '(seen, validSteiner) := st in
  let key := pointKey p in
  if seenKey key seen then st
  else
    let seen' := key :: seen in
    let lp := toLocal f p in
    let bc := baryCoords l0 l1 l2 baryD (fst lp) (snd lp) in
    if anyBelow bc BARY_TOL then (seen', validSteiner)
    else (seen', validSteiner ++ [(mkV (vx p) (vy p) (vz p), key)]).

Definition collectSteiner (f : Frame) (l0 l1 l2 : R * R) (baryD : R)
  (tri : Triangle) (segments : list TaggedSegment) : list (Vertex * string) :=
  snd (fold_left
         (fun st seg =>
            collectEndpoint f l0 l1 l2 baryD
              (collectEndpoint f l0 l1 l2 baryD st (tp0 seg)) (tp1 seg))
         segments
         ([pointKey (v2 tri); pointKey (v1 tri); pointKey (v0 tri)], [])).

(** [keyToIndex] after the corners and the Steiner points are entered. *)
Definition buildKeyToIndex (tri : Triangle) (validSteiner : list (Vertex * string))
  : list (string * nat) :=
  fold_left (fun m entry => (snd (fst entry), snd entry) :: m)
            (combine validSteiner (seq 3 (List.length validSteiner)))
            [(pointKey (v2 tri), 2%nat); (pointKey (v1 tri), 1%nat);
             (pointKey (v0 tri), 0%nat)].

(** The edges handed to [constrainOne], in order. *)
Definition constraintEdges (keyToIndex : list (string * nat))
  (segments : list TaggedSegment) : list (nat * nat) :=
  flat_map (fun cSeg =>
              match keyToIndexGet keyToIndex (pointKey (tp0 cSeg)),
                    keyToIndexGet keyToIndex (pointKey (tp1 cSeg)) with
              | Some idx0, Some idx1 =>
                  if Nat.eqb idx0 idx1 then [] else [(idx0, idx1)]
              | _, _ => []
              end)
           segments.

(** Step 4 for one Delaunay triangle: [true] when it is pushed.  An
    index outside [coords] reads [undefined] in the source, every
    comparison with the resulting NaN is false and nothing is
    skipped. *)
Definition keepSubTriangle (l0 l1 l2 : R * R) (baryD triArea2D : R)
  (coords : list (R * R)) (abc : nat * nat * nat) : bool :=
  let '(a, b, c) := abc in
  match nth_error coords a, nth_error coords b, nth_error coords c with
  | Some (au, av), Some (bu, bv), Some (cu, cv) =>
      let cx := (au + bu + cu) / 3 in
      let cy := (av + bv + cv) / 3 in
      let cBary := baryCoords l0 l1 l2 baryD cx cy in
      if anyBelow cBary (-1e-6) then false else
      let subArea := Rabs ((bu - au) * (cv - av) - (cu - au) * (bv - av)) * 0.5 in
      if Rltb subArea (triArea2D * MIN_AREA_RATIO) then false else true
  | _, _, _ => true
  end.

(** Step 1: the local 2D frame on the triangle's plane, or [None]
    when one of the three lengths is below 1e-12. *)
Definition localFrame (tri : Triangle) : option Frame :=
  let e1x := vx (v1 tri) - vx (v0 tri) in
  let e1y := vy (v1 tri) - vy (v0 tri) in
  let e1z := vz (v1 tri) - vz (v0 tri) in
  let e2x := vx (v2 tri) - vx (v0 tri) in
  let e2y := vy (v2 tri) - vy (v0 tri) in
  let e2z := vz (v2 tri) - vz (v0 tri) in
  let e1Len := sqrt (e1x * e1x + e1y * e1y + e1z * e1z) in
  if Rltb e1Len 1e-12 then None else
  let lux := e1x / e1Len in
  let luy := e1y / e1Len in
  let luz := e1z / e1Len in
  let lnx := e1y * e2z - e1z * e2y in
  let lny := e1z * e2x - e1x * e2z in
  let lnz := e1x * e2y - e1y * e2x in
  let lnLen := sqrt (lnx * lnx + lny * lny + lnz * lnz) in
  if Rltb lnLen 1e-12 then None else
  let lvx := lny * luz - lnz * luy in
  let lvy := lnz * lux - lnx * luz in
  let lvz := lnx * luy - lny * lux in
  let lvLen := sqrt (lvx * lvx + lvy * lvy + lvz * lvz) in
  if Rltb lvLen 1e-12 then None else
  Some (mkFrame (mkV lux luy luz)
                (mkV (lvx / lvLen) (lvy / lvLen) (lvz / lvLen))
                (v0 tri)).

Definition baryDet (l0 l1 l2 : R * R) : R :=
  (snd l1 - snd l2) * (fst l0 - fst l2) + (fst l2 - fst l1) * (snd l0 - snd l2).

(** [pts]: the three corners, then the surviving Steiner points. *)
Definition splitPoints (tri : Triangle) (validSteiner : list (Vertex * string))
  : list Vertex :=
  [ copyVertex (v0 tri); copyVertex (v1 tri); copyVertex (v2 tri) ]
  ++ map fst validSteiner.

(** Step 4: the sub-triangles that pass the centroid and area filter. *)
Definition filteredSubTriangles (tri : Triangle) (l0 l1 l2 : R * R) (baryD : R)
  (pts : list Vertex) (coords : list (R * R))
  (delTris : list (nat * nat * nat)) : Soup :=
  map (fun abc : nat * nat * nat =>
         let '(a, b, c) := abc in
         mkT (nth a pts (v0 tri)) (nth b pts (v0 tri)) (nth c pts (v0 tri)))
      (filter (keepSubTriangle l0 l1 l2 baryD (Rabs baryD * 0.5) coords) delTris).

Definition retriangulateWithSteinerPoints (tri : Triangle)
  (segments : list TaggedSegment) : Soup :=
  match segments with
  | [] => [tri]
  | _ =>
  match localFrame tri with
  | None => [tri]
  | Some f =>
  let l0 := toLocal f (v0 tri) in
  let l1 := toLocal f (v1 tri) in
  let l2 := toLocal f (v2 tri) in
  let baryD := baryDet l0 l1 l2 in
  if Rltb (Rabs baryD) 1e-12 then [tri] else
  let validSteiner := collectSteiner f l0 l1 l2 baryD tri segments in
  match validSteiner with
  | [] => [tri]
  | _ =>
  let pts := splitPoints tri validSteiner in
  let keyToIndex := buildKeyToIndex tri validSteiner in
  let coords := map (toLocal f) pts in
  match Delaunator coords with
  | None => [tri]
  | Some del =>
      let delTris :=
        Constrainautor del coords (constraintEdges keyToIndex segments) in
      match filteredSubTriangles tri l0 l1 l2 baryD pts coords delTris with
      | [] => [tri]
      | result => result
      end
  end
  end
  end
  end.

End SplitTriangles.

(** ** repair/weldVertices.js *)

Record WeldedTriangle : Type := mkWelded { vertices : Vertex * Vertex * Vertex }.
Record WeldedMesh : Type :=
  mkWeldedMesh { points : list Vertex; triangles : list WeldedTriangle }.

Definition Grid3 : Type := list ((Z * Z * Z) * list nat).

Definition cell3Eqb (a b : Z * Z * Z) : bool :=
  (fst (fst a) =? fst (fst b))%Z && (snd (fst a) =? snd (fst b))%Z
  && (snd a =? snd b)%Z.

Fixpoint grid3Get (g : Grid3) (key : Z * Z * Z) : list nat :=
  match g with
  | [] => []
  | (k, cell) :: rest => if cell3Eqb k key then cell else grid3Get rest key
  end.

Fixpoint grid3Push (g : Grid3) (key : Z * Z * Z) (i : nat) : Grid3 :=
  match g with
  | [] => [(key, [i])]
  | (k, cell) :: rest =>
      if cell3Eqb k key then (k, cell ++ [i]) :: rest
      else (k, cell) :: grid3Push rest key i
  end.

(** The 27 cells around [(gx, gy, gz)] in the order of the three nested
    loops [dx, dy, dz = -1 .. 1]. *)
Definition around (gx gy gz : Z) : list (Z * Z * Z) :=
  flat_map (fun dx =>
    flat_map (fun dy =>
      map (fun dz => ((gx + dx)%Z, (gy + dy)%Z, (gz + dz)%Z)) [(-1)%Z; 0%Z; 1%Z])
      [(-1)%Z; 0%Z; 1%Z])
    [(-1)%Z; 0%Z; 1%Z].

Definition withinTol (pts : list Vertex) (v : Vertex) (tolSq : R) (c : nat) : bool :=
  match nth_error pts c with
  | Some p =>
      let ddx := vx p - vx v in
      let ddy := vy p - vy v in
      let ddz := vz p - vz v in
      Rleb (ddx * ddx + ddy * ddy + ddz * ddz) tolSq
  | None => false
  end.

(** [getOrAddPoint]: the state is the pool [points] and the 3D hash. *)
Definition getOrAddPoint (cellSz tolSq : R) (st : list Vertex * Grid3) (v : Vertex)
  : (list Vertex * Grid3) * nat :=
  let '(pts, g) := st in
  let gx := Zfloor (vx v / cellSz) in
  let gy := Zfloor (vy v / cellSz) in
  let gz := Zfloor (vz v / cellSz) in
  match find (withinTol pts v tolSq)
             (flat_map (grid3Get g) (around gx gy gz)) with
  | Some c => (st, c)
  | None =>
      let idx := List.length pts in
      ((pts ++ [copyVertex v], grid3Push g (gx, gy, gz) idx), idx)
  end.

(** The main loop of [weldVertices] for a positive tolerance: the pool
    after the loop and, for every input triangle in order, the three
    pool indices its vertices were mapped to. *)
Fixpoint weldLoop (cellSz tolSq : R) (st : list Vertex * Grid3) (tris : Soup)
  : (list Vertex * Grid3) * list (nat * nat * nat) :=
  match tris with
  | [] => (st, [])
  | tri2 :: rest =>
      let '(st0, i0) := getOrAddPoint cellSz tolSq st (v0 tri2) in
      let '(st1, i1) := getOrAddPoint cellSz tolSq st0 (v1 tri2) in
      let '(st2, i22) := getOrAddPoint cellSz tolSq st1 (v2 tri2) in
      let '(stEnd, idxs) := weldLoop cellSz tolSq st2 rest in
      (stEnd, (i0, i1, i22) :: idxs)
  end.

(** [if (i0 === i1 || i1 === i22 || i0 === i22) continue;] *)
Definition collapsed (t : nat * nat * nat) : bool :=
  let '(i0, i1, i22) := t in
  Nat.eqb i0 i1 || Nat.eqb i1 i22 || Nat.eqb i0 i22.

Definition indexedTriangle (pts : list Vertex) (t : nat * nat * nat)
  : WeldedTriangle :=
  let '(i0, i1, i22) := t in
  let o := mkV 0 0 0 in
  mkWelded (copyVertex (nth i0 pts o), copyVertex (nth i1 pts o),
            copyVertex (nth i22 pts o)).

Definition weldVertices (tris : Soup) (tolerance : R) : WeldedMesh :=
  if Rleb tolerance 0 then
    mkWeldedMesh
      (flat_map (fun tri => [copyVertex (v0 tri); copyVertex (v1 tri);
                             copyVertex (v2 tri)]) tris)
      (map (fun tri => mkWelded (copyVertex (v0 tri), copyVertex (v1 tri),
                                 copyVertex (v2 tri))) tris)
  else
    let cellSz := Rmax (tolerance * 2) 0.002 in
    let tolSq := tolerance * tolerance in
    let '((pts, _), idxs) := weldLoop cellSz tolSq ([], []) tris in
    mkWeldedMesh pts
      (map (indexedTriangle pts) (filter (fun t => negb (collapsed t)) idxs)).

(** ** repair/deduplicateVertices.js *)

(** The state of [findOrRegister]: the canonical vertices (an object of
    the source is its position in this list, so [===] on two of them is
    equality of positions) and the 3D hash of their indices. *)
Definition DedupState : Type := (list Vertex * Grid3)%type.

(** The scan of the buckets: the best candidate so far and its squared
    distance, replaced only by a strictly closer one. *)
Definition closer (canonical : list Vertex) (v : Vertex)
  (best : R * option nat) (c : nat) : R * option nat :=
  match nth_error canonical c with
  | Some cv =>
      let ddx := vx cv - vx v in
      let ddy := vy cv - vy v in
      let ddz := vz cv - vz v in
      let dSq := ddx * ddx + ddy * ddy + ddz * ddz in
      if Rltb dSq (fst best) then (dSq, Some c) else best
  | None => best
  end.

Definition findOrRegister (tolerance invCell : R) (st : DedupState) (v : Vertex)
  : DedupState * nat :=
  let '(canonical, g) := st in
  let cx := Zfloor (vx v * invCell) in
  let cy := Zfloor (vy v * invCell) in
  let cz := Zfloor (vz v * invCell) in
  let tolSq := tolerance * tolerance in
  match snd (fold_left (closer canonical v)
                       (flat_map (grid3Get g) (around cx cy cz))
                       (tolSq, None)) with
  | Some c => (st, c)
  | None =>
      let idx := List.length canonical in
      ((canonical ++ [copyVertex v], grid3Push g (cx, cy, cz) idx), idx)
  end.

Fixpoint dedupLoop (tolerance invCell : R) (st : DedupState) (tris : Soup)
  : DedupState * list (nat * nat * nat) :=
  match tris with
  | [] => (st, [])
  | tri :: rest =>
      let '(st0, cv0) := findOrRegister tolerance invCell st (v0 tri) in
      let '(st1, cv1) := findOrRegister tolerance invCell st0 (v1 tri) in
      let '(st2, cv2) := findOrRegister tolerance invCell st1 (v2 tri) in
      let '(stEnd, idxs) := dedupLoop tolerance invCell st2 rest in
      (stEnd, (cv0, cv1, cv2) :: idxs)
  end.

Definition deduplicateSeamVertices (tris : Soup) (tolerance : R) : Soup :=
  match tris with
  | [] => tris
  | _ =>
      let cellSz := tolerance * 3 in
      let invCell := 1 / cellSz in
      let '((canonical, _), idxs) := dedupLoop tolerance invCell ([], []) tris in
      let o := mkV 0 0 0 in
      map (fun t : nat * nat * nat =>
             let '(cv0, cv1, cv2) := t in
             mkT (nth cv0 canonical o) (nth cv1 canonical o) (nth cv2 canonical o))
          (filter (fun t => negb (collapsed t)) idxs)
  end.

(** ** normals/alignNormals.js *)

Definition flipTriangle (t : Triangle) : Triangle :=
  mkT (copyVertex (v0 t)) (copyVertex (v2 t)) (copyVertex (v1 t)).

Definition copyTriangle (t : Triangle) : Triangle :=
  mkT (copyVertex (v0 t)) (copyVertex (v1 t)) (copyVertex (v2 t)).

Definition ensureZUpNormals (tris : Soup) : Soup :=
  map (fun tri =>
         let n := triNormal (copyTriangle tri) in
         if Rltb (vz n) (-0.01) then flipTriangle tri else copyTriangle tri)
      tris.

(** ** boolean/booleanOp.js: winding propagation *)

Record HalfEdge : Type := mkHalfEdge { triIdx : nat; from : string; to : string }.

(** [edgeToTris]: sorted edge key to the half-edges on it, in insertion
    order, which is also the order of [for (var ek in edgeToTris)]. *)
Definition EdgeMap : Type := list (string * list HalfEdge).

Fixpoint edgeMapPush (m : EdgeMap) (key : string) (h : HalfEdge) : EdgeMap :=
  match m with
  | [] => [(key, [h])]
  | (k, hs) :: rest =>
      if String.eqb k key then (k, hs ++ [h]) :: rest
      else (k, hs) :: edgeMapPush rest key h
  end.

Definition TriKeys : Type := (string * string * string)%type.

Definition triKeys (tri : Triangle) : TriKeys :=
  (vk (v0 tri), vk (v1 tri), vk (v2 tri)).

(** The three directed half-edges of triangle [i]. *)
Definition halfEdges (i : nat) (ks : TriKeys) : list HalfEdge :=
  let '(k0, k1, k2) := ks in
  [mkHalfEdge i k0 k1; mkHalfEdge i k1 k2; mkHalfEdge i k2 k0].

Definition sortedKey (h : HalfEdge) : string := edgeKey (from h) (to h).

Fixpoint buildEdgeToTrisFrom (m : EdgeMap) (i : nat) (keys : list TriKeys)
  : EdgeMap :=
  match keys with
  | [] => m
  | ks :: rest =>
      buildEdgeToTrisFrom
        (fold_left (fun m' h => edgeMapPush m' (sortedKey h) h) (halfEdges i ks) m)
        (S i) rest
  end.

Definition buildEdgeToTris (keys : list TriKeys) : EdgeMap :=
  buildEdgeToTrisFrom [] 0%nat keys.

Definition isManifold (m : EdgeMap) : bool :=
  forallb (fun e : string * list HalfEdge => Nat.eqb (List.length (snd e)) 2) m.

Record Neighbor : Type := mkNeighbor { neighbor : nat; sameDirection : bool }.

(** [arr[i].push(x)] on an array of arrays. *)
Fixpoint pushAt {A : Type} (arr : list (list A)) (i : nat) (x : A)
  : list (list A) :=
  match arr, i with
  | [], _ => []
  | l :: rest, O => (l ++ [x]) :: rest
  | l :: rest, S i' => l :: pushAt rest i' x
  end.

Definition addPair (nbrs : list (list Neighbor)) (e : string * list HalfEdge)
  : list (list Neighbor) :=
  match snd e with
  | [t0; t1] =>
      let same := String.eqb (from t0) (from t1) in
      pushAt (pushAt nbrs (triIdx t0) (mkNeighbor (triIdx t1) same))
             (triIdx t1) (mkNeighbor (triIdx t0) same)
  | _ => nbrs
  end.

Definition buildNeighbors (n : nat) (m : EdgeMap) : list (list Neighbor) :=
  fold_left addPair m (repeat [] n).

(** [arr[i] = b] on a typed array of fixed length. *)
Fixpoint setAt (arr : list bool) (i : nat) (b : bool) : list bool :=
  match arr, i with
  | [], _ => []
  | _ :: rest, O => b :: rest
  | a :: rest, S i' => a :: setAt rest i' b
  end.

Definition getAt (arr : list bool) (i : nat) : bool := nth i arr false.

(** The state of the BFS: the part of [queue] from [head] on, and the
    two byte arrays. *)
Record Bfs : Type := mkBfs {
  pending : list nat; visited : list bool; flipped : list bool
}.

(** The body of the [for] loop over the neighbours of [cur]. *)
Definition visitNeighbor (cur : nat) (st : Bfs) (nb : Neighbor) : Bfs :=
  if getAt (visited st) (neighbor nb) then st
  else
    let curFlipped := getAt (flipped st) cur in
    mkBfs (pending st ++ [neighbor nb])
          (setAt (visited st) (neighbor nb) true)
          (setAt (flipped st) (neighbor nb)
                 (if sameDirection nb then negb curFlipped else curFlipped)).

(** [while (head < queue.length)], run for at most [fuel] dequeues;
    [bfs_drains] shows that one dequeue per triangle is enough. *)
Fixpoint bfsLoop (nbrs : list (list Neighbor)) (fuel : nat) (st : Bfs) : Bfs :=
  match fuel with
  | O => st
  | S fuel' =>
      match pending st with
      | [] => st
      | cur :: rest =>
          bfsLoop nbrs fuel'
            (fold_left (visitNeighbor cur) (nth cur nbrs [])
                       (mkBfs rest (visited st) (flipped st)))
      end
  end.

Definition bfsStart (n : nat) : Bfs :=
  mkBfs [0%nat] (setAt (repeat false n) 0 true) (repeat false n).

Definition computeFlips (keys : list TriKeys) : option (list bool) :=
  let m := buildEdgeToTris keys in
  if isManifold m then
    let n := List.length keys in
    Some (flipped (bfsLoop (buildNeighbors n m) n (bfsStart n)))
  else None.

Definition applyFlips (tris : Soup) (fl : list bool) : Soup :=
  map (fun p : Triangle * bool =>
         if snd p then flipTriangle (fst p) else copyTriangle (fst p))
      (combine tris fl).

Definition propagateNormals (tris : Soup) : Soup :=
  match tris with
  | [] => tris
  | _ =>
      match computeFlips (map triKeys tris) with
      | None => ensureZUpNormals tris
      | Some fl => applyFlips tris fl
      end
  end.

Definition flipSoup (tris : Soup) : Soup := map flipTriangle tris.

(** ** boolean/booleanOp.js: the data of the entry point *)

Inductive Operation : Type := Subtract | Union | Intersect.

Record BooleanResult : Type := mkResult {
  soup : Soup; rpoints : list Vertex; rtriangles : list WeldedTriangle
}.

Record Groups : Type := mkGroups { inside : Soup; outside : Soup }.

(** [crossedSetA] / [crossedSetB]: triangle index to the tagged segments
    on that triangle. *)
Definition CrossedSet : Type := list (nat * list TaggedSegment).

Fixpoint crossedPush (m : CrossedSet) (i : nat) (seg : TaggedSegment)
  : CrossedSet :=
  match m with
  | [] => [(i, [seg])]
  | (k, segs) :: rest =>
      if Nat.eqb k i then (k, segs ++ [seg]) :: rest
      else (k, segs) :: crossedPush rest i seg
  end.

Definition buildCrossedSet (tag : TaggedSegment -> nat)
  (taggedSegments : list TaggedSegment) : CrossedSet :=
  fold_left (fun m seg => crossedPush m (tag seg) seg) taggedSegments [].

(** * Vocabulary of the properties *)

(** The votes of the three axes as the specification counts them. *)
Definition axisVotes (point : Vertex) (otherTris : Soup) (grids : Grids) : list Z :=
  [ classifyPointOnAxis point otherTris (grid (xy grids)) (cellSize (xy grids)) AxisZ;
    classifyPointOnAxis point otherTris (grid (yz grids)) (cellSize (yz grids)) AxisX;
    classifyPointOnAxis point otherTris (grid (xz grids)) (cellSize (xz grids)) AxisY ].

Definition insideAxes (votes : list Z) : nat := count_occ Z.eq_dec votes 1%Z.
Definition outsideAxes (votes : list Z) : nat := count_occ Z.eq_dec votes 2%Z.
Definition axesWithHits (votes : list Z) : nat :=
  List.length (filter (fun c => negb (c =? 0)%Z) votes).


(** Triangle [j] is binned in cell [key] of the grid. *)
Definition binned (g : Grid) (key : Z * Z) (j : nat) : Prop :=
  exists cell, gridGet g key = Some cell /\ In j cell.

(** [bboxOverlap] restricted to the two axes the grid is built on. *)
Definition bboxOverlapXY (a b : BBox) : bool :=
  Rleb (minX a) (maxX b) && Rgeb (maxX a) (minX b) &&
  Rleb (minY a) (maxY b) && Rgeb (maxY a) (minY b).

(** The pair of source indices a tagged segment carries. *)
Definition tags (seg : TaggedSegment) : nat * nat := (idxA seg, idxB seg).

Definition tagsEqb (t : nat * nat) (seg : TaggedSegment) : bool :=
  Nat.eqb (idxA seg) (fst t) && Nat.eqb (idxB seg) (snd t).

(** The same segment seen from the other mesh: endpoints and tags
    exchanged. *)
Definition swapSegment (s : Segment) : Segment := mkSeg (p1 s) (p0 s).
Definition swapTagged (seg : TaggedSegment) : TaggedSegment :=
  mkTagged (tp1 seg) (tp0 seg) (idxB seg) (idxA seg).

(** What [triTriIntersection] and [triTriIntersectionDetailed] share:
    everything up to and including the test on the clipped overlap. *)
Record Overlap : Type := mkOverlap {
  distA : R * R * R;
  distB : R * R * R;
  oLineDir : Vertex;
  oLinePoint : Vertex;
  overlapMin : R;
  overlapMax : R
}.

Definition clippedOverlap (triA triB : Triangle) : option Overlap :=
  let nB := triNormal triB in
  let dB := - (vx nB * vx (v0 triB) + vy nB * vy (v0 triB) + vz nB * vz (v0 triB)) in
  let dA0 := vx nB * vx (v0 triA) + vy nB * vy (v0 triA) + vz nB * vz (v0 triA) + dB in
  let dA1 := vx nB * vx (v1 triA) + vy nB * vy (v1 triA) + vz nB * vz (v1 triA) + dB in
  let dA2 := vx nB * vx (v2 triA) + vy nB * vy (v2 triA) + vz nB * vz (v2 triA) + dB in
  if allPositive dA0 dA1 dA2 then None else
  if allNegative dA0 dA1 dA2 then None else
  let nA := triNormal triA in
  let dA := - (vx nA * vx (v0 triA) + vy nA * vy (v0 triA) + vz nA * vz (v0 triA)) in
  let dB0 := vx nA * vx (v0 triB) + vy nA * vy (v0 triB) + vz nA * vz (v0 triB) + dA in
  let dB1 := vx nA * vx (v1 triB) + vy nA * vy (v1 triB) + vz nA * vz (v1 triB) + dA in
  let dB2 := vx nA * vx (v2 triB) + vy nA * vy (v2 triB) + vz nA * vz (v2 triB) + dA in
  if allPositive dB0 dB1 dB2 then None else
  if allNegative dB0 dB1 dB2 then None else
  let dotN := vx nA * vx nB + vy nA * vy nB + vz nA * vz nB in
  if Rgtb (Rabs dotN) 0.9999 then None else
  let lineDir0 := cross nA nB in
  let lineDirLen :=
    sqrt (vx lineDir0 * vx lineDir0 + vy lineDir0 * vy lineDir0
          + vz lineDir0 * vz lineDir0) in
  if Rltb lineDirLen 1e-12 then None else
  let lineDir := mkV (vx lineDir0 / lineDirLen) (vy lineDir0 / lineDirLen)
                     (vz lineDir0 / lineDirLen) in
  match findLinePoint nA dA nB dB lineDir with
  | None => None
  | Some linePoint =>
  match computeTriInterval triA lineDir linePoint dA0 dA1 dA2 with
  | None => None
  | Some intervalA =>
  match computeTriInterval triB lineDir linePoint dB0 dB1 dB2 with
  | None => None
  | Some intervalB =>
      let overlapMin := Rmax (imin intervalA) (imin intervalB) in
      let overlapMax := Rmin (imax intervalA) (imax intervalB) in
      if Rgeb overlapMin (overlapMax - 1e-10) then None
      else Some (mkOverlap (dA0, dA1, dA2) (dB0, dB1, dB2) lineDir linePoint
                           overlapMin overlapMax)
  end end end.

(** The endpoint at parameter [t] on the intersection line. *)
Definition pointAt (o : Overlap) (t : R) : Vertex :=
  mkV (vx (oLinePoint o) + vx (oLineDir o) * t)
      (vy (oLinePoint o) + vy (oLineDir o) * t)
      (vz (oLinePoint o) + vz (oLineDir o) * t).

(** The opposite vector, the interval seen along the opposite
    direction, and the overlap of a pair seen from the other triangle. *)
Definition neg (v : Vertex) : Vertex := mkV (- vx v) (- vy v) (- vz v).

Definition negInterval (i : Interval) : Interval :=
  mkInterval (- imax i) (- imin i).

Definition swapOverlap (o : Overlap) : Overlap :=
  mkOverlap (distB o) (distA o) (neg (oLineDir o)) (oLinePoint o)
            (- overlapMax o) (- overlapMin o).

(** [m] is the least (greatest) element of [l]. *)
Definition isMin (m : R) (l : list R) : Prop := In m l /\ forall x, In x l -> m <= x.
Definition isMax (m : R) (l : list R) : Prop := In m l /\ forall x, In x l -> x <= m.

(** *** Winding *)

(** Two half-edges on one edge run in opposite directions. *)
Definition opposite (h0 h1 : HalfEdge) : Prop :=
  from h0 = to h1 /\ to h0 = from h1.

(** The keys of a triangle after [applyFlips]: [v1] and [v2] exchanged
    when its flag is set. *)
Definition flipKeys (ks : TriKeys) (b : bool) : TriKeys :=
  let '(k0, k1, k2) := ks in if b then (k0, k2, k1) else ks.

Definition flippedKeys (keys : list TriKeys) (fl : list bool) : list TriKeys :=
  map (fun p : TriKeys * bool => flipKeys (fst p) (snd p)) (combine keys fl).

(** Every edge with exactly two half-edges, the first of which belongs
    to a triangle in [P], is traversed in opposite directions. *)
Definition consistentOn (P : nat -> Prop) (keys : list TriKeys) : Prop :=
  forall ek h0 h1, In (ek, [h0; h1]) (buildEdgeToTris keys) ->
                   P (triIdx h0) -> opposite h0 h1.

(** Triangles [i] and [j] share an edge that has exactly two half-edges. *)
Definition adjacent (keys : list TriKeys) (i j : nat) : Prop :=
  exists ek t0 t1, In (ek, [t0; t1]) (buildEdgeToTris keys) /\
    ((triIdx t0 = i /\ triIdx t1 = j) \/ (triIdx t0 = j /\ triIdx t1 = i)).

(** Reachable from triangle 0 across shared edges. *)
Inductive reachable (keys : list TriKeys) : nat -> Prop :=
  | reach_seed : reachable keys 0
  | reach_step : forall i j, reachable keys i -> adjacent keys i j ->
                             reachable keys j.

Definition distinctKeys (ks : TriKeys) : Prop :=
  let '(k0, k1, k2) := ks in k0 <> k1 /\ k1 <> k2 /\ k2 <> k0.

(** Some choice of flips makes every shared edge consistent. *)
Definition orientable (keys : list TriKeys) : Prop :=
  exists sigma : list bool,
    List.length sigma = List.length keys /\
    consistentOn (fun _ => True) (flippedKeys keys sigma).

(** All directed half-edges of the group, triangle by triangle. *)
Fixpoint allHalfEdgesFrom (i : nat) (keys : list TriKeys) : list HalfEdge :=
  match keys with
  | [] => []
  | ks :: rest => halfEdges i ks ++ allHalfEdgesFrom (S i) rest
  end.

Definition onEdge (ek : string) (h : HalfEdge) : bool := String.eqb (sortedKey h) ek.

Fixpoint edgeMapGet (m : EdgeMap) (key : string) : list HalfEdge :=
  match m with
  | [] => []
  | (k, hs) :: rest => if String.eqb k key then hs else edgeMapGet rest key
  end.

(** An edge map as the source builds it: every key once, no empty
    bucket. *)
Definition wellFormedMap (m : EdgeMap) : Prop :=
  NoDup (map fst m) /\ forall k hs, In (k, hs) m -> hs <> [].

(** The half-edge of the same triangle on the same edge after that
    triangle is flipped. *)
Definition reverseHalf (h : HalfEdge) : HalfEdge :=
  mkHalfEdge (triIdx h) (to h) (from h).

Definition flipHalf (fl : list bool) (h : HalfEdge) : HalfEdge :=
  if getAt fl (triIdx h) then reverseHalf h else h.

(** What an entry of the neighbour list of triangle [i] stands for. *)
Definition neighbourOf (m : EdgeMap) (i : nat) (nb : Neighbor) : Prop :=
  exists ek t0 t1, In (ek, [t0; t1]) m /\
    sameDirection nb = String.eqb (from t0) (from t1) /\
    ((triIdx t0 = i /\ neighbor nb = triIdx t1) \/
     (triIdx t1 = i /\ neighbor nb = triIdx t0)).

Definition countTrue (l : list bool) : nat := List.length (filter (fun b => b) l).

(** Triangle [v] of the group has three distinct vertex keys. *)
Definition regularAt (keys : list TriKeys) (v : nat) : Prop :=
  exists ks, nth_error keys v = Some ks /\ distinctKeys ks.

(** The invariant of the BFS loop, relative to a reference orientation
    [sigma] and a set [good] of triangles closed under adjacency:
    queued triangles are visited; a visited triangle that left the
    queue has all its neighbours visited; the flip flag of a visited
    triangle is its flag in [sigma], up to the flag of the seed; only
    good triangles are visited; and the fuel covers the triangles still
    to dequeue. *)
Definition bfsInvariant (n : nat) (nbrs : list (list Neighbor))
  (sigma : list bool) (good : nat -> Prop) (fuel : nat) (st : Bfs) : Prop :=
  List.length (visited st) = n /\ List.length (flipped st) = n /\
  (forall v, In v (pending st) -> (v < n)%nat /\ getAt (visited st) v = true) /\
  getAt (visited st) 0 = true /\
  (forall v, getAt (visited st) v = true -> ~ In v (pending st) ->
     forall nb, In nb (nth v nbrs []) -> getAt (visited st) (neighbor nb) = true) /\
  (forall v, getAt (visited st) v = true ->
     getAt (flipped st) v = xorb (getAt sigma v) (getAt sigma 0)) /\
  (forall v, getAt (visited st) v = true -> good v) /\
  (n - countTrue (visited st) + List.length (pending st) <= fuel)%nat.

Section SplitVocabulary.

Variable Delaunator : list (R * R) -> option (list (nat * nat * nat)).
Variable Constrainautor :
  list (nat * nat * nat) -> list (R * R) -> list (nat * nat) ->
  list (nat * nat * nat).

(** The ways a split can fail: no local frame (a length below 1e-12),
    a barycentric determinant below 1e-12 in absolute value, no
    Steiner endpoint left, a Delaunay failure, or no sub-triangle left
    by the centroid and area filter. *)
Definition SplitFails (tri : Triangle) (segments : list TaggedSegment) : Prop :=
  localFrame tri = None \/
  exists f, localFrame tri = Some f /\
    let l0 := toLocal f (v0 tri) in
    let l1 := toLocal f (v1 tri) in
    let l2 := toLocal f (v2 tri) in
    let baryD := baryDet l0 l1 l2 in
    let validSteiner := collectSteiner f l0 l1 l2 baryD tri segments in
    let pts := splitPoints tri validSteiner in
    let coords := map (toLocal f) pts in
    Rabs baryD < 1e-12 \/
    validSteiner = [] \/
    Delaunator coords = None \/
    exists del, Delaunator coords = Some del /\
      filteredSubTriangles tri l0 l1 l2 baryD pts coords
        (Constrainautor del coords
           (constraintEdges (buildKeyToIndex tri validSteiner) segments)) = [].

End SplitVocabulary.

(** The pool indices [weldVertices] assigns to the vertices of each
    input triangle, for a positive tolerance. *)
Definition weldIndices (tris : Soup) (tolerance : R) : list (nat * nat * nat) :=
  snd (weldLoop (Rmax (tolerance * 2) 0.002) (tolerance * tolerance) ([], []) tris).

Definition pairwiseDistinct (t : nat * nat * nat) : Prop :=
  let '(i0, i1, i22) := t in i0 <> i1 /\ i1 <> i22 /\ i0 <> i22.

(** ** Example inputs *)

(** Two far-apart 3-4-5 triangles. *)
Definition farA : Soup := [mkT (mkV 100 0 0) (mkV 103 0 0) (mkV 100 4 0)].
Definition farB : Soup := [mkT (mkV 0 0 0) (mkV 3 0 0) (mkV 0 4 0)].

(** A triangle with two coincident corners, crossed by one segment. *)
Definition needle : Triangle := mkT (mkV 0 0 0) (mkV 0 0 0) (mkV 1 0 0).
Definition needleSegment : TaggedSegment :=
  mkTagged (mkV 0 0 0) (mkV 1 0 0) 0 0.

(** Triangulation packages that always fail / leave the input alone. *)
Definition delaunatorFails (_ : list (R * R)) : option (list (nat * nat * nat)) :=
  None.
Definition constrainNothing (del : list (nat * nat * nat)) (_ : list (R * R))
  (_ : list (nat * nat)) : list (nat * nat * nat) := del.

(** Scenario 7 of the specification: a horizontal triangle pierced by
    a vertical one. *)
Definition flatTri : Triangle := mkT (mkV 0 0 0) (mkV 2 0 0) (mkV 1 2 0).
Definition uprightTri : Triangle := mkT (mkV 1 1 (-1)) (mkV 1 1 1) (mkV 1 (-1) 0).

(** A sloping triangle that ends just short of x = 0.2 and a triangle
    of edge length about 2e-8 in the plane x = 0.2, one nanometre-scale
    step further.  The cross product of the small one is shorter than
    1e-15, so [triNormal] answers with its fallback (0, 0, 1). *)
Definition skewTri : Triangle :=
  mkT (mkV 0.199999999 (-1) 0) (mkV 0.199999999 1 0) (mkV (-1.000000001) 1 0.9).
Definition tinyTri : Triangle :=
  mkT (mkV 0.2 0 0) (mkV 0.2 2e-8 0) (mkV 0.2 1e-8 (-2e-8)).

(** What the intersector computes for that pair before its last test. *)
Definition skewTinyOverlap : Overlap :=
  mkOverlap (0, 0, 0.9) (6e-10, 6e-10, -1.54e-8)
            (mkV 0 (-1) 0) (mkV 0.199999999 0 0)
            (-1.9625e-8) (-3.75e-10).

(** The segment [triTriIntersection] returns for the sloping and the
    small triangle. *)
Definition skewTinySegment : Segment :=
  mkSeg (mkV 0.199999999 1.9625e-8 0) (mkV 0.199999999 3.75e-10 0).

(** Soups with integer coordinates, and their vertex keys computed on
    the integers. *)
Definition ZPoint : Type := (Z * Z * Z)%type.
Definition ZTriangle : Type := (ZPoint * ZPoint * ZPoint)%type.

Definition vertexOfZ (p : ZPoint) : Vertex :=
  let '(a, b, c) := p in mkV (IZR a) (IZR b) (IZR c).

Definition triangleOfZ (t : ZTriangle) : Triangle :=
  let '(a, b, c) := t in mkT (vertexOfZ a) (vertexOfZ b) (vertexOfZ c).

Definition toFixed6Z (z : Z) : string :=
  if (z <? 0)%Z then ("-" ++ toFixedDigits (Z.abs z * 1000000))%string
  else toFixedDigits (Z.abs z * 1000000).

Definition vKeyZ (p : ZPoint) : string :=
  let '(a, b, c) := p in
  (toFixed6Z a ++ "," ++ toFixed6Z b ++ "," ++ toFixed6Z c)%string.

Definition triKeysZ (t : ZTriangle) : TriKeys :=
  let '(a, b, c) := t in (vKeyZ a, vKeyZ b, vKeyZ c).

(** A tetrahedron with its corner at [(x, 0, 0)], wound consistently,
    and the same with its last face inverted. *)
Definition tetrahedronZ (x : Z) : list ZTriangle :=
  let a0 := (x, 0, 0)%Z in
  let a1 := (x + 1, 0, 0)%Z in
  let a2 := (x, 1, 0)%Z in
  let a3 := (x, 0, 1)%Z in
  [ (a0, a2, a1); (a0, a1, a3); (a0, a3, a2); (a1, a2, a3) ].

Definition dentedTetrahedronZ (x : Z) : list ZTriangle :=
  let a0 := (x, 0, 0)%Z in
  let a1 := (x + 1, 0, 0)%Z in
  let a2 := (x, 1, 0)%Z in
  let a3 := (x, 0, 1)%Z in
  [ (a0, a2, a1); (a0, a1, a3); (a0, a3, a2); (a1, a3, a2) ].

Definition dentedTetrahedron : Soup := map triangleOfZ (dentedTetrahedronZ 0).

(** A consistent tetrahedron followed by a second, separate one whose
    last face is inverted. *)
Definition twoTetrahedraZ : list ZTriangle :=
  tetrahedronZ 0 ++ dentedTetrahedronZ 5.
Definition twoTetrahedra : Soup := map triangleOfZ twoTetrahedraZ.

(** The edge of the second tetrahedron between its corners (5, 1, 0)
    and (6, 0, 0), as the first and the last face of that tetrahedron
    traverse it. *)
Definition dentKey : string :=
  "5.000000,1.000000,0.000000|6.000000,0.000000,0.000000".
Definition dentFirst : HalfEdge :=
  mkHalfEdge 4 "5.000000,1.000000,0.000000" "6.000000,0.000000,0.000000".
Definition dentLast : HalfEdge :=
  mkHalfEdge 7 "5.000000,1.000000,0.000000" "6.000000,0.000000,0.000000".

(** What the intersector computes for the pierced triangle of
    scenario 7: the overlap before the last test, and the segment. *)
Definition pierceOverlap : Overlap :=
  mkOverlap (-1, 1, 0) (-1, 1, 0) (mkV 0 1 0) (mkV 1 0 0) 0 1.
Definition pierceSegment : Segment := mkSeg (mkV 1 0 0) (mkV 1 1 0).
Definition pierceTagged : TaggedSegment := mkTagged (mkV 1 0 0) (mkV 1 1 0) 0 0.


(** The six-vertex triangulation of the projective plane: ten
    triangles on six points, every one of the fifteen edges in exactly
    two triangles, and no consistent orientation. *)
Definition projectivePlaneZ : list ZTriangle :=
  let q0 := (0, 0, 0)%Z in
  let q1 := (1, 0, 0)%Z in
  let q2 := (0, 1, 0)%Z in
  let q3 := (0, 0, 1)%Z in
  let q4 := (1, 1, 0)%Z in
  let q5 := (1, 0, 1)%Z in
  [ (q0, q1, q2); (q0, q2, q3); (q0, q3, q4); (q0, q4, q5); (q0, q5, q1);
    (q1, q2, q4); (q2, q3, q5); (q3, q4, q1); (q4, q5, q2); (q5, q1, q3) ].
Definition projectivePlane : Soup := map triangleOfZ projectivePlaneZ.

(** The edge between (0, 0, 1) and (1, 1, 0), as triangles 2 and 7 of
    the emitted projective plane traverse it. *)
Definition crossKey : string :=
  "0.000000,0.000000,1.000000|1.000000,1.000000,0.000000".
Definition crossFirst : HalfEdge :=
  mkHalfEdge 2 "0.000000,0.000000,1.000000" "1.000000,1.000000,0.000000".
Definition crossLast : HalfEdge :=
  mkHalfEdge 7 "0.000000,0.000000,1.000000" "1.000000,1.000000,0.000000".

(** * Further functions of the library *)

(** ** intersect/intersectMeshPair.js: the untagged intersector *)

(** The inner loop of [intersectMeshPair] over the candidates of one
    triangle of mesh A.  (A candidate index outside [trisB] would make
    the source throw; the grid built from [trisB] holds none.) *)
Definition plainSegments (trisB : Soup) (triA : Triangle) (candidates : list nat)
  : list Segment :=
  flat_map (fun c =>
              match nth_error trisB c with
              | None => []
              | Some triB =>
                  match triTriIntersection triA triB with
                  | None => []
                  | Some seg => [seg]
                  end
              end)
           candidates.

Definition intersectMeshPair (trisA trisB : Soup) : list Segment :=
  let avgEdge := estimateAvgEdge trisB in
  let cellSize := Rmax (avgEdge * 2) 0.1 in
  let gridB := buildSpatialGrid trisB cellSize in
  flat_map (fun triA => plainSegments trisB triA (queryGrid gridB (triBBox triA) cellSize))
           trisA.

(** [{ p0: seg.p0, p1: seg.p1 }], a tagged segment without its tags. *)
Definition untag (seg : TaggedSegment) : Segment := mkSeg (tp0 seg) (tp1 seg).

(** ** Vocabulary of the further properties *)

(** The record of [triTriIntersectionDetailed] seen from the other
    triangle. *)
Definition swapDetailed (d : Detailed) : Detailed :=
  mkDetailed (dB_ d) (dA_ d) (segLen d).

(** The signed distance of [p] to the plane of [tri], along the normal
    [triNormal] gives it. *)
Definition planeDistance (tri : Triangle) (p : Vertex) : R :=
  dot (triNormal tri) p - dot (triNormal tri) (v0 tri).

(** The crossing parameters [computeTriInterval] collects before it
    sorts them. *)
Definition crossingParams (tri : Triangle) (lineDir linePoint : Vertex)
  (d0 d1 d2 : R) : list R :=
  edgeParams (v0 tri) (v1 tri) lineDir linePoint d0 d1 ++
  edgeParams (v1 tri) (v2 tri) lineDir linePoint d1 d2 ++
  edgeParams (v2 tri) (v0 tri) lineDir linePoint d2 d0.

(** The record [triTriIntersectionDetailed] returns for the pierced
    triangle of scenario 7. *)
Definition pierceDetailed : Detailed := mkDetailed (-1, 1, 0) (-1, 1, 0) (1 - 0).

(** ** util/math.js, continued *)

Definition distSq3 (a b : Vertex) : R :=
  let dx := vx a - vx b in
  let dy := vy a - vy b in
  let dz := vz a - vz b in
  dx * dx + dy * dy + dz * dz.

Definition triangleArea3D (tri : Triangle) : R :=
  let ux := vx (v1 tri) - vx (v0 tri) in
  let uy := vy (v1 tri) - vy (v0 tri) in
  let uz := vz (v1 tri) - vz (v0 tri) in
  let wx := vx (v2 tri) - vx (v0 tri) in
  let wy := vy (v2 tri) - vy (v0 tri) in
  let wz := vz (v2 tri) - vz (v0 tri) in
  let cx := uy * wz - uz * wy in
  let cy := uz * wx - ux * wz in
  let cz := ux * wy - uy * wx in
  0.5 * sqrt (cx * cx + cy * cy + cz * cz).

Definition lerpVert (a b : Vertex) (t : R) : Vertex :=
  mkV (vx a + t * (vx b - vx a)) (vy a + t * (vy b - vy a))
      (vz a + t * (vz b - vz a)).

(** ** normals/alignNormals.js, continued *)

Definition flipAllNormals (tris : Soup) : Soup :=
  map (fun tri => mkT (copyVertex (v0 tri)) (copyVertex (v2 tri))
                      (copyVertex (v1 tri)))
      tris.

(** The triangle [t'] is [t], with or without [v1] and [v2] exchanged. *)
Definition sameOrFlipped (t t' : Triangle) : Prop :=
  t' = t \/ t' = flipTriangle t.

(** ** repair/weldVertices.js, continued *)

Definition weldedToSoup (weldedTriangles : list WeldedTriangle) : Soup :=
  map (fun w =>
         let '(a, b, c) := vertices w in
         mkT (copyVertex a) (copyVertex b) (copyVertex c))
      weldedTriangles.

(** The cell of the 3D hash a point falls into, for cell size [cs]. *)
Definition cellOf3 (cs : R) (v : Vertex) : Z * Z * Z :=
  (Zfloor (vx v / cs), Zfloor (vy v / cs), Zfloor (vz v / cs)).

(** All corners of a soup, triangle by triangle. *)
Definition soupVertices (tris : Soup) : list Vertex :=
  flat_map (fun t => [v0 t; v1 t; v2 t]) tris.

(** Pool index [i] holds a point within the squared distance [tolSq]
    of [v]. *)
Definition nearAt (pts : list Vertex) (tolSq : R) (i : nat) (v : Vertex) : Prop :=
  exists p, nth_error pts i = Some p /\ distSq3 p v <= tolSq.

Definition weldedNear (pts : list Vertex) (tolSq : R) (tri : Triangle)
  (idx : nat * nat * nat) : Prop :=
  let '(i0, i1, i22) := idx in
  nearAt pts tolSq i0 (v0 tri) /\ nearAt pts tolSq i1 (v1 tri) /\
  nearAt pts tolSq i22 (v2 tri).

(** Any two different entries of the pool are more than [tolSq] apart
    in squared distance. *)
Definition separated (pts : list Vertex) (tolSq : R) : Prop :=
  forall i j p q, i <> j -> nth_error pts i = Some p -> nth_error pts j = Some q ->
                  tolSq < distSq3 p q.

(** The invariant of the welding loop: every pool point is filed under
    its own cell, the pool is separated, and it holds input corners
    only. *)
Definition weldInv (cs tolSq : R) (seen : list Vertex) (st : list Vertex * Grid3)
  : Prop :=
  (forall i p, nth_error (fst st) i = Some p ->
               In i (grid3Get (snd st) (cellOf3 cs p))) /\
  separated (fst st) tolSq /\
  (forall p, In p (fst st) -> In p seen).

(** ** Vocabulary for repair/deduplicateVertices.js *)

(** The cell of the hash of [deduplicateSeamVertices]: coordinates
    times [invCell], floored. *)
Definition cellOfInv (invCell : R) (v : Vertex) : Z * Z * Z :=
  (Zfloor (vx v * invCell), Zfloor (vy v * invCell), Zfloor (vz v * invCell)).

(** Canonical vertex [i] is strictly closer to [v] than the tolerance. *)
Definition closeAt (pts : list Vertex) (tolSq : R) (i : nat) (v : Vertex) : Prop :=
  exists p, nth_error pts i = Some p /\ distSq3 p v < tolSq.

Definition dedupNear (pts : list Vertex) (tolSq : R) (tri : Triangle)
  (idx : nat * nat * nat) : Prop :=
  let '(c0, c1, c2) := idx in
  closeAt pts tolSq c0 (v0 tri) /\ closeAt pts tolSq c1 (v1 tri) /\
  closeAt pts tolSq c2 (v2 tri).

(** Any two different canonical vertices are at least [tolSq] apart in
    squared distance. *)
Definition apart (pts : list Vertex) (tolSq : R) : Prop :=
  forall i j p q, i <> j -> nth_error pts i = Some p -> nth_error pts j = Some q ->
                  tolSq <= distSq3 p q.

Definition dedupInv (invCell tolSq : R) (seen : list Vertex) (st : DedupState)
  : Prop :=
  (forall i p, nth_error (fst st) i = Some p ->
               In i (grid3Get (snd st) (cellOfInv invCell p))) /\
  apart (fst st) tolSq /\
  (forall p, In p (fst st) -> In p seen).

(** What an output triangle of [deduplicateSeamVertices] owes to the
    input: it stands for an input triangle whose corners are closer
    than the tolerance to its own, its corners are corners of the
    input, and they are at least the tolerance apart. *)
Definition dedupTriangle (tris : Soup) (tolSq : R) (t' : Triangle) : Prop :=
  (exists t, In t tris /\ distSq3 (v0 t') (v0 t) < tolSq /\
             distSq3 (v1 t') (v1 t) < tolSq /\ distSq3 (v2 t') (v2 t) < tolSq) /\
  In (v0 t') (soupVertices tris) /\ In (v1 t') (soupVertices tris) /\
  In (v2 t') (soupVertices tris) /\
  tolSq <= distSq3 (v0 t') (v1 t') /\ tolSq <= distSq3 (v1 t') (v2 t') /\
  tolSq <= distSq3 (v2 t') (v0 t').

(** ** util/math.js: countOpenEdges *)

(** [edgeMap] of [countOpenEdges]: edge key to number of uses, in
    insertion order. *)
Definition CountMap : Type := list (string * nat).

(** [if (!edgeMap[ek]) edgeMap[ek] = 0; edgeMap[ek]++]. *)
Fixpoint countPush (m : CountMap) (key : string) : CountMap :=
  match m with
  | [] => [(key, (0 + 1)%nat)]
  | (k, c) :: rest =>
      if String.eqb k key then (k, (c + 1)%nat) :: rest
      else (k, c) :: countPush rest key
  end.

Record EdgeCounts : Type :=
  mkCounts { openEdges : nat; overShared : nat; total : nat }.

Definition countEdges (tris : Soup) : CountMap :=
  fold_left
    (fun edgeMap tri =>
       let k0 := vKey (v0 tri) in
       let k1 := vKey (v1 tri) in
       let k2 := vKey (v2 tri) in
       countPush (countPush (countPush edgeMap (edgeKey k0 k1)) (edgeKey k1 k2))
                 (edgeKey k2 k0))
    tris [].

Definition tallyEdge (acc : EdgeCounts) (e : string * nat) : EdgeCounts :=
  if Nat.eqb (snd e) 1 then
    mkCounts (openEdges acc + 1) (overShared acc) (total acc + 1)
  else if Nat.ltb 2 (snd e) then
    mkCounts (openEdges acc) (overShared acc + 1) (total acc + 1)
  else mkCounts (openEdges acc) (overShared acc) (total acc + 1).

Definition countOpenEdges (tris : Soup) : EdgeCounts :=
  fold_left tallyEdge (countEdges tris) (mkCounts 0 0 0).

(** ** mesh statistics: computeSignedVolume, computeProjectedArea,
    compute3DSurfaceArea *)

Definition computeSignedVolume (tris : Soup) : R :=
  match tris with
  | [] => 0
  | _ =>
      let n := List.length tris in
      let sx := fold_left (fun c t => c + (vx (v0 t) + vx (v1 t) + vx (v2 t))) tris 0 in
      let sy := fold_left (fun c t => c + (vy (v0 t) + vy (v1 t) + vy (v2 t))) tris 0 in
      let sz := fold_left (fun c t => c + (vz (v0 t) + vz (v1 t) + vz (v2 t))) tris 0 in
      let inv := 1 / (INR n * 3) in
      let cx := sx * inv in
      let cy := sy * inv in
      let cz := sz * inv in
      fold_left
        (fun vol t =>
           let x0 := vx (v0 t) - cx in
           let y0 := vy (v0 t) - cy in
           let z0 := vz (v0 t) - cz in
           let x1 := vx (v1 t) - cx in
           let y1 := vy (v1 t) - cy in
           let z1 := vz (v1 t) - cz in
           let x2 := vx (v2 t) - cx in
           let y2 := vy (v2 t) - cy in
           let z2 := vz (v2 t) - cz in
           vol + (x0 * (y1 * z2 - y2 * z1)
                  - x1 * (y0 * z2 - y2 * z0)
                  + x2 * (y0 * z1 - y1 * z0)) / 6)
        tris 0
  end.

Definition computeProjectedArea (tris : Soup) (plane : string) : R :=
  fold_left
    (fun area t =>
       let a := v0 t in
       let b := v1 t in
       let c := v2 t in
       let n := triNormal t in
       if String.eqb plane "xy" then
         if Rleb (vz n) 0 then area
         else
           let cross2d := (vx b - vx a) * (vy c - vy a) - (vx c - vx a) * (vy b - vy a) in
           area + Rabs cross2d / 2
       else if String.eqb plane "yz" then
         if Rleb (vx n) 0 then area
         else
           let cross2d2 := (vy b - vy a) * (vz c - vz a) - (vy c - vy a) * (vz b - vz a) in
           area + Rabs cross2d2 / 2
       else if String.eqb plane "xz" then
         if Rleb (vy n) 0 then area
         else
           let cross2d3 := (vx b - vx a) * (vz c - vz a) - (vx c - vx a) * (vz b - vz a) in
           area + Rabs cross2d3 / 2
       else area)
    tris 0.

Definition compute3DSurfaceArea (tris : Soup) : R :=
  fold_left
    (fun area t =>
       let ux := vx (v1 t) - vx (v0 t) in
       let uy := vy (v1 t) - vy (v0 t) in
       let uz := vz (v1 t) - vz (v0 t) in
       let wx := vx (v2 t) - vx (v0 t) in
       let wy := vy (v2 t) - vy (v0 t) in
       let wz := vz (v2 t) - vz (v0 t) in
       let cx := uy * wz - uz * wy in
       let cy := uz * wx - ux * wz in
       let cz := ux * wy - uy * wx in
       area + 0.5 * sqrt (cx * cx + cy * cy + cz * cz))
    tris 0.

(** A soup moved by the vector [d]. *)
Definition translateVertex (d v : Vertex) : Vertex :=
  mkV (vx v + vx d) (vy v + vy d) (vz v + vz d).

Definition translateSoup (d : Vertex) (tris : Soup) : Soup :=
  map (fun t => mkT (translateVertex d (v0 t)) (translateVertex d (v1 t))
                    (translateVertex d (v2 t))) tris.

(** The sum of [f] over a list, accumulated from 0 as the loops do. *)
Definition sumOver {A : Type} (f : A -> R) (l : list A) : R :=
  fold_left (fun acc t => acc + f t) l 0.

(** The term one triangle adds to [computeSignedVolume], about the
    centre [(cx, cy, cz)]. *)
Definition volumeTerm (cx cy cz : R) (t : Triangle) : R :=
  let x0 := vx (v0 t) - cx in
  let y0 := vy (v0 t) - cy in
  let z0 := vz (v0 t) - cz in
  let x1 := vx (v1 t) - cx in
  let y1 := vy (v1 t) - cy in
  let z1 := vz (v1 t) - cz in
  let x2 := vx (v2 t) - cx in
  let y2 := vy (v2 t) - cy in
  let z2 := vz (v2 t) - cz in
  (x0 * (y1 * z2 - y2 * z1) - x1 * (y0 * z2 - y2 * z0)
   + x2 * (y0 * z1 - y1 * z0)) / 6.

(** The centre [computeSignedVolume] moves the soup to: the mean of
    all corners. *)
Definition soupCentre (tris : Soup) : Vertex :=
  let inv := 1 / (INR (List.length tris) * 3) in
  mkV (sumOver (fun t => vx (v0 t) + vx (v1 t) + vx (v2 t)) tris * inv)
      (sumOver (fun t => vy (v0 t) + vy (v1 t) + vy (v2 t)) tris * inv)
      (sumOver (fun t => vz (v0 t) + vz (v1 t) + vz (v2 t)) tris * inv).

(** ** repair/removeDegenerates.js *)

(** The test of the loop body: [true] when the triangle is pushed. *)
Definition keepTriangle (minArea sliverRatio : R) (tri : Triangle) : bool :=
  let area := triangleArea3D tri in
  if Rltb area minArea then false
  else
    let e0 := dist3 (v0 tri) (v1 tri) in
    let e1 := dist3 (v1 tri) (v2 tri) in
    let e2 := dist3 (v2 tri) (v0 tri) in
    let maxEdge := Rmax3 e0 e1 e2 in
    if Rgtb maxEdge 0 then
      let minAlt := (2 * area) / maxEdge in
      if Rltb (minAlt / maxEdge) sliverRatio then false else true
    else true.

(** A missing threshold argument is [None]. *)
Definition removeDegenerateTriangles (tris : Soup) (minArea sliverRatio : option R)
  : Soup :=
  let minArea := match minArea with None => 0.000001 | Some a => a end in
  let sliverRatio := match sliverRatio with None => 0.01 | Some r => r end in
  filter (keepTriangle minArea sliverRatio) tris.

(** ** intersect/chainSegments.js: simplifyPolyline *)

(** The loop over the interior points: [prev] is [points[i - 1]] and
    [rest] holds [points[i]] onwards; the last point is pushed
    unconditionally. *)
Fixpoint simplifyLoop (spacing : R) (prev : Vertex) (rest : list Vertex)
  (accumulated : R) : list Vertex :=
  match rest with
  | [] => []
  | p :: more =>
      match more with
      | [] => [p]
      | _ :: _ =>
          let accumulated := accumulated + dist3 prev p in
          if Rgeb accumulated spacing then p :: simplifyLoop spacing p more 0
          else simplifyLoop spacing p more accumulated
      end
  end.

Definition simplifyPolyline (points : list Vertex) (spacing : R) : list Vertex :=
  if (List.length points <=? 2)%nat || Rleb spacing 0 then points
  else
    match points with
    | [] => points
    | first :: rest => first :: simplifyLoop spacing first rest 0
    end.

(** [l] is [l'] with some elements left out, the order kept. *)
Inductive subsequence {A : Type} : list A -> list A -> Prop :=
| subsequence_nil : subsequence [] []
| subsequence_keep (x : A) (l l' : list A) :
    subsequence l l' -> subsequence (x :: l) (x :: l')
| subsequence_skip (x : A) (l l' : list A) :
    subsequence l l' -> subsequence l (x :: l').

Definition longestEdge (tri : Triangle) : R :=
  Rmax3 (dist3 (v0 tri) (v1 tri)) (dist3 (v1 tri) (v2 tri)) (dist3 (v2 tri) (v0 tri)).

(** [crossedSet[i]]: the bucket of triangle [i], [None] when the key is
    absent. *)
Fixpoint crossedGet (m : CrossedSet) (i : nat) : option (list TaggedSegment) :=
  match m with
  | [] => None
  | (k, segs) :: rest => if Nat.eqb k i then Some segs else crossedGet rest i
  end.

(** ** intersect/intersectMeshPair.js: computeBBox *)

(** A number or one of the two infinities [computeBBox] starts from. *)
Inductive ExtR : Type := NegInfinity | Finite (r : R) | PosInfinity.

(** [x < e] and [x > e] for a finite [x]. *)
Definition extLtb (x : R) (e : ExtR) : bool :=
  match e with
  | NegInfinity => false
  | Finite m => Rltb x m
  | PosInfinity => true
  end.

Definition extGtb (x : R) (e : ExtR) : bool :=
  match e with
  | NegInfinity => true
  | Finite m => Rgtb x m
  | PosInfinity => false
  end.

(** [if (x < m) m = x] and [if (x > m) m = x]. *)
Definition extMin (m : ExtR) (x : R) : ExtR := if extLtb x m then Finite x else m.
Definition extMax (m : ExtR) (x : R) : ExtR := if extGtb x m then Finite x else m.

Record ExtBBox : Type := mkEBB {
  eminX : ExtR; eminY : ExtR; eminZ : ExtR;
  emaxX : ExtR; emaxY : ExtR; emaxZ : ExtR
}.

Definition bboxStep (bb : ExtBBox) (v : Vertex) : ExtBBox :=
  mkEBB (extMin (eminX bb) (vx v)) (extMin (eminY bb) (vy v))
        (extMin (eminZ bb) (vz v))
        (extMax (emaxX bb) (vx v)) (extMax (emaxY bb) (vy v))
        (extMax (emaxZ bb) (vz v)).

Definition computeBBox (tris : Soup) : ExtBBox :=
  fold_left (fun bb t => fold_left bboxStep [v0 t; v1 t; v2 t] bb) tris
            (mkEBB PosInfinity PosInfinity PosInfinity
                   NegInfinity NegInfinity NegInfinity).

(** A box all of whose bounds are numbers. *)
Definition finiteBox (bb : BBox) : ExtBBox :=
  mkEBB (Finite (minX bb)) (Finite (minY bb)) (Finite (minZ bb))
        (Finite (maxX bb)) (Finite (maxY bb)) (Finite (maxZ bb)).

(** The point lies in the box, faces included. *)
Definition insideBox (bb : BBox) (v : Vertex) : Prop :=
  minX bb <= vx v <= maxX bb /\ minY bb <= vy v <= maxY bb /\
  minZ bb <= vz v <= maxZ bb.

(** Each of the six faces of the box passes through one of the points. *)
Definition tightBox (bb : BBox) (vs : list Vertex) : Prop :=
  In (minX bb) (map vx vs) /\ In (minY bb) (map vy vs) /\ In (minZ bb) (map vz vs) /\
  In (maxX bb) (map vx vs) /\ In (maxY bb) (map vy vs) /\ In (maxZ bb) (map vz vs).

(** ** boolean/classifyTriangles.js: classifyByFloodFill *)

(** [edgeToTris] of the flood fill: edge key to triangle indices, in
    insertion order. *)
Definition TriListMap : Type := list (string * list nat).

Fixpoint triListPush (m : TriListMap) (key : string) (i : nat) : TriListMap :=
  match m with
  | [] => [(key, [i])]
  | (k, l) :: rest =>
      if String.eqb k key then (k, l ++ [i]) :: rest
      else (k, l) :: triListPush rest key i
  end.

(** [crossedMap[i]] as a condition. *)
Definition isCrossed (crossedMap : CrossedSet) (i : nat) : bool :=
  match crossedGet crossedMap i with Some _ => true | None => false end.

(** The three edge keys of a triangle, in the order of [edges]. *)
Definition edgeKeys (tri : Triangle) : list string :=
  let k0 := vk (v0 tri) in
  let k1 := vk (v1 tri) in
  let k2 := vk (v2 tri) in
  [edgeKey k0 k1; edgeKey k1 k2; edgeKey k2 k0].

(** The first loop, from triangle [i] on. *)
Fixpoint fillEdgesFrom (crossedMap : CrossedSet) (m : TriListMap) (i : nat)
  (tris : Soup) : TriListMap :=
  match tris with
  | [] => m
  | tri :: rest =>
      if isCrossed crossedMap i then fillEdgesFrom crossedMap m (S i) rest
      else
        fillEdgesFrom crossedMap
          (fold_left (fun m' e => triListPush m' e i) (edgeKeys tri) m)
          (S i) rest
  end.

(** The pairs [(triList[a], triList[b])] with [a < b], in loop order. *)
Fixpoint pairsOf (l : list nat) : list (nat * nat) :=
  match l with
  | [] => []
  | x :: rest => map (fun y => (x, y)) rest ++ pairsOf rest
  end.

Definition linkPair (nbrs : list (list nat)) (p : nat * nat) : list (list nat) :=
  pushAt (pushAt nbrs (fst p) (snd p)) (snd p) (fst p).

Definition fillNeighbors (n : nat) (m : TriListMap) : list (list nat) :=
  fold_left (fun nbrs e => fold_left linkPair (pairsOf (snd e)) nbrs) m
            (repeat [] n).

(** [arr[i] = c] on an [Int8Array]. *)
Fixpoint setClassAt (arr : list Z) (i : nat) (c : Z) : list Z :=
  match arr, i with
  | [], _ => []
  | _ :: rest, O => c :: rest
  | a :: rest, S i' => a :: setClassAt rest i' c
  end.

(** The state of one flood fill: the part of [queue] from [head] on and
    the two typed arrays. *)
Record Fill : Type := mkFill {
  fillQueue : list nat; fillVisited : list bool; fillResult : list Z
}.

Definition fillVisit (seedClass : Z) (st : Fill) (nb : nat) : Fill :=
  if getAt (fillVisited st) nb then st
  else mkFill (fillQueue st ++ [nb]) (setAt (fillVisited st) nb true)
              (setClassAt (fillResult st) nb seedClass).

(** [while (head < queue.length)], run for at most [fuel] dequeues;
    [fillLoop_drains] shows that one dequeue per triangle is enough. *)
Fixpoint fillLoop (nbrs : list (list nat)) (seedClass : Z) (fuel : nat) (st : Fill)
  : Fill :=
  match fuel with
  | O => st
  | S fuel' =>
      match fillQueue st with
      | [] => st
      | curr :: rest =>
          fillLoop nbrs seedClass fuel'
            (fold_left (fillVisit seedClass) (nth curr nbrs [])
                       (mkFill rest (fillVisited st) (fillResult st)))
      end
  end.

Definition centroid (tri : Triangle) : Vertex :=
  mkV ((vx (v0 tri) + vx (v1 tri) + vx (v2 tri)) / 3)
      ((vy (v0 tri) + vy (v1 tri) + vy (v2 tri)) / 3)
      ((vz (v0 tri) + vz (v1 tri) + vz (v2 tri)) / 3).

(** The loop over [seed], from [seed] on; [remaining] is [tris] from
    index [seed]. *)
Fixpoint fillSeeds (crossedMap : CrossedSet) (otherTris : Soup) (otherGrids : Grids)
  (nbrs : list (list nat)) (n seed : nat) (remaining : Soup)
  (vis : list bool) (res : list Z) : list Z :=
  match remaining with
  | [] => res
  | seedTri :: rest =>
      if getAt vis seed || isCrossed crossedMap seed then
        fillSeeds crossedMap otherTris otherGrids nbrs n (S seed) rest vis res
      else
        let seedClass := classifyPointMultiAxis (centroid seedTri) otherTris otherGrids in
        let st := fillLoop nbrs seedClass n
                    (mkFill [seed] (setAt vis seed true)
                            (setClassAt res seed seedClass)) in
        fillSeeds crossedMap otherTris otherGrids nbrs n (S seed) rest
                  (fillVisited st) (fillResult st)
  end.

Definition classifyByFloodFill (tris : Soup) (crossedMap : CrossedSet)
  (otherTris : Soup) (otherGrids : Grids) : list Z :=
  let n := List.length tris in
  let edgeToTris := fillEdgesFrom crossedMap [] 0%nat tris in
  let neighbors := fillNeighbors n edgeToTris in
  fillSeeds crossedMap otherTris otherGrids neighbors n 0%nat tris
            (repeat false n) (repeat 0%Z n).

(** Two triangles with a common edge key. *)
Definition sharesEdge (t t' : Triangle) : Prop :=
  exists e, In e (edgeKeys t) /\ In e (edgeKeys t').

(** [triListMap[key]], empty when the key is absent. *)
Fixpoint triListGet (m : TriListMap) (key : string) : list nat :=
  match m with
  | [] => []
  | (k, l) :: rest => if String.eqb k key then l else triListGet rest key
  end.

(** The invariant of the flood fill between two dequeues, and, with
    [curr] given, inside the loop over the neighbours of [curr]:
    every triangle that has left the queue has all its neighbours
    visited and in its own class. *)
Definition fillInvariant (n : nat) (nbrs : list (list nat)) (crossedMap : CrossedSet)
  (classes : Z -> Prop) (seedClass : Z) (curr : option nat) (fuel : nat) (st : Fill)
  : Prop :=
  List.length (fillVisited st) = n /\ List.length (fillResult st) = n /\
  (forall v, In v (fillQueue st) ->
     getAt (fillVisited st) v = true /\ nth v (fillResult st) 0%Z = seedClass) /\
  (forall v, curr = Some v ->
     getAt (fillVisited st) v = true /\ nth v (fillResult st) 0%Z = seedClass) /\
  (forall v, getAt (fillVisited st) v = true -> ~ In v (fillQueue st) ->
     curr <> Some v ->
     forall w, In w (nth v nbrs []) ->
       getAt (fillVisited st) w = true /\
       nth w (fillResult st) 0%Z = nth v (fillResult st) 0%Z) /\
  (forall v, getAt (fillVisited st) v = true ->
     isCrossed crossedMap v = false /\ classes (nth v (fillResult st) 0%Z)) /\
  (forall v, getAt (fillVisited st) v = false -> nth v (fillResult st) 0%Z = 0%Z) /\
  (n - countTrue (fillVisited st) + List.length (fillQueue st) <= fuel)%nat.

(** ** boolean/classifyTriangles.js: splitStraddlingAndClassify *)

Section SplitStraddling.

Variable Delaunator : list (R * R) -> option (list (nat * nat * nat)).
Variable Constrainautor :
  list (nat * nat * nat) -> list (R * R) -> list (nat * nat) ->
  list (nat * nat * nat).

(** [vertexClassMap]: vertex key to class; the first class written for
    a key stays. *)
Definition VertexClassMap : Type := list (string * Z).

Fixpoint classLookup (m : VertexClassMap) (key : string) : option Z :=
  match m with
  | [] => None
  | (k, c) :: rest => if String.eqb k key then Some c else classLookup rest key
  end.

Definition recordClass (cls : Z) (m : VertexClassMap) (v : Vertex)
  : VertexClassMap :=
  match classLookup m (vk v) with
  | None => m ++ [(vk v, cls)]
  | Some _ => m
  end.

(** Step A, from triangle [i] on; a class read past the end of
    [classifications] is [undefined] and leaves the map as it is. *)
Fixpoint vertexClassesFrom (crossedMap : CrossedSet) (classifications : list Z)
  (m : VertexClassMap) (i : nat) (tris : Soup) : VertexClassMap :=
  match tris with
  | [] => m
  | tri :: rest =>
      if isCrossed crossedMap i then
        vertexClassesFrom crossedMap classifications m (S i) rest
      else
        match nth_error classifications i with
        | None => vertexClassesFrom crossedMap classifications m (S i) rest
        | Some cls =>
            vertexClassesFrom crossedMap classifications
              (fold_left (recordClass cls) [v0 tri; v1 tri; v2 tri] m) (S i) rest
        end
  end.

(** Step B: the keys of all segment end points; only membership is
    used. *)
Definition steinerKeysOf (crossedMap : CrossedSet) : list string :=
  flat_map (fun e => flat_map (fun s => [vk (tp0 s); vk (tp1 s)]) (snd e))
           crossedMap.

(** The loop over the three corners of a sub-triangle: the class of
    the first corner that is not a Steiner point and has a class, 0
    when there is none. *)
Fixpoint findClass (steinerKeys : list string) (vertexClassMap : VertexClassMap)
  (subVerts : list Vertex) : Z :=
  match subVerts with
  | [] => 0%Z
  | v :: rest =>
      let svKey := vk v in
      if existsb (String.eqb svKey) steinerKeys then
        findClass steinerKeys vertexClassMap rest
      else
        match classLookup vertexClassMap svKey with
        | Some adjClass => adjClass
        | None => findClass steinerKeys vertexClassMap rest
        end
  end.

Definition classifySub (steinerKeys : list string) (vertexClassMap : VertexClassMap)
  (otherTris : Soup) (otherGrids : Grids) (sub : Triangle) : Z :=
  let foundClass :=
    findClass steinerKeys vertexClassMap [v0 sub; v1 sub; v2 sub] in
  if (foundClass =? 0)%Z then
    classifyPointMultiAxis (centroid sub) otherTris otherGrids
  else foundClass.

(** [inside.push(t)] or [outside.push(t)]. *)
Definition pushGroup (g : Groups) (isInside : bool) (t : Triangle) : Groups :=
  if isInside then mkGroups (inside g ++ [t]) (outside g)
  else mkGroups (inside g) (outside g ++ [t]).

(** [classifications[ti] === 1]. *)
Definition classIsInside (classifications : list Z) (ti : nat) : bool :=
  match nth_error classifications ti with
  | Some c => (c =? 1)%Z
  | None => false
  end.

(** Step C, from triangle [ti] on. *)
Fixpoint splitFrom (classifications : list Z) (crossedMap : CrossedSet)
  (steinerKeys : list string) (vertexClassMap : VertexClassMap)
  (otherTris : Soup) (otherGrids : Grids) (g : Groups) (ti : nat)
  (remaining : Soup) : Groups :=
  match remaining with
  | [] => g
  | tri :: rest =>
      match crossedGet crossedMap ti with
      | None =>
          splitFrom classifications crossedMap steinerKeys vertexClassMap
                    otherTris otherGrids
                    (pushGroup g (classIsInside classifications ti) tri) (S ti) rest
      | Some segments =>
          let current :=
            retriangulateWithSteinerPoints Delaunator Constrainautor tri segments in
          splitFrom classifications crossedMap steinerKeys vertexClassMap
                    otherTris otherGrids
                    (fold_left
                       (fun g' sub =>
                          pushGroup g'
                            (classifySub steinerKeys vertexClassMap otherTris
                                         otherGrids sub =? 1)%Z sub)
                       current g)
                    (S ti) rest
      end
  end.

Definition splitStraddlingAndClassify (tris : Soup) (classifications : list Z)
  (crossedMap : CrossedSet) (otherTris : Soup) (otherGrids : Grids) : Groups :=
  let vertexClassMap := vertexClassesFrom crossedMap classifications [] 0%nat tris in
  let steinerKeys := steinerKeysOf crossedMap in
  splitFrom classifications crossedMap steinerKeys vertexClassMap otherTris
            otherGrids (mkGroups [] []) 0%nat tris.

(** What triangle [ti] turns into: itself, or its sub-triangles when it
    is crossed. *)
Definition piecesOf (crossedMap : CrossedSet) (p : nat * Triangle) : Soup :=
  match crossedGet crossedMap (fst p) with
  | None => [snd p]
  | Some segments =>
      retriangulateWithSteinerPoints Delaunator Constrainautor (snd p) segments
  end.

End SplitStraddling.

(** * The pipeline of booleanOp.js *)

(** A call either returns a value or raises a [TypeError], which is
    what reading a property of [undefined] does. *)
Inductive Outcome (A : Type) : Type :=
| Threw : Outcome A
| Returned : A -> Outcome A.

Arguments Threw {A}.
Arguments Returned {A} _.

Definition andThen {A B : Type} (o : Outcome A) (k : A -> Outcome B)
  : Outcome B :=
  match o with
  | Threw => Threw
  | Returned a => k a
  end.

Notation "x <- e ;; k" := (andThen e (fun x => k))
  (at level 61, e at next level, right associativity).

(** ** boolean/classifyTriangles.js, as booleanOp.js calls it

    booleanOp.js hands its classifiers one grid and its cell size.  Of
    the versions of classifyTriangles.js in the repository two take
    these arguments; they share [classifyByFloodFill] and
    [splitStraddlingAndClassify] word for word and differ in
    [classifyPointByRayCast]: the version kept in
    boolean/classifyTriangles.js behind the multi-axis one casts a
    single ray along +Z, the other one casts rays along +Z, +X and +Y
    and takes the majority.  Both are given here, and the entry point
    is described for either. *)

Module RayCast.

Inductive Version : Type := SingleRay | AxisVote.

(** *** The version with a single ray *)

(** One pass of the loop over the candidates: [true] when [count] is
    incremented. *)
Definition rayHit (px py pz : R) (tri : Triangle) : bool :=
  let x0 := vx (v0 tri) in
  let y0 := vy (v0 tri) in
  let x1 := vx (v1 tri) in
  let y1 := vy (v1 tri) in
  let x2 := vx (v2 tri) in
  let y2 := vy (v2 tri) in
  let d := (y1 - y2) * (x0 - x2) + (x2 - x1) * (y0 - y2) in
  if Rltb (Rabs d) 1e-12 then false
  else
    let u := ((y1 - y2) * (px - x2) + (x2 - x1) * (py - y2)) / d in
    let v := ((y2 - y0) * (px - x2) + (x0 - x2) * (py - y2)) / d in
    let w := 1 - u - v in
    if Rltb u (-1e-10) || Rltb v (-1e-10) || Rltb w (-1e-10) then false
    else
      let z := u * vz (v0 tri) + v * vz (v1 tri) + w * vz (v2 tri) in
      Rgtb z pz.

(** The loop over the candidates.  [otherTris[candidates[c]]] is
    [undefined] for an index past the end of [otherTris], and reading
    its [v0] raises. *)
Fixpoint countCrossings (px py pz : R) (otherTris : Soup) (candidates : list nat)
  (count : nat) : Outcome nat :=
  match candidates with
  | [] => Returned count
  | c :: rest =>
      match nth_error otherTris c with
      | None => Threw
      | Some tri =>
          countCrossings px py pz otherTris rest
                         (if rayHit px py pz tri then S count else count)
      end
  end.

(** The query box has no z fields in the source; [queryGrid] does not
    read them. *)
Definition classifyPointByZRay (point : Vertex) (otherTris : Soup)
  (otherGrid : Grid) (otherCellSize : R) : Outcome Z :=
  let px := vx point in
  let py := vy point in
  let pz := vz point in
  let bb := mkBB px py 0 px py 0 in
  let candidates := queryGrid otherGrid bb otherCellSize in
  count <- countCrossings px py pz otherTris candidates 0 ;;
  Returned (if Nat.eqb (count mod 2) 1 then 1%Z else (-1)%Z).

(** *** The version with three rays *)

(** One pass of the loop of [castRayAlongAxis]: [true] when [count] is
    incremented. *)
Definition axisHit (px py pMain : R) (tri : Triangle) (axis : Axis) : bool :=
  let '(a0, a1, aM) := axisCoords axis (v0 tri) in
  let '(b0, b1, bM) := axisCoords axis (v1 tri) in
  let '(c0, c1, cM) := axisCoords axis (v2 tri) in
  let d := (b1 - c1) * (a0 - c0) + (c0 - b0) * (a1 - c1) in
  if Rltb (Rabs d) 1e-12 then false
  else
    let u := ((b1 - c1) * (px - c0) + (c0 - b0) * (py - c1)) / d in
    let v := ((c1 - a1) * (px - c0) + (a0 - c0) * (py - c1)) / d in
    let w := 1 - u - v in
    if Rltb u (-1e-10) || Rltb v (-1e-10) || Rltb w (-1e-10) then false
    else
      let hitMain := u * aM + v * bM + w * cM in
      Rgtb hitMain (pMain + 1e-10).

Fixpoint countAxisCrossings (px py pMain : R) (axis : Axis) (otherTris : Soup)
  (candidates : list nat) (count : nat) : Outcome nat :=
  match candidates with
  | [] => Returned count
  | c :: rest =>
      match nth_error otherTris c with
      | None => Threw
      | Some tri =>
          countAxisCrossings px py pMain axis otherTris rest
                             (if axisHit px py pMain tri axis then S count else count)
      end
  end.

(** The grid is used for the ray along z; for the other two rays the
    candidates are all the triangles. *)
Definition castRayAlongAxis (point : Vertex) (otherTris : Soup) (otherGrid : Grid)
  (otherCellSize : R) (axis : Axis) : Outcome nat :=
  let '(px, py, pMain) := axisCoords axis point in
  let candidates :=
    match axis with
    | AxisZ => queryGrid otherGrid (mkBB px py 0 px py 0) otherCellSize
    | _ => seq 0 (List.length otherTris)
    end in
  countAxisCrossings px py pMain axis otherTris candidates 0.

Definition classifyPointByAxisVote (point : Vertex) (otherTris : Soup)
  (otherGrid : Grid) (otherCellSize : R) : Outcome Z :=
  zCount <- castRayAlongAxis point otherTris otherGrid otherCellSize AxisZ ;;
  let zInside := Nat.eqb (zCount mod 2) 1 in
  xCount <- castRayAlongAxis point otherTris otherGrid otherCellSize AxisX ;;
  let xInside := Nat.eqb (xCount mod 2) 1 in
  if Bool.eqb zInside xInside then Returned (if zInside then 1%Z else (-1)%Z)
  else
    yCount <- castRayAlongAxis point otherTris otherGrid otherCellSize AxisY ;;
    let yInside := Nat.eqb (yCount mod 2) 1 in
    let insideVotes :=
      ((if zInside then 1 else 0) + (if xInside then 1 else 0)
       + (if yInside then 1 else 0))%nat in
    Returned (if Nat.leb 2 insideVotes then 1%Z else (-1)%Z).

(** *** What the two versions share *)

Section Classifier.

Variable version : Version.

(** [classifyPointByRayCast] of the version at hand. *)
Definition classifyPointByRayCast (point : Vertex) (otherTris : Soup)
  (otherGrid : Grid) (otherCellSize : R) : Outcome Z :=
  match version with
  | SingleRay => classifyPointByZRay point otherTris otherGrid otherCellSize
  | AxisVote => classifyPointByAxisVote point otherTris otherGrid otherCellSize
  end.

(** The loop over [seed].  The edge map, the neighbour lists and the
    queue are those of the multi-axis version ([fillEdgesFrom],
    [fillNeighbors], [fillLoop]): the two versions differ in the call
    that classifies the seed. *)
Fixpoint fillSeeds (crossedMap : CrossedSet) (otherTris : Soup) (otherGrid : Grid)
  (otherCellSize : R) (nbrs : list (list nat)) (n seed : nat) (remaining : Soup)
  (vis : list bool) (res : list Z) : Outcome (list Z) :=
  match remaining with
  | [] => Returned res
  | seedTri :: rest =>
      if getAt vis seed || isCrossed crossedMap seed then
        fillSeeds crossedMap otherTris otherGrid otherCellSize nbrs n (S seed) rest
                  vis res
      else
        seedClass <- classifyPointByRayCast (centroid seedTri) otherTris otherGrid
                                            otherCellSize ;;
        let st := fillLoop nbrs seedClass n
                    (mkFill [seed] (setAt vis seed true)
                            (setClassAt res seed seedClass)) in
        fillSeeds crossedMap otherTris otherGrid otherCellSize nbrs n (S seed) rest
                  (fillVisited st) (fillResult st)
  end.

Definition classifyByFloodFill (tris : Soup) (crossedMap : CrossedSet)
  (otherTris : Soup) (otherGrid : Grid) (otherCellSize : R) : Outcome (list Z) :=
  let n := List.length tris in
  let edgeToTris := fillEdgesFrom crossedMap [] 0%nat tris in
  let neighbors := fillNeighbors n edgeToTris in
  fillSeeds crossedMap otherTris otherGrid otherCellSize neighbors n 0%nat tris
            (repeat false n) (repeat 0%Z n).

Section Split.

Variable Delaunator : list (R * R) -> option (list (nat * nat * nat)).
Variable Constrainautor :
  list (nat * nat * nat) -> list (R * R) -> list (nat * nat) ->
  list (nat * nat * nat).

(** The loop over the sub-triangles of one crossed triangle. *)
Fixpoint classifySubs (otherTris : Soup) (otherGrid : Grid) (otherCellSize : R)
  (g : Groups) (current : Soup) : Outcome Groups :=
  match current with
  | [] => Returned g
  | sub :: rest =>
      cls <- classifyPointByRayCast (centroid sub) otherTris otherGrid
                                    otherCellSize ;;
      classifySubs otherTris otherGrid otherCellSize
                   (pushGroup g (cls =? 1)%Z sub) rest
  end.

(** The loop over the triangles, from triangle [i] on. *)
Fixpoint splitFrom (classifications : list Z) (crossedMap : CrossedSet)
  (otherTris : Soup) (otherGrid : Grid) (otherCellSize : R) (g : Groups)
  (i : nat) (remaining : Soup) : Outcome Groups :=
  match remaining with
  | [] => Returned g
  | tri :: rest =>
      match crossedGet crossedMap i with
      | None =>
          splitFrom classifications crossedMap otherTris otherGrid otherCellSize
                    (pushGroup g (classIsInside classifications i) tri) (S i) rest
      | Some segments =>
          let current :=
            retriangulateWithSteinerPoints Delaunator Constrainautor tri segments in
          g' <- classifySubs otherTris otherGrid otherCellSize g current ;;
          splitFrom classifications crossedMap otherTris otherGrid otherCellSize
                    g' (S i) rest
      end
  end.

Definition splitStraddlingAndClassify (tris : Soup) (classifications : list Z)
  (crossedMap : CrossedSet) (otherTris : Soup) (otherGrid : Grid)
  (otherCellSize : R) : Outcome Groups :=
  splitFrom classifications crossedMap otherTris otherGrid otherCellSize
            (mkGroups [] []) 0%nat tris.

End Split.

End Classifier.

End RayCast.

(** ** boolean/booleanOp.js: the entry point *)

Section BooleanOp.

(** The version of classifyTriangles.js the entry point runs with. *)
Variable version : RayCast.Version.
Variable Delaunator : list (R * R) -> option (list (nat * nat * nat)).
Variable Constrainautor :
  list (nat * nat * nat) -> list (R * R) -> list (nat * nat) ->
  list (nat * nat * nat).

(** Steps 6 and 7 on one group: [if (g.length > 0) g = f(g)]. *)
Definition whenNonEmpty (f : Soup -> Soup) (g : Soup) : Soup :=
  match g with [] => g | _ => f g end.

Definition finishGroup (g : Soup) : Soup :=
  whenNonEmpty propagateNormals
    (whenNonEmpty (fun s => deduplicateSeamVertices s 1e-4) g).

(** The grid step 3 builds for one mesh, with its cell size. *)
Definition meshGrid (soup : Soup) : Grid * R :=
  let avgEdge := estimateAvgEdge soup in
  let cellSz := Rmax (avgEdge * 2) 0.1 in
  (buildSpatialGrid soup cellSz, cellSz).

(** Steps 2 to 8: the array [combined]. *)
Definition combinedSoup (soupA soupB : Soup)
  (taggedSegments : list TaggedSegment) (operation : Operation) : Outcome Soup :=
  let crossedSetA := buildCrossedSet idxA taggedSegments in
  let crossedSetB := buildCrossedSet idxB taggedSegments in
  let '(gridA, cellSizeA) := meshGrid soupA in
  let '(gridB, cellSizeB) := meshGrid soupB in
  classA <- RayCast.classifyByFloodFill version soupA crossedSetA soupB gridB cellSizeB ;;
  classB <- RayCast.classifyByFloodFill version soupB crossedSetB soupA gridA cellSizeA ;;
  groupsA <- RayCast.splitStraddlingAndClassify version Delaunator Constrainautor
               soupA classA crossedSetA soupB gridB cellSizeB ;;
  groupsB <- RayCast.splitStraddlingAndClassify version Delaunator Constrainautor
               soupB classB crossedSetB soupA gridA cellSizeA ;;
  let aInside := finishGroup (inside groupsA) in
  let aOutside := finishGroup (outside groupsA) in
  let bInside := finishGroup (inside groupsB) in
  let bOutside := finishGroup (outside groupsB) in
  Returned match operation with
           | Subtract => aOutside ++ flipSoup bInside
           | Union => aOutside ++ bOutside
           | Intersect => aInside ++ bInside
           end.

(** [boolean(soupA, soupB, operation)]; a missing soup is [None], and so
    is the result [null]. *)
Definition boolean (soupA soupB : option Soup) (operation : Operation)
  : Outcome (option BooleanResult) :=
  match soupA, soupB with
  | Some sA, Some sB =>
      match sA, sB with
      | [], _ | _, [] => Returned None
      | _, _ =>
          let taggedSegments := intersectMeshPairTagged sA sB in
          match taggedSegments with
          | [] =>
              match operation with
              | Intersect => Returned None
              | _ =>
                  let resultSoup :=
                    match operation with
                    | Union => sA ++ sB
                    | _ => sA
                    end in
                  let welded := weldVertices resultSoup 0 in
                  Returned (Some (mkResult resultSoup (points welded)
                                           (triangles welded)))
              end
          | _ =>
              combined <- combinedSoup sA sB taggedSegments operation ;;
              match combined with
              | [] => Returned None
              | _ =>
                  let finalWelded := weldVertices combined 1e-4 in
                  Returned (Some (mkResult combined (points finalWelded)
                                           (triangles finalWelded)))
              end
          end
      end
  | _, _ => Returned None
  end.

End BooleanOp.

(** ** Vocabulary for the entry point *)

(** [classA] and [classB] of step 4: the classes of the triangles of
    one mesh against the grid step 3 builds for the other. *)
Definition regionClasses (version : RayCast.Version) (tris other : Soup)
  (tag : TaggedSegment -> nat) (taggedSegments : list TaggedSegment)
  : Outcome (list Z) :=
  RayCast.classifyByFloodFill version tris (buildCrossedSet tag taggedSegments)
                              other (fst (meshGrid other)) (snd (meshGrid other)).

(** What a flood fill with [RayCast.classifyPointByRayCast] promises
    for its result: one class per triangle; 0 on a crossed triangle; on
    every other triangle 1 or -1, namely what the point classifier
    returns for the centroid of some triangle that is not crossed; and
    one class for two such triangles with an edge key in common. *)
Definition classifiedByRay (version : RayCast.Version) (tris : Soup)
  (crossedMap : CrossedSet) (otherTris : Soup) (otherGrid : Grid)
  (otherCellSize : R) (classes : list Z) : Prop :=
  List.length classes = List.length tris /\
  (forall i, isCrossed crossedMap i = true -> nth i classes 0%Z = 0%Z) /\
  (forall i t, nth_error tris i = Some t -> isCrossed crossedMap i = false ->
     (nth i classes 0%Z = 1%Z \/ nth i classes 0%Z = (-1)%Z) /\
     exists s seedTri,
       nth_error tris s = Some seedTri /\ isCrossed crossedMap s = false /\
       RayCast.classifyPointByRayCast version (centroid seedTri) otherTris
                                      otherGrid otherCellSize
       = Returned (nth i classes 0%Z)) /\
  (forall i j ti tj,
     nth_error tris i = Some ti -> nth_error tris j = Some tj ->
     isCrossed crossedMap i = false -> isCrossed crossedMap j = false ->
     sharesEdge ti tj -> nth i classes 0%Z = nth j classes 0%Z).

(** The three corners of a triangle are at least [sqrt tolSq] apart. *)
Definition apartCorners (tolSq : R) (t : Triangle) : Prop :=
  tolSq <= distSq3 (v0 t) (v1 t) /\ tolSq <= distSq3 (v1 t) (v2 t) /\
  tolSq <= distSq3 (v2 t) (v0 t).



(** * The intersector in double precision

    The definitions above read JavaScript numbers as real numbers.  The
    last test of [triTriIntersection] and that of
    [triTriIntersectionDetailed] compare different expressions with
    1e-8, equal over the reals but rounded differently, so the two
    functions are embedded a second time over IEEE 754 binary64, the
    numbers the code computes with: every [+], [-], [*], [/] and
    [Math.sqrt] is the correctly rounded operation, in the order the
    source writes them. *)

Module Doubles.

Import PrimFloat.
#[local] Set Warnings "-inexact-float".
Local Open Scope float_scope.

Record Vertex : Type := mkV { vx : float; vy : float; vz : float }.
Record Triangle : Type := mkT { v0 : Vertex; v1 : Vertex; v2 : Vertex }.
Record Segment : Type := mkSeg { p0 : Vertex; p1 : Vertex }.

(** [a > b] and [a >= b]; like [<] and [<=] they are false when an
    operand is NaN. *)
Definition gtb (a b : float) : bool := b <? a.
Definition geb (a b : float) : bool := b <=? a.

(** [Math.max(a, b)] and [Math.min(a, b)]: NaN when an operand is NaN,
    and +0 counts as larger than -0. *)
Definition max (a b : float) : float :=
  if is_nan a || is_nan b then nan
  else if a <? b then b
  else if b <? a then a
  else match classify a with FloatClass.NZero => b | _ => a end.

Definition min (a b : float) : float :=
  if is_nan a || is_nan b then nan
  else if a <? b then a
  else if b <? a then b
  else match classify a with FloatClass.PZero => b | _ => a end.

(** util/math.js *)
Definition cross (a b : Vertex) : Vertex :=
  mkV (vy a * vz b - vz a * vy b)
      (vz a * vx b - vx a * vz b)
      (vx a * vy b - vy a * vx b).

(** normals/triNormal.js *)
Definition triNormal (tri : Triangle) : Vertex :=
  let e1 := mkV (vx (v1 tri) - vx (v0 tri)) (vy (v1 tri) - vy (v0 tri))
                (vz (v1 tri) - vz (v0 tri)) in
  let e2 := mkV (vx (v2 tri) - vx (v0 tri)) (vy (v2 tri) - vy (v0 tri))
                (vz (v2 tri) - vz (v0 tri)) in
  let n := cross e1 e2 in
  let len := sqrt (vx n * vx n + vy n * vy n + vz n * vz n) in
  if len <? 1e-15 then mkV 0 0 1
  else mkV (vx n / len) (vy n / len) (vz n / len).

(** intersect/triTriIntersection.js *)

Record Interval : Type := mkInterval { imin : float; imax : float }.

(** [params.sort(function (a, b) { return a - b; })], a stable sort:
    the elements are taken in array order and each goes in front of the
    first element [b] already placed with [a - b < 0].  (With a NaN
    among the parameters the comparator is inconsistent and the order
    the engine produces is its own.) *)
Fixpoint insertSorted (a : float) (l : list float) : list float :=
  match l with
  | [] => [a]
  | b :: rest => if a - b <? 0 then a :: b :: rest else b :: insertSorted a rest
  end.

Definition sortParams (l : list float) : list float :=
  fold_left (fun sorted a => insertSorted a sorted) l [].

Definition projectOnLine (p lineDir linePoint : Vertex) : float :=
  (vx p - vx linePoint) * vx lineDir + (vy p - vy linePoint) * vy lineDir
  + (vz p - vz linePoint) * vz lineDir.

Definition edgeParams (vi vj lineDir linePoint : Vertex) (di dj : float)
  : list float :=
  if (gtb di 0 && (dj <? 0)) || ((di <? 0) && gtb dj 0) then
    let t := di / (di - dj) in
    let pt := mkV (vx vi + t * (vx vj - vx vi))
                  (vy vi + t * (vy vj - vy vi))
                  (vz vi + t * (vz vj - vz vi)) in
    [projectOnLine pt lineDir linePoint]
  else if abs di <? 1e-10 then [projectOnLine vi lineDir linePoint]
  else [].

Definition computeTriInterval (tri : Triangle) (lineDir linePoint : Vertex)
  (d0 d1 d2 : float) : option Interval :=
  let params :=
    edgeParams (v0 tri) (v1 tri) lineDir linePoint d0 d1 ++
    edgeParams (v1 tri) (v2 tri) lineDir linePoint d1 d2 ++
    edgeParams (v2 tri) (v0 tri) lineDir linePoint d2 d0 in
  if (List.length params <? 2)%nat then None
  else
    let sorted := sortParams params in
    Some (mkInterval (hd 0 sorted) (last sorted 0)).

Definition findLinePoint (nA : Vertex) (dA : float) (nB : Vertex) (dB : float)
  (lineDir : Vertex) : option Vertex :=
  let ax := abs (vx lineDir) in
  let ay := abs (vy lineDir) in
  let az := abs (vz lineDir) in
  if geb az ax && geb az ay then
    let det := vx nA * vy nB - vy nA * vx nB in
    if abs det <? 1e-12 then None
    else Some (mkV ((- dA * vy nB + dB * vy nA) / det)
                   ((vx nA * (- dB) - vx nB * (- dA)) / det)
                   0)
  else if geb ay ax then
    let det2 := vx nA * vz nB - vz nA * vx nB in
    if abs det2 <? 1e-12 then None
    else Some (mkV ((- dA * vz nB + dB * vz nA) / det2)
                   0
                   ((vx nA * (- dB) - vx nB * (- dA)) / det2))
  else
    let det3 := vy nA * vz nB - vz nA * vy nB in
    if abs det3 <? 1e-12 then None
    else Some (mkV 0
                   ((- dA * vz nB + dB * vz nA) / det3)
                   ((vy nA * (- dB) - vy nB * (- dA)) / det3)).

Definition allPositive (a b c : float) : bool := gtb a 0 && gtb b 0 && gtb c 0.
Definition allNegative (a b c : float) : bool := (a <? 0) && (b <? 0) && (c <? 0).

Definition triTriIntersection (triA triB : Triangle) : option Segment :=
  let nB := triNormal triB in
  let dB := - (vx nB * vx (v0 triB) + vy nB * vy (v0 triB) + vz nB * vz (v0 triB)) in
  let dA0 := vx nB * vx (v0 triA) + vy nB * vy (v0 triA) + vz nB * vz (v0 triA) + dB in
  let dA1 := vx nB * vx (v1 triA) + vy nB * vy (v1 triA) + vz nB * vz (v1 triA) + dB in
  let dA2 := vx nB * vx (v2 triA) + vy nB * vy (v2 triA) + vz nB * vz (v2 triA) + dB in
  if allPositive dA0 dA1 dA2 then None else
  if allNegative dA0 dA1 dA2 then None else
  let nA := triNormal triA in
  let dA := - (vx nA * vx (v0 triA) + vy nA * vy (v0 triA) + vz nA * vz (v0 triA)) in
  let dB0 := vx nA * vx (v0 triB) + vy nA * vy (v0 triB) + vz nA * vz (v0 triB) + dA in
  let dB1 := vx nA * vx (v1 triB) + vy nA * vy (v1 triB) + vz nA * vz (v1 triB) + dA in
  let dB2 := vx nA * vx (v2 triB) + vy nA * vy (v2 triB) + vz nA * vz (v2 triB) + dA in
  if allPositive dB0 dB1 dB2 then None else
  if allNegative dB0 dB1 dB2 then None else
  let dotN := vx nA * vx nB + vy nA * vy nB + vz nA * vz nB in
  if gtb (abs dotN) 0.9999 then None else
  let lineDir0 := cross nA nB in
  let lineDirLen :=
    sqrt (vx lineDir0 * vx lineDir0 + vy lineDir0 * vy lineDir0
          + vz lineDir0 * vz lineDir0) in
  if lineDirLen <? 1e-12 then None else
  let lineDir := mkV (vx lineDir0 / lineDirLen) (vy lineDir0 / lineDirLen)
                     (vz lineDir0 / lineDirLen) in
  match findLinePoint nA dA nB dB lineDir with
  | None => None
  | Some linePoint =>
  match computeTriInterval triA lineDir linePoint dA0 dA1 dA2 with
  | None => None
  | Some intervalA =>
  match computeTriInterval triB lineDir linePoint dB0 dB1 dB2 with
  | None => None
  | Some intervalB =>
      let overlapMin := max (imin intervalA) (imin intervalB) in
      let overlapMax := min (imax intervalA) (imax intervalB) in
      if geb overlapMin (overlapMax - 1e-10) then None else
      let p0 := mkV (vx linePoint + vx lineDir * overlapMin)
                    (vy linePoint + vy lineDir * overlapMin)
                    (vz linePoint + vz lineDir * overlapMin) in
      let p1 := mkV (vx linePoint + vx lineDir * overlapMax)
                    (vy linePoint + vy lineDir * overlapMax)
                    (vz linePoint + vz lineDir * overlapMax) in
      let dx := vx p0 - vx p1 in
      let dy := vy p0 - vy p1 in
      let dz := vz p0 - vz p1 in
      if sqrt (dx * dx + dy * dy + dz * dz) <? 1e-8 then None
      else Some (mkSeg p0 p1)
  end end end.

Record Detailed : Type :=
  mkDetailed { dA_ : float * float * float; dB_ : float * float * float;
               segLen : float }.

Definition triTriIntersectionDetailed (triA triB : Triangle) : option Detailed :=
  let nB := triNormal triB in
  let dB := - (vx nB * vx (v0 triB) + vy nB * vy (v0 triB) + vz nB * vz (v0 triB)) in
  let dA0 := vx nB * vx (v0 triA) + vy nB * vy (v0 triA) + vz nB * vz (v0 triA) + dB in
  let dA1 := vx nB * vx (v1 triA) + vy nB * vy (v1 triA) + vz nB * vz (v1 triA) + dB in
  let dA2 := vx nB * vx (v2 triA) + vy nB * vy (v2 triA) + vz nB * vz (v2 triA) + dB in
  if allPositive dA0 dA1 dA2 then None else
  if allNegative dA0 dA1 dA2 then None else
  let nA := triNormal triA in
  let dA := - (vx nA * vx (v0 triA) + vy nA * vy (v0 triA) + vz nA * vz (v0 triA)) in
  let dB0 := vx nA * vx (v0 triB) + vy nA * vy (v0 triB) + vz nA * vz (v0 triB) + dA in
  let dB1 := vx nA * vx (v1 triB) + vy nA * vy (v1 triB) + vz nA * vz (v1 triB) + dA in
  let dB2 := vx nA * vx (v2 triB) + vy nA * vy (v2 triB) + vz nA * vz (v2 triB) + dA in
  if allPositive dB0 dB1 dB2 then None else
  if allNegative dB0 dB1 dB2 then None else
  let dotN := vx nA * vx nB + vy nA * vy nB + vz nA * vz nB in
  if gtb (abs dotN) 0.9999 then None else
  let lineDir0 := cross nA nB in
  let lineDirLen :=
    sqrt (vx lineDir0 * vx lineDir0 + vy lineDir0 * vy lineDir0
          + vz lineDir0 * vz lineDir0) in
  if lineDirLen <? 1e-12 then None else
  let lineDir := mkV (vx lineDir0 / lineDirLen) (vy lineDir0 / lineDirLen)
                     (vz lineDir0 / lineDirLen) in
  match findLinePoint nA dA nB dB lineDir with
  | None => None
  | Some linePoint =>
  match computeTriInterval triA lineDir linePoint dA0 dA1 dA2 with
  | None => None
  | Some intervalA =>
  match computeTriInterval triB lineDir linePoint dB0 dB1 dB2 with
  | None => None
  | Some intervalB =>
      let overlapMin := max (imin intervalA) (imin intervalB) in
      let overlapMax := min (imax intervalA) (imax intervalB) in
      if geb overlapMin (overlapMax - 1e-10) then None else
      let segLen := overlapMax - overlapMin in
      if segLen <? 1e-8 then None
      else Some (mkDetailed (dA0, dA1, dA2) (dB0, dB1, dB2) segLen)
  end end end.

(** Two triangles at map coordinates: a horizontal one, and an upright
    one whose lower left edge crosses it 1e-8 before the horizontal
    one ends.  The x coordinate 500005.99999999 stands for the nearest
    double, 0x1.e8497ffffff54p+18. *)
Definition utmA : Triangle :=
  mkT (mkV 500000 6000000 100) (mkV 500010 6000000 100) (mkV 500000 6000010 100).
Definition utmB : Triangle :=
  mkT (mkV 500005.99999999 6000004 99) (mkV 500005.99999999 6000004 101)
      (mkV 500020 6000005 100.5).

(** The length [triTriIntersectionDetailed] reports for that pair,
    1.0011717677116394e-8. *)
Definition utmSegLen : float := 0x1.58p-27.

End Doubles.


(** * Properties *)

(** ** Comparisons *)

Lemma Rltb_true (a b : R) : a < b -> Rltb a b = true.
Proof. intro H. unfold Rltb. destruct (Rlt_dec a b); [reflexivity | contradiction]. Qed.

Lemma Rltb_false (a b : R) : b <= a -> Rltb a b = false.
Proof. intro H. unfold Rltb. destruct (Rlt_dec a b); [lra | reflexivity]. Qed.

Lemma Rleb_true (a b : R) : a <= b -> Rleb a b = true.
Proof. intro H. unfold Rleb. destruct (Rle_dec a b); [reflexivity | contradiction]. Qed.

Lemma Rleb_false (a b : R) : b < a -> Rleb a b = false.
Proof. intro H. unfold Rleb. destruct (Rle_dec a b); [lra | reflexivity]. Qed.

Lemma Rltb_iff (a b : R) : Rltb a b = true <-> a < b.
Proof. unfold Rltb. destruct (Rlt_dec a b); split; intro; try assumption; try reflexivity; try discriminate; contradiction. Qed.

Lemma Rleb_iff (a b : R) : Rleb a b = true <-> a <= b.
Proof. unfold Rleb. destruct (Rle_dec a b); split; intro; try assumption; try reflexivity; try discriminate; contradiction. Qed.

Lemma Rltb_false_iff (a b : R) : Rltb a b = false <-> b <= a.
Proof.
  split; [| apply Rltb_false].
  intro H. destruct (Rle_dec b a) as [Hle | Hn]; [assumption |].
  rewrite Rltb_true in H by lra. discriminate.
Qed.

Lemma Rleb_false_iff (a b : R) : Rleb a b = false <-> b < a.
Proof.
  split; [| apply Rleb_false].
  intro H. destruct (Rlt_dec b a) as [Hlt | Hn]; [assumption |].
  rewrite Rleb_true in H by lra. discriminate.
Qed.

(** ** The multi-axis vote *)

Lemma classifyPointOnAxis_range (point : Vertex) (otherTris : Soup) (g : Grid)
  (cs : R) (axis : Axis) :
  let c := classifyPointOnAxis point otherTris g cs axis in
  c = 0%Z \/ c = 1%Z \/ c = 2%Z.
Proof.
  unfold classifyPointOnAxis.
  destruct (axisCoords axis point) as [[basePa basePb] pr].
  destruct (Nat.eqb _ 0); [now left |].
  destruct (Nat.leb 2 _); [right; now left | right; now right].
Qed.

(** An axis reports 0 exactly when none of its three jittered rays hit
    anything. *)
Lemma classifyPointOnAxis_no_hits (point : Vertex) (otherTris : Soup) (g : Grid)
  (cs : R) (axis : Axis) :
  classifyPointOnAxis point otherTris g cs axis = 0%Z <->
  forall jt, In jt (JITTERS axis) ->
    fst (jitteredRay (fst (fst (axisCoords axis point)))
                     (snd (fst (axisCoords axis point)))
                     (snd (axisCoords axis point)) otherTris g cs axis jt) = false.
Proof.
  unfold classifyPointOnAxis.
  destruct (axisCoords axis point) as [[basePa basePb] pr]. cbn [fst snd].
  set (rays := map _ (JITTERS axis)).
  assert (Hlen : List.length (filter fst rays) = 0%nat <->
                 forall r, In r rays -> fst r = false).
  { clear. induction rays as [| r rs IH]; simpl.
    - split; [intros _ r [] | reflexivity].
    - destruct (fst r) eqn:Hr; simpl.
      + split; [discriminate |]. intro H. specialize (H r (or_introl eq_refl)).
        congruence.
      + rewrite IH. split.
        * intros H r' [<- | Hin]; [assumption | now apply H].
        * intros H r' Hin. apply H. now right. }
  destruct (Nat.eqb (List.length (filter fst rays)) 0) eqn:He.
  - apply Nat.eqb_eq in He. split; [intros _ | reflexivity].
    intros jt Hjt. apply (proj1 Hlen He). unfold rays. now apply in_map.
  - apply Nat.eqb_neq in He. split.
    + destruct (Nat.leb 2 _); discriminate.
    + intro H. exfalso. apply He, Hlen. intros r Hr. unfold rays in Hr.
      apply in_map_iff in Hr. destruct Hr as [jt [<- Hjt]]. now apply H.
Qed.

(** C4. [classifyPointMultiAxis] answers inside (+1) exactly when at
    least two of the axes +Z, +X, +Y vote inside, or exactly one axis
    had ray hits and that axis voted inside; in every other case (an
    outside vote with at most one inside vote, or no axis with hits) it
    answers outside (-1). *)
Theorem classifyPointMultiAxis_vote (point : Vertex) (otherTris : Soup)
  (grids : Grids) :
  let votes := axisVotes point otherTris grids in
  let r := classifyPointMultiAxis point otherTris grids in
  (r = 1%Z <->
     (2 <= insideAxes votes)%nat \/
     (axesWithHits votes = 1%nat /\ insideAxes votes = 1%nat)) /\
  (r = (-1)%Z <->
     ((1 <= outsideAxes votes)%nat /\ (insideAxes votes <= 1)%nat) \/
     axesWithHits votes = 0%nat) /\
  (r = 1%Z \/ r = (-1)%Z).
Proof.
  unfold axisVotes, classifyPointMultiAxis.
  pose proof (classifyPointOnAxis_range point otherTris (grid (xy grids))
                (cellSize (xy grids)) AxisZ) as Hz.
  pose proof (classifyPointOnAxis_range point otherTris (grid (yz grids))
                (cellSize (yz grids)) AxisX) as Hx.
  pose proof (classifyPointOnAxis_range point otherTris (grid (xz grids))
                (cellSize (xz grids)) AxisY) as Hy.
  cbv zeta in Hz, Hx, Hy.
  destruct Hz as [-> | [-> | ->]], Hx as [-> | [-> | ->]], Hy as [-> | [-> | ->]];
    cbv; repeat split; intros; try discriminate; try lia; intuition (try discriminate; try lia).
Qed.

(** ** Evaluating the real-number tests on concrete inputs *)

Lemma sqrt_value (e q : R) : 0 <= q -> q * q = e -> sqrt e = q.
Proof. intros Hq He. apply sqrt_lem_1; [rewrite <- He; nra | assumption | assumption]. Qed.

Ltac rcompare :=
  repeat match goal with
    | |- context [Rltb ?a ?b] =>
        first [rewrite (Rltb_true a b) by lra | rewrite (Rltb_false a b) by lra]
    | |- context [Rleb ?a ?b] =>
        first [rewrite (Rleb_true a b) by lra | rewrite (Rleb_false a b) by lra]
    end.

Ltac rminmax :=
  repeat match goal with
    | |- context [Rmin ?a ?b] =>
        first [rewrite (Rmin_left a b) by lra | rewrite (Rmin_right a b) by lra]
    | |- context [Rmax ?a ?b] =>
        first [rewrite (Rmax_left a b) by lra | rewrite (Rmax_right a b) by lra]
    | |- context [Rabs ?a] =>
        first [rewrite (Rabs_pos_eq a) by lra | rewrite (Rabs_left1 a) by lra]
    end.

Ltac rfloor e z :=
  replace (Zfloor e) with z by (symmetry; apply Zfloor_eq; simpl; lra).

Ltac rsqrt e q :=
  replace (sqrt e) with q by (symmetry; apply sqrt_value; lra).

Lemma boxCells_value (bb : BBox) (cs : R) (x0 y0 x1 y1 : Z) :
  Zfloor (minX bb / cs) = x0 -> Zfloor (minY bb / cs) = y0 ->
  Zfloor (maxX bb / cs) = x1 -> Zfloor (maxY bb / cs) = y1 ->
  boxCells bb cs =
  flat_map (fun gx => map (fun gy => (gx, gy)) (Zrange y0 y1)) (Zrange x0 x1).
Proof. intros <- <- <- <-. reflexivity. Qed.

Lemma farB_avgEdge : estimateAvgEdge farB = 4.
Proof.
  unfold estimateAvgEdge, farB, dist3. cbn.
  rsqrt ((0 - 3) * (0 - 3) + (0 - 0) * (0 - 0) + (0 - 0) * (0 - 0)) 3.
  rsqrt ((3 - 0) * (3 - 0) + (0 - 4) * (0 - 4) + (0 - 0) * (0 - 0)) 5.
  rsqrt ((0 - 0) * (0 - 0) + (4 - 0) * (4 - 0) + (0 - 0) * (0 - 0)) 4.
  lra.
Qed.

Lemma far_no_segments : intersectMeshPairTagged farA farB = [].
Proof.
  unfold intersectMeshPairTagged. rewrite farB_avgEdge.
  replace (Rmax (4 * 2) 0.1) with 8 by (rewrite Rmax_left; lra).
  unfold farA, farB, buildSpatialGrid, buildSpatialGridFrom, intersectFrom,
    insertTriangle, queryGrid.
  rewrite (boxCells_value _ 8 0 0 0 0);
    [| cbn; unfold Rmin3, Rmax3; rminmax; apply Zfloor_eq; simpl; lra ..].
  rewrite (boxCells_value _ 8 12 0 12 0);
    [| cbn; unfold Rmin3, Rmax3; rminmax; apply Zfloor_eq; simpl; lra ..].
  reflexivity.
Qed.

(** ** The splitter *)

Section SplitProperties.

Variable Delaunator : list (R * R) -> option (list (nat * nat * nat)).
Variable Constrainautor :
  list (nat * nat * nat) -> list (R * R) -> list (nat * nat) ->
  list (nat * nat * nat).

Let retriangulate := retriangulateWithSteinerPoints Delaunator Constrainautor.

(** C8. [retriangulateWithSteinerPoints] never returns an empty list,
    and whenever the frame or the determinant is degenerate, no
    Steiner endpoint survives, the Delaunay triangulation fails or the
    filter discards every sub-triangle, it returns the one-element
    list holding the parent triangle. *)
Theorem retriangulate_nonempty_fallback (tri : Triangle)
  (segments : list TaggedSegment) :
  retriangulate tri segments <> [] /\
  (SplitFails Delaunator Constrainautor tri segments ->
   retriangulate tri segments = [tri]).
Proof.
  unfold retriangulate, retriangulateWithSteinerPoints, SplitFails.
  destruct segments as [| seg segs]; [split; [discriminate | reflexivity] |].
  destruct (localFrame tri) as [f |]; [| split; [discriminate | reflexivity]].
  cbv zeta.
  set (l0 := toLocal f (v0 tri)). set (l1 := toLocal f (v1 tri)).
  set (l2 := toLocal f (v2 tri)). set (baryD := baryDet l0 l1 l2).
  destruct (Rltb (Rabs baryD) 1e-12) eqn:Hd;
    [split; [discriminate | reflexivity] |].
  apply Rltb_false_iff in Hd.
  set (vs := collectSteiner f l0 l1 l2 baryD tri (seg :: segs)).
  destruct vs as [| s0 vs'] eqn:Hvs; [split; [discriminate | reflexivity] |].
  rewrite <- Hvs.
  destruct (Delaunator (map (toLocal f) (splitPoints tri vs))) as [del |] eqn:HD;
    [| split; [discriminate | reflexivity]].
  set (sub := filteredSubTriangles tri l0 l1 l2 baryD _ _ _).
  destruct sub as [| t ts] eqn:Hsub; [split; [discriminate | reflexivity] |].
  split; [discriminate |].
  intros [Hnone | [f' [Hf H]]]; [discriminate |].
  injection Hf as <-. cbv zeta in H.
  change (Rabs baryD < 1e-12 \/ vs = [] \/
          Delaunator (map (toLocal f) (splitPoints tri vs)) = None \/
          exists del', Delaunator (map (toLocal f) (splitPoints tri vs)) = Some del' /\
            filteredSubTriangles tri l0 l1 l2 baryD (splitPoints tri vs)
              (map (toLocal f) (splitPoints tri vs))
              (Constrainautor del' (map (toLocal f) (splitPoints tri vs))
                 (constraintEdges (buildKeyToIndex tri vs) (seg :: segs))) = [])
    in H.
  destruct H as [H | [H | [H | [del' [Hdel H]]]]].
  - lra.
  - rewrite Hvs in H. discriminate.
  - rewrite HD in H. discriminate.
  - rewrite HD in Hdel. injection Hdel as <-.
    fold sub in H. rewrite Hsub in H. discriminate.
Qed.

End SplitProperties.

Lemma needle_no_frame : localFrame needle = None.
Proof.
  unfold localFrame, needle. cbn.
  rsqrt ((0 - 0) * (0 - 0) + (0 - 0) * (0 - 0) + (0 - 0) * (0 - 0)) 0.
  rcompare. reflexivity.
Qed.

Lemma retriangulate_nonempty_fallback_witness :
  SplitFails delaunatorFails constrainNothing needle [needleSegment] /\
  retriangulateWithSteinerPoints delaunatorFails constrainNothing needle
    [needleSegment] = [needle].
Proof.
  assert (H : SplitFails delaunatorFails constrainNothing needle [needleSegment])
    by (left; exact needle_no_frame).
  split; [exact H |].
  exact (proj2 (retriangulate_nonempty_fallback delaunatorFails constrainNothing
                  needle [needleSegment]) H).
Defined.

(** ** Welding *)

Lemma getOrAddPoint_grows (cs tolSq : R) (st : list Vertex * Grid3) (v : Vertex) :
  let '(st', i) := getOrAddPoint cs tolSq st v in
  (i < List.length (fst st'))%nat /\
  (List.length (fst st) <= List.length (fst st'))%nat.
Proof.
  unfold getOrAddPoint. destruct st as [pts g].
  destruct (find _ _) as [c |] eqn:Hf; cbn [fst].
  - split; [| lia]. apply find_some in Hf. destruct Hf as [_ Hw].
    unfold withinTol in Hw. destruct (nth_error pts c) eqn:Hn; [| discriminate].
    apply nth_error_Some. congruence.
  - rewrite length_app. cbn. lia.
Qed.

Lemma weldLoop_indices (cs tolSq : R) (tris : Soup) :
  forall st,
    let '(st', idxs) := weldLoop cs tolSq st tris in
    List.length idxs = List.length tris /\
    (List.length (fst st) <= List.length (fst st'))%nat /\
    forall i0 i1 i22, In (i0, i1, i22) idxs ->
      (i0 < List.length (fst st'))%nat /\ (i1 < List.length (fst st'))%nat /\
      (i22 < List.length (fst st'))%nat.
Proof.
  induction tris as [| tri rest IH]; intro st; cbn [weldLoop].
  - split; [reflexivity |]. split; [lia |]. intros i0 i1 i22 [].
  - pose proof (getOrAddPoint_grows cs tolSq st (v0 tri)) as H0.
    destruct (getOrAddPoint cs tolSq st (v0 tri)) as [st0 i0].
    pose proof (getOrAddPoint_grows cs tolSq st0 (v1 tri)) as H1.
    destruct (getOrAddPoint cs tolSq st0 (v1 tri)) as [st1 i1].
    pose proof (getOrAddPoint_grows cs tolSq st1 (v2 tri)) as H2.
    destruct (getOrAddPoint cs tolSq st1 (v2 tri)) as [st2 i22].
    specialize (IH st2). destruct (weldLoop cs tolSq st2 rest) as [stEnd idxs].
    destruct IH as [Hlen [Hgrow Hin]]. split; [cbn; lia |]. split; [lia |].
    intros j0 j1 j2 [Heq | Hj]; [| now apply Hin].
    injection Heq as <- <- <-. lia.
Qed.

Lemma collapsed_false_iff (t : nat * nat * nat) :
  collapsed t = false <-> pairwiseDistinct t.
Proof.
  destruct t as [[i0 i1] i22]. unfold collapsed, pairwiseDistinct.
  rewrite !orb_false_iff, !Nat.eqb_neq. tauto.
Qed.

Lemma weldVertices_positive (tris : Soup) (tolerance : R) :
  0 < tolerance ->
  let w := weldVertices tris tolerance in
  triangles w = map (indexedTriangle (points w))
                    (filter (fun t => negb (collapsed t)) (weldIndices tris tolerance)).
Proof.
  intro Htol. unfold weldVertices, weldIndices.
  rewrite Rleb_false by lra.
  destruct (weldLoop _ _ _ tris) as [[pts g] idxs]. reflexivity.
Qed.

Lemma weld_point_triangle (tolerance : R) :
  0 < tolerance ->
  triangles (weldVertices [mkT (mkV 0 0 0) (mkV 0 0 0) (mkV 0 0 0)] tolerance) = [].
Proof.
  intro Htol. rewrite weldVertices_positive by assumption.
  unfold weldIndices. set (cs := Rmax (tolerance * 2) 0.002).
  assert (Hfloor : Zfloor (0 / cs) = 0%Z).
  { apply Zfloor_eq. unfold Rdiv. rewrite Rmult_0_l. simpl. lra. }
  assert (Hin : forall pts, withinTol (mkV 0 0 0 :: pts) (mkV 0 0 0)
                              (tolerance * tolerance) 0 = true).
  { intro pts. unfold withinTol. cbn. apply Rleb_true. nra. }
  set (o := mkV 0 0 0) in *.
  set (g1 := [((0%Z, 0%Z, 0%Z), [0%nat])] : Grid3).
  assert (H1 : getOrAddPoint cs (tolerance * tolerance) ([], []) o
               = (([o], g1), 0%nat)).
  { unfold getOrAddPoint. cbn [vx vy vz o]. rewrite Hfloor. reflexivity. }
  assert (H2 : getOrAddPoint cs (tolerance * tolerance) ([o], g1) o
               = (([o], g1), 0%nat)).
  { unfold getOrAddPoint. cbn [vx vy vz o]. rewrite Hfloor.
    replace (flat_map (grid3Get g1) (around 0 0 0)) with [0%nat] by reflexivity.
    cbn [find]. unfold o at 1. rewrite Hin. reflexivity. }
  cbn [weldLoop v0 v1 v2]. fold o. rewrite H1, H2, H2. reflexivity.
Qed.

(** C10. For a positive tolerance [weldVertices] emits an indexed
    triangle only for an input triangle whose three vertices were
    mapped to three pairwise distinct pool points; the other triangles
    are dropped without notice, so the welded list can be shorter than
    the soup. *)
Theorem weldVertices_drops_collapsed (tris : Soup) (tolerance : R) :
  0 < tolerance ->
  let w := weldVertices tris tolerance in
  let idxs := weldIndices tris tolerance in
  List.length idxs = List.length tris /\
  (forall i0 i1 i22, In (i0, i1, i22) idxs ->
     (i0 < List.length (points w))%nat /\ (i1 < List.length (points w))%nat /\
     (i22 < List.length (points w))%nat) /\
  triangles w =
    map (indexedTriangle (points w)) (filter (fun t => negb (collapsed t)) idxs) /\
  (forall t, In t (filter (fun t => negb (collapsed t)) idxs) <->
             In t idxs /\ pairwiseDistinct t) /\
  (List.length (triangles w) <= List.length tris)%nat /\
  (exists soup : Soup,
     (List.length (triangles (weldVertices soup tolerance)) < List.length soup)%nat).
Proof.
  intro Htol. cbv zeta.
  pose proof (weldVertices_positive tris tolerance Htol) as Htri. cbv zeta in Htri.
  assert (Hpts : points (weldVertices tris tolerance) =
                 fst (fst (weldLoop (Rmax (tolerance * 2) 0.002)
                                    (tolerance * tolerance) ([], []) tris))).
  { unfold weldVertices. rewrite Rleb_false by lra.
    destruct (weldLoop _ _ _ tris) as [[pts g] idxs]. reflexivity. }
  pose proof (weldLoop_indices (Rmax (tolerance * 2) 0.002) (tolerance * tolerance)
                tris ([], [])) as Hloop.
  unfold weldIndices in *.
  destruct (weldLoop _ _ _ tris) as [st' idxs]. cbn [fst snd] in *.
  destruct Hloop as [Hlen [_ Hin]].
  split; [exact Hlen |]. split; [rewrite Hpts; exact Hin |].
  split; [exact Htri |]. split.
  - intro t. rewrite filter_In, negb_true_iff, collapsed_false_iff. tauto.
  - split.
    + rewrite Htri, length_map, <- Hlen. apply filter_length_le.
    + exists [mkT (mkV 0 0 0) (mkV 0 0 0) (mkV 0 0 0)].
      rewrite weld_point_triangle by assumption. cbn. lia.
Qed.

Lemma weldVertices_drops_collapsed_witness :
  0 < 1e-4 /\
  (List.length (triangles (weldVertices farA 1e-4)) <= List.length farA)%nat.
Proof.
  assert (H : 0 < 1e-4) by lra.
  split; [exact H |].
  exact (proj1 (proj2 (proj2 (proj2 (proj2
          (weldVertices_drops_collapsed farA 1e-4 H)))))).
Defined.

(** ** The triangle intersector and its detailed variant *)

Lemma triTriIntersection_overlap (triA triB : Triangle) :
  triTriIntersection triA triB =
  match clippedOverlap triA triB with
  | None => None
  | Some o =>
      let p0 := pointAt o (overlapMin o) in
      let p1 := pointAt o (overlapMax o) in
      let dx := vx p0 - vx p1 in
      let dy := vy p0 - vy p1 in
      let dz := vz p0 - vz p1 in
      if Rltb (sqrt (dx * dx + dy * dy + dz * dz)) 1e-8 then None
      else Some (mkSeg p0 p1)
  end.
Proof.
  unfold triTriIntersection, clippedOverlap.
  set (nB := triNormal triB). set (nA := triNormal triA).
  set (dB := - _). set (dA := - _).
  set (dA0 := _ + dB). set (dA1 := _ + dB). set (dA2 := _ + dB).
  cbv zeta.
  set (dB0 := _ + dA). set (dB1 := _ + dA). set (dB2 := _ + dA).
  destruct (allPositive dA0 dA1 dA2); [reflexivity |].
  destruct (allNegative dA0 dA1 dA2); [reflexivity |].
  destruct (allPositive dB0 dB1 dB2); [reflexivity |].
  destruct (allNegative dB0 dB1 dB2); [reflexivity |].
  destruct (Rgtb _ 0.9999); [reflexivity |].
  destruct (Rltb _ 1e-12); [reflexivity |].
  destruct (findLinePoint _ _ _ _ _) as [lp |]; [| reflexivity].
  destruct (computeTriInterval triA _ _ _ _ _) as [iA |]; [| reflexivity].
  destruct (computeTriInterval triB _ _ _ _ _) as [iB |]; [| reflexivity].
  destruct (Rgeb _ _); reflexivity.
Qed.

Lemma triTriIntersectionDetailed_overlap (triA triB : Triangle) :
  triTriIntersectionDetailed triA triB =
  match clippedOverlap triA triB with
  | None => None
  | Some o =>
      let segLen := overlapMax o - overlapMin o in
      if Rltb segLen 1e-8 then None
      else Some (mkDetailed (distA o) (distB o) segLen)
  end.
Proof.
  unfold triTriIntersectionDetailed, clippedOverlap.
  set (nB := triNormal triB). set (nA := triNormal triA).
  set (dB := - _). set (dA := - _).
  set (dA0 := _ + dB). set (dA1 := _ + dB). set (dA2 := _ + dB).
  cbv zeta.
  set (dB0 := _ + dA). set (dB1 := _ + dA). set (dB2 := _ + dA).
  destruct (allPositive dA0 dA1 dA2); [reflexivity |].
  destruct (allNegative dA0 dA1 dA2); [reflexivity |].
  destruct (allPositive dB0 dB1 dB2); [reflexivity |].
  destruct (allNegative dB0 dB1 dB2); [reflexivity |].
  destruct (Rgtb _ 0.9999); [reflexivity |].
  destruct (Rltb _ 1e-12); [reflexivity |].
  destruct (findLinePoint _ _ _ _ _) as [lp |]; [| reflexivity].
  destruct (computeTriInterval triA _ _ _ _ _) as [iA |]; [| reflexivity].
  destruct (computeTriInterval triB _ _ _ _ _) as [iB |]; [| reflexivity].
  destruct (Rgeb _ _); reflexivity.
Qed.

Lemma normalised_unit (x y z : R) :
  Rltb (sqrt (x * x + y * y + z * z)) 1e-12 = false ->
  let len := sqrt (x * x + y * y + z * z) in
  x / len * (x / len) + y / len * (y / len) + z / len * (z / len) = 1.
Proof.
  intros H len. apply Rltb_false_iff in H. fold len in H.
  assert (Hs : 0 <= x * x + y * y + z * z) by nra.
  assert (Hsq : len * len = x * x + y * y + z * z) by (apply sqrt_sqrt; exact Hs).
  assert (Hpos : len <> 0) by lra.
  replace (x / len * (x / len) + y / len * (y / len) + z / len * (z / len))
    with ((x * x + y * y + z * z) / (len * len)) by (field; exact Hpos).
  rewrite <- Hsq. field. exact Hpos.
Qed.

Lemma clippedOverlap_sound (triA triB : Triangle) (o : Overlap) :
  clippedOverlap triA triB = Some o ->
  dot (oLineDir o) (oLineDir o) = 1 /\ overlapMin o < overlapMax o - 1e-10.
Proof.
  unfold clippedOverlap.
  set (nB := triNormal triB). set (nA := triNormal triA).
  set (dB := - _). set (dA := - _).
  set (dA0 := _ + dB). set (dA1 := _ + dB). set (dA2 := _ + dB).
  cbv zeta.
  set (dB0 := _ + dA). set (dB1 := _ + dA). set (dB2 := _ + dA).
  destruct (allPositive dA0 dA1 dA2); [discriminate |].
  destruct (allNegative dA0 dA1 dA2); [discriminate |].
  destruct (allPositive dB0 dB1 dB2); [discriminate |].
  destruct (allNegative dB0 dB1 dB2); [discriminate |].
  destruct (Rgtb _ 0.9999); [discriminate |].
  destruct (Rltb _ 1e-12) eqn:Hlen; [discriminate |].
  destruct (findLinePoint _ _ _ _ _) as [lp |]; [| discriminate].
  destruct (computeTriInterval triA _ _ _ _ _) as [iA |]; [| discriminate].
  destruct (computeTriInterval triB _ _ _ _ _) as [iB |]; [| discriminate].
  destruct (Rgeb _ _) eqn:Hge; [discriminate |].
  intro H. injection H as <-. cbn [oLineDir overlapMin overlapMax]. split.
  - unfold dot. cbn [vx vy vz]. exact (normalised_unit _ _ _ Hlen).
  - unfold Rgeb in Hge. apply Rleb_false_iff in Hge. exact Hge.
Qed.

Lemma segment_length (o : Overlap) :
  dot (oLineDir o) (oLineDir o) = 1 -> overlapMin o <= overlapMax o ->
  let p0 := pointAt o (overlapMin o) in
  let p1 := pointAt o (overlapMax o) in
  let dx := vx p0 - vx p1 in
  let dy := vy p0 - vy p1 in
  let dz := vz p0 - vz p1 in
  sqrt (dx * dx + dy * dy + dz * dz) = overlapMax o - overlapMin o.
Proof.
  intros Hunit Hle. cbv zeta. unfold pointAt. cbn [vx vy vz].
  unfold dot in Hunit. apply sqrt_value; [lra |].
  set (w := overlapMax o - overlapMin o).
  replace (_ + _ + _) with (w * w * (vx (oLineDir o) * vx (oLineDir o)
                                      + vy (oLineDir o) * vy (oLineDir o)
                                      + vz (oLineDir o) * vz (oLineDir o)))
    by (unfold w; ring).
  rewrite Hunit. ring.
Qed.

(** Over the real numbers [triTriIntersectionDetailed] returns a record
    exactly when [triTriIntersection] returns a segment: the line
    direction is a unit vector, so the two last tests compare the same
    number with 1e-8.  In double precision they do not
    ([Doubles.triTriIntersection] below). *)
Lemma same_rejections_over_reals (triA triB : Triangle) :
  triTriIntersectionDetailed triA triB <> None <->
  triTriIntersection triA triB <> None.
Proof.
  rewrite triTriIntersection_overlap, triTriIntersectionDetailed_overlap.
  destruct (clippedOverlap triA triB) as [o |] eqn:Ho; [| tauto].
  destruct (clippedOverlap_sound triA triB o Ho) as [Hunit Hlt].
  cbv zeta. rewrite (segment_length o Hunit) by lra.
  destruct (Rltb (overlapMax o - overlapMin o) 1e-8); split; intro H;
    try discriminate; now contradiction H.
Qed.

(** The detailed variant reports the length of the segment the plain
    variant returns. *)
Lemma triTriIntersectionDetailed_segLen (triA triB : Triangle) (d : Detailed)
  (s : Segment) :
  triTriIntersectionDetailed triA triB = Some d ->
  triTriIntersection triA triB = Some s ->
  segLen d = dist3 (p0 s) (p1 s).
Proof.
  rewrite triTriIntersection_overlap, triTriIntersectionDetailed_overlap.
  destruct (clippedOverlap triA triB) as [o |] eqn:Ho; [| discriminate].
  destruct (clippedOverlap_sound triA triB o Ho) as [Hunit Hlt].
  cbv zeta. pose proof (segment_length o Hunit) as Hlen. cbv zeta in Hlen.
  rewrite Hlen by lra.
  destruct (Rltb (overlapMax o - overlapMin o) 1e-8); [discriminate |].
  intros Hd Hs. injection Hd as <-. injection Hs as <-.
  cbn [segLen p0 p1]. unfold dist3. symmetry. apply Hlen. lra.
Qed.

(** ** The spatial grid *)

Lemma In_Zrange (lo hi z : Z) : In z (Zrange lo hi) <-> (lo <= z <= hi)%Z.
Proof.
  unfold Zrange. rewrite in_map_iff. split.
  - intros [k [<- Hk]]. apply in_seq in Hk. lia.
  - intro H. exists (Z.to_nat (z - lo)). split; [lia |]. apply in_seq. lia.
Qed.

Lemma In_boxCells (bb : BBox) (cs : R) (gx gy : Z) :
  In (gx, gy) (boxCells bb cs) <->
  (Zfloor (minX bb / cs) <= gx <= Zfloor (maxX bb / cs))%Z /\
  (Zfloor (minY bb / cs) <= gy <= Zfloor (maxY bb / cs))%Z.
Proof.
  unfold boxCells. rewrite in_flat_map. split.
  - intros [x [Hx Hin]]. apply in_map_iff in Hin. destruct Hin as [y [Heq Hy]].
    injection Heq as <- <-. apply In_Zrange in Hx, Hy. tauto.
  - intros [Hx Hy]. exists gx. split; [now apply In_Zrange |].
    apply in_map_iff. exists gy. split; [reflexivity | now apply In_Zrange].
Qed.

Lemma cellEqb_eq (a b : Z * Z) : cellEqb a b = true <-> a = b.
Proof.
  destruct a as [a1 a2], b as [b1 b2]. unfold cellEqb. cbn [fst snd].
  rewrite andb_true_iff, !Z.eqb_eq. split; [intros [-> ->]; reflexivity |].
  intro H. injection H as -> ->. tauto.
Qed.

Lemma binned_gridPush (g : Grid) (k : Z * Z) (i : nat) (key : Z * Z) (j : nat) :
  binned (gridPush g k i) key j <-> binned g key j \/ (key = k /\ j = i).
Proof.
  unfold binned. induction g as [| [k0 cell0] rest IH]; cbn [gridPush gridGet].
  - destruct (cellEqb k key) eqn:He.
    + apply cellEqb_eq in He. subst key. split.
      * intros [cell [Hc Hin]]. injection Hc as <-. destruct Hin as [<- | []].
        right. tauto.
      * intros [[cell [Hc _]] | [_ ->]]; [discriminate |].
        exists [i]. split; [reflexivity | now left].
    + split.
      * intros [cell [Hc _]]. discriminate.
      * intros [[cell [Hc _]] | [-> _]]; [discriminate |].
        assert (cellEqb k k = true) by now apply cellEqb_eq. congruence.
  - destruct (cellEqb k0 k) eqn:Hk; cbn [gridGet].
    + apply cellEqb_eq in Hk. subst k0.
      destruct (cellEqb k key) eqn:He.
      * apply cellEqb_eq in He. subst key. split.
        -- intros [cell [Hc Hin]]. injection Hc as <-. apply in_app_iff in Hin.
           destruct Hin as [Hin | [<- | []]]; [left; now exists cell0 | right; tauto].
        -- intros [[cell [Hc Hin]] | [_ ->]].
           ++ injection Hc as <-. exists (cell0 ++ [i]). split; [reflexivity |].
              apply in_app_iff. now left.
           ++ exists (cell0 ++ [i]). split; [reflexivity |].
              apply in_app_iff. right. now left.
      * split; [intros H; now left |].
        intros [H | [-> _]]; [exact H |].
        assert (cellEqb k k = true) by now apply cellEqb_eq. congruence.
    + destruct (cellEqb k0 key) eqn:He.
      * split; [intros H; now left |].
        intros [H | [-> _]]; [exact H | congruence].
      * exact IH.
Qed.

Lemma binned_insertTriangle (cs : R) (g : Grid) (i : nat) (tri : Triangle)
  (key : Z * Z) (j : nat) :
  binned (insertTriangle cs g i tri) key j <->
  binned g key j \/ (In key (boxCells (triBBox tri) cs) /\ j = i).
Proof.
  unfold insertTriangle. generalize (boxCells (triBBox tri) cs) as cells.
  intro cells. revert g. induction cells as [| c cells IH]; intro g; cbn [fold_left].
  - cbn. tauto.
  - rewrite IH, binned_gridPush. cbn [In]. intuition (subst; auto).
Qed.

Lemma binned_buildFrom (cs : R) (tris : Soup) :
  forall (g : Grid) (i : nat) (key : Z * Z) (j : nat),
    binned (buildSpatialGridFrom cs g i tris) key j <->
    binned g key j \/
    exists k tri, nth_error tris k = Some tri /\ j = (i + k)%nat /\
                  In key (boxCells (triBBox tri) cs).
Proof.
  induction tris as [| tri rest IH]; intros g i key j; cbn [buildSpatialGridFrom].
  - split; [now left |]. intros [H | [k [t [Hk _]]]]; [exact H |].
    destruct k; discriminate.
  - rewrite IH, binned_insertTriangle. split.
    + intros [[H | [Hin ->]] | [k [t [Hk [-> Hin]]]]].
      * now left.
      * right. exists 0%nat, tri. split; [reflexivity |]. split; [lia | exact Hin].
      * right. exists (S k), t. split; [exact Hk |]. split; [lia | exact Hin].
    + intros [H | [k [t [Hk [-> Hin]]]]]; [left; now left |].
      destruct k as [| k]; cbn in Hk.
      * injection Hk as <-. left. right. split; [exact Hin | lia].
      * right. exists k, t. split; [exact Hk |]. split; [lia | exact Hin].
Qed.

Lemma binned_build (tris : Soup) (cs : R) (key : Z * Z) (j : nat) :
  binned (buildSpatialGrid tris cs) key j <->
  exists tri, nth_error tris j = Some tri /\ In key (boxCells (triBBox tri) cs).
Proof.
  unfold buildSpatialGrid. rewrite binned_buildFrom. split.
  - intros [[cell [H _]] | [k [tri [Hk [-> Hin]]]]]; [discriminate |].
    now exists tri.
  - intros [tri [Hj Hin]]. right. now exists j, tri.
Qed.

Lemma memNat_In (i : nat) (l : list nat) : memNat i l = true <-> In i l.
Proof.
  unfold memNat. rewrite existsb_exists. split.
  - intros [x [Hx He]]. apply Nat.eqb_eq in He. now subst.
  - intro H. exists i. split; [exact H | apply Nat.eqb_refl].
Qed.

Lemma queryCell_spec (cell res : list nat) :
  NoDup res ->
  NoDup (queryCell res cell) /\
  forall j, In j (queryCell res cell) <-> In j res \/ In j cell.
Proof.
  unfold queryCell. revert res. induction cell as [| c cell IH]; intros res Hnd;
    cbn [fold_left].
  - split; [exact Hnd |]. intro j. cbn. tauto.
  - destruct (memNat c res) eqn:Hm.
    + apply memNat_In in Hm. destruct (IH res Hnd) as [Hn Hin]. split; [exact Hn |].
      intro j. rewrite Hin. cbn [In]. intuition (subst; auto).
    + assert (Hc : ~ In c res).
      { intro H. apply memNat_In in H. congruence. }
      assert (Hnd' : NoDup (res ++ [c])).
      { apply NoDup_app; [exact Hnd | constructor; [intros [] | constructor] |].
        intros x Hx [<- | []]. contradiction. }
      destruct (IH (res ++ [c]) Hnd') as [Hn Hin]. split; [exact Hn |].
      intro j. rewrite Hin, in_app_iff. cbn [In]. intuition (subst; auto).
Qed.

Lemma queryGrid_spec (g : Grid) (bb : BBox) (cs : R) :
  NoDup (queryGrid g bb cs) /\
  forall j, In j (queryGrid g bb cs) <->
            exists key, In key (boxCells bb cs) /\ binned g key j.
Proof.
  unfold queryGrid. generalize (boxCells bb cs) as cells. intro cells.
  assert (H : forall res, NoDup res ->
            NoDup (fold_left (fun res key =>
                     match gridGet g key with
                     | None => res | Some cell => queryCell res cell end) cells res) /\
            forall j, In j (fold_left (fun res key =>
                     match gridGet g key with
                     | None => res | Some cell => queryCell res cell end) cells res) <->
                      In j res \/ exists key, In key cells /\ binned g key j).
  { induction cells as [| c cells IH]; intros res Hnd; cbn [fold_left].
    - split; [exact Hnd |]. intro j. split; [now left |].
      intros [Hj | [key [[] _]]]. exact Hj.
    - destruct (gridGet g c) as [cell |] eqn:Hg.
      + destruct (queryCell_spec cell res Hnd) as [Hn Hin].
        destruct (IH _ Hn) as [Hn' Hin']. split; [exact Hn' |].
        intro j. rewrite Hin', Hin. split.
        * intros [[Hj | Hj] | [key [Hk Hb]]].
          -- now left.
          -- right. exists c. split; [now left | now exists cell].
          -- right. exists key. split; [now right | exact Hb].
        * intros [Hj | [key [[<- | Hk] Hb]]].
          -- left; now left.
          -- destruct Hb as [cell' [Hc' Hj]]. rewrite Hg in Hc'.
             injection Hc' as <-. left; now right.
          -- right. now exists key.
      + destruct (IH _ Hnd) as [Hn' Hin']. split; [exact Hn' |].
        intro j. rewrite Hin'. split.
        * intros [Hj | [key [Hk Hb]]]; [now left |].
          right. exists key. split; [now right | exact Hb].
        * intros [Hj | [key [[<- | Hk] Hb]]]; [now left | |].
          -- destruct Hb as [cell' [Hc' _]]. congruence.
          -- right. now exists key. }
  destruct (H [] (NoDup_nil _)) as [Hn Hin]. split; [exact Hn |].
  intro j. rewrite Hin. split; [intros [[] | Hj]; exact Hj | now right].
Qed.

(** ** The pair intersector *)

Lemma pairSegments_In (trisB : Soup) (i : nat) (triA : Triangle)
  (cands : list nat) (seg : TaggedSegment) :
  In seg (pairSegments trisB i triA cands) <->
  exists j triB s, In j cands /\ nth_error trisB j = Some triB /\
                   triTriIntersection triA triB = Some s /\
                   seg = mkTagged (p0 s) (p1 s) i j.
Proof.
  unfold pairSegments. rewrite in_flat_map. split.
  - intros [j [Hj Hin]]. destruct (nth_error trisB j) as [triB |] eqn:Hb; [| destruct Hin].
    destruct (triTriIntersection triA triB) as [s |] eqn:Hs; [| destruct Hin].
    destruct Hin as [<- | []]. now exists j, triB, s.
  - intros [j [triB [s [Hj [Hb [Hs ->]]]]]]. exists j. split; [exact Hj |].
    rewrite Hb, Hs. now left.
Qed.

Lemma pairSegments_tags (trisB : Soup) (i : nat) (triA : Triangle)
  (cands : list nat) :
  NoDup cands -> NoDup (map tags (pairSegments trisB i triA cands)).
Proof.
  unfold pairSegments. induction cands as [| j cands IH]; intro Hnd; cbn [flat_map].
  - constructor.
  - inversion Hnd as [| ? ? Hj Hnd']; subst. specialize (IH Hnd').
    rewrite map_app. apply NoDup_app; [| exact IH |].
    + destruct (nth_error trisB j); [| constructor].
      destruct (triTriIntersection triA t); [| constructor].
      cbn. constructor; [intros [] | constructor].
    + intros t Ht Hin. apply in_map_iff in Hin. destruct Hin as [seg [<- Hseg]].
      apply (pairSegments_In trisB i triA cands seg) in Hseg.
      destruct Hseg as [j' [triB' [s' [Hj' [_ [_ ->]]]]]].
      destruct (nth_error trisB j); [| destruct Ht].
      destruct (triTriIntersection triA t); [| destruct Ht].
      destruct Ht as [Ht | []]. cbn in Ht. injection Ht as <-. contradiction.
Qed.

Lemma intersectFrom_In (trisB : Soup) (g : Grid) (cs : R) (trisA : Soup) :
  forall (i0 : nat) (seg : TaggedSegment),
    In seg (intersectFrom trisB g cs i0 trisA) <->
    exists k triA j triB s,
      nth_error trisA k = Some triA /\ In j (queryGrid g (triBBox triA) cs) /\
      nth_error trisB j = Some triB /\ triTriIntersection triA triB = Some s /\
      seg = mkTagged (p0 s) (p1 s) (i0 + k) j.
Proof.
  induction trisA as [| triA rest IH]; intros i0 seg; cbn [intersectFrom].
  - split; [intros [] |]. intros [k [t [j [tb [s [Hk _]]]]]]. destruct k; discriminate.
  - rewrite in_app_iff, pairSegments_In, IH. split.
    + intros [[j [triB [s [Hj [Hb [Hs ->]]]]]] | [k [t [j [triB [s [Hk [Hj [Hb [Hs ->]]]]]]]]]].
      * exists 0%nat, triA, j, triB, s. rewrite Nat.add_0_r. now repeat split.
      * exists (S k), t, j, triB, s. rewrite Nat.add_succ_r. now repeat split.
    + intros [k [t [j [triB [s [Hk [Hj [Hb [Hs ->]]]]]]]]]. destruct k as [| k]; cbn in Hk.
      * injection Hk as <-. left. exists j, triB, s. rewrite Nat.add_0_r.
        now repeat split.
      * right. exists k, t, j, triB, s. rewrite Nat.add_succ_r. now repeat split.
Qed.

Lemma intersectFrom_tags (trisB : Soup) (g : Grid) (cs : R) (trisA : Soup) :
  forall i0 : nat, NoDup (map tags (intersectFrom trisB g cs i0 trisA)).
Proof.
  induction trisA as [| triA rest IH]; intro i0; cbn [intersectFrom].
  - constructor.
  - rewrite map_app. apply NoDup_app.
    + apply pairSegments_tags. apply queryGrid_spec.
    + apply IH.
    + intros t Ht Hin. apply in_map_iff in Ht, Hin.
      destruct Ht as [seg [<- Hseg]]. destruct Hin as [seg' [Heq Hseg']].
      apply pairSegments_In in Hseg. destruct Hseg as [j [tb [s [_ [_ [_ ->]]]]]].
      apply intersectFrom_In in Hseg'.
      destruct Hseg' as [k [ta [j' [tb' [s' [_ [_ [_ [_ ->]]]]]]]]].
      cbn in Heq. injection Heq as Heq _. lia.
Qed.

Lemma Rmin3_le_Rmax3 (a b c : R) : Rmin3 a b c <= Rmax3 a b c.
Proof.
  unfold Rmin3, Rmax3.
  pose proof (Rmin_l a (Rmin b c)). pose proof (Rmax_l a (Rmax b c)). lra.
Qed.

Lemma Zfloor_div_le (x y cs : R) : 0 < cs -> x <= y ->
  (Zfloor (x / cs) <= Zfloor (y / cs))%Z.
Proof.
  intros Hcs Hxy. apply Zfloor_le. unfold Rdiv.
  apply Rmult_le_compat_r; [| exact Hxy].
  left. now apply Rinv_0_lt_compat.
Qed.

(** Two triangles whose boxes overlap in X and in Y share a grid cell. *)
Lemma overlap_shares_cell (ta tb : Triangle) (cs : R) :
  0 < cs -> bboxOverlapXY (triBBox ta) (triBBox tb) = true ->
  exists key, In key (boxCells (triBBox ta) cs) /\ In key (boxCells (triBBox tb) cs).
Proof.
  intros Hcs Hov. unfold bboxOverlapXY, Rgeb in Hov.
  rewrite !andb_true_iff, !Rleb_iff in Hov. destruct Hov as [[[Hx1 Hx2] Hy1] Hy2].
  pose proof (Rmin3_le_Rmax3 (vx (v0 ta)) (vx (v1 ta)) (vx (v2 ta))) as Hax.
  pose proof (Rmin3_le_Rmax3 (vy (v0 ta)) (vy (v1 ta)) (vy (v2 ta))) as Hay.
  pose proof (Rmin3_le_Rmax3 (vx (v0 tb)) (vx (v1 tb)) (vx (v2 tb))) as Hbx.
  pose proof (Rmin3_le_Rmax3 (vy (v0 tb)) (vy (v1 tb)) (vy (v2 tb))) as Hby.
  cbn [triBBox minX maxX minY maxY] in *.
  set (ax0 := Rmin3 (vx (v0 ta)) _ _) in *. set (ax1 := Rmax3 (vx (v0 ta)) _ _) in *.
  set (ay0 := Rmin3 (vy (v0 ta)) _ _) in *. set (ay1 := Rmax3 (vy (v0 ta)) _ _) in *.
  set (bx0 := Rmin3 (vx (v0 tb)) _ _) in *. set (bx1 := Rmax3 (vx (v0 tb)) _ _) in *.
  set (by0 := Rmin3 (vy (v0 tb)) _ _) in *. set (by1 := Rmax3 (vy (v0 tb)) _ _) in *.
  exists (Z.max (Zfloor (ax0 / cs)) (Zfloor (bx0 / cs)),
          Z.max (Zfloor (ay0 / cs)) (Zfloor (by0 / cs))).
  rewrite !In_boxCells. cbn [triBBox minX maxX minY maxY].
  fold ax0 ax1 ay0 ay1 bx0 bx1 by0 by1.
  pose proof (Zfloor_div_le ax0 ax1 cs Hcs Hax).
  pose proof (Zfloor_div_le ay0 ay1 cs Hcs Hay).
  pose proof (Zfloor_div_le bx0 bx1 cs Hcs Hbx).
  pose proof (Zfloor_div_le by0 by1 cs Hcs Hby).
  pose proof (Zfloor_div_le ax0 bx1 cs Hcs Hx1).
  pose proof (Zfloor_div_le bx0 ax1 cs Hcs Hx2).
  pose proof (Zfloor_div_le ay0 by1 cs Hcs Hy1).
  pose proof (Zfloor_div_le by0 ay1 cs Hcs Hy2).
  lia.
Qed.

Lemma unique_tag (segs : list TaggedSegment) (seg : TaggedSegment) :
  NoDup (map tags segs) -> In seg segs ->
  filter (tagsEqb (tags seg)) segs = [seg].
Proof.
  induction segs as [| s segs IH]; intros Hnd Hin; [destruct Hin |].
  cbn [map] in Hnd. inversion Hnd as [| ? ? Hs Hnd']; subst.
  assert (Hnone : forall x, ~ In (tags x) (map tags segs) ->
                            filter (tagsEqb (tags x)) segs = []).
  { clear. intros x Hx. induction segs as [| y segs IH]; [reflexivity |].
    cbn [filter]. destruct (tagsEqb (tags x) y) eqn:He.
    - exfalso. apply Hx. left. unfold tagsEqb, tags in *. cbn [fst snd] in He.
      apply andb_true_iff in He. destruct He as [H1 H2].
      apply Nat.eqb_eq in H1, H2. now rewrite H1, H2.
    - apply IH. intro H. apply Hx. now right. }
  cbn [filter]. destruct Hin as [-> | Hin].
  - assert (He : tagsEqb (tags seg) seg = true).
    { unfold tagsEqb, tags. cbn [fst snd]. now rewrite !Nat.eqb_refl. }
    rewrite He. f_equal. now apply Hnone.
  - destruct (tagsEqb (tags seg) s) eqn:He.
    + exfalso. apply Hs. unfold tagsEqb, tags in He. cbn [fst snd] in He.
      apply andb_true_iff in He. destruct He as [H1 H2].
      apply Nat.eqb_eq in H1, H2.
      replace (tags s) with (tags seg) by (unfold tags; now rewrite H1, H2).
      now apply in_map.
    + now apply IH.
Qed.

Lemma cellSize_positive (avgEdge : R) : 0 < Rmax (avgEdge * 2) 0.1.
Proof. pose proof (Rmax_r (avgEdge * 2) 0.1). lra. Qed.

(** Every emitted segment is the intersection of the pair it is tagged
    with, and the pair was proposed by the grid. *)
Lemma intersectMeshPairTagged_In (trisA trisB : Soup) (seg : TaggedSegment) :
  In seg (intersectMeshPairTagged trisA trisB) <->
  exists triA triB s,
    nth_error trisA (idxA seg) = Some triA /\
    nth_error trisB (idxB seg) = Some triB /\
    (exists key, In key (boxCells (triBBox triA) (Rmax (estimateAvgEdge trisB * 2) 0.1))
              /\ In key (boxCells (triBBox triB) (Rmax (estimateAvgEdge trisB * 2) 0.1))) /\
    triTriIntersection triA triB = Some s /\
    seg = mkTagged (p0 s) (p1 s) (idxA seg) (idxB seg).
Proof.
  unfold intersectMeshPairTagged. rewrite intersectFrom_In. split.
  - intros [k [triA [j [triB [s [Hk [Hj [Hb [Hs ->]]]]]]]]]. cbn [idxA idxB].
    exists triA, triB, s. repeat split; try assumption.
    apply queryGrid_spec in Hj. destruct Hj as [key [Hkey Hbin]].
    apply binned_build in Hbin. destruct Hbin as [tb [Htb Hin]].
    exists key. split; [exact Hkey |]. congruence.
  - intros [triA [triB [s [Ha [Hb [[key [Hka Hkb]] [Hs Heq]]]]]]].
    exists (idxA seg), triA, (idxB seg), triB, s. repeat split; try assumption.
    apply queryGrid_spec. exists key. split; [exact Hka |].
    apply binned_build. now exists triB.
Qed.

Lemma intersectMeshPairTagged_tags (trisA trisB : Soup) :
  NoDup (map tags (intersectMeshPairTagged trisA trisB)).
Proof. unfold intersectMeshPairTagged. apply intersectFrom_tags. Qed.

Lemma filter_none {A : Type} (f : A -> bool) (l : list A) :
  (forall x, In x l -> f x = false) -> filter f l = [].
Proof.
  induction l as [| a l IH]; intro H; [reflexivity |]. cbn [filter].
  rewrite (H a (or_introl eq_refl)). apply IH. intros x Hx. apply H. now right.
Qed.

(** C5, as the code has it.  For a pair of triangles (i, j) whose
    bounding boxes overlap in X and Y (as they do when the 3D boxes
    overlap), [intersectMeshPairTagged] emits exactly one segment
    tagged (i, j) when [triTriIntersection] is non-null, namely that
    segment, and none when it is null; and no pair of tags is emitted
    twice, whatever the soups. *)
Theorem intersectMeshPairTagged_overlapping_pair (trisA trisB : Soup) (i j : nat)
  (triA triB : Triangle) :
  nth_error trisA i = Some triA -> nth_error trisB j = Some triB ->
  bboxOverlapXY (triBBox triA) (triBBox triB) = true ->
  let segs := intersectMeshPairTagged trisA trisB in
  NoDup (map tags segs) /\
  filter (tagsEqb (i, j)) segs =
    match triTriIntersection triA triB with
    | Some s => [mkTagged (p0 s) (p1 s) i j]
    | None => []
    end.
Proof.
  intros Ha Hb Hov segs. split; [apply intersectMeshPairTagged_tags |].
  destruct (triTriIntersection triA triB) as [s |] eqn:Hs.
  - assert (Hin : In (mkTagged (p0 s) (p1 s) i j) segs).
    { apply intersectMeshPairTagged_In. cbn [idxA idxB].
      exists triA, triB, s. repeat split; try assumption.
      apply overlap_shares_cell; [apply cellSize_positive | exact Hov]. }
    exact (unique_tag segs _ (intersectMeshPairTagged_tags trisA trisB) Hin).
  - apply filter_none. intros seg Hseg.
    destruct (tagsEqb (i, j) seg) eqn:He; [| reflexivity].
    unfold tagsEqb in He. cbn [fst snd] in He. apply andb_true_iff in He.
    destruct He as [H1 H2]. apply Nat.eqb_eq in H1, H2.
    apply intersectMeshPairTagged_In in Hseg.
    destruct Hseg as [ta [tb [s [Ha' [Hb' [_ [Hs' _]]]]]]].
    rewrite H1 in Ha'. rewrite H2 in Hb'. congruence.
Qed.

Lemma flat_upright_overlap :
  bboxOverlapXY (triBBox flatTri) (triBBox uprightTri) = true.
Proof.
  unfold bboxOverlapXY, Rgeb, triBBox, flatTri, uprightTri, Rmin3, Rmax3.
  cbn [minX maxX minY maxY vx vy vz v0 v1 v2]. rminmax. rcompare. reflexivity.
Qed.

Lemma intersectMeshPairTagged_overlapping_pair_witness :
  nth_error [flatTri] 0 = Some flatTri /\
  nth_error [uprightTri] 0 = Some uprightTri /\
  bboxOverlapXY (triBBox flatTri) (triBBox uprightTri) = true /\
  NoDup (map tags (intersectMeshPairTagged [flatTri] [uprightTri])) /\
  filter (tagsEqb (0%nat, 0%nat)) (intersectMeshPairTagged [flatTri] [uprightTri]) =
    match triTriIntersection flatTri uprightTri with
    | Some s => [mkTagged (p0 s) (p1 s) 0 0]
    | None => []
    end.
Proof.
  split; [reflexivity |]. split; [reflexivity |].
  split; [exact flat_upright_overlap |].
  exact (intersectMeshPairTagged_overlapping_pair [flatTri] [uprightTri] 0 0
           flatTri uprightTri eq_refl eq_refl flat_upright_overlap).
Defined.

(** ** A pair the grid never proposes *)

Lemma triNormal_regular (tri : Triangle) (len : R) :
  let n := cross (mkV (vx (v1 tri) - vx (v0 tri)) (vy (v1 tri) - vy (v0 tri))
                      (vz (v1 tri) - vz (v0 tri)))
                 (mkV (vx (v2 tri) - vx (v0 tri)) (vy (v2 tri) - vy (v0 tri))
                      (vz (v2 tri) - vz (v0 tri))) in
  1e-15 <= len -> len * len = vx n * vx n + vy n * vy n + vz n * vz n ->
  triNormal tri = mkV (vx n / len) (vy n / len) (vz n / len).
Proof.
  intros n Hlen Hsq. unfold triNormal. fold n.
  rewrite (sqrt_value _ len) by lra. rewrite Rltb_false by lra. reflexivity.
Qed.

Lemma triNormal_degenerate (tri : Triangle) :
  let n := cross (mkV (vx (v1 tri) - vx (v0 tri)) (vy (v1 tri) - vy (v0 tri))
                      (vz (v1 tri) - vz (v0 tri)))
                 (mkV (vx (v2 tri) - vx (v0 tri)) (vy (v2 tri) - vy (v0 tri))
                      (vz (v2 tri) - vz (v0 tri))) in
  vx n * vx n + vy n * vy n + vz n * vz n < 1e-30 ->
  triNormal tri = mkV 0 0 1.
Proof.
  intros n Hsmall. unfold triNormal. fold n.
  rewrite Rltb_true; [reflexivity |].
  replace 1e-15 with (sqrt 1e-30) by (apply sqrt_value; lra).
  apply sqrt_lt_1_alt. split; [nra | exact Hsmall].
Qed.

Lemma skewTri_normal : triNormal skewTri = mkV 0.6 0 0.8.
Proof.
  rewrite (triNormal_regular skewTri 3); unfold skewTri, cross;
    cbn [vx vy vz v0 v1 v2]; [| lra | lra].
  f_equal; lra.
Qed.

Lemma tinyTri_normal : triNormal tinyTri = mkV 0 0 1.
Proof.
  apply triNormal_degenerate. unfold tinyTri, cross.
  cbn [vx vy vz v0 v1 v2]. lra.
Qed.

(** [clippedOverlap] from the values of its intermediate results. *)
Lemma clippedOverlap_value (triA triB : Triangle) (nA nB l0 lineDir lp : Vertex)
  (dA dB dA0 dA1 dA2 dB0 dB1 dB2 len oMin oMax : R) (iA iB : Interval) :
  triNormal triB = nB -> triNormal triA = nA ->
  - (vx nB * vx (v0 triB) + vy nB * vy (v0 triB) + vz nB * vz (v0 triB)) = dB ->
  vx nB * vx (v0 triA) + vy nB * vy (v0 triA) + vz nB * vz (v0 triA) + dB = dA0 ->
  vx nB * vx (v1 triA) + vy nB * vy (v1 triA) + vz nB * vz (v1 triA) + dB = dA1 ->
  vx nB * vx (v2 triA) + vy nB * vy (v2 triA) + vz nB * vz (v2 triA) + dB = dA2 ->
  allPositive dA0 dA1 dA2 = false -> allNegative dA0 dA1 dA2 = false ->
  - (vx nA * vx (v0 triA) + vy nA * vy (v0 triA) + vz nA * vz (v0 triA)) = dA ->
  vx nA * vx (v0 triB) + vy nA * vy (v0 triB) + vz nA * vz (v0 triB) + dA = dB0 ->
  vx nA * vx (v1 triB) + vy nA * vy (v1 triB) + vz nA * vz (v1 triB) + dA = dB1 ->
  vx nA * vx (v2 triB) + vy nA * vy (v2 triB) + vz nA * vz (v2 triB) + dA = dB2 ->
  allPositive dB0 dB1 dB2 = false -> allNegative dB0 dB1 dB2 = false ->
  Rgtb (Rabs (vx nA * vx nB + vy nA * vy nB + vz nA * vz nB)) 0.9999 = false ->
  cross nA nB = l0 ->
  sqrt (vx l0 * vx l0 + vy l0 * vy l0 + vz l0 * vz l0) = len ->
  Rltb len 1e-12 = false ->
  mkV (vx l0 / len) (vy l0 / len) (vz l0 / len) = lineDir ->
  findLinePoint nA dA nB dB lineDir = Some lp ->
  computeTriInterval triA lineDir lp dA0 dA1 dA2 = Some iA ->
  computeTriInterval triB lineDir lp dB0 dB1 dB2 = Some iB ->
  Rmax (imin iA) (imin iB) = oMin -> Rmin (imax iA) (imax iB) = oMax ->
  Rgeb oMin (oMax - 1e-10) = false ->
  clippedOverlap triA triB =
  Some (mkOverlap (dA0, dA1, dA2) (dB0, dB1, dB2) lineDir lp oMin oMax).
Proof.
  intros HnB HnA HdB HdA0 HdA1 HdA2 HpA HnegA HdA HdB0 HdB1 HdB2 HpB HnegB Hdot
         Hl0 Hlen Hlen12 Hdir Hlp HiA HiB HoMin HoMax Hok.
  unfold clippedOverlap. cbv zeta.
  rewrite HnB, HnA, HdB, HdA0, HdA1, HdA2, HpA, HnegA, HdA, HdB0, HdB1, HdB2,
    HpB, HnegB, Hdot, Hl0, Hlen, Hlen12, Hdir, Hlp, HiA, HiB, HoMin, HoMax, Hok.
  reflexivity.
Qed.

Ltac rvalue := cbn [vx vy vz v0 v1 v2 imin imax]; lra.
Ltac rtest :=
  unfold allPositive, allNegative, Rgtb, Rgeb; cbn [vx vy vz v0 v1 v2];
  rminmax; rcompare; reflexivity.
Ltac rvector := cbn [vx vy vz v0 v1 v2]; f_equal; lra.

Ltac rinterval :=
  unfold computeTriInterval, edgeParams, projectOnLine, Rgtb;
  cbn [vx vy vz v0 v1 v2]; rminmax; rcompare;
  cbn [andb orb app List.length Nat.ltb Nat.leb sortParams insertSorted];
  rcompare; cbn [hd last]; f_equal; f_equal; lra.

Lemma skew_tiny_overlap : clippedOverlap skewTri tinyTri = Some skewTinyOverlap.
Proof.
  unfold skewTinyOverlap.
  apply (clippedOverlap_value skewTri tinyTri (mkV 0.6 0 0.8) (mkV 0 0 1)
           (mkV 0 (-0.6) 0) (mkV 0 (-1) 0) (mkV 0.199999999 0 0)
           (-0.1199999994) 0 0 0 0.9 6e-10 6e-10 (-1.54e-8) 0.6
           (-1.9625e-8) (-3.75e-10)
           (mkInterval (-1) 1) (mkInterval (-1.9625e-8) (-3.75e-10)));
    unfold skewTri, tinyTri.
  - exact tinyTri_normal.
  - exact skewTri_normal.
  - rvalue.
  - rvalue.
  - rvalue.
  - rvalue.
  - rtest.
  - rtest.
  - rvalue.
  - rvalue.
  - rvalue.
  - rvalue.
  - rtest.
  - rtest.
  - rtest.
  - unfold cross. rvector.
  - cbn [vx vy vz]. apply sqrt_value; lra.
  - apply Rltb_false. lra.
  - rvector.
  - unfold findLinePoint, Rgeb. cbn [vx vy vz]. rminmax. rcompare. cbn [andb].
    rminmax. rcompare. f_equal. f_equal; lra.
  - rinterval.
  - rinterval.
  - cbn [imin imax]. rminmax. lra.
  - cbn [imin imax]. rminmax. lra.
  - rtest.
Qed.

Lemma skew_tiny_segment : triTriIntersection skewTri tinyTri = Some skewTinySegment.
Proof.
  rewrite triTriIntersection_overlap, skew_tiny_overlap. cbv zeta.
  pose proof (segment_length skewTinyOverlap) as Hlen. cbv zeta in Hlen.
  rewrite Hlen; unfold skewTinyOverlap, pointAt, dot;
    cbn [oLineDir oLinePoint overlapMin overlapMax vx vy vz]; [| lra | lra].
  rewrite Rltb_false by lra. unfold skewTinySegment. f_equal. f_equal; f_equal; lra.
Qed.

Lemma sqrt_le_value (e q : R) : 0 <= q -> e <= q * q -> sqrt e <= q.
Proof.
  intros Hq He. rewrite <- (sqrt_square q Hq). now apply sqrt_le_1_alt.
Qed.

Lemma tiny_cellSize : Rmax (estimateAvgEdge [tinyTri] * 2) 0.1 = 0.1.
Proof.
  apply Rmax_right. unfold estimateAvgEdge, dist3, tinyTri.
  cbn [List.length Nat.min firstn fold_left vx vy vz v0 v1 v2 INR].
  assert (H1 : sqrt ((0.2 - 0.2) * (0.2 - 0.2) + (0 - 2e-8) * (0 - 2e-8)
                     + (0 - 0) * (0 - 0)) <= 1e-3)
    by (apply sqrt_le_value; lra).
  assert (H2 : sqrt ((0.2 - 0.2) * (0.2 - 0.2) + (2e-8 - 1e-8) * (2e-8 - 1e-8)
                     + (0 - -2e-8) * (0 - -2e-8)) <= 1e-3)
    by (apply sqrt_le_value; lra).
  assert (H3 : sqrt ((0.2 - 0.2) * (0.2 - 0.2) + (1e-8 - 0) * (1e-8 - 0)
                     + (-2e-8 - 0) * (-2e-8 - 0)) <= 1e-3)
    by (apply sqrt_le_value; lra).
  lra.
Qed.

Lemma skew_cellSize : Rmax (estimateAvgEdge [skewTri] * 2) 0.1 = 4.
Proof.
  unfold estimateAvgEdge, dist3, skewTri.
  cbn [List.length Nat.min firstn fold_left vx vy vz v0 v1 v2 INR].
  rsqrt ((0.199999999 - 0.199999999) * (0.199999999 - 0.199999999)
         + (-1 - 1) * (-1 - 1) + (0 - 0) * (0 - 0)) 2.
  rsqrt ((0.199999999 - -1.000000001) * (0.199999999 - -1.000000001)
         + (1 - 1) * (1 - 1) + (0 - 0.9) * (0 - 0.9)) 1.5.
  rsqrt ((-1.000000001 - 0.199999999) * (-1.000000001 - 0.199999999)
         + (1 - -1) * (1 - -1) + (0.9 - 0) * (0.9 - 0)) 2.5.
  rewrite Rmax_left; lra.
Qed.

Lemma Zfloor_div_value (x cs : R) (z : Z) :
  0 < cs -> IZR z * cs <= x < (IZR z + 1) * cs -> Zfloor (x / cs) = z.
Proof.
  intros Hcs [Hlo Hhi]. apply Zfloor_eq. split.
  - apply Rmult_le_reg_r with cs; [exact Hcs |]. unfold Rdiv.
    rewrite Rmult_assoc, Rinv_l by lra. lra.
  - apply Rmult_lt_reg_r with cs; [exact Hcs |]. unfold Rdiv.
    rewrite Rmult_assoc, Rinv_l by lra. lra.
Qed.

Lemma skew_tiny_not_proposed : intersectMeshPairTagged [skewTri] [tinyTri] = [].
Proof.
  destruct (intersectMeshPairTagged [skewTri] [tinyTri]) as [| seg rest] eqn:He;
    [reflexivity | exfalso].
  assert (Hin : In seg (intersectMeshPairTagged [skewTri] [tinyTri]))
    by (rewrite He; now left).
  apply intersectMeshPairTagged_In in Hin.
  destruct Hin as [ta [tb [s [Ha [Hb [[[gx gy] [Hka Hkb]] _]]]]]].
  assert (ta = skewTri).
  { destruct (idxA seg) as [| [| n]]; cbn in Ha; congruence. }
  assert (tb = tinyTri).
  { destruct (idxB seg) as [| [| n]]; cbn in Hb; congruence. }
  subst ta tb. rewrite tiny_cellSize in Hka, Hkb.
  apply In_boxCells in Hka, Hkb. destruct Hka as [[_ Hhi] _]. destruct Hkb as [[Hlo _] _].
  assert (H1 : Zfloor (maxX (triBBox skewTri) / 0.1) = 1%Z).
  { unfold skewTri, triBBox, Rmax3. cbn [maxX vx v0 v1 v2]. rminmax.
    apply Zfloor_div_value; [lra | simpl; lra]. }
  assert (H2 : Zfloor (minX (triBBox tinyTri) / 0.1) = 2%Z).
  { unfold tinyTri, triBBox, Rmin3. cbn [minX vx v0 v1 v2]. rminmax.
    apply Zfloor_div_value; [lra | simpl; lra]. }
  lia.
Qed.

(** C5 fails as stated: the two triangles intersect according to
    [triTriIntersection], yet the grid never proposes the pair and no
    segment is emitted for it. *)
Lemma grid_misses_intersecting_pair :
  triTriIntersection skewTri tinyTri = Some skewTinySegment /\
  nth_error [skewTri] 0 = Some skewTri /\ nth_error [tinyTri] 0 = Some tinyTri /\
  intersectMeshPairTagged [skewTri] [tinyTri] = [].
Proof.
  split; [exact skew_tiny_segment |]. split; [reflexivity |].
  split; [reflexivity | exact skew_tiny_not_proposed].
Qed.

(** ** Symmetry of the triangle intersector *)

Lemma insertSorted_In (a x : R) (l : list R) :
  In x (insertSorted a l) <-> x = a \/ In x l.
Proof.
  induction l as [| b l IH]; cbn [insertSorted].
  - cbn. intuition.
  - destruct (Rleb a b); cbn [In]; [intuition | rewrite IH; intuition].
Qed.

Lemma sortParams_In (x : R) (l : list R) : In x (sortParams l) <-> In x l.
Proof.
  induction l as [| a l IH]; cbn [sortParams]; [tauto |].
  rewrite insertSorted_In, IH. cbn. intuition.
Qed.

Lemma insertSorted_sorted (a : R) (l : list R) :
  StronglySorted Rle l -> StronglySorted Rle (insertSorted a l).
Proof.
  induction l as [| b l IH]; intro Hs; cbn [insertSorted].
  - constructor; [constructor | constructor].
  - inversion Hs as [| ? ? Hs' Hb]; subst.
    destruct (Rleb a b) eqn:Hab.
    + apply Rleb_iff in Hab. constructor; [exact Hs |].
      constructor; [exact Hab |]. rewrite Forall_forall in *. intros x Hx.
      specialize (Hb x Hx). lra.
    + apply Rleb_false_iff in Hab. constructor; [now apply IH |].
      rewrite Forall_forall in *. intros x Hx. apply insertSorted_In in Hx.
      destruct Hx as [-> | Hx]; [lra | now apply Hb].
Qed.

Lemma sortParams_sorted (l : list R) : StronglySorted Rle (sortParams l).
Proof.
  induction l as [| a l IH]; cbn [sortParams]; [constructor |].
  now apply insertSorted_sorted.
Qed.

Lemma sorted_hd_min (l : list R) :
  StronglySorted Rle l -> l <> [] -> isMin (hd 0 l) l.
Proof.
  intros Hs Hne. destruct l as [| a l]; [contradiction |]. cbn [hd].
  inversion Hs as [| ? ? _ Ha]; subst. split; [now left |].
  intros x [<- | Hx]; [lra |]. rewrite Forall_forall in Ha. now apply Ha.
Qed.

Lemma sorted_last_max (l : list R) :
  StronglySorted Rle l -> l <> [] -> isMax (last l 0) l.
Proof.
  induction l as [| a l IH]; intros Hs Hne; [contradiction |].
  inversion Hs as [| ? ? Hs' Ha]; subst. rewrite Forall_forall in Ha.
  destruct l as [| b l'].
  - cbn. split; [now left |]. intros x [<- | []]. lra.
  - assert (Hne' : b :: l' <> []) by discriminate.
    destruct (IH Hs' Hne') as [Hin Hmax].
    change (last (a :: b :: l') 0) with (last (b :: l') 0).
    split; [now right |]. intros x [<- | Hx]; [| now apply Hmax].
    specialize (Ha _ Hin). exact Ha.
Qed.

Lemma isMin_unique (m m' : R) (l : list R) : isMin m l -> isMin m' l -> m = m'.
Proof. intros [H1 H2] [H1' H2']. specialize (H2 _ H1'). specialize (H2' _ H1). lra. Qed.

Lemma isMax_unique (m m' : R) (l : list R) : isMax m l -> isMax m' l -> m = m'.
Proof. intros [H1 H2] [H1' H2']. specialize (H2 _ H1'). specialize (H2' _ H1). lra. Qed.

Lemma isMin_sorted (l : list R) (m : R) :
  l <> [] -> isMin m (sortParams l) <-> isMin m l.
Proof.
  intros _. unfold isMin. rewrite sortParams_In. split; intros [H1 H2]; (split; [exact H1 |]);
    intros x Hx; apply H2; now apply sortParams_In.
Qed.

Lemma sortParams_nonempty (l : list R) : l <> [] -> sortParams l <> [].
Proof.
  intros Hne He. destruct l as [| a l]; [contradiction |].
  assert (H : In a (sortParams (a :: l))) by (apply sortParams_In; now left).
  rewrite He in H. destruct H.
Qed.

(** Sorting the negated parameters exchanges and negates the two ends. *)
Lemma sortParams_opp (l : list R) :
  l <> [] ->
  hd 0 (sortParams (map Ropp l)) = - last (sortParams l) 0 /\
  last (sortParams (map Ropp l)) 0 = - hd 0 (sortParams l).
Proof.
  intro Hne.
  assert (Hne' : map Ropp l <> []) by (destruct l; [contradiction | discriminate]).
  pose proof (sorted_hd_min _ (sortParams_sorted l) (sortParams_nonempty l Hne)) as [Hm1 Hm2].
  pose proof (sorted_last_max _ (sortParams_sorted l) (sortParams_nonempty l Hne)) as [HM1 HM2].
  pose proof (sorted_hd_min _ (sortParams_sorted (map Ropp l))
                (sortParams_nonempty _ Hne')) as Hmin'.
  pose proof (sorted_last_max _ (sortParams_sorted (map Ropp l))
                (sortParams_nonempty _ Hne')) as Hmax'.
  split.
  - apply (isMin_unique _ _ _ Hmin'). split.
    + apply sortParams_In, in_map, sortParams_In. exact HM1.
    + intros x Hx. apply sortParams_In, in_map_iff in Hx. destruct Hx as [y [<- Hy]].
      apply sortParams_In in Hy. specialize (HM2 _ Hy). lra.
  - apply (isMax_unique _ _ _ Hmax'). split.
    + apply sortParams_In, in_map, sortParams_In. exact Hm1.
    + intros x Hx. apply sortParams_In, in_map_iff in Hx. destruct Hx as [y [<- Hy]].
      apply sortParams_In in Hy. specialize (Hm2 _ Hy). lra.
Qed.

Lemma projectOnLine_neg (p d lp : Vertex) :
  projectOnLine p (neg d) lp = - projectOnLine p d lp.
Proof. unfold projectOnLine, neg. cbn [vx vy vz]. ring. Qed.

Lemma edgeParams_neg (vi vj d lp : Vertex) (di dj : R) :
  edgeParams vi vj (neg d) lp di dj = map Ropp (edgeParams vi vj d lp di dj).
Proof.
  unfold edgeParams. destruct (_ || _).
  - cbv zeta. cbn [map]. now rewrite projectOnLine_neg.
  - destruct (Rltb (Rabs di) 1e-10); cbn [map]; [now rewrite projectOnLine_neg | reflexivity].
Qed.

Lemma computeTriInterval_neg (tri : Triangle) (d lp : Vertex) (d0 d1 d2 : R) :
  computeTriInterval tri (neg d) lp d0 d1 d2 =
  option_map negInterval (computeTriInterval tri d lp d0 d1 d2).
Proof.
  unfold computeTriInterval. cbv zeta. rewrite !edgeParams_neg, <- !map_app.
  set (params := _ ++ _ ++ _). rewrite length_map.
  destruct (Nat.ltb (List.length params) 2) eqn:Hlen; [reflexivity |].
  assert (Hne : params <> []).
  { intro He. rewrite He in Hlen. cbn in Hlen. discriminate. }
  destruct (sortParams_opp params Hne) as [-> ->]. reflexivity.
Qed.

Lemma cross_swap (a b : Vertex) : cross b a = neg (cross a b).
Proof. unfold cross, neg. cbn [vx vy vz]. f_equal; ring. Qed.

Lemma Rleb_ext (a b c d : R) : (a <= b <-> c <= d) -> Rleb a b = Rleb c d.
Proof.
  intro H. destruct (Rleb c d) eqn:He.
  - apply Rleb_iff in He. apply Rleb_true. tauto.
  - apply Rleb_false_iff in He. apply Rleb_false.
    destruct (Rlt_dec b a); [assumption |]. exfalso. assert (a <= b) by lra. apply H in H0. lra.
Qed.

Lemma Rltb_ext (a b c d : R) : (a < b <-> c < d) -> Rltb a b = Rltb c d.
Proof.
  intro H. destruct (Rltb c d) eqn:He.
  - apply Rltb_iff in He. apply Rltb_true. tauto.
  - apply Rltb_false_iff in He. apply Rltb_false.
    destruct (Rle_dec b a); [assumption |]. exfalso. assert (a < b) by lra. apply H in H0. lra.
Qed.

Lemma findLinePoint_swap (nA nB d : Vertex) (dA dB : R) :
  findLinePoint nB dB nA dA (neg d) = findLinePoint nA dA nB dB d.
Proof.
  unfold findLinePoint. cbv zeta. unfold neg. cbn [vx vy vz]. rewrite !Rabs_Ropp.
  destruct (Rgeb (Rabs (vz d)) (Rabs (vx d)) && Rgeb (Rabs (vz d)) (Rabs (vy d))).
  - replace (vx nB * vy nA - vy nB * vx nA) with (- (vx nA * vy nB - vy nA * vx nB)) by ring.
    rewrite Rabs_Ropp. set (det := vx nA * vy nB - vy nA * vx nB).
    destruct (Rltb (Rabs det) 1e-12) eqn:Hd; [reflexivity |].
    apply Rltb_false_iff in Hd.
    assert (det <> 0) by (intro H0; rewrite H0, Rabs_R0 in Hd; lra).
    f_equal. f_equal; field; assumption.
  - destruct (Rgeb (Rabs (vy d)) (Rabs (vx d))).
    + replace (vx nB * vz nA - vz nB * vx nA) with (- (vx nA * vz nB - vz nA * vx nB)) by ring.
      rewrite Rabs_Ropp. set (det := vx nA * vz nB - vz nA * vx nB).
      destruct (Rltb (Rabs det) 1e-12) eqn:Hd; [reflexivity |].
      apply Rltb_false_iff in Hd.
      assert (det <> 0) by (intro H0; rewrite H0, Rabs_R0 in Hd; lra).
      f_equal. f_equal; field; assumption.
    + replace (vy nB * vz nA - vz nB * vy nA) with (- (vy nA * vz nB - vz nA * vy nB)) by ring.
      rewrite Rabs_Ropp. set (det := vy nA * vz nB - vz nA * vy nB).
      destruct (Rltb (Rabs det) 1e-12) eqn:Hd; [reflexivity |].
      apply Rltb_false_iff in Hd.
      assert (det <> 0) by (intro H0; rewrite H0, Rabs_R0 in Hd; lra).
      f_equal. f_equal; field; assumption.
Qed.

Lemma clippedOverlap_swap (triA triB : Triangle) :
  clippedOverlap triB triA = option_map swapOverlap (clippedOverlap triA triB).
Proof.
  unfold clippedOverlap. cbv zeta.
  set (nA := triNormal triA). set (nB := triNormal triB).
  set (dA := - (vx nA * vx (v0 triA) + vy nA * vy (v0 triA) + vz nA * vz (v0 triA))).
  set (dB := - (vx nB * vx (v0 triB) + vy nB * vy (v0 triB) + vz nB * vz (v0 triB))).
  set (dA0 := vx nB * vx (v0 triA) + vy nB * vy (v0 triA) + vz nB * vz (v0 triA) + dB).
  set (dA1 := vx nB * vx (v1 triA) + vy nB * vy (v1 triA) + vz nB * vz (v1 triA) + dB).
  set (dA2 := vx nB * vx (v2 triA) + vy nB * vy (v2 triA) + vz nB * vz (v2 triA) + dB).
  set (dB0 := vx nA * vx (v0 triB) + vy nA * vy (v0 triB) + vz nA * vz (v0 triB) + dA).
  set (dB1 := vx nA * vx (v1 triB) + vy nA * vy (v1 triB) + vz nA * vz (v1 triB) + dA).
  set (dB2 := vx nA * vx (v2 triB) + vy nA * vy (v2 triB) + vz nA * vz (v2 triB) + dA).
  destruct (allPositive dA0 dA1 dA2), (allNegative dA0 dA1 dA2),
    (allPositive dB0 dB1 dB2), (allNegative dB0 dB1 dB2);
    cbn [option_map]; try reflexivity.
  replace (vx nB * vx nA + vy nB * vy nA + vz nB * vz nA)
    with (vx nA * vx nB + vy nA * vy nB + vz nA * vz nB) by ring.
  destruct (Rgtb (Rabs _) 0.9999); [reflexivity |].
  rewrite (cross_swap nA nB). set (l0 := cross nA nB). unfold neg.
  cbn [vx vy vz].
  replace (- vx l0 * - vx l0 + - vy l0 * - vy l0 + - vz l0 * - vz l0)
    with (vx l0 * vx l0 + vy l0 * vy l0 + vz l0 * vz l0) by ring.
  set (len := sqrt _).
  destruct (Rltb len 1e-12); [reflexivity |].
  replace (mkV (- vx l0 / len) (- vy l0 / len) (- vz l0 / len))
    with (neg (mkV (vx l0 / len) (vy l0 / len) (vz l0 / len)))
    by (unfold neg; cbn [vx vy vz]; f_equal; unfold Rdiv; ring).
  set (dir := mkV (vx l0 / len) (vy l0 / len) (vz l0 / len)).
  rewrite findLinePoint_swap.
  destruct (findLinePoint nA dA nB dB dir) as [lp |]; [| reflexivity].
  rewrite !computeTriInterval_neg.
  destruct (computeTriInterval triA dir lp dA0 dA1 dA2) as [iA |],
    (computeTriInterval triB dir lp dB0 dB1 dB2) as [iB |];
    cbn [option_map]; try reflexivity.
  unfold negInterval. cbn [imin imax].
  replace (Rmax (- imax iB) (- imax iA)) with (- Rmin (imax iA) (imax iB))
    by (rewrite Ropp_Rmin; apply Rmax_comm).
  replace (Rmin (- imin iB) (- imin iA)) with (- Rmax (imin iA) (imin iB))
    by (rewrite Ropp_Rmax; apply Rmin_comm).
  set (oMin := Rmax (imin iA) (imin iB)). set (oMax := Rmin (imax iA) (imax iB)).
  unfold Rgeb.
  rewrite (Rleb_ext (- oMin - 1e-10) (- oMax) (oMax - 1e-10) oMin) by (split; lra).
  destruct (Rleb (oMax - 1e-10) oMin); reflexivity.
Qed.

(** Exchanging the two triangles exchanges the two endpoints. *)
Lemma triTriIntersection_swap (triA triB : Triangle) :
  triTriIntersection triB triA = option_map swapSegment (triTriIntersection triA triB).
Proof.
  rewrite !triTriIntersection_overlap, clippedOverlap_swap.
  destruct (clippedOverlap triA triB) as [o |]; [| reflexivity].
  cbn [option_map]. cbv zeta.
  assert (Hp0 : pointAt (swapOverlap o) (overlapMin (swapOverlap o))
                = pointAt o (overlapMax o)).
  { unfold pointAt, swapOverlap, neg. cbn [oLineDir oLinePoint overlapMin vx vy vz].
    f_equal; ring. }
  assert (Hp1 : pointAt (swapOverlap o) (overlapMax (swapOverlap o))
                = pointAt o (overlapMin o)).
  { unfold pointAt, swapOverlap, neg. cbn [oLineDir oLinePoint overlapMax vx vy vz].
    f_equal; ring. }
  rewrite Hp0, Hp1.
  set (q0 := pointAt o (overlapMin o)). set (q1 := pointAt o (overlapMax o)).
  replace ((vx q1 - vx q0) * (vx q1 - vx q0) + (vy q1 - vy q0) * (vy q1 - vy q0)
           + (vz q1 - vz q0) * (vz q1 - vz q0))
    with ((vx q0 - vx q1) * (vx q0 - vx q1) + (vy q0 - vy q1) * (vy q0 - vy q1)
          + (vz q0 - vz q1) * (vz q0 - vz q1)) by ring.
  destruct (Rltb _ 1e-8); reflexivity.
Qed.

Lemma bboxOverlapXY_sym (a b : BBox) : bboxOverlapXY a b = bboxOverlapXY b a.
Proof.
  unfold bboxOverlapXY, Rgeb.
  destruct (Rleb (minX a) (maxX b)), (Rleb (minX b) (maxX a)),
    (Rleb (minY a) (maxY b)), (Rleb (minY b) (maxY a)); reflexivity.
Qed.

Lemma bboxOverlap_XY (a b : BBox) : bboxOverlap a b = true -> bboxOverlapXY a b = true.
Proof.
  unfold bboxOverlap, bboxOverlapXY. rewrite !andb_true_iff. tauto.
Qed.

(** C6, as the code has it.  For a pair of triangles whose bounding
    boxes overlap in X and Y, [intersectMeshPairTagged(A, B)] holds a
    segment for the pair exactly when [intersectMeshPairTagged(B, A)]
    holds the same segment with its endpoints and its tags exchanged. *)
Theorem intersectMeshPairTagged_swap (trisA trisB : Soup) (seg : TaggedSegment)
  (triA triB : Triangle) :
  nth_error trisA (idxA seg) = Some triA ->
  nth_error trisB (idxB seg) = Some triB ->
  bboxOverlapXY (triBBox triA) (triBBox triB) = true ->
  (In seg (intersectMeshPairTagged trisA trisB) <->
   In (swapTagged seg) (intersectMeshPairTagged trisB trisA)).
Proof.
  intros Ha Hb Hov. rewrite !intersectMeshPairTagged_In.
  unfold swapTagged. cbn [idxA idxB]. split.
  - intros [ta [tb [s [Ha' [Hb' [_ [Hs Heq]]]]]]].
    assert (ta = triA) by congruence. assert (tb = triB) by congruence. subst ta tb.
    exists triB, triA, (swapSegment s). repeat split; try assumption.
    + apply overlap_shares_cell; [apply cellSize_positive |].
      now rewrite bboxOverlapXY_sym.
    + now rewrite triTriIntersection_swap, Hs.
    + rewrite Heq. reflexivity.
  - intros [tb [ta [s [Hb' [Ha' [_ [Hs Heq]]]]]]].
    assert (ta = triA) by congruence. assert (tb = triB) by congruence. subst ta tb.
    exists triA, triB, (swapSegment s). repeat split; try assumption.
    + apply overlap_shares_cell; [apply cellSize_positive | exact Hov].
    + now rewrite triTriIntersection_swap, Hs.
    + injection Heq as H1 H0. destruct seg as [q0 q1 i j]. cbn in *. now subst.
Qed.

Lemma intersectMeshPairTagged_swap_witness :
  nth_error [flatTri] (idxA pierceTagged) = Some flatTri /\
  nth_error [uprightTri] (idxB pierceTagged) = Some uprightTri /\
  bboxOverlapXY (triBBox flatTri) (triBBox uprightTri) = true /\
  (In pierceTagged (intersectMeshPairTagged [flatTri] [uprightTri]) <->
   In (swapTagged pierceTagged) (intersectMeshPairTagged [uprightTri] [flatTri])).
Proof.
  split; [reflexivity |]. split; [reflexivity |].
  split; [exact flat_upright_overlap |].
  exact (intersectMeshPairTagged_swap [flatTri] [uprightTri] pierceTagged
           flatTri uprightTri eq_refl eq_refl flat_upright_overlap).
Defined.

(** The pair of the small and the sloping triangle, the small one
    first, is proposed by the grid and yields the segment. *)
Lemma tiny_skew_tagged :
  In (mkTagged (p1 skewTinySegment) (p0 skewTinySegment) 0 0)
     (intersectMeshPairTagged [tinyTri] [skewTri]).
Proof.
  apply intersectMeshPairTagged_In. cbn [idxA idxB].
  exists tinyTri, skewTri, (swapSegment skewTinySegment).
  split; [reflexivity |]. split; [reflexivity |]. split.
  - exists (0%Z, 0%Z). rewrite skew_cellSize, !In_boxCells.
    unfold tinyTri, skewTri, triBBox, Rmin3, Rmax3.
    cbn [minX maxX minY maxY vx vy vz v0 v1 v2]. rminmax.
    rewrite (Zfloor_div_value 0.2 4 0) by (simpl; lra).
    rewrite (Zfloor_div_value 0 4 0) by (simpl; lra).
    rewrite (Zfloor_div_value 2e-8 4 0) by (simpl; lra).
    rewrite (Zfloor_div_value (-1.000000001) 4 (-1)) by (simpl; lra).
    rewrite (Zfloor_div_value 0.199999999 4 0) by (simpl; lra).
    rewrite (Zfloor_div_value (-1) 4 (-1)) by (simpl; lra).
    rewrite (Zfloor_div_value 1 4 0) by (simpl; lra).
    lia.
  - split; [| reflexivity].
    now rewrite triTriIntersection_swap, skew_tiny_segment.
Qed.

(** C6 fails as stated: intersecting the soup of the sloping triangle
    with the soup of the small one yields no segment, while the other
    order yields one. *)
Lemma pair_intersector_not_symmetric :
  intersectMeshPairTagged [skewTri] [tinyTri] = [] /\
  In (mkTagged (p1 skewTinySegment) (p0 skewTinySegment) 0 0)
     (intersectMeshPairTagged [tinyTri] [skewTri]).
Proof.
  split; [exact skew_tiny_not_proposed | exact tiny_skew_tagged].
Qed.

(** ** Winding propagation: the edge map *)

Lemma edgeKey_sym (a b : string) : edgeKey a b = edgeKey b a.
Proof.
  unfold edgeKey, String.ltb.
  rewrite (String.compare_antisym a b).
  destruct (String.compare b a) eqn:Hc; cbn [CompOpp]; try reflexivity.
  apply String.compare_eq_iff in Hc. now subst.
Qed.

Lemma sortedKey_reverse (h : HalfEdge) : sortedKey (reverseHalf h) = sortedKey h.
Proof. unfold sortedKey, reverseHalf. cbn [from to]. apply edgeKey_sym. Qed.

Lemma edgeMapPush_get (m : EdgeMap) (k : string) (h : HalfEdge) (key : string) :
  edgeMapGet (edgeMapPush m k h) key =
  if String.eqb k key then edgeMapGet m k ++ [h] else edgeMapGet m key.
Proof.
  induction m as [| [k0 hs0] rest IH]; cbn [edgeMapPush edgeMapGet].
  - destruct (String.eqb k key); reflexivity.
  - destruct (String.eqb k0 k) eqn:Hk; cbn [edgeMapGet].
    + apply String.eqb_eq in Hk. subst k0.
      destruct (String.eqb k key); reflexivity.
    + destruct (String.eqb k0 key) eqn:Hkey.
      * destruct (String.eqb k key) eqn:Hkk; [| reflexivity].
        apply String.eqb_eq in Hkk. subst key. congruence.
      * exact IH.
Qed.

Lemma edgeMapPush_keys (m : EdgeMap) (k : string) (h : HalfEdge) (x : string) :
  In x (map fst (edgeMapPush m k h)) <-> x = k \/ In x (map fst m).
Proof.
  induction m as [| [k0 hs0] rest IH]; cbn [edgeMapPush map fst In].
  - intuition.
  - destruct (String.eqb k0 k) eqn:Hk; cbn [map fst In].
    + apply String.eqb_eq in Hk. subst k0. intuition.
    + rewrite IH. intuition.
Qed.

Lemma edgeMapPush_wellFormed (m : EdgeMap) (k : string) (h : HalfEdge) :
  wellFormedMap m -> wellFormedMap (edgeMapPush m k h).
Proof.
  intros [Hnd Hne]. induction m as [| [k0 hs0] rest IH]; cbn [edgeMapPush].
  - split; [cbn; constructor; [intros [] | constructor] |].
    intros k' hs [Heq | []]. injection Heq as <- <-. discriminate.
  - cbn [map fst] in Hnd. inversion Hnd as [| ? ? Hk0 Hnd']; subst.
    destruct (String.eqb k0 k) eqn:Hk.
    + split; [exact Hnd |]. intros k' hs [Heq | Hin].
      * injection Heq as <- <-. destruct hs0; discriminate.
      * apply (Hne k' hs). now right.
    + assert (Hrest : wellFormedMap (edgeMapPush rest k h)).
      { apply IH; [exact Hnd' |]. intros k' hs Hin. apply (Hne k' hs). now right. }
      destruct Hrest as [Hnd'' Hne'']. split.
      * cbn [map fst]. constructor; [| exact Hnd''].
        rewrite edgeMapPush_keys. intros [-> | Hin]; [| contradiction].
        rewrite String.eqb_refl in Hk. discriminate.
      * intros k' hs [Heq | Hin]; [| now apply (Hne'' k' hs)].
        injection Heq as <- <-. apply (Hne k0 hs0). now left.
Qed.

Lemma wellFormed_In_get (m : EdgeMap) (k : string) (hs : list HalfEdge) :
  wellFormedMap m -> (In (k, hs) m <-> edgeMapGet m k = hs /\ hs <> []).
Proof.
  intros [Hnd Hne]. induction m as [| [k0 hs0] rest IH]; cbn [edgeMapGet In].
  - split; [intros [] | intros [<- H]; now contradiction H].
  - cbn [map fst] in Hnd. inversion Hnd as [| ? ? Hk0 Hnd']; subst.
    assert (IH' : In (k, hs) rest <-> edgeMapGet rest k = hs /\ hs <> []).
    { apply IH; [exact Hnd' |]. intros k' hs' Hin. apply (Hne k' hs'). now right. }
    destruct (String.eqb k0 k) eqn:Hk.
    + apply String.eqb_eq in Hk. subst k0. split.
      * intros [Heq | Hin].
        -- injection Heq as <-. split; [reflexivity |]. apply (Hne k hs0). now left.
        -- exfalso. apply Hk0. change k with (fst (k, hs)). now apply in_map.
      * intros [<- _]. now left.
    + rewrite <- IH'. split; [| intro H; now right].
      intros [Heq | Hin]; [| exact Hin]. injection Heq as -> _.
      rewrite String.eqb_refl in Hk. discriminate.
Qed.

Lemma pushAll_get (hs : list HalfEdge) :
  forall (m : EdgeMap) (ek : string),
    edgeMapGet (fold_left (fun m' h => edgeMapPush m' (sortedKey h) h) hs m) ek =
    edgeMapGet m ek ++ filter (onEdge ek) hs.
Proof.
  induction hs as [| h hs IH]; intros m ek; cbn [fold_left filter].
  - now rewrite app_nil_r.
  - rewrite IH, edgeMapPush_get. unfold onEdge at 2.
    destruct (String.eqb (sortedKey h) ek) eqn:He.
    + apply String.eqb_eq in He. subst ek. now rewrite <- app_assoc.
    + reflexivity.
Qed.

Lemma pushAll_wellFormed (hs : list HalfEdge) :
  forall m : EdgeMap,
    wellFormedMap m ->
    wellFormedMap (fold_left (fun m' h => edgeMapPush m' (sortedKey h) h) hs m).
Proof.
  induction hs as [| h hs IH]; intros m Hm; cbn [fold_left]; [exact Hm |].
  apply IH. now apply edgeMapPush_wellFormed.
Qed.

Lemma buildFrom_get (keys : list TriKeys) :
  forall (m : EdgeMap) (i : nat) (ek : string),
    edgeMapGet (buildEdgeToTrisFrom m i keys) ek =
    edgeMapGet m ek ++ filter (onEdge ek) (allHalfEdgesFrom i keys).
Proof.
  induction keys as [| ks rest IH]; intros m i ek;
    cbn [buildEdgeToTrisFrom allHalfEdgesFrom].
  - now rewrite app_nil_r.
  - rewrite IH, pushAll_get, filter_app. now rewrite app_assoc.
Qed.

Lemma buildFrom_wellFormed (keys : list TriKeys) :
  forall (m : EdgeMap) (i : nat),
    wellFormedMap m -> wellFormedMap (buildEdgeToTrisFrom m i keys).
Proof.
  induction keys as [| ks rest IH]; intros m i Hm; cbn [buildEdgeToTrisFrom];
    [exact Hm |].
  apply IH. now apply pushAll_wellFormed.
Qed.

(** The bucket of an edge key holds the half-edges on that edge, in the
    order of the triangles. *)
Lemma bucket_spec (keys : list TriKeys) (ek : string) (hs : list HalfEdge) :
  In (ek, hs) (buildEdgeToTris keys) <->
  filter (onEdge ek) (allHalfEdgesFrom 0 keys) = hs /\ hs <> [].
Proof.
  unfold buildEdgeToTris.
  assert (Hwf : wellFormedMap (buildEdgeToTrisFrom [] 0 keys)).
  { apply buildFrom_wellFormed. split; [constructor | intros k l []]. }
  rewrite (wellFormed_In_get _ ek hs Hwf), buildFrom_get. reflexivity.
Qed.

(** ** Winding propagation: neighbours *)

Lemma pushAt_length {A : Type} (arr : list (list A)) (i : nat) (x : A) :
  List.length (pushAt arr i x) = List.length arr.
Proof.
  revert i. induction arr as [| l rest IH]; intro i; [destruct i; reflexivity |].
  destruct i; cbn [pushAt List.length]; [reflexivity | now rewrite IH].
Qed.

Lemma pushAt_In {A : Type} (arr : list (list A)) (j : nat) (x y : A) (i : nat) :
  In y (nth i (pushAt arr j x) []) <->
  In y (nth i arr []) \/ (i = j /\ (j < List.length arr)%nat /\ y = x).
Proof.
  revert i j. induction arr as [| l rest IH]; intros i j.
  - destruct j; cbn [pushAt List.length]; destruct i; cbn; intuition lia.
  - destruct j as [| j]; cbn [pushAt List.length].
    + destruct i as [| i]; cbn [nth].
      * rewrite in_app_iff. cbn [In].
        intuition (subst; auto with arith); right; repeat split; solve [lia | auto].
      * intuition lia.
    + destruct i as [| i]; cbn [nth].
      * intuition lia.
      * rewrite IH.
        intuition (try lia; subst; auto); right; repeat split; lia.
Qed.

Lemma addPair_length (nbrs : list (list Neighbor)) (e : string * list HalfEdge) :
  List.length (addPair nbrs e) = List.length nbrs.
Proof.
  unfold addPair. destruct (snd e) as [| t0 [| t1 [| t2 l]]]; try reflexivity.
  now rewrite !pushAt_length.
Qed.

Lemma buildNeighbors_spec (n : nat) (m : EdgeMap) :
  (forall ek hs h, In (ek, hs) m -> In h hs -> (triIdx h < n)%nat) ->
  List.length (buildNeighbors n m) = n /\
  forall i nb, In nb (nth i (buildNeighbors n m) []) <-> neighbourOf m i nb.
Proof.
  unfold buildNeighbors. intro Hidx.
  assert (H : forall (m0 : EdgeMap) (start : list (list Neighbor)),
            List.length start = n ->
            (forall ek hs h, In (ek, hs) m0 -> In h hs -> (triIdx h < n)%nat) ->
            List.length (fold_left addPair m0 start) = n /\
            forall i nb, In nb (nth i (fold_left addPair m0 start) []) <->
                         In nb (nth i start []) \/ neighbourOf m0 i nb).
  { induction m0 as [| e m0 IH]; intros start Hlen Hlt; cbn [fold_left].
    - split; [exact Hlen |]. intros i nb. split; [now left |].
      intros [Hin | [ek [t0 [t1 [[] _]]]]]. exact Hin.
    - assert (Hlen' : List.length (addPair start e) = n)
        by now rewrite addPair_length.
      assert (Hlt' : forall ek hs h, In (ek, hs) m0 -> In h hs -> (triIdx h < n)%nat).
      { intros ek hs h Hin. apply (Hlt ek hs h). now right. }
      destruct (IH (addPair start e) Hlen' Hlt') as [Hl Hin]. split; [exact Hl |].
      intros i nb. rewrite Hin. clear IH Hin Hl.
      destruct e as [ek hs]. unfold addPair. cbn [snd].
      destruct hs as [| t0 [| t1 [| t2 l]]].
      1,2,4: (split; [intros [Hs | [ek' [a [b [Hm Hr]]]]];
                      [now left | right; exists ek', a, b; split; [now right | exact Hr]]
                     | intros [Hs | [ek' [a [b [[Heq | Hm] Hr]]]]];
                       [now left | discriminate | right; exists ek', a, b; now split]]).
      assert (H0 : (triIdx t0 < n)%nat) by (apply (Hlt ek [t0; t1]); [now left | now left]).
      assert (H1 : (triIdx t1 < n)%nat)
        by (apply (Hlt ek [t0; t1]); [now left | right; now left]).
      rewrite !pushAt_In, pushAt_length, Hlen. split.
      + intros [[[Hs | [-> [_ ->]]] | [-> [_ ->]]] | [ek' [a [b [Hm Hr]]]]].
        * now left.
        * right. exists ek, t0, t1. split; [now left |]. cbn. split; [reflexivity |].
          left. now split.
        * right. exists ek, t0, t1. split; [now left |]. cbn. split; [reflexivity |].
          right. now split.
        * right. exists ek', a, b. split; [now right | exact Hr].
      + intros [Hs | [ek' [a [b [[Heq | Hm] [Hsame Hr]]]]]].
        * left; left; now left.
        * injection Heq as -> -> ->. left. destruct nb as [j s]. cbn in *.
          destruct Hr as [[<- ->] | [<- ->]].
          -- left. right. repeat split; [exact H0 | now rewrite Hsame].
          -- right. repeat split; [exact H1 | now rewrite Hsame].
        * right. exists ek', a, b. now repeat split. }
  destruct (H m (repeat [] n) (repeat_length _ n) Hidx) as [Hl Hin].
  split; [exact Hl |]. intros i nb. rewrite Hin. split; [| now right].
  intros [Hs | Hr]; [| exact Hr]. exfalso.
  assert (Hnil : nth i (repeat (@nil Neighbor) n) [] = []).
  { clear. revert i. induction n; intro i; destruct i; cbn; auto. }
  rewrite Hnil in Hs. destruct Hs.
Qed.

(** ** Winding propagation: the BFS *)

Lemma setAt_length (l : list bool) (j : nat) (b : bool) :
  List.length (setAt l j b) = List.length l.
Proof.
  revert j. induction l as [| a l IH]; intro j; [destruct j; reflexivity |].
  destruct j; cbn [setAt List.length]; [reflexivity | now rewrite IH].
Qed.

Lemma getAt_setAt (l : list bool) (j : nat) (b : bool) (v : nat) :
  (j < List.length l)%nat ->
  getAt (setAt l j b) v = if Nat.eqb v j then b else getAt l v.
Proof.
  unfold getAt. revert j v. induction l as [| a l IH]; intros j v Hj; [cbn in Hj; lia |].
  destruct j as [| j]; cbn [setAt].
  - destruct v; reflexivity.
  - destruct v as [| v]; [reflexivity |]. cbn [nth Nat.eqb]. apply IH.
    cbn in Hj. lia.
Qed.

Lemma getAt_true_lt (l : list bool) (v : nat) :
  getAt l v = true -> (v < List.length l)%nat.
Proof.
  unfold getAt. revert v. induction l as [| a l IH]; intros v H.
  - destruct v; discriminate.
  - destruct v as [| v]; cbn in *; [lia |]. apply IH in H. lia.
Qed.

Lemma countTrue_le (l : list bool) : (countTrue l <= List.length l)%nat.
Proof. unfold countTrue. apply filter_length_le. Qed.

Lemma countTrue_setAt (l : list bool) (j : nat) :
  (j < List.length l)%nat -> getAt l j = false ->
  countTrue (setAt l j true) = S (countTrue l) /\
  (countTrue l < List.length l)%nat.
Proof.
  unfold getAt, countTrue. revert j. induction l as [| a l IH]; intros j Hj Hf;
    [cbn in Hj; lia |].
  destruct j as [| j]; cbn [setAt nth] in *.
  - subst a. cbn. pose proof (filter_length_le (fun b : bool => b) l). lia.
  - assert (Hj' : (j < List.length l)%nat) by (cbn in Hj; lia).
    destruct (IH j Hj' Hf) as [H1 H2]. destruct a; cbn; lia.
Qed.

Section BfsCorrect.

Variable n : nat.
Variable nbrs : list (list Neighbor).
Variable sigma : list bool.
Variable good : nat -> Prop.

Hypothesis neighbours_in_range :
  forall v nb, In nb (nth v nbrs []) -> (neighbor nb < n)%nat.
Hypothesis good_seed : good 0.
Hypothesis good_closed :
  forall v nb, good v -> In nb (nth v nbrs []) -> good (neighbor nb).
Hypothesis neighbours_oriented :
  forall v nb, good v -> In nb (nth v nbrs []) ->
    sameDirection nb = xorb (getAt sigma v) (getAt sigma (neighbor nb)).

(** The invariant inside the loop over the neighbours of [cur], which
    has just left the queue. *)
Let stepInvariant (cur fuel : nat) (st : Bfs) : Prop :=
  List.length (visited st) = n /\ List.length (flipped st) = n /\
  (forall v, In v (pending st) -> (v < n)%nat /\ getAt (visited st) v = true) /\
  getAt (visited st) 0 = true /\ getAt (visited st) cur = true /\
  (forall v, getAt (visited st) v = true -> ~ In v (pending st) -> v <> cur ->
     forall nb, In nb (nth v nbrs []) -> getAt (visited st) (neighbor nb) = true) /\
  (forall v, getAt (visited st) v = true ->
     getAt (flipped st) v = xorb (getAt sigma v) (getAt sigma 0)) /\
  (forall v, getAt (visited st) v = true -> good v) /\
  (n - countTrue (visited st) + List.length (pending st) <= fuel)%nat.

Lemma visitNeighbor_invariant (cur fuel : nat) (st : Bfs) (nb : Neighbor) :
  stepInvariant cur fuel st -> (neighbor nb < n)%nat -> good (neighbor nb) ->
  sameDirection nb = xorb (getAt sigma cur) (getAt sigma (neighbor nb)) ->
  stepInvariant cur fuel (visitNeighbor cur st nb) /\
  getAt (visited (visitNeighbor cur st nb)) (neighbor nb) = true /\
  forall v, getAt (visited st) v = true ->
            getAt (visited (visitNeighbor cur st nb)) v = true.
Proof.
  intros (Hlv & Hlf & Hpend & H0 & Hcur & Hclos & Hflip & Hgood & Hfuel) Hj Hgj Hsame.
  unfold visitNeighbor. set (j := neighbor nb) in *.
  destruct (getAt (visited st) j) eqn:Hvj.
  - split; [| split; [exact Hvj | auto]].
    unfold stepInvariant. repeat split; auto. apply Hpend; assumption.
    apply Hpend; assumption.
  - assert (Hjv : (j < List.length (visited st))%nat) by lia.
    assert (Hjf : (j < List.length (flipped st))%nat) by lia.
    assert (Hget : forall v, getAt (setAt (visited st) j true) v
                             = if Nat.eqb v j then true else getAt (visited st) v)
      by (intro v; now apply getAt_setAt).
    assert (Hmono : forall v, getAt (visited st) v = true ->
                              getAt (setAt (visited st) j true) v = true).
    { intros v Hv. rewrite Hget. destruct (Nat.eqb v j); [reflexivity | exact Hv]. }
    destruct (countTrue_setAt (visited st) j Hjv Hvj) as [Hcount Hlt].
    split; [| split; [rewrite Hget, Nat.eqb_refl; reflexivity | exact Hmono]].
    unfold stepInvariant. cbn [pending visited flipped].
    split; [now rewrite setAt_length |]. split; [now rewrite setAt_length |].
    split.
    { intros v Hv. apply in_app_iff in Hv. destruct Hv as [Hv | [<- | []]].
      - destruct (Hpend v Hv) as [Hlt' Hvis]. split; [exact Hlt' | now apply Hmono].
      - split; [exact Hj |]. rewrite Hget, Nat.eqb_refl. reflexivity. }
    split; [now apply Hmono |]. split; [now apply Hmono |]. split.
    { intros v Hv Hnp Hne nb' Hnb'. rewrite Hget in Hv.
      destruct (Nat.eqb v j) eqn:Hvj'.
      - apply Nat.eqb_eq in Hvj'. subst v. exfalso. apply Hnp.
        apply in_app_iff. right. now left.
      - apply Hmono. apply (Hclos v Hv); [| exact Hne | exact Hnb'].
        intro Hin. apply Hnp. apply in_app_iff. now left. }
    split.
    { intros v Hv. rewrite Hget in Hv. rewrite getAt_setAt by exact Hjf.
      destruct (Nat.eqb v j) eqn:Hvj'.
      - apply Nat.eqb_eq in Hvj'. subst v. rewrite (Hflip cur Hcur), Hsame.
        destruct (getAt sigma cur), (getAt sigma j), (getAt sigma 0); reflexivity.
      - now apply Hflip. }
    split.
    { intros v Hv. rewrite Hget in Hv. destruct (Nat.eqb v j) eqn:Hvj'.
      - apply Nat.eqb_eq in Hvj'. now subst v.
      - now apply Hgood. }
    rewrite Hcount, length_app. cbn [List.length]. lia.
Qed.

Lemma visitAll_invariant (cur fuel : nat) (nbs : list Neighbor) :
  forall st : Bfs,
    stepInvariant cur fuel st ->
    (forall nb, In nb nbs -> (neighbor nb < n)%nat /\ good (neighbor nb) /\
       sameDirection nb = xorb (getAt sigma cur) (getAt sigma (neighbor nb))) ->
    stepInvariant cur fuel (fold_left (visitNeighbor cur) nbs st) /\
    (forall nb, In nb nbs ->
       getAt (visited (fold_left (visitNeighbor cur) nbs st)) (neighbor nb) = true) /\
    (forall v, getAt (visited st) v = true ->
       getAt (visited (fold_left (visitNeighbor cur) nbs st)) v = true).
Proof.
  induction nbs as [| nb nbs IH]; intros st Hinv Hnbs; cbn [fold_left].
  - split; [exact Hinv |]. split; [intros nb [] | auto].
  - destruct (Hnbs nb (or_introl eq_refl)) as [Hj [Hgj Hsame]].
    destruct (visitNeighbor_invariant cur fuel st nb Hinv Hj Hgj Hsame)
      as [Hinv' [Hvis Hmono]].
    destruct (IH _ Hinv' (fun nb' H => Hnbs nb' (or_intror H)))
      as [Hinv'' [Hall Hmono']].
    split; [exact Hinv'' |]. split.
    + intros nb' [<- | Hin]; [now apply Hmono' | now apply Hall].
    + intros v Hv. now apply Hmono', Hmono.
Qed.

(** With one unit of fuel per triangle the queue is empty at the end,
    and the invariant still holds. *)
Lemma bfs_drains (fuel : nat) :
  forall st : Bfs,
    bfsInvariant n nbrs sigma good fuel st ->
    pending (bfsLoop nbrs fuel st) = [] /\
    exists fuel', bfsInvariant n nbrs sigma good fuel' (bfsLoop nbrs fuel st).
Proof.
  induction fuel as [| fuel IH]; intros st Hinv; cbn [bfsLoop].
  - split; [| now exists 0%nat].
    destruct Hinv as (_ & _ & _ & _ & _ & _ & _ & Hfuel).
    destruct (pending st); [reflexivity | cbn in Hfuel; lia].
  - destruct (pending st) as [| cur rest] eqn:Hp.
    + split; [exact Hp | now exists (S fuel)].
    + destruct Hinv as (Hlv & Hlf & Hpend & H0 & Hclos & Hflip & Hgood & Hfuel).
      rewrite Hp in *.
      destruct (Hpend cur (or_introl eq_refl)) as [Hcn Hcv].
      assert (Hstep : stepInvariant cur fuel (mkBfs rest (visited st) (flipped st))).
      { unfold stepInvariant. cbn [pending visited flipped].
        repeat split; auto.
        - apply Hpend. now right.
        - apply Hpend. now right.
        - intros v Hv Hnr Hne. apply Hclos; [exact Hv |].
          intros [Heq | Hin]; [now apply Hne | now apply Hnr].
        - cbn in Hfuel. lia. }
      destruct (visitAll_invariant cur fuel (nth cur nbrs []) _ Hstep)
        as [Hinv' [Hall Hmono]].
      { intros nb Hnb. split; [now apply (neighbours_in_range cur) |].
        split; [apply (good_closed cur); [now apply Hgood | exact Hnb] |].
        apply neighbours_oriented; [now apply Hgood | exact Hnb]. }
      apply IH.
      destruct Hinv' as (Hlv' & Hlf' & Hpend' & H0' & Hcur' & Hclos' & Hflip' & Hgood' & Hfuel').
      unfold bfsInvariant. repeat split; auto.
      * apply Hpend'; assumption.
      * apply Hpend'; assumption.
      * intros v Hv Hnp nb Hnb. destruct (Nat.eq_dec v cur) as [-> | Hne].
        -- now apply Hall.
        -- now apply (Hclos' v).
Qed.

Lemma bfsStart_invariant :
  (0 < n)%nat -> bfsInvariant n nbrs sigma good n (bfsStart n).
Proof.
  intro Hn. unfold bfsInvariant, bfsStart. cbn [pending visited flipped].
  assert (Hrep : forall v, getAt (repeat false n) v = false).
  { intro v. unfold getAt. clear. revert v. induction n; intro v; destruct v; cbn; auto. }
  assert (Hget : forall v, getAt (setAt (repeat false n) 0 true) v
                           = if Nat.eqb v 0 then true else false).
  { intro v. rewrite getAt_setAt by (rewrite repeat_length; exact Hn).
    now rewrite Hrep. }
  split; [now rewrite setAt_length, repeat_length |].
  split; [apply repeat_length |]. split.
  { intros v [<- | []]. split; [exact Hn | now rewrite Hget]. }
  split; [now rewrite Hget |]. split.
  { intros v Hv Hnp. rewrite Hget in Hv. destruct (Nat.eqb v 0) eqn:He; [| discriminate].
    apply Nat.eqb_eq in He. subst v. exfalso. apply Hnp. now left. }
  split.
  { intros v Hv. rewrite Hget in Hv. destruct (Nat.eqb v 0) eqn:He; [| discriminate].
    apply Nat.eqb_eq in He. subst v. rewrite Hrep. now destruct (getAt sigma 0). }
  split.
  { intros v Hv. rewrite Hget in Hv. destruct (Nat.eqb v 0) eqn:He; [| discriminate].
    apply Nat.eqb_eq in He. subst v. exact good_seed. }
  destruct (countTrue_setAt (repeat false n) 0) as [Hc _];
    [rewrite repeat_length; exact Hn | apply Hrep |].
  rewrite Hc. cbn [List.length]. lia.
Qed.

(** The BFS visits everything connected to triangle 0 through the
    neighbour lists, and flips it as [sigma] does, up to the seed. *)
Lemma bfs_result (v : nat) :
  (0 < n)%nat ->
  let final := bfsLoop nbrs n (bfsStart n) in
  pending final = [] /\
  (getAt (visited final) 0 = true) /\
  (forall u nb, getAt (visited final) u = true -> In nb (nth u nbrs []) ->
                getAt (visited final) (neighbor nb) = true) /\
  (getAt (visited final) v = true ->
   getAt (flipped final) v = xorb (getAt sigma v) (getAt sigma 0)).
Proof.
  intros Hn final.
  destruct (bfs_drains n (bfsStart n) (bfsStart_invariant Hn)) as [Hp [fuel' Hinv]].
  fold final in Hp, Hinv.
  destruct Hinv as (_ & _ & _ & H0 & Hclos & Hflip & _).
  split; [exact Hp |]. split; [exact H0 |]. split.
  - intros u nb Hu Hnb. apply (Hclos u Hu); [| exact Hnb]. rewrite Hp. intros [].
  - apply Hflip.
Qed.

End BfsCorrect.

(** The BFS never changes the length of its flag array. *)
Lemma visitNeighbor_flipped_length (cur : nat) (st : Bfs) (nb : Neighbor) :
  List.length (flipped (visitNeighbor cur st nb)) = List.length (flipped st).
Proof.
  unfold visitNeighbor. destruct (getAt (visited st) (neighbor nb)); [reflexivity |].
  cbn [flipped]. apply setAt_length.
Qed.

Lemma bfsLoop_flipped_length (nbrs : list (list Neighbor)) (fuel : nat) :
  forall st : Bfs,
    List.length (flipped (bfsLoop nbrs fuel st)) = List.length (flipped st).
Proof.
  induction fuel as [| fuel IH]; intro st; cbn [bfsLoop]; [reflexivity |].
  destruct (pending st) as [| cur rest]; [reflexivity |].
  rewrite IH.
  assert (H : forall (nbs : list Neighbor) (s : Bfs),
            List.length (flipped (fold_left (visitNeighbor cur) nbs s))
            = List.length (flipped s)).
  { induction nbs as [| nb nbs IHn]; intro s; cbn [fold_left]; [reflexivity |].
    now rewrite IHn, visitNeighbor_flipped_length. }
  now rewrite H.
Qed.

(** ** Winding propagation: the emitted group *)

Lemma triKeys_applyFlips (tris : Soup) :
  forall fl : list bool,
    map triKeys (applyFlips tris fl) = flippedKeys (map triKeys tris) fl.
Proof.
  unfold applyFlips, flippedKeys.
  induction tris as [| t tris IH]; intro fl; [reflexivity |].
  destruct fl as [| b fl]; [reflexivity |]. cbn [combine map fst snd].
  rewrite IH. f_equal. destruct b; reflexivity.
Qed.

Lemma halfEdges_flip (i : nat) (ks : TriKeys) :
  halfEdges i (flipKeys ks true) = map reverseHalf (rev (halfEdges i ks)).
Proof. destruct ks as [[k0 k1] k2]. reflexivity. Qed.

Lemma halfEdges_triIdx (i : nat) (ks : TriKeys) (h : HalfEdge) :
  In h (halfEdges i ks) -> triIdx h = i.
Proof.
  destruct ks as [[k0 k1] k2]. cbn. intros [<- | [<- | [<- | []]]]; reflexivity.
Qed.

Lemma allHalfEdgesFrom_triIdx (keys : list TriKeys) :
  forall (i : nat) (h : HalfEdge),
    In h (allHalfEdgesFrom i keys) ->
    (i <= triIdx h < i + List.length keys)%nat.
Proof.
  induction keys as [| ks rest IH]; intros i h Hin; [destruct Hin |].
  cbn [allHalfEdgesFrom] in Hin. apply in_app_iff in Hin. cbn [List.length].
  destruct Hin as [Hin | Hin].
  - apply halfEdges_triIdx in Hin. lia.
  - apply IH in Hin. lia.
Qed.

Lemma flipped_halfEdges (keys : list TriKeys) :
  forall (i : nat) (fl : list bool),
    List.length fl = List.length keys ->
    Permutation
      (allHalfEdgesFrom i (flippedKeys keys fl))
      (map (fun h => if getAt fl (triIdx h - i) then reverseHalf h else h)
           (allHalfEdgesFrom i keys)).
Proof.
  unfold flippedKeys.
  induction keys as [| ks rest IH]; intros i fl Hlen; [constructor |].
  destruct fl as [| b fl]; [discriminate |]. cbn [combine map fst snd allHalfEdgesFrom].
  rewrite map_app. apply Permutation_app.
  - assert (Hhead : map (fun h => if getAt (b :: fl) (triIdx h - i)
                                   then reverseHalf h else h) (halfEdges i ks)
                    = map (fun h => if b then reverseHalf h else h) (halfEdges i ks)).
    { apply map_ext_in. intros h Hh. apply halfEdges_triIdx in Hh. rewrite Hh.
      now rewrite Nat.sub_diag. }
    rewrite Hhead. destruct b.
    + rewrite halfEdges_flip, map_rev. symmetry. apply Permutation_rev.
    + destruct ks as [[k0 k1] k2]. cbn [flipKeys]. now rewrite map_id.
  - assert (Htail : map (fun h => if getAt (b :: fl) (triIdx h - i)
                                   then reverseHalf h else h)
                        (allHalfEdgesFrom (S i) rest)
                    = map (fun h => if getAt fl (triIdx h - S i)
                                    then reverseHalf h else h)
                          (allHalfEdgesFrom (S i) rest)).
    { apply map_ext_in. intros h Hh. apply allHalfEdgesFrom_triIdx in Hh.
      replace (triIdx h - i)%nat with (S (triIdx h - S i)) by lia. reflexivity. }
    rewrite Htail. apply IH. cbn in Hlen. lia.
Qed.

Lemma flipHalf_onEdge (fl : list bool) (ek : string) (h : HalfEdge) :
  onEdge ek (flipHalf fl h) = onEdge ek h.
Proof.
  unfold onEdge, flipHalf. destruct (getAt fl (triIdx h)); [| reflexivity].
  now rewrite sortedKey_reverse.
Qed.

Lemma filter_map_commute {A : Type} (p : A -> bool) (f : A -> A) (l : list A) :
  (forall x, p (f x) = p x) -> filter p (map f l) = map f (filter p l).
Proof.
  intro H. induction l as [| a l IH]; [reflexivity |]. cbn [map filter].
  rewrite H. destruct (p a); cbn [map]; now rewrite IH.
Qed.

(** The bucket of an edge after the flips is the bucket before, each
    half-edge flipped with its triangle, up to order. *)
Lemma flipped_bucket (keys : list TriKeys) (fl : list bool) (ek : string) :
  List.length fl = List.length keys ->
  Permutation
    (filter (onEdge ek) (allHalfEdgesFrom 0 (flippedKeys keys fl)))
    (map (flipHalf fl) (filter (onEdge ek) (allHalfEdgesFrom 0 keys))).
Proof.
  intro Hlen. rewrite <- filter_map_commute by apply flipHalf_onEdge.
  assert (Hperm := flipped_halfEdges keys 0 fl Hlen).
  assert (Heq : map (fun h => if getAt fl (triIdx h - 0) then reverseHalf h else h)
                    (allHalfEdgesFrom 0 keys)
                = map (flipHalf fl) (allHalfEdgesFrom 0 keys)).
  { apply map_ext. intro h. unfold flipHalf. now rewrite Nat.sub_0_r. }
  rewrite Heq in Hperm. clear Heq.
  induction Hperm as [| x l l' Hp IH | x y l | l l' l'' Hp1 IH1 Hp2 IH2].
  - constructor.
  - cbn [filter]. destruct (onEdge ek x); [now constructor | exact IH].
  - cbn [filter]. destruct (onEdge ek x), (onEdge ek y);
      try apply Permutation_refl. apply perm_swap.
  - eapply perm_trans; eassumption.
Qed.

Lemma opposite_sym (a b : HalfEdge) : opposite a b -> opposite b a.
Proof. unfold opposite. intuition congruence. Qed.

Lemma opposite_reverse (a b : HalfEdge) :
  opposite (reverseHalf a) (reverseHalf b) <-> opposite a b.
Proof. unfold opposite, reverseHalf. cbn [from to]. intuition congruence. Qed.

Lemma flipHalf_triIdx (fl : list bool) (h : HalfEdge) :
  triIdx (flipHalf fl h) = triIdx h.
Proof. unfold flipHalf. now destruct (getAt fl (triIdx h)). Qed.

(** Consistency of the flipped group, read on the edges of the group
    before the flips. *)
Lemma consistent_flipped_edges (keys : list TriKeys) (fl : list bool) :
  List.length fl = List.length keys ->
  consistentOn (fun _ => True) (flippedKeys keys fl) ->
  forall ek t0 t1, In (ek, [t0; t1]) (buildEdgeToTris keys) ->
                   opposite (flipHalf fl t0) (flipHalf fl t1).
Proof.
  intros Hlen Hc ek t0 t1 Hin. apply bucket_spec in Hin. destruct Hin as [Hb _].
  pose proof (flipped_bucket keys fl ek Hlen) as Hperm. rewrite Hb in Hperm.
  cbn [map] in Hperm.
  destruct (filter (onEdge ek) (allHalfEdgesFrom 0 (flippedKeys keys fl)))
    as [| h0 [| h1 [| h2 l]]] eqn:Hout;
    try (apply Permutation_length in Hperm; discriminate).
  assert (Hbucket : In (ek, [h0; h1]) (buildEdgeToTris (flippedKeys keys fl))).
  { apply bucket_spec. split; [exact Hout | discriminate]. }
  specialize (Hc ek h0 h1 Hbucket I).
  apply Permutation_length_2 in Hperm.
  destruct Hperm as [[-> ->] | [-> ->]]; [exact Hc | now apply opposite_sym].
Qed.

Lemma edges_consistent_flipped (P : nat -> Prop) (keys : list TriKeys)
  (fl : list bool) :
  List.length fl = List.length keys ->
  (forall ek t0 t1, In (ek, [t0; t1]) (buildEdgeToTris keys) ->
     P (triIdx t0) \/ P (triIdx t1) ->
     opposite (flipHalf fl t0) (flipHalf fl t1)) ->
  consistentOn P (flippedKeys keys fl).
Proof.
  intros Hlen He ek h0 h1 Hin HP. apply bucket_spec in Hin. destruct Hin as [Hout _].
  pose proof (flipped_bucket keys fl ek Hlen) as Hperm. rewrite Hout in Hperm.
  destruct (filter (onEdge ek) (allHalfEdgesFrom 0 keys))
    as [| t0 [| t1 [| t2 l]]] eqn:Hb;
    try (apply Permutation_length in Hperm; discriminate).
  assert (Hbucket : In (ek, [t0; t1]) (buildEdgeToTris keys)).
  { apply bucket_spec. split; [exact Hb | discriminate]. }
  cbn [map] in Hperm. apply Permutation_length_2 in Hperm.
  destruct Hperm as [[-> ->] | [-> ->]]; rewrite flipHalf_triIdx in HP.
  - apply (He ek t0 t1 Hbucket). now left.
  - apply opposite_sym. apply (He ek t0 t1 Hbucket). now right.
Qed.

Lemma bucket_members (keys : list TriKeys) (ek : string) (hs : list HalfEdge)
  (h : HalfEdge) :
  In (ek, hs) (buildEdgeToTris keys) -> In h hs ->
  In h (allHalfEdgesFrom 0 keys).
Proof.
  intros Hin Hh. apply bucket_spec in Hin. destruct Hin as [<- _].
  apply filter_In in Hh. tauto.
Qed.

(** The [sameDirection] flag of a shared edge is the difference of the
    flags of its two triangles in any consistent choice of flips. *)
Lemma sameDirection_orientation (sigma : list bool) (t0 t1 : HalfEdge) :
  from t0 <> to t0 -> from t1 <> to t1 ->
  opposite (flipHalf sigma t0) (flipHalf sigma t1) ->
  String.eqb (from t0) (from t1)
  = xorb (getAt sigma (triIdx t0)) (getAt sigma (triIdx t1)).
Proof.
  intros H0 H1. unfold opposite, flipHalf, reverseHalf.
  destruct (getAt sigma (triIdx t0)), (getAt sigma (triIdx t1));
    cbn [from to xorb]; intros [Ha Hb].
  - apply String.eqb_neq. congruence.
  - apply String.eqb_eq. congruence.
  - apply String.eqb_eq. congruence.
  - apply String.eqb_neq. congruence.
Qed.

(** ** Winding propagation: triangles with repeated keys *)

Lemma distinctKeys_dec (ks : TriKeys) : {distinctKeys ks} + {~ distinctKeys ks}.
Proof.
  destruct ks as [[k0 k1] k2]. unfold distinctKeys.
  destruct (string_dec k0 k1) as [H01 | H01]; [right; tauto |].
  destruct (string_dec k1 k2) as [H12 | H12]; [right; tauto |].
  destruct (string_dec k2 k0) as [H20 | H20]; [right; tauto | left; tauto].
Qed.

Lemma allHalfEdgesFrom_In (keys : list TriKeys) :
  forall (s : nat) (h : HalfEdge),
    In h (allHalfEdgesFrom s keys) <->
    exists i ks, nth_error keys i = Some ks /\ In h (halfEdges (s + i) ks).
Proof.
  induction keys as [| ks0 rest IH]; intros s h; cbn [allHalfEdgesFrom].
  - split; [intros [] | intros (i & ks & Hn & _); destruct i; discriminate].
  - rewrite in_app_iff, IH. split.
    + intros [Hh | (i & ks & Hn & Hh)].
      * exists 0%nat, ks0. rewrite Nat.add_0_r. now split.
      * exists (S i), ks. rewrite Nat.add_succ_r. now split.
    + intros (i & ks & Hn & Hh). destruct i as [| i].
      * injection Hn as <-. rewrite Nat.add_0_r in Hh. now left.
      * right. exists i, ks. rewrite Nat.add_succ_r in Hh. now split.
Qed.

Lemma halfEdges_regular (i : nat) (ks : TriKeys) (h : HalfEdge) :
  distinctKeys ks -> In h (halfEdges i ks) -> from h <> to h.
Proof.
  destruct ks as [[k0 k1] k2]. intros [H01 [H12 H20]] Hin.
  cbn in Hin. destruct Hin as [<- | [<- | [<- | []]]]; cbn; assumption.
Qed.

(** In a triangle with a repeated key every half-edge is a loop or has
    its reverse among the half-edges of the same triangle. *)
Lemma halfEdges_degenerate (i : nat) (ks : TriKeys) (h : HalfEdge) :
  ~ distinctKeys ks -> In h (halfEdges i ks) ->
  from h = to h \/ In (reverseHalf h) (halfEdges i ks).
Proof.
  destruct ks as [[k0 k1] k2]. unfold distinctKeys. intros Hnd Hin.
  assert (Heq : k0 = k1 \/ k1 = k2 \/ k2 = k0).
  { destruct (string_dec k0 k1); [tauto |]. destruct (string_dec k1 k2); [tauto |].
    destruct (string_dec k2 k0); tauto. }
  cbn in Hin.
  destruct Heq as [-> | [-> | ->]]; destruct Hin as [<- | [<- | [<- | []]]];
    unfold reverseHalf; cbn; auto.
Qed.

Lemma bucket_complete (keys : list TriKeys) (ek : string) (hs : list HalfEdge)
  (h : HalfEdge) :
  In (ek, hs) (buildEdgeToTris keys) -> In h (allHalfEdgesFrom 0 keys) ->
  sortedKey h = ek -> In h hs.
Proof.
  intros Hin Hh Hk. apply bucket_spec in Hin. destruct Hin as [<- _].
  apply filter_In. split; [exact Hh |]. unfold onEdge. now apply String.eqb_eq.
Qed.

Lemma bucket_onEdge (keys : list TriKeys) (ek : string) (hs : list HalfEdge)
  (h : HalfEdge) :
  In (ek, hs) (buildEdgeToTris keys) -> In h hs -> sortedKey h = ek.
Proof.
  intros Hin Hh. apply bucket_spec in Hin. destruct Hin as [<- _].
  apply filter_In in Hh. destruct Hh as [_ Hh]. now apply String.eqb_eq.
Qed.

Lemma bucket_triangle (keys : list TriKeys) (ek : string) (hs : list HalfEdge)
  (h : HalfEdge) :
  In (ek, hs) (buildEdgeToTris keys) -> In h hs ->
  exists ks, nth_error keys (triIdx h) = Some ks /\ In h (halfEdges (triIdx h) ks).
Proof.
  intros Hin Hh. pose proof (bucket_members keys ek hs h Hin Hh) as Hall.
  apply allHalfEdgesFrom_In in Hall. destruct Hall as (i & ks & Hn & Hhe).
  cbn [Nat.add] in Hhe. rewrite (halfEdges_triIdx i ks h Hhe). now exists ks.
Qed.

Lemma loop_partner (fl : list bool) (x y : HalfEdge) :
  opposite (flipHalf fl x) (flipHalf fl y) -> from x = to x ->
  from y = to y /\ from x = from y.
Proof.
  unfold opposite, flipHalf, reverseHalf.
  destruct (getAt fl (triIdx x)), (getAt fl (triIdx y)); cbn [from to];
    intros [Ha Hb] He; split; congruence.
Qed.

Lemma regular_partner (fl : list bool) (x y : HalfEdge) :
  opposite (flipHalf fl x) (flipHalf fl y) -> from x <> to x -> from y <> to y.
Proof.
  unfold opposite, flipHalf, reverseHalf.
  destruct (getAt fl (triIdx x)), (getAt fl (triIdx y)); cbn [from to];
    intros [Ha Hb] He; congruence.
Qed.

(** Two loops on one key, or a half-edge and its reverse in the same
    triangle, run in opposite directions whatever is flipped. *)
Lemma always_opposite (fl : list bool) (x y : HalfEdge) :
  (from x = to x /\ from y = to y /\ from x = from y) \/ y = reverseHalf x ->
  opposite (flipHalf fl x) (flipHalf fl y).
Proof.
  intros [(Hx & Hy & Hxy) | ->]; unfold opposite, flipHalf, reverseHalf; cbn [triIdx].
  - destruct (getAt fl (triIdx x)), (getAt fl (triIdx y)); cbn [from to];
      split; congruence.
  - destruct (getAt fl (triIdx x)); cbn [from to]; split; reflexivity.
Qed.

Section OrientedGroup.

Variable keys : list TriKeys.
Variable sigma : list bool.

Hypothesis oriented :
  forall ek t0 t1, In (ek, [t0; t1]) (buildEdgeToTris keys) ->
                   opposite (flipHalf sigma t0) (flipHalf sigma t1).

Lemma oriented_pair (ek : string) (a b x y : HalfEdge) :
  In (ek, [a; b]) (buildEdgeToTris keys) ->
  (x = a /\ y = b) \/ (x = b /\ y = a) ->
  opposite (flipHalf sigma x) (flipHalf sigma y) /\ In x [a; b] /\ In y [a; b].
Proof.
  intros Hin [[-> ->] | [-> ->]].
  - split; [now apply (oriented ek) |]. split; [now left | right; now left].
  - split; [apply opposite_sym; now apply (oriented ek) |].
    split; [right; now left | now left].
Qed.

(** Across a shared edge a triangle with three distinct keys meets a
    triangle with three distinct keys, and neither half-edge is a loop. *)
Lemma regular_across (ek : string) (a b x y : HalfEdge) :
  In (ek, [a; b]) (buildEdgeToTris keys) ->
  (x = a /\ y = b) \/ (x = b /\ y = a) ->
  regularAt keys (triIdx x) ->
  from x <> to x /\ from y <> to y /\ regularAt keys (triIdx y).
Proof.
  intros Hin Hxy (ksx & Hnx & Hdx).
  destruct (oriented_pair ek a b x y Hin Hxy) as (Hopp & Hx & Hy).
  destruct (bucket_triangle keys ek [a; b] x Hin Hx) as (ksx' & Hnx' & Hhx).
  assert (ksx' = ksx) by congruence. subst ksx'.
  assert (Hrx : from x <> to x) by exact (halfEdges_regular _ ksx x Hdx Hhx).
  assert (Hry : from y <> to y) by exact (regular_partner sigma x y Hopp Hrx).
  split; [exact Hrx |]. split; [exact Hry |].
  destruct (bucket_triangle keys ek [a; b] y Hin Hy) as (ksy & Hny & Hhy).
  exists ksy. split; [exact Hny |].
  destruct (distinctKeys_dec ksy) as [Hd | Hnd]; [exact Hd | exfalso].
  destruct (halfEdges_degenerate _ ksy y Hnd Hhy) as [Hloop | Hrev];
    [now apply Hry |].
  assert (Hin' : In (reverseHalf y) [a; b]).
  { apply (bucket_complete keys ek).
    - exact Hin.
    - apply allHalfEdgesFrom_In. exists (triIdx y), ksy. now split.
    - rewrite sortedKey_reverse. exact (bucket_onEdge keys ek [a; b] y Hin Hy). }
  assert (Hcase : reverseHalf y = x \/ reverseHalf y = y).
  { destruct Hxy as [[-> ->] | [-> ->]]; destruct Hin' as [H | [H | []]]; auto. }
  destruct Hcase as [Hc | Hc].
  - assert (Hidx : triIdx x = triIdx y) by (now rewrite <- Hc).
    rewrite Hidx in Hnx. assert (ksy = ksx) by congruence. subst ksy.
    now apply Hnd.
  - apply Hry. apply (f_equal to) in Hc. cbn [reverseHalf to] in Hc. exact Hc.
Qed.

(** A shared edge of a triangle with a repeated key stays consistent
    under every choice of flips. *)
Lemma degenerate_bucket (fl : list bool) (ek : string) (a b x y : HalfEdge) :
  In (ek, [a; b]) (buildEdgeToTris keys) ->
  (x = a /\ y = b) \/ (x = b /\ y = a) ->
  (exists ks, nth_error keys (triIdx x) = Some ks /\ ~ distinctKeys ks) ->
  opposite (flipHalf fl x) (flipHalf fl y).
Proof.
  intros Hin Hxy (ks & Hn & Hnd).
  destruct (oriented_pair ek a b x y Hin Hxy) as (Hopp & Hx & Hy).
  destruct (bucket_triangle keys ek [a; b] x Hin Hx) as (ks' & Hn' & Hhx).
  assert (ks' = ks) by congruence. subst ks'.
  assert (Hloop : from x = to x -> opposite (flipHalf fl x) (flipHalf fl y)).
  { intro Hl. apply always_opposite. left.
    destruct (loop_partner sigma x y Hopp Hl) as [Hly Hxy']. now repeat split. }
  destruct (halfEdges_degenerate _ ks x Hnd Hhx) as [Hl | Hrev]; [now apply Hloop |].
  assert (Hin' : In (reverseHalf x) [a; b]).
  { apply (bucket_complete keys ek).
    - exact Hin.
    - apply allHalfEdgesFrom_In. exists (triIdx x), ks. now split.
    - rewrite sortedKey_reverse. exact (bucket_onEdge keys ek [a; b] x Hin Hx). }
  assert (Hcase : reverseHalf x = x \/ reverseHalf x = y).
  { destruct Hxy as [[-> ->] | [-> ->]]; destruct Hin' as [H | [H | []]]; auto. }
  destruct Hcase as [Hc | Hc].
  - apply Hloop. apply (f_equal to) in Hc. cbn [reverseHalf to] in Hc. exact Hc.
  - apply always_opposite. right. now symmetry.
Qed.

Lemma regular_adjacent (i j : nat) :
  adjacent keys i j -> regularAt keys i -> regularAt keys j.
Proof.
  intros (ek & t0 & t1 & Hin & [[<- <-] | [<- <-]]) Hreg.
  - now apply (regular_across ek t0 t1 t0 t1 Hin (or_introl (conj eq_refl eq_refl))).
  - now apply (regular_across ek t0 t1 t1 t0 Hin (or_intror (conj eq_refl eq_refl))).
Qed.

End OrientedGroup.

Lemma adjacent_sym (keys : list TriKeys) (i j : nat) :
  adjacent keys i j -> adjacent keys j i.
Proof.
  intros (ek & t0 & t1 & Hin & Hij). exists ek, t0, t1. split; [exact Hin | tauto].
Qed.

(** C7, as the code has it.  Take a group whose edge map is manifold
    and which some choice of flips orients consistently.  In the
    emitted group, every edge shared by exactly two triangles that are
    reachable from triangle 0 across shared edges is traversed by the
    two in opposite directions. *)
Theorem propagateNormals_consistent (tris : Soup) :
  isManifold (buildEdgeToTris (map triKeys tris)) = true ->
  orientable (map triKeys tris) ->
  consistentOn (reachable (map triKeys tris)) (map triKeys (propagateNormals tris)).
Proof.
  intros Hman [sigma [Hlen Hsigma]].
  destruct tris as [| t0 rest]; [intros ek h0 h1 [] |].
  assert (Hne : t0 :: rest <> []) by discriminate.
  revert Hne Hman Hlen Hsigma. generalize (t0 :: rest). clear t0 rest.
  intros tris Hne Hman Hlen Hsigma.
  set (keys := map triKeys tris) in *.
  assert (Hn : (0 < List.length keys)%nat).
  { unfold keys. rewrite length_map. destruct tris; [now contradiction Hne | cbn; lia]. }
  assert (Hprop : propagateNormals tris =
                  match computeFlips keys with
                  | None => ensureZUpNormals tris
                  | Some fl => applyFlips tris fl
                  end).
  { unfold propagateNormals. destruct tris; [now contradiction Hne | reflexivity]. }
  rewrite Hprop. clear Hprop Hne. unfold computeFlips. rewrite Hman.
  set (n := List.length keys) in *. set (m := buildEdgeToTris keys) in *.
  set (nbrs := buildNeighbors n m).
  set (final := bfsLoop nbrs n (bfsStart n)).
  rewrite triKeys_applyFlips. fold keys.
  pose proof (consistent_flipped_edges keys sigma Hlen Hsigma) as Hgood.
  assert (Hrange : forall ek hs h, In (ek, hs) m -> In h hs -> (triIdx h < n)%nat).
  { intros ek hs h Hin Hh.
    pose proof (allHalfEdgesFrom_triIdx keys 0 h (bucket_members keys ek hs h Hin Hh)).
    unfold n. lia. }
  destruct (buildNeighbors_spec n m Hrange) as [Hnl Hnb]. fold nbrs in Hnl, Hnb.
  assert (Hin_range : forall v nb, In nb (nth v nbrs []) -> (neighbor nb < n)%nat).
  { intros v nb Hin. apply Hnb in Hin.
    destruct Hin as [ek [a [b [Hm [_ [[_ ->] | [_ ->]]]]]]].
    - apply (Hrange ek [a; b]); [exact Hm | right; now left].
    - apply (Hrange ek [a; b]); [exact Hm | now left]. }
  assert (Hfl : List.length (flipped final) = List.length keys).
  { unfold final. rewrite bfsLoop_flipped_length. apply repeat_length. }
  assert (Hboth : forall ek a b, In (ek, [a; b]) m ->
            reachable keys (triIdx a) \/ reachable keys (triIdx b) ->
            reachable keys (triIdx a) /\ reachable keys (triIdx b)).
  { intros ek a b Hm [HP | HP]; (split; [| ]); try exact HP.
    - apply (reach_step keys (triIdx a)); [exact HP |].
      exists ek, a, b. split; [exact Hm | left; now split].
    - apply (reach_step keys (triIdx b)); [exact HP |].
      exists ek, a, b. split; [exact Hm | right; now split]. }
  destruct (nth_error keys 0) as [ks0 |] eqn:Hks0;
    [| apply nth_error_None in Hks0; fold n in Hks0; lia].
  apply edges_consistent_flipped; [exact Hfl |].
  intros ek a b Hm HP. destruct (Hboth ek a b Hm HP) as [Hra Hrb]. clear HP.
  destruct (distinctKeys_dec ks0) as [Hseed | Hseed].
  - (* the seed has three distinct keys, and so has all the BFS meets *)
    assert (Hreg0 : regularAt keys 0) by (now exists ks0).
    assert (Hclosed : forall v nb, regularAt keys v -> In nb (nth v nbrs []) ->
              regularAt keys (neighbor nb)).
    { intros v nb Hv Hin. apply Hnb in Hin.
      destruct Hin as [ek' [t0 [t1 [Hm' [_ Hr]]]]].
      apply (regular_adjacent keys sigma Hgood v); [| exact Hv].
      exists ek', t0, t1. split; [exact Hm' |].
      destruct Hr as [[<- ->] | [<- ->]]; [left | right]; now split. }
    assert (Horiented : forall v nb, regularAt keys v -> In nb (nth v nbrs []) ->
              sameDirection nb = xorb (getAt sigma v) (getAt sigma (neighbor nb))).
    { intros v nb Hv Hin. apply Hnb in Hin.
      destruct Hin as [ek' [t0 [t1 [Hm' [Hs Hr]]]]].
      assert (Hloops : from t0 <> to t0 /\ from t1 <> to t1).
      { destruct Hr as [[<- _] | [<- _]].
        - destruct (regular_across keys sigma Hgood ek' t0 t1 t0 t1 Hm'
                      (or_introl (conj eq_refl eq_refl)) Hv) as (H0 & H1 & _).
          now split.
        - destruct (regular_across keys sigma Hgood ek' t0 t1 t1 t0 Hm'
                      (or_intror (conj eq_refl eq_refl)) Hv) as (H1 & H0 & _).
          now split. }
      destruct Hloops as [H0 H1].
      rewrite Hs, (sameDirection_orientation sigma t0 t1 H0 H1 (Hgood ek' t0 t1 Hm')).
      destruct Hr as [[<- ->] | [<- ->]]; [reflexivity | apply xorb_comm]. }
    assert (Hres := fun v => bfs_result n nbrs sigma (regularAt keys) Hin_range Hreg0
                               Hclosed Horiented v Hn).
    cbv zeta in Hres. fold final in Hres.
    assert (Hvisit : forall v, reachable keys v -> getAt (visited final) v = true).
    { induction 1 as [| i j Hi IH [ek' [t0 [t1 [Hm' Hr]]]]].
      - apply (Hres 0%nat).
      - destruct (Hres i) as (_ & _ & Hclos & _).
        assert (Hnbj : In (mkNeighbor j (String.eqb (from t0) (from t1)))
                          (nth i nbrs [])).
        { apply Hnb. exists ek', t0, t1. split; [exact Hm' |]. split; [reflexivity |].
          cbn [neighbor]. destruct Hr as [[-> ->] | [-> ->]]; [left | right]; now split. }
        exact (Hclos i _ IH Hnbj). }
    destruct (Hres (triIdx a)) as (_ & _ & _ & Hfa).
    destruct (Hres (triIdx b)) as (_ & _ & _ & Hfb).
    specialize (Hfa (Hvisit _ Hra)). specialize (Hfb (Hvisit _ Hrb)).
    pose proof (Hgood ek a b Hm) as Hopp.
    unfold flipHalf in *. rewrite Hfa, Hfb.
    destruct (getAt sigma 0); rewrite ?xorb_true_r, ?xorb_false_r.
    + destruct (getAt sigma (triIdx a)), (getAt sigma (triIdx b)); cbn [negb];
        unfold opposite, reverseHalf in *; cbn [from to] in *; intuition congruence.
    + exact Hopp.
  - (* the seed repeats a key, and so does everything connected to it *)
    assert (Hall : forall v, reachable keys v ->
              exists ks, nth_error keys v = Some ks /\ ~ distinctKeys ks).
    { induction 1 as [| i j Hi (ksi & Hni & Hdi) Hadj]; [now exists ks0 |].
      assert (Hj : (j < n)%nat).
      { destruct Hadj as (ek' & t0 & t1 & Hm' & [[_ <-] | [<- _]]).
        - apply (Hrange ek' [t0; t1]); [exact Hm' | right; now left].
        - apply (Hrange ek' [t0; t1]); [exact Hm' | now left]. }
      destruct (nth_error keys j) as [ksj |] eqn:Hnj;
        [| apply nth_error_None in Hnj; fold n in Hnj; lia].
      exists ksj. split; [reflexivity |]. intro Hdj.
      destruct (regular_adjacent keys sigma Hgood j i (adjacent_sym keys i j Hadj))
        as (ksi' & Hni' & Hdi'); [now exists ksj |].
      assert (ksi' = ksi) by congruence. subst ksi'. now apply Hdi. }
    apply (degenerate_bucket keys sigma Hgood (flipped final) ek a b a b Hm
             (or_introl (conj eq_refl eq_refl)) (Hall _ Hra)).
Qed.

(** ** Winding propagation on examples *)

Lemma toFixed6_IZR (z : Z) : toFixed6 (IZR z) = toFixed6Z z.
Proof.
  unfold toFixed6, toFixed6Z. cbv zeta.
  assert (Hfloor : Zfloor (Rabs (IZR z) * 1000000 + / 2) = (Z.abs z * 1000000)%Z).
  { apply Zfloor_eq. rewrite mult_IZR, abs_IZR. simpl (IZR 1000000). lra. }
  rewrite Hfloor. destruct (Z.ltb_spec z 0) as [Hlt | Hge].
  - rewrite Rltb_true; [reflexivity |]. now apply (IZR_lt z 0).
  - rewrite Rltb_false; [reflexivity |]. now apply (IZR_le 0 z).
Qed.

Lemma vKey_ofZ (p : ZPoint) : vKey (vertexOfZ p) = vKeyZ p.
Proof.
  destruct p as [[a b] c]. unfold vKey, vKeyZ, vertexOfZ. cbn [vx vy vz].
  now rewrite !toFixed6_IZR.
Qed.

Lemma triKeys_ofZ (l : list ZTriangle) :
  map triKeys (map triangleOfZ l) = map triKeysZ l.
Proof.
  rewrite map_map. apply map_ext. intros [[a b] c].
  unfold triKeys, triKeysZ, triangleOfZ, vk. cbn [v0 v1 v2].
  now rewrite !vKey_ofZ.
Qed.

Lemma propagateNormals_keys (tris : Soup) (fl : list bool) :
  tris <> [] -> computeFlips (map triKeys tris) = Some fl ->
  map triKeys (propagateNormals tris) = flippedKeys (map triKeys tris) fl.
Proof.
  intros Hne Hfl. unfold propagateNormals.
  destruct tris as [| t tris']; [now contradiction Hne |].
  rewrite Hfl. apply triKeys_applyFlips.
Qed.

Lemma ofZ_nonempty (t : ZTriangle) (l : list ZTriangle) :
  map triangleOfZ (t :: l) <> [].
Proof. discriminate. Qed.

Lemma twoTetrahedra_flips :
  computeFlips (map triKeys twoTetrahedra) = Some (repeat false 8).
Proof. unfold twoTetrahedra. rewrite triKeys_ofZ. vm_compute. reflexivity. Qed.

Lemma projectivePlane_flips :
  computeFlips (map triKeys projectivePlane)
  = Some [false; false; false; false; false; true; true; false; false; true].
Proof. unfold projectivePlane. rewrite triKeys_ofZ. vm_compute. reflexivity. Qed.

(** The BFS of [propagateNormals] starts at triangle 0 only: of two
    separate tetrahedra it never visits the second, whose first and
    last face go on traversing their shared edge in the same
    direction. *)
Lemma propagateNormals_skips_component :
  isManifold (buildEdgeToTris (map triKeys twoTetrahedra)) = true /\
  In (dentKey, [dentFirst; dentLast])
     (buildEdgeToTris (map triKeys (propagateNormals twoTetrahedra))) /\
  ~ opposite dentFirst dentLast.
Proof.
  split; [| split].
  - unfold twoTetrahedra. rewrite triKeys_ofZ. vm_compute. reflexivity.
  - rewrite (propagateNormals_keys twoTetrahedra (repeat false 8));
      [| apply ofZ_nonempty | exact twoTetrahedra_flips].
    unfold twoTetrahedra. rewrite triKeys_ofZ. vm_compute. tauto.
  - unfold opposite, dentFirst, dentLast. cbn [from to]. intros [H _]. discriminate H.
Qed.

(** C7 fails as stated: the edge map of the six-vertex projective plane
    is manifold, every triangle is reached from triangle 0, and in the
    emitted group triangles 2 and 7 traverse their shared edge in the
    same direction. *)
Lemma propagateNormals_projective_plane :
  isManifold (buildEdgeToTris (map triKeys projectivePlane)) = true /\
  In (crossKey, [crossFirst; crossLast])
     (buildEdgeToTris (map triKeys (propagateNormals projectivePlane))) /\
  ~ opposite crossFirst crossLast.
Proof.
  split; [| split].
  - unfold projectivePlane. rewrite triKeys_ofZ. vm_compute. reflexivity.
  - rewrite (propagateNormals_keys projectivePlane _ (ofZ_nonempty _ _)
               projectivePlane_flips).
    unfold projectivePlane. rewrite triKeys_ofZ. vm_compute. tauto.
  - unfold opposite, crossFirst, crossLast. cbn [from to]. intros [H _]. discriminate H.
Qed.

Lemma dented_keys : map triKeys dentedTetrahedron = map triKeysZ (dentedTetrahedronZ 0).
Proof. apply triKeys_ofZ. Qed.

Lemma dented_manifold :
  isManifold (buildEdgeToTris (map triKeys dentedTetrahedron)) = true.
Proof. rewrite dented_keys. vm_compute. reflexivity. Qed.

Lemma dented_orientable : orientable (map triKeys dentedTetrahedron).
Proof.
  exists [false; false; false; true]. rewrite dented_keys. split; [reflexivity |].
  intros ek h0 h1 Hin _. vm_compute in Hin.
  repeat (destruct Hin as [Hin | Hin];
          [injection Hin as <- <- <-; split; reflexivity |]).
  destruct Hin.
Qed.

Lemma propagateNormals_consistent_witness :
  isManifold (buildEdgeToTris (map triKeys dentedTetrahedron)) = true /\
  orientable (map triKeys dentedTetrahedron) /\
  consistentOn (reachable (map triKeys dentedTetrahedron))
               (map triKeys (propagateNormals dentedTetrahedron)).
Proof.
  split; [exact dented_manifold |]. split; [exact dented_orientable |].
  exact (propagateNormals_consistent dentedTetrahedron dented_manifold
           dented_orientable).
Defined.

(** ** The grids of the boolean pipeline *)




Lemma flatTri_normal : triNormal flatTri = mkV 0 0 1.
Proof.
  rewrite (triNormal_regular flatTri 4); unfold flatTri, cross;
    cbn [vx vy vz v0 v1 v2]; [| lra | lra].
  f_equal; lra.
Qed.

Lemma uprightTri_normal : triNormal uprightTri = mkV 1 0 0.
Proof.
  rewrite (triNormal_regular uprightTri 4); unfold uprightTri, cross;
    cbn [vx vy vz v0 v1 v2]; [| lra | lra].
  f_equal; lra.
Qed.

Lemma flat_upright_clipped : clippedOverlap flatTri uprightTri = Some pierceOverlap.
Proof.
  unfold pierceOverlap.
  apply (clippedOverlap_value flatTri uprightTri (mkV 0 0 1) (mkV 1 0 0)
           (mkV 0 1 0) (mkV 0 1 0) (mkV 1 0 0)
           0 (-1) (-1) 1 0 (-1) 1 0 1 0 1
           (mkInterval 0 2) (mkInterval (-1) 1));
    unfold flatTri, uprightTri.
  - exact uprightTri_normal.
  - exact flatTri_normal.
  - rvalue.
  - rvalue.
  - rvalue.
  - rvalue.
  - rtest.
  - rtest.
  - rvalue.
  - rvalue.
  - rvalue.
  - rvalue.
  - rtest.
  - rtest.
  - rtest.
  - unfold cross. rvector.
  - cbn [vx vy vz]. apply sqrt_value; lra.
  - apply Rltb_false. lra.
  - rvector.
  - unfold findLinePoint, Rgeb. cbn [vx vy vz]. rminmax. rcompare. cbn [andb].
    rminmax. rcompare. f_equal. f_equal; lra.
  - rinterval.
  - rinterval.
  - cbn [imin imax]. rminmax. lra.
  - cbn [imin imax]. rminmax. lra.
  - rtest.
Qed.

Lemma flat_upright_segment : triTriIntersection flatTri uprightTri = Some pierceSegment.
Proof.
  rewrite triTriIntersection_overlap, flat_upright_clipped. cbv zeta.
  pose proof (segment_length pierceOverlap) as Hlen. cbv zeta in Hlen.
  rewrite Hlen; unfold pierceOverlap, pointAt, dot;
    cbn [oLineDir oLinePoint overlapMin overlapMax vx vy vz]; [| lra | lra].
  rewrite Rltb_false by lra. unfold pierceSegment. f_equal. f_equal; f_equal; lra.
Qed.

Lemma flat_upright_tagged :
  In pierceTagged (intersectMeshPairTagged [flatTri] [uprightTri]).
Proof.
  apply intersectMeshPairTagged_In. unfold pierceTagged. cbn [idxA idxB].
  exists flatTri, uprightTri, pierceSegment.
  split; [reflexivity |]. split; [reflexivity |]. split.
  - apply overlap_shares_cell; [apply cellSize_positive | exact flat_upright_overlap].
  - split; [exact flat_upright_segment | reflexivity].
Qed.

(** * Further properties *)

(** ** The spatial grid *)

Lemma boxes_share_cell (a b : BBox) (cs : R) :
  0 < cs -> minX a <= maxX a -> minY a <= maxY a ->
  minX b <= maxX b -> minY b <= maxY b ->
  bboxOverlapXY a b = true ->
  exists key, In key (boxCells a cs) /\ In key (boxCells b cs).
Proof.
  intros Hcs Hax Hay Hbx Hby Hov. unfold bboxOverlapXY, Rgeb in Hov.
  rewrite !andb_true_iff, !Rleb_iff in Hov. destruct Hov as [[[Hx1 Hx2] Hy1] Hy2].
  exists (Z.max (Zfloor (minX a / cs)) (Zfloor (minX b / cs)),
          Z.max (Zfloor (minY a / cs)) (Zfloor (minY b / cs))).
  rewrite !In_boxCells.
  pose proof (Zfloor_div_le _ _ cs Hcs Hax). pose proof (Zfloor_div_le _ _ cs Hcs Hay).
  pose proof (Zfloor_div_le _ _ cs Hcs Hbx). pose proof (Zfloor_div_le _ _ cs Hcs Hby).
  pose proof (Zfloor_div_le _ _ cs Hcs Hx1). pose proof (Zfloor_div_le _ _ cs Hcs Hx2).
  pose proof (Zfloor_div_le _ _ cs Hcs Hy1). pose proof (Zfloor_div_le _ _ cs Hcs Hy2).
  lia.
Qed.

Lemma triBBox_ordered (tri : Triangle) :
  minX (triBBox tri) <= maxX (triBBox tri) /\
  minY (triBBox tri) <= maxY (triBBox tri) /\
  minZ (triBBox tri) <= maxZ (triBBox tri).
Proof. cbn [triBBox minX maxX minY maxY minZ maxZ]. repeat split; apply Rmin3_le_Rmax3. Qed.

(** X1. For a cell size other than 0, [buildSpatialGrid] files
    triangle [j] under cell [(gx, gy)] exactly when [j] is an index of
    the soup and the cell lies between the floors of the triangle's
    bounding box in X and in Y, divided by the cell size; the z
    coordinates play no part. *)
Theorem buildSpatialGrid_cells (tris : Soup) (cs : R) (gx gy : Z) (j : nat) :
  cs <> 0 ->
  (binned (buildSpatialGrid tris cs) (gx, gy) j <->
   exists tri, nth_error tris j = Some tri /\
     (Zfloor (minX (triBBox tri) / cs) <= gx <= Zfloor (maxX (triBBox tri) / cs))%Z /\
     (Zfloor (minY (triBBox tri) / cs) <= gy <= Zfloor (maxY (triBBox tri) / cs))%Z).
Proof.
  intros _.
  rewrite binned_build. split; intros (tri & Hn & H); exists tri; (split; [exact Hn |]).
  - now apply In_boxCells.
  - now apply In_boxCells in H.
Qed.

Lemma buildSpatialGrid_cells_witness :
  1 <> 0 /\
  (binned (buildSpatialGrid [flatTri] 1) (0, 0)%Z 0 <->
   exists tri, nth_error [flatTri] 0 = Some tri /\
     (Zfloor (minX (triBBox tri) / 1) <= 0 <= Zfloor (maxX (triBBox tri) / 1))%Z /\
     (Zfloor (minY (triBBox tri) / 1) <= 0 <= Zfloor (maxY (triBBox tri) / 1))%Z).
Proof.
  split; [lra |]. apply (buildSpatialGrid_cells [flatTri] 1 0 0 0). lra.
Defined.

(** X2. A query of the grid built from a soup returns every index at
    most once, returns only indices of the soup, returns exactly the
    triangles that share a cell with the query box, and so, for a
    positive cell size, never misses a triangle whose bounding box
    overlaps the query box in X and Y. *)
Theorem queryGrid_buildSpatialGrid (tris : Soup) (cs : R) (bb : BBox) :
  let found := queryGrid (buildSpatialGrid tris cs) bb cs in
  NoDup found /\
  (forall j, In j found <->
     exists tri key, nth_error tris j = Some tri /\
       In key (boxCells bb cs) /\ In key (boxCells (triBBox tri) cs)) /\
  (forall j, In j found -> (j < List.length tris)%nat) /\
  (0 < cs -> minX bb <= maxX bb -> minY bb <= maxY bb ->
   forall j tri, nth_error tris j = Some tri ->
     bboxOverlapXY bb (triBBox tri) = true -> In j found).
Proof.
  cbv zeta. destruct (queryGrid_spec (buildSpatialGrid tris cs) bb cs) as [Hnd Hin].
  assert (Hiff : forall j, In j (queryGrid (buildSpatialGrid tris cs) bb cs) <->
            exists tri key, nth_error tris j = Some tri /\
              In key (boxCells bb cs) /\ In key (boxCells (triBBox tri) cs)).
  { intro j. rewrite Hin. split.
    - intros (key & Hk & Hb). apply binned_build in Hb. destruct Hb as (tri & Hn & Ht).
      now exists tri, key.
    - intros (tri & key & Hn & Hk & Ht). exists key. split; [exact Hk |].
      apply binned_build. now exists tri. }
  split; [exact Hnd |]. split; [exact Hiff |]. split.
  - intros j Hj. apply Hiff in Hj. destruct Hj as (tri & _ & Hn & _).
    apply nth_error_Some. congruence.
  - intros Hcs Hx Hy j tri Hn Hov. apply Hiff.
    destruct (triBBox_ordered tri) as (Htx & Hty & _).
    destruct (boxes_share_cell bb (triBBox tri) cs Hcs Hx Hy Htx Hty Hov)
      as (key & Hk & Ht).
    now exists tri, key.
Qed.

(** ** The untagged intersector *)

Lemma plainSegments_untag (trisB : Soup) (i : nat) (triA : Triangle)
  (candidates : list nat) :
  plainSegments trisB triA candidates = map untag (pairSegments trisB i triA candidates).
Proof.
  unfold plainSegments, pairSegments.
  induction candidates as [| c rest IH]; [reflexivity |].
  cbn [flat_map]. rewrite map_app, IH. f_equal.
  destruct (nth_error trisB c) as [triB |]; [| reflexivity].
  destruct (triTriIntersection triA triB) as [[q0 q1] |]; reflexivity.
Qed.

Lemma intersectFrom_untag (trisB : Soup) (g : Grid) (cs : R) (trisA : Soup) :
  forall i : nat,
    flat_map (fun triA => plainSegments trisB triA (queryGrid g (triBBox triA) cs)) trisA
    = map untag (intersectFrom trisB g cs i trisA).
Proof.
  induction trisA as [| triA rest IH]; intro i; [reflexivity |].
  cbn [flat_map intersectFrom]. rewrite map_app, (IH (S i)).
  now rewrite (plainSegments_untag trisB i).
Qed.

(** X3. [intersectMeshPair] returns the segments of
    [intersectMeshPairTagged], in the same order, without their tags. *)
Theorem intersectMeshPair_untagged (trisA trisB : Soup) :
  intersectMeshPair trisA trisB = map untag (intersectMeshPairTagged trisA trisB).
Proof.
  unfold intersectMeshPair, intersectMeshPairTagged. cbv zeta.
  apply intersectFrom_untag.
Qed.

(** ** The average edge length *)

Lemma edgeSum_nonneg (l : list Triangle) :
  forall acc : R, 0 <= acc ->
    0 <= fold_left (fun total t =>
                      total + dist3 (v0 t) (v1 t) + dist3 (v1 t) (v2 t)
                            + dist3 (v2 t) (v0 t)) l acc.
Proof.
  induction l as [| t l IH]; intros acc Hacc; cbn [fold_left]; [exact Hacc |].
  apply IH. unfold dist3.
  pose proof (sqrt_pos ((vx (v0 t) - vx (v1 t)) * (vx (v0 t) - vx (v1 t))
                        + (vy (v0 t) - vy (v1 t)) * (vy (v0 t) - vy (v1 t))
                        + (vz (v0 t) - vz (v1 t)) * (vz (v0 t) - vz (v1 t)))).
  pose proof (sqrt_pos ((vx (v1 t) - vx (v2 t)) * (vx (v1 t) - vx (v2 t))
                        + (vy (v1 t) - vy (v2 t)) * (vy (v1 t) - vy (v2 t))
                        + (vz (v1 t) - vz (v2 t)) * (vz (v1 t) - vz (v2 t)))).
  pose proof (sqrt_pos ((vx (v2 t) - vx (v0 t)) * (vx (v2 t) - vx (v0 t))
                        + (vy (v2 t) - vy (v0 t)) * (vy (v2 t) - vy (v0 t))
                        + (vz (v2 t) - vz (v0 t)) * (vz (v2 t) - vz (v0 t)))).
  cbv zeta. lra.
Qed.

Lemma estimateAvgEdge_nonempty (l : Soup) :
  l <> [] ->
  estimateAvgEdge l =
  fold_left (fun total t =>
               total + dist3 (v0 t) (v1 t) + dist3 (v1 t) (v2 t) + dist3 (v2 t) (v0 t))
            (firstn (Nat.min (List.length l) 100) l) 0
  / (INR (Nat.min (List.length l) 100) * 3).
Proof. destruct l; [intro H; now contradiction H | reflexivity]. Qed.

(** X4. [estimateAvgEdge] looks at the first 100 triangles only, so
    triangles beyond them never change the estimate, and the estimate
    is never negative. *)
Theorem estimateAvgEdge_samples (tris : Soup) :
  estimateAvgEdge tris = estimateAvgEdge (firstn 100 tris) /\
  0 <= estimateAvgEdge tris.
Proof.
  destruct tris as [| t rest]; [split; [reflexivity | unfold estimateAvgEdge; lra] |].
  set (l := t :: rest).
  assert (Hl : l <> []) by discriminate.
  assert (Hf : firstn 100 l <> []).
  { intro H. apply (f_equal (@List.length Triangle)) in H.
    rewrite length_firstn in H. unfold l in H. cbn [List.length] in H. lia. }
  split.
  - rewrite (estimateAvgEdge_nonempty l Hl), (estimateAvgEdge_nonempty _ Hf).
    rewrite length_firstn, firstn_firstn.
    replace (Nat.min (Nat.min 100 (List.length l)) 100) with (Nat.min (List.length l) 100)
      by lia.
    replace (Nat.min (Nat.min (List.length l) 100) 100) with (Nat.min (List.length l) 100)
      by lia.
    reflexivity.
  - rewrite (estimateAvgEdge_nonempty l Hl).
    set (count := Nat.min (List.length l) 100).
    assert (Hc : (1 <= count)%nat) by (unfold count, l; cbn [List.length]; lia).
    apply Rmult_le_pos; [apply edgeSum_nonneg; lra |].
    apply Rlt_le, Rinv_0_lt_compat. apply le_INR in Hc. cbn [INR] in Hc. lra.
Qed.

(** ** The triangle intersector *)

Lemma unit_of_normalised (x y z : R) :
  0 < sqrt (x * x + y * y + z * z) ->
  let len := sqrt (x * x + y * y + z * z) in
  x / len * (x / len) + y / len * (y / len) + z / len * (z / len) = 1.
Proof.
  intros Hpos len. fold len in Hpos.
  assert (Hsq : len * len = x * x + y * y + z * z).
  { unfold len. apply sqrt_sqrt. nra. }
  field_simplify_eq; [| lra]. lra.
Qed.

Lemma triNormal_unit (tri : Triangle) : dot (triNormal tri) (triNormal tri) = 1.
Proof.
  unfold triNormal. cbv zeta.
  set (n := cross _ _).
  destruct (Rltb (sqrt (vx n * vx n + vy n * vy n + vz n * vz n)) 1e-15) eqn:Hlen.
  - unfold dot. cbn [vx vy vz]. ring.
  - apply Rltb_false_iff in Hlen. unfold dot. cbn [vx vy vz].
    apply unit_of_normalised. lra.
Qed.

Lemma clippedOverlap_self (tri : Triangle) : clippedOverlap tri tri = None.
Proof.
  unfold clippedOverlap. cbv zeta.
  repeat match goal with
    | |- (if allPositive ?a ?b ?c then _ else _) = _ =>
        destruct (allPositive a b c); [reflexivity |]
    | |- (if allNegative ?a ?b ?c then _ else _) = _ =>
        destruct (allNegative a b c); [reflexivity |]
    end.
  pose proof (triNormal_unit tri) as Hu. unfold dot in Hu. rewrite Hu.
  unfold Rgtb. rewrite Rltb_true; [reflexivity |].
  rewrite Rabs_pos_eq; lra.
Qed.

(** X5. A triangle is never reported to intersect itself: both
    intersectors return null for the pair (T, T), whatever T is. *)
Theorem triTriIntersection_self (tri : Triangle) :
  triTriIntersection tri tri = None /\ triTriIntersectionDetailed tri tri = None.
Proof.
  rewrite triTriIntersection_overlap, triTriIntersectionDetailed_overlap.
  now rewrite clippedOverlap_self.
Qed.

(** X6. Exchanging the two triangles gives the same answer seen from
    the other side: [triTriIntersection] returns the same segment with
    its endpoints exchanged, [triTriIntersectionDetailed] the same
    length with the two distance triples exchanged, and null stays
    null. *)
Theorem triTriIntersection_exchange (triA triB : Triangle) :
  triTriIntersection triB triA = option_map swapSegment (triTriIntersection triA triB) /\
  triTriIntersectionDetailed triB triA
  = option_map swapDetailed (triTriIntersectionDetailed triA triB).
Proof.
  split; [apply triTriIntersection_swap |].
  rewrite !triTriIntersectionDetailed_overlap, clippedOverlap_swap.
  destruct (clippedOverlap triA triB) as [o |]; [| reflexivity].
  cbn [option_map]. cbv zeta. unfold swapOverlap.
  cbn [overlapMin overlapMax distA distB].
  replace (- overlapMin o - - overlapMax o) with (overlapMax o - overlapMin o) by ring.
  destruct (Rltb _ 1e-8); reflexivity.
Qed.

Lemma findLinePoint_planes (nA : Vertex) (dA : R) (nB : Vertex) (dB : R)
  (lineDir p : Vertex) :
  findLinePoint nA dA nB dB lineDir = Some p ->
  dot nA p + dA = 0 /\ dot nB p + dB = 0.
Proof.
  unfold findLinePoint. cbv zeta.
  destruct (Rgeb _ _ && Rgeb _ _); [| destruct (Rgeb _ _)];
    match goal with
    | |- context [Rltb (Rabs ?d) 1e-12] =>
        destruct (Rltb (Rabs d) 1e-12) eqn:Hd; [discriminate |];
        apply Rltb_false_iff in Hd;
        assert (Hne : d <> 0) by (intro H0; rewrite H0, Rabs_R0 in Hd; lra)
    end;
    intro H; injection H as <-; unfold dot; cbn [vx vy vz]; split; field; exact Hne.
Qed.

(** X7. When [findLinePoint] returns a point, the point satisfies both
    plane equations [n . p + d = 0], whatever direction it was given. *)
Theorem findLinePoint_on_planes (nA : Vertex) (dA : R) (nB : Vertex) (dB : R)
  (lineDir p : Vertex) :
  findLinePoint nA dA nB dB lineDir = Some p ->
  dot nA p + dA = 0 /\ dot nB p + dB = 0.
Proof. apply findLinePoint_planes. Qed.

Lemma findLinePoint_on_planes_witness :
  findLinePoint (mkV 0 0 1) 0 (mkV 1 0 0) (-1) (mkV 0 1 0) = Some (mkV 1 0 0) /\
  dot (mkV 0 0 1) (mkV 1 0 0) + 0 = 0 /\ dot (mkV 1 0 0) (mkV 1 0 0) + -1 = 0.
Proof.
  assert (H : findLinePoint (mkV 0 0 1) 0 (mkV 1 0 0) (-1) (mkV 0 1 0)
              = Some (mkV 1 0 0)).
  { unfold findLinePoint, Rgeb. cbn [vx vy vz]. rminmax. rcompare. cbn [andb].
    rminmax. rcompare. f_equal. f_equal; lra. }
  split; [exact H |].
  exact (findLinePoint_on_planes (mkV 0 0 1) 0 (mkV 1 0 0) (-1) (mkV 0 1 0)
           (mkV 1 0 0) H).
Defined.

Lemma clippedOverlap_line (triA triB : Triangle) (o : Overlap) :
  clippedOverlap triA triB = Some o ->
  dot (triNormal triA) (oLineDir o) = 0 /\ dot (triNormal triB) (oLineDir o) = 0 /\
  planeDistance triA (oLinePoint o) = 0 /\ planeDistance triB (oLinePoint o) = 0 /\
  distA o = (planeDistance triB (v0 triA), planeDistance triB (v1 triA),
             planeDistance triB (v2 triA)) /\
  distB o = (planeDistance triA (v0 triB), planeDistance triA (v1 triB),
             planeDistance triA (v2 triB)).
Proof.
  unfold clippedOverlap, planeDistance.
  set (nB := triNormal triB). set (nA := triNormal triA).
  set (dB := - _). set (dA := - _).
  set (dA0 := _ + dB). set (dA1 := _ + dB). set (dA2 := _ + dB).
  cbv zeta.
  set (dB0 := _ + dA). set (dB1 := _ + dA). set (dB2 := _ + dA).
  destruct (allPositive dA0 dA1 dA2); [discriminate |].
  destruct (allNegative dA0 dA1 dA2); [discriminate |].
  destruct (allPositive dB0 dB1 dB2); [discriminate |].
  destruct (allNegative dB0 dB1 dB2); [discriminate |].
  destruct (Rgtb _ 0.9999); [discriminate |].
  set (l0 := cross nA nB).
  destruct (Rltb _ 1e-12) eqn:Hlen; [discriminate |].
  apply Rltb_false_iff in Hlen.
  set (len := sqrt _) in *.
  destruct (findLinePoint _ _ _ _ _) as [lp |] eqn:Hlp; [| discriminate].
  destruct (computeTriInterval triA _ _ _ _ _) as [iA |]; [| discriminate].
  destruct (computeTriInterval triB _ _ _ _ _) as [iB |]; [| discriminate].
  destruct (Rgeb _ _); [discriminate |].
  intro H. injection H as <-. cbn [oLineDir oLinePoint distA distB].
  destruct (findLinePoint_planes _ _ _ _ _ _ Hlp) as [HpA HpB].
  assert (Hne : len <> 0) by lra.
  split; [unfold dot, l0, cross; cbn [vx vy vz]; field; exact Hne |].
  split; [unfold dot, l0, cross; cbn [vx vy vz]; field; exact Hne |].
  split; [unfold dA, dot in *; lra |]. split; [unfold dB, dot in *; lra |].
  unfold dA0, dA1, dA2, dB0, dB1, dB2, dA, dB, dot. split; repeat f_equal; ring.
Qed.

Lemma planeDistance_pointAt (tri : Triangle) (o : Overlap) (t : R) :
  dot (triNormal tri) (oLineDir o) = 0 -> planeDistance tri (oLinePoint o) = 0 ->
  planeDistance tri (pointAt o t) = 0.
Proof.
  unfold planeDistance, pointAt, dot. cbn [vx vy vz]. intros Hd Hp.
  apply (f_equal (Rmult t)) in Hd. lra.
Qed.

Lemma triTriIntersection_Some (triA triB : Triangle) (s : Segment) :
  triTriIntersection triA triB = Some s ->
  exists o, clippedOverlap triA triB = Some o /\
    s = mkSeg (pointAt o (overlapMin o)) (pointAt o (overlapMax o)) /\
    dist3 (p0 s) (p1 s) = overlapMax o - overlapMin o /\
    1e-8 <= overlapMax o - overlapMin o.
Proof.
  rewrite triTriIntersection_overlap.
  destruct (clippedOverlap triA triB) as [o |] eqn:Ho; [| discriminate].
  destruct (clippedOverlap_sound triA triB o Ho) as [Hunit Hlt].
  pose proof (segment_length o Hunit) as Hlen. cbv zeta in Hlen |- *.
  rewrite Hlen by lra.
  destruct (Rltb (overlapMax o - overlapMin o) 1e-8) eqn:Hs; [discriminate |].
  intro H. injection H as <-. exists o. split; [reflexivity |]. split; [reflexivity |].
  apply Rltb_false_iff in Hs. split; [| exact Hs].
  unfold dist3. cbn [p0 p1]. apply Hlen. lra.
Qed.

(** X8. A segment returned by [triTriIntersection] lies in the plane of
    each of the two triangles (both endpoints have distance 0 to both
    planes) and is at least 1e-8 long. *)
Theorem triTriIntersection_on_planes (triA triB : Triangle) (s : Segment) :
  triTriIntersection triA triB = Some s ->
  planeDistance triA (p0 s) = 0 /\ planeDistance triA (p1 s) = 0 /\
  planeDistance triB (p0 s) = 0 /\ planeDistance triB (p1 s) = 0 /\
  1e-8 <= dist3 (p0 s) (p1 s).
Proof.
  intro Hs. destruct (triTriIntersection_Some triA triB s Hs) as (o & Ho & -> & Hd & Hl).
  destruct (clippedOverlap_line triA triB o Ho) as (HdA & HdB & HpA & HpB & _).
  cbn [p0 p1] in *. rewrite Hd.
  repeat split; try (now apply planeDistance_pointAt). exact Hl.
Qed.

Lemma triTriIntersection_on_planes_witness :
  triTriIntersection flatTri uprightTri = Some pierceSegment /\
  planeDistance flatTri (p0 pierceSegment) = 0 /\
  planeDistance flatTri (p1 pierceSegment) = 0 /\
  planeDistance uprightTri (p0 pierceSegment) = 0 /\
  planeDistance uprightTri (p1 pierceSegment) = 0 /\
  1e-8 <= dist3 (p0 pierceSegment) (p1 pierceSegment).
Proof.
  split; [exact flat_upright_segment |].
  exact (triTriIntersection_on_planes flatTri uprightTri pierceSegment
           flat_upright_segment).
Defined.

(** X9. A record returned by [triTriIntersectionDetailed] has a
    [segLen] of at least 1e-8, which is the length [overlapMax -
    overlapMin] of the common part of the two triangles' intervals on
    the intersection line of their planes; [dA] holds the signed
    distances of the corners of A to the plane of B, and [dB] those of
    the corners of B to the plane of A. *)
Theorem triTriIntersectionDetailed_meaning (triA triB : Triangle) (d : Detailed) :
  triTriIntersectionDetailed triA triB = Some d ->
  (exists o, clippedOverlap triA triB = Some o /\
             segLen d = overlapMax o - overlapMin o) /\
  1e-8 <= segLen d /\
  dA_ d = (planeDistance triB (v0 triA), planeDistance triB (v1 triA),
           planeDistance triB (v2 triA)) /\
  dB_ d = (planeDistance triA (v0 triB), planeDistance triA (v1 triB),
           planeDistance triA (v2 triB)).
Proof.
  rewrite triTriIntersectionDetailed_overlap.
  destruct (clippedOverlap triA triB) as [o |] eqn:Ho; [| discriminate].
  destruct (clippedOverlap_line triA triB o Ho) as (_ & _ & _ & _ & HdA & HdB).
  cbv zeta.
  destruct (Rltb (overlapMax o - overlapMin o) 1e-8) eqn:Hs; [discriminate |].
  apply Rltb_false_iff in Hs.
  intro H. injection H as <-. cbn [segLen dA_ dB_].
  split; [| split; [exact Hs | split; [exact HdA | exact HdB]]].
  exists o. now split.
Qed.

Lemma flat_upright_detailed :
  triTriIntersectionDetailed flatTri uprightTri = Some pierceDetailed.
Proof.
  rewrite triTriIntersectionDetailed_overlap, flat_upright_clipped. cbv zeta.
  unfold pierceOverlap. cbn [overlapMax overlapMin distA distB].
  rewrite Rltb_false by lra. reflexivity.
Qed.

Lemma triTriIntersectionDetailed_meaning_witness :
  triTriIntersectionDetailed flatTri uprightTri = Some pierceDetailed /\
  (exists o, clippedOverlap flatTri uprightTri = Some o /\
             segLen pierceDetailed = overlapMax o - overlapMin o) /\
  1e-8 <= segLen pierceDetailed /\
  dA_ pierceDetailed = (planeDistance uprightTri (v0 flatTri),
                        planeDistance uprightTri (v1 flatTri),
                        planeDistance uprightTri (v2 flatTri)) /\
  dB_ pierceDetailed = (planeDistance flatTri (v0 uprightTri),
                        planeDistance flatTri (v1 uprightTri),
                        planeDistance flatTri (v2 uprightTri)).
Proof.
  split; [exact flat_upright_detailed |].
  exact (triTriIntersectionDetailed_meaning flatTri uprightTri pierceDetailed
           flat_upright_detailed).
Defined.

Lemma isMax_sorted (l : list R) (m : R) : isMax m (sortParams l) <-> isMax m l.
Proof.
  unfold isMax. rewrite sortParams_In. split; intros [Hin Hle]; (split; [exact Hin |]);
    intros x Hx; apply Hle; now apply sortParams_In.
Qed.

(** X10. [computeTriInterval] returns null exactly when fewer than two
    crossing parameters were collected; otherwise its [min] is the
    least and its [max] the greatest of the collected parameters, so
    [min <= max]. *)
Theorem computeTriInterval_extremes (tri : Triangle) (lineDir linePoint : Vertex)
  (d0 d1 d2 : R) :
  let params := crossingParams tri lineDir linePoint d0 d1 d2 in
  match computeTriInterval tri lineDir linePoint d0 d1 d2 with
  | None => (List.length params < 2)%nat
  | Some i =>
      (2 <= List.length params)%nat /\
      isMin (imin i) params /\ isMax (imax i) params /\ imin i <= imax i
  end.
Proof.
  intro params. unfold computeTriInterval. cbv zeta.
  change (edgeParams (v0 tri) (v1 tri) lineDir linePoint d0 d1 ++
          edgeParams (v1 tri) (v2 tri) lineDir linePoint d1 d2 ++
          edgeParams (v2 tri) (v0 tri) lineDir linePoint d2 d0) with params.
  destruct (List.length params <? 2)%nat eqn:Hl.
  - now apply Nat.ltb_lt in Hl.
  - apply Nat.ltb_ge in Hl. cbn [imin imax].
    assert (Hne : params <> []) by (intro H; rewrite H in Hl; cbn in Hl; lia).
    pose proof (sorted_hd_min _ (sortParams_sorted params)
                  (sortParams_nonempty params Hne)) as Hmin.
    pose proof (sorted_last_max _ (sortParams_sorted params)
                  (sortParams_nonempty params Hne)) as Hmax.
    apply (isMin_sorted params _ Hne) in Hmin. apply (isMax_sorted params) in Hmax.
    split; [exact Hl |]. split; [exact Hmin |]. split; [exact Hmax |].
    destruct Hmin as [Hin _]. destruct Hmax as [_ Hle]. now apply Hle.
Qed.

(** ** Normals *)

Lemma copyVertex_id (v : Vertex) : copyVertex v = v.
Proof. now destruct v. Qed.

Lemma copyTriangle_id (t : Triangle) : copyTriangle t = t.
Proof. destruct t as [a b c]. unfold copyTriangle. now rewrite !copyVertex_id. Qed.

Lemma flipTriangle_flip (t : Triangle) : flipTriangle (flipTriangle t) = t.
Proof.
  destruct t as [a b c]. unfold flipTriangle. cbn [v0 v1 v2].
  now rewrite !copyVertex_id.
Qed.

Lemma triangleArea3D_cross (tri : Triangle) :
  let n := cross (mkV (vx (v1 tri) - vx (v0 tri)) (vy (v1 tri) - vy (v0 tri))
                      (vz (v1 tri) - vz (v0 tri)))
                 (mkV (vx (v2 tri) - vx (v0 tri)) (vy (v2 tri) - vy (v0 tri))
                      (vz (v2 tri) - vz (v0 tri))) in
  2 * triangleArea3D tri = sqrt (vx n * vx n + vy n * vy n + vz n * vz n).
Proof. unfold triangleArea3D, cross. cbn [vx vy vz]. lra. Qed.

(** The normal of the flipped triangle: the opposite vector, unless
    the triangle is degenerate and both get the fallback. *)
Lemma triNormal_flipTriangle (tri : Triangle) :
  triNormal (flipTriangle tri) =
  if Rltb (2 * triangleArea3D tri) 1e-15 then mkV 0 0 1 else neg (triNormal tri).
Proof.
  rewrite triangleArea3D_cross. cbv zeta.
  unfold triNormal, flipTriangle. cbn [v0 v1 v2]. rewrite !copyVertex_id. cbv zeta.
  rewrite (cross_swap (mkV (vx (v1 tri) - vx (v0 tri)) (vy (v1 tri) - vy (v0 tri))
                           (vz (v1 tri) - vz (v0 tri)))).
  set (n := cross _ _). unfold neg. cbn [vx vy vz].
  replace (- vx n * - vx n + - vy n * - vy n + - vz n * - vz n)
    with (vx n * vx n + vy n * vy n + vz n * vz n) by ring.
  destruct (Rltb (sqrt (vx n * vx n + vy n * vy n + vz n * vz n)) 1e-15) eqn:Hl;
    [reflexivity |].
  apply Rltb_false_iff in Hl. cbn [vx vy vz]. f_equal; field; lra.
Qed.

(** X11. [triNormal] always returns a unit vector.  For a triangle
    whose cross product is at least 1e-15 long (twice its area), the
    three corners lie in the plane through [v0] with that normal, and
    exchanging [v1] and [v2] gives the opposite normal. *)
Theorem triNormal_unit_plane (tri : Triangle) :
  dot (triNormal tri) (triNormal tri) = 1 /\
  (1e-15 <= 2 * triangleArea3D tri ->
   planeDistance tri (v1 tri) = 0 /\ planeDistance tri (v2 tri) = 0 /\
   triNormal (flipTriangle tri) = neg (triNormal tri)).
Proof.
  split; [apply triNormal_unit |]. intro Harea.
  split; [| split].
  - rewrite triangleArea3D_cross in Harea. cbv zeta in Harea.
    unfold planeDistance, triNormal, dot. cbv zeta. set (n := cross _ _) in *.
    set (len := sqrt (vx n * vx n + vy n * vy n + vz n * vz n)) in *.
    rewrite Rltb_false by lra. unfold n, cross. cbn [vx vy vz]. field. lra.
  - rewrite triangleArea3D_cross in Harea. cbv zeta in Harea.
    unfold planeDistance, triNormal, dot. cbv zeta. set (n := cross _ _) in *.
    set (len := sqrt (vx n * vx n + vy n * vy n + vz n * vz n)) in *.
    rewrite Rltb_false by lra. unfold n, cross. cbn [vx vy vz]. field. lra.
  - rewrite triNormal_flipTriangle. now rewrite Rltb_false by lra.
Qed.

Lemma flatTri_area : 2 * triangleArea3D flatTri = 4.
Proof.
  unfold triangleArea3D, flatTri. cbn [vx vy vz v0 v1 v2]. cbv zeta.
  rewrite (sqrt_value _ 4); lra.
Qed.

Lemma triNormal_unit_plane_witness :
  1e-15 <= 2 * triangleArea3D flatTri /\
  planeDistance flatTri (v1 flatTri) = 0 /\ planeDistance flatTri (v2 flatTri) = 0 /\
  triNormal (flipTriangle flatTri) = neg (triNormal flatTri).
Proof.
  assert (H : 1e-15 <= 2 * triangleArea3D flatTri) by (rewrite flatTri_area; lra).
  split; [exact H |]. exact (proj2 (triNormal_unit_plane flatTri) H).
Defined.

Lemma ensureZUp_one (tri : Triangle) :
  let out := if Rltb (vz (triNormal (copyTriangle tri))) (-0.01)
             then flipTriangle tri else copyTriangle tri in
  sameOrFlipped tri out /\ -0.01 <= vz (triNormal out).
Proof.
  cbv zeta. rewrite !copyTriangle_id.
  destruct (Rltb (vz (triNormal tri)) (-0.01)) eqn:Hz.
  - split; [now right |]. apply Rltb_iff in Hz. rewrite triNormal_flipTriangle.
    destruct (Rltb (2 * triangleArea3D tri) 1e-15); cbn [neg vz]; lra.
  - split; [now left |]. now apply Rltb_false_iff in Hz.
Qed.

Lemma ensureZUpNormals_sameOrFlipped (tris : Soup) :
  Forall2 sameOrFlipped tris (ensureZUpNormals tris).
Proof.
  unfold ensureZUpNormals. induction tris as [| tri rest IH]; cbn [map]; constructor.
  - exact (proj1 (ensureZUp_one tri)).
  - exact IH.
Qed.

(** X12. [ensureZUpNormals] keeps the number and the order of the
    triangles, returns each triangle as it is or with [v1] and [v2]
    exchanged, leaves no triangle whose normal has a z component below
    -0.01, and changes nothing when applied a second time. *)
Theorem ensureZUpNormals_up (tris : Soup) :
  Forall2 sameOrFlipped tris (ensureZUpNormals tris) /\
  Forall (fun t => -0.01 <= vz (triNormal t)) (ensureZUpNormals tris) /\
  ensureZUpNormals (ensureZUpNormals tris) = ensureZUpNormals tris.
Proof.
  unfold ensureZUpNormals. induction tris as [| tri rest IH]; cbn [map].
  - repeat split; constructor.
  - destruct IH as (IH1 & IH2 & IH3).
    destruct (ensureZUp_one tri) as [Hs Hz]. cbv zeta in Hs, Hz.
    split; [now constructor |]. split; [now constructor |].
    rewrite IH3. f_equal.
    set (out := if Rltb _ _ then _ else _) in *.
    rewrite copyTriangle_id. now rewrite Rltb_false by lra.
Qed.

(** X13. [flipAllNormals] is its own inverse, it is what the private
    [flipSoup] of booleanOp.js computes, and it turns around the normal
    of every triangle that is not degenerate. *)
Theorem flipAllNormals_involution (tris : Soup) :
  flipAllNormals (flipAllNormals tris) = tris /\
  flipSoup tris = flipAllNormals tris /\
  Forall2 (fun t t' => 1e-15 <= 2 * triangleArea3D t ->
                       triNormal t' = neg (triNormal t))
          tris (flipAllNormals tris).
Proof.
  split; [| split].
  - unfold flipAllNormals. rewrite map_map. rewrite <- (map_id tris) at 2.
    apply map_ext. intro t. exact (flipTriangle_flip t).
  - reflexivity.
  - unfold flipAllNormals. induction tris as [| t rest IH]; cbn [map]; constructor.
    + intro Ha. change (mkT (copyVertex (v0 t)) (copyVertex (v2 t)) (copyVertex (v1 t)))
        with (flipTriangle t).
      rewrite triNormal_flipTriangle. now rewrite Rltb_false by lra.
    + exact IH.
Qed.

(** ** Winding propagation: what never changes *)

Lemma getAt_setAt_other (l : list bool) (j : nat) (b : bool) (v : nat) :
  v <> j -> getAt (setAt l j b) v = getAt l v.
Proof.
  unfold getAt. revert j v. induction l as [| a l IH]; intros j v Hne.
  - destruct j; reflexivity.
  - destruct j as [| j]; cbn [setAt].
    + destruct v; [now contradiction Hne | reflexivity].
    + destruct v as [| v]; [reflexivity |]. cbn [nth]. apply IH. lia.
Qed.

Lemma getAt_setAt_true (l : list bool) (j v : nat) :
  getAt l v = true -> getAt (setAt l j true) v = true.
Proof.
  unfold getAt. revert j v. induction l as [| a l IH]; intros j v H.
  - destruct j; exact H.
  - destruct j as [| j]; cbn [setAt].
    + destruct v; [reflexivity | exact H].
    + destruct v as [| v]; [exact H |]. cbn [nth] in *. now apply IH.
Qed.

(** The seed is marked visited before the loop, so its flag is never
    written. *)
Lemma visitNeighbor_seed (cur : nat) (st : Bfs) (nb : Neighbor) :
  getAt (visited st) 0 = true /\ getAt (flipped st) 0 = false ->
  getAt (visited (visitNeighbor cur st nb)) 0 = true /\
  getAt (flipped (visitNeighbor cur st nb)) 0 = false.
Proof.
  intros [Hv Hf]. unfold visitNeighbor.
  destruct (getAt (visited st) (neighbor nb)) eqn:Hn; [now split |].
  cbn [visited flipped]. split; [now apply getAt_setAt_true |].
  rewrite getAt_setAt_other; [exact Hf |]. intro H0. rewrite <- H0 in Hn. congruence.
Qed.

Lemma bfsLoop_seed (nbrs : list (list Neighbor)) (fuel : nat) :
  forall st : Bfs,
    getAt (visited st) 0 = true /\ getAt (flipped st) 0 = false ->
    getAt (flipped (bfsLoop nbrs fuel st)) 0 = false.
Proof.
  induction fuel as [| fuel IH]; intros st Hst; cbn [bfsLoop]; [apply Hst |].
  destruct (pending st) as [| cur rest]; [apply Hst |].
  apply IH.
  assert (H : forall (nbs : list Neighbor) (s : Bfs),
            getAt (visited s) 0 = true /\ getAt (flipped s) 0 = false ->
            getAt (visited (fold_left (visitNeighbor cur) nbs s)) 0 = true /\
            getAt (flipped (fold_left (visitNeighbor cur) nbs s)) 0 = false).
  { induction nbs as [| nb nbs IHn]; intros s Hs; cbn [fold_left]; [exact Hs |].
    apply IHn. now apply visitNeighbor_seed. }
  apply H. exact Hst.
Qed.

Lemma applyFlips_shape (tris : Soup) :
  forall fl : list bool,
    List.length fl = List.length tris ->
    Forall2 sameOrFlipped tris (applyFlips tris fl).
Proof.
  unfold applyFlips. induction tris as [| t rest IH]; intros fl Hlen.
  - destruct fl; constructor.
  - destruct fl as [| b fl]; [discriminate |]. cbn [combine map fst snd].
    constructor; [| apply IH; cbn in Hlen; lia].
    destruct b; [now right | left; apply copyTriangle_id].
Qed.

(** X14. [propagateNormals] never adds, drops, reorders or moves a
    triangle: each one comes back as it is or with [v1] and [v2]
    exchanged.  On a group whose edge map is not manifold the result is
    that of [ensureZUpNormals]; on a manifold group the seed, triangle
    0, keeps its winding. *)
Theorem propagateNormals_shape (tris : Soup) :
  Forall2 sameOrFlipped tris (propagateNormals tris) /\
  (isManifold (buildEdgeToTris (map triKeys tris)) = false ->
   propagateNormals tris = ensureZUpNormals tris) /\
  (isManifold (buildEdgeToTris (map triKeys tris)) = true ->
   nth_error (propagateNormals tris) 0 = nth_error tris 0).
Proof.
  destruct tris as [| t0 rest].
  - split; [constructor |]. split; reflexivity.
  - unfold propagateNormals, computeFlips. set (tris := t0 :: rest).
    set (keys := map triKeys tris). set (n := List.length keys).
    set (final := bfsLoop (buildNeighbors n (buildEdgeToTris keys)) n (bfsStart n)).
    assert (Hfl : List.length (flipped final) = List.length tris).
    { unfold final. rewrite bfsLoop_flipped_length. unfold bfsStart. cbn [flipped].
      rewrite repeat_length. unfold n, keys. apply length_map. }
    destruct (isManifold (buildEdgeToTris keys)) eqn:Hman.
    + split; [now apply applyFlips_shape |]. split; [discriminate |]. intros _.
      assert (H0 : getAt (flipped final) 0 = false).
      { unfold final. apply bfsLoop_seed. unfold bfsStart. cbn [visited flipped].
        unfold n, keys, tris. cbn [map List.length repeat setAt]. now split. }
      unfold applyFlips, tris in *. destruct (flipped final) as [| b fl];
        [discriminate |].
      unfold getAt in H0. cbn [nth] in H0. subst b. cbn [combine map fst snd nth_error].
      now rewrite copyTriangle_id.
    + split; [| split; [reflexivity | discriminate]].
      apply ensureZUpNormals_sameOrFlipped.
Qed.

Lemma propagateNormals_shape_witness :
  isManifold (buildEdgeToTris (map triKeys dentedTetrahedron)) = true /\
  nth_error (propagateNormals dentedTetrahedron) 0 = nth_error dentedTetrahedron 0.
Proof.
  split; [exact dented_manifold |].
  exact (proj2 (proj2 (propagateNormals_shape dentedTetrahedron)) dented_manifold).
Defined.

(** ** Welding *)

Lemma cell3Eqb_eq (a b : Z * Z * Z) : cell3Eqb a b = true <-> a = b.
Proof.
  destruct a as [[a1 a2] a3], b as [[b1 b2] b3]. unfold cell3Eqb. cbn [fst snd].
  rewrite !andb_true_iff, !Z.eqb_eq. split; [intros [[-> ->] ->]; reflexivity |].
  intro H. injection H as -> -> ->. tauto.
Qed.

Lemma grid3Push_get (g : Grid3) (k : Z * Z * Z) (i : nat) (key : Z * Z * Z) :
  grid3Get (grid3Push g k i) key =
  if cell3Eqb k key then grid3Get g k ++ [i] else grid3Get g key.
Proof.
  induction g as [| [k0 cell] rest IH]; cbn [grid3Push grid3Get].
  - destruct (cell3Eqb k key); reflexivity.
  - destruct (cell3Eqb k0 k) eqn:Hk; cbn [grid3Get].
    + apply cell3Eqb_eq in Hk. subst k0. destruct (cell3Eqb k key); reflexivity.
    + destruct (cell3Eqb k0 key) eqn:Hkey.
      * destruct (cell3Eqb k key) eqn:Hkk; [| reflexivity].
        apply cell3Eqb_eq in Hkk, Hkey. subst. 
        assert (cell3Eqb key key = true) by now apply cell3Eqb_eq. congruence.
      * exact IH.
Qed.

Lemma Zfloor_near (u w : R) :
  Rabs (u - w) <= 1 -> (Zfloor w - 1 <= Zfloor u <= Zfloor w + 1)%Z.
Proof.
  intro H0. assert (H : -1 <= u - w <= 1).
  { unfold Rabs in H0. destruct (Rcase_abs (u - w)); lra. }
  pose proof (Zfloor_bound u) as Hu. pose proof (Zfloor_bound w) as Hw.
  split.
  - assert (Hlt : IZR (Zfloor w - 1) < IZR (Zfloor u + 1)).
    { rewrite minus_IZR, plus_IZR. lra. }
    apply lt_IZR in Hlt. lia.
  - assert (Hlt : IZR (Zfloor u) < IZR (Zfloor w + 2)).
    { rewrite plus_IZR. lra. }
    apply lt_IZR in Hlt. lia.
Qed.

Lemma In_around (gx gy gz a b c : Z) :
  (gx - 1 <= a <= gx + 1)%Z -> (gy - 1 <= b <= gy + 1)%Z ->
  (gz - 1 <= c <= gz + 1)%Z -> In (a, b, c) (around gx gy gz).
Proof.
  intros Ha Hb Hc. unfold around.
  assert (Hd : forall g x : Z, (g - 1 <= x <= g + 1)%Z ->
             exists d, In d [(-1)%Z; 0%Z; 1%Z] /\ x = (g + d)%Z).
  { intros g x Hx.
    assert (Hx' : x = (g + -1)%Z \/ x = (g + 0)%Z \/ x = (g + 1)%Z) by lia.
    destruct Hx' as [-> | [-> | ->]];
      [exists (-1)%Z | exists 0%Z | exists 1%Z]; cbn; auto. }
  destruct (Hd gx a Ha) as (dx & Hdx & ->).
  destruct (Hd gy b Hb) as (dy & Hdy & ->).
  destruct (Hd gz c Hc) as (dz & Hdz & ->).
  apply in_flat_map. exists dx. split; [exact Hdx |].
  apply in_flat_map. exists dy. split; [exact Hdy |].
  apply in_map_iff. exists dz. now split.
Qed.

Lemma distSq3_coords (p q : Vertex) (t : R) :
  0 <= t -> distSq3 p q <= t * t ->
  Rabs (vx p - vx q) <= t /\ Rabs (vy p - vy q) <= t /\ Rabs (vz p - vz q) <= t.
Proof.
  unfold distSq3. cbv zeta. intros Ht H.
  assert (Hsq : forall d : R, d * d <= t * t -> Rabs d <= t).
  { intros d Hd. apply Rabs_le. split; nra. }
  set (dx := vx p - vx q) in *. set (dy := vy p - vy q) in *.
  set (dz := vz p - vz q) in *.
  pose proof (Rle_0_sqr dx) as Hx. pose proof (Rle_0_sqr dy) as Hy.
  pose proof (Rle_0_sqr dz) as Hz. unfold Rsqr in Hx, Hy, Hz.
  repeat split; apply Hsq; lra.
Qed.

(** A pool point within [t] of [v], with [t] at most the cell size, is
    filed in one of the 27 cells around the cell of [v]. *)
Lemma near_cell (cs t : R) (p v : Vertex) :
  0 < cs -> 0 <= t -> t <= cs -> distSq3 p v <= t * t ->
  In (cellOf3 cs p)
     (around (Zfloor (vx v / cs)) (Zfloor (vy v / cs)) (Zfloor (vz v / cs))).
Proof.
  intros Hcs Ht Htc Hd. destruct (distSq3_coords p v t Ht Hd) as (Hx & Hy & Hz).
  assert (Hn : forall a b : R, Rabs (a - b) <= t -> Rabs (a / cs - b / cs) <= 1).
  { intros a b Hab. replace (a / cs - b / cs) with ((a - b) / cs) by (field; lra).
    unfold Rdiv. rewrite Rabs_mult, (Rabs_pos_eq (/ cs));
      [| left; now apply Rinv_0_lt_compat].
    apply Rmult_le_reg_r with cs; [exact Hcs |].
    rewrite Rmult_assoc, Rinv_l by lra. lra. }
  unfold cellOf3. apply In_around; apply Zfloor_near; apply Hn; assumption.
Qed.

Lemma withinTol_spec (pts : list Vertex) (v : Vertex) (tolSq : R) (c : nat) :
  withinTol pts v tolSq c = true <->
  exists p, nth_error pts c = Some p /\ distSq3 p v <= tolSq.
Proof.
  unfold withinTol, distSq3. destruct (nth_error pts c) as [p |]; cbv zeta.
  - rewrite Rleb_iff. split; [intro H; now exists p |].
    intros (q & Hq & H). now injection Hq as <-.
  - split; [discriminate | intros (q & Hq & _); discriminate].
Qed.

Lemma distSq3_sym (p q : Vertex) : distSq3 p q = distSq3 q p.
Proof. unfold distSq3. cbv zeta. ring. Qed.

Lemma distSq3_self (p : Vertex) : distSq3 p p = 0.
Proof. unfold distSq3. cbv zeta. ring. Qed.

Lemma getOrAddPoint_inv (cs tol : R) (seen : list Vertex)
  (st : list Vertex * Grid3) (v : Vertex) :
  0 < tol -> tol <= cs -> weldInv cs (tol * tol) seen st ->
  let '(st', i) := getOrAddPoint cs (tol * tol) st v in
  weldInv cs (tol * tol) (seen ++ [v]) st' /\
  nearAt (fst st') (tol * tol) i v /\
  exists extra, fst st' = fst st ++ extra.
Proof.
  intros Htol Hcs (Hgrid & Hsep & Hprov). unfold getOrAddPoint.
  destruct st as [pts g]. cbn [fst snd] in *.
  destruct (find _ _) as [c |] eqn:Hf.
  - apply find_some in Hf. destruct Hf as [_ Hw]. apply withinTol_spec in Hw.
    cbn [fst snd]. split; [| split; [exact Hw | exists []; now rewrite app_nil_r]].
    split; [exact Hgrid |]. split; [exact Hsep |].
    intros p Hp. apply in_app_iff. left. now apply Hprov.
  - cbn [fst snd].
    assert (Hfar : forall i p, nth_error pts i = Some p -> tol * tol < distSq3 p v).
    { intros i p Hi. destruct (Rle_or_lt (distSq3 p v) (tol * tol)) as [Hle | Hlt];
        [exfalso | exact Hlt].
      assert (Hin : In i (flat_map (grid3Get g)
                            (around (Zfloor (vx v / cs)) (Zfloor (vy v / cs))
                                    (Zfloor (vz v / cs))))).
      { apply in_flat_map. exists (cellOf3 cs p). split; [| now apply (Hgrid i)].
        apply (near_cell cs tol); lra. }
      pose proof (find_none _ _ Hf i Hin) as Hno.
      assert (Hyes : withinTol pts v (tol * tol) i = true)
        by (apply withinTol_spec; now exists p).
      congruence. }
    split; [| split].
    + unfold weldInv. cbn [fst snd]. split; [| split].
      * intros i p Hi. rewrite grid3Push_get. rewrite copyVertex_id in Hi.
        destruct (Nat.lt_ge_cases i (List.length pts)) as [Hlt | Hge].
        -- rewrite nth_error_app1 in Hi by exact Hlt.
           destruct (cell3Eqb _ (cellOf3 cs p)) eqn:He.
           ++ apply cell3Eqb_eq in He. apply in_app_iff. left.
              rewrite He. now apply Hgrid.
           ++ now apply Hgrid.
        -- rewrite nth_error_app2 in Hi by exact Hge.
           destruct (i - List.length pts)%nat as [| k] eqn:Hk;
             [| destruct k; discriminate].
           injection Hi as <-.
           assert (He : cell3Eqb (Zfloor (vx v / cs), Zfloor (vy v / cs),
                                  Zfloor (vz v / cs)) (cellOf3 cs v) = true)
             by now apply cell3Eqb_eq.
           rewrite He. apply in_app_iff. right. left. lia.
      * rewrite copyVertex_id. intros i j p q Hij Hi Hj.
        destruct (Nat.lt_ge_cases i (List.length pts)) as [Hli | Hgi];
          destruct (Nat.lt_ge_cases j (List.length pts)) as [Hlj | Hgj].
        -- rewrite nth_error_app1 in Hi, Hj by assumption. now apply (Hsep i j).
        -- rewrite nth_error_app1 in Hi by assumption.
           rewrite nth_error_app2 in Hj by assumption.
           destruct (j - List.length pts)%nat as [| k]; [| destruct k; discriminate].
           injection Hj as <-. now apply (Hfar i).
        -- rewrite nth_error_app2 in Hi by assumption.
           rewrite nth_error_app1 in Hj by assumption.
           destruct (i - List.length pts)%nat as [| k]; [| destruct k; discriminate].
           injection Hi as <-. rewrite distSq3_sym. now apply (Hfar j).
        -- exfalso. rewrite nth_error_app2 in Hi, Hj by assumption.
           destruct (i - List.length pts)%nat as [| k] eqn:Hki;
             [| destruct k; discriminate].
           destruct (j - List.length pts)%nat as [| k] eqn:Hkj;
             [| destruct k; discriminate].
           lia.
      * rewrite copyVertex_id. intros p Hp. apply in_app_iff in Hp.
        apply in_app_iff. destruct Hp as [Hp | Hp]; [left; now apply Hprov | now right].
    + exists v. rewrite copyVertex_id, nth_error_app2 by lia.
      rewrite Nat.sub_diag. split; [reflexivity |]. rewrite distSq3_self. nra.
    + now exists [copyVertex v].
Qed.

Lemma nearAt_app (pts extra : list Vertex) (tolSq : R) (i : nat) (v : Vertex) :
  nearAt pts tolSq i v -> nearAt (pts ++ extra) tolSq i v.
Proof.
  intros (p & Hp & Hd). exists p. split; [| exact Hd].
  rewrite nth_error_app1; [exact Hp |]. apply nth_error_Some. congruence.
Qed.

Lemma weldedNear_app (pts extra : list Vertex) (tolSq : R) (tri : Triangle)
  (idx : nat * nat * nat) :
  weldedNear pts tolSq tri idx -> weldedNear (pts ++ extra) tolSq tri idx.
Proof.
  destruct idx as [[i0 i1] i22]. unfold weldedNear. intros (H0 & H1 & H2).
  repeat split; now apply nearAt_app.
Qed.

Lemma weldLoop_inv (cs tol : R) (tris : Soup) :
  0 < tol -> tol <= cs ->
  forall (seen : list Vertex) (st : list Vertex * Grid3),
    weldInv cs (tol * tol) seen st ->
    let '(st', idxs) := weldLoop cs (tol * tol) st tris in
    weldInv cs (tol * tol) (seen ++ soupVertices tris) st' /\
    Forall2 (weldedNear (fst st') (tol * tol)) tris idxs /\
    exists extra, fst st' = fst st ++ extra.
Proof.
  intros Htol Hcs. induction tris as [| tri rest IH]; intros seen st Hinv;
    cbn [weldLoop].
  - cbn [soupVertices flat_map]. rewrite app_nil_r.
    split; [exact Hinv |]. split; [constructor | exists []; now rewrite app_nil_r].
  - pose proof (getOrAddPoint_inv cs tol seen st (v0 tri) Htol Hcs Hinv) as H0.
    destruct (getOrAddPoint cs (tol * tol) st (v0 tri)) as [st0 i0].
    destruct H0 as (Hinv0 & Hn0 & (e0 & He0)).
    pose proof (getOrAddPoint_inv cs tol _ st0 (v1 tri) Htol Hcs Hinv0) as H1.
    destruct (getOrAddPoint cs (tol * tol) st0 (v1 tri)) as [st1 i1].
    destruct H1 as (Hinv1 & Hn1 & (e1 & He1)).
    pose proof (getOrAddPoint_inv cs tol _ st1 (v2 tri) Htol Hcs Hinv1) as H2.
    destruct (getOrAddPoint cs (tol * tol) st1 (v2 tri)) as [st2 i22].
    destruct H2 as (Hinv2 & Hn2 & (e2 & He2)).
    specialize (IH _ st2 Hinv2).
    destruct (weldLoop cs (tol * tol) st2 rest) as [stEnd idxs].
    destruct IH as (HinvE & Hall & (eE & HeE)).
    split; [| split].
    + cbn [soupVertices flat_map]. fold (soupVertices rest).
      replace (seen ++ [v0 tri; v1 tri; v2 tri] ++ soupVertices rest)
        with ((((seen ++ [v0 tri]) ++ [v1 tri]) ++ [v2 tri]) ++ soupVertices rest)
        by (now rewrite <- !app_assoc).
      exact HinvE.
    + constructor; [| exact Hall]. unfold weldedNear. rewrite HeE.
      split; [| split].
      * rewrite He2, He1, <- !app_assoc. now apply nearAt_app.
      * rewrite He2, <- app_assoc. now apply nearAt_app.
      * now apply nearAt_app.
    + exists (e0 ++ e1 ++ e2 ++ eE). rewrite HeE, He2, He1, He0.
      now rewrite <- !app_assoc.
Qed.

Lemma weldVertices_inv (tris : Soup) (tolerance : R) :
  0 < tolerance ->
  let w := weldVertices tris tolerance in
  weldInv (Rmax (tolerance * 2) 0.002) (tolerance * tolerance) (soupVertices tris)
          (points w, snd (fst (weldLoop (Rmax (tolerance * 2) 0.002)
                                        (tolerance * tolerance) ([], []) tris))) /\
  Forall2 (weldedNear (points w) (tolerance * tolerance)) tris
          (weldIndices tris tolerance).
Proof.
  intro Htol. cbv zeta.
  assert (Hcs : tolerance <= Rmax (tolerance * 2) 0.002).
  { pose proof (Rmax_l (tolerance * 2) 0.002). lra. }
  assert (Hinit : weldInv (Rmax (tolerance * 2) 0.002) (tolerance * tolerance) []
                          ([], [])).
  { unfold weldInv, separated. cbn [fst snd]. repeat split.
    - intros i p Hi. destruct i; discriminate.
    - intros i j p q _ Hi. destruct i; discriminate.
    - intros p []. }
  pose proof (weldLoop_inv _ tolerance tris Htol Hcs [] ([], []) Hinit) as H.
  unfold weldVertices, weldIndices. rewrite Rleb_false by lra.
  destruct (weldLoop _ _ _ tris) as [[pts g] idxs]. cbn [fst snd points] in *.
  destruct H as (Hinv & Hall & _). now split.
Qed.

(** X15. With a tolerance of 0 or less [weldVertices] merges nothing:
    the pool holds the 3n corners of the soup in order, every triangle
    is emitted, and [weldedToSoup] gives the soup back. *)
Theorem weldVertices_no_tolerance (tris : Soup) (tolerance : R) :
  tolerance <= 0 ->
  points (weldVertices tris tolerance) = soupVertices tris /\
  List.length (points (weldVertices tris tolerance)) = (3 * List.length tris)%nat /\
  weldedToSoup (triangles (weldVertices tris tolerance)) = tris.
Proof.
  intro Htol. unfold weldVertices. rewrite Rleb_true by exact Htol.
  cbn [points triangles].
  assert (Hpts : flat_map (fun tri => [copyVertex (v0 tri); copyVertex (v1 tri);
                                        copyVertex (v2 tri)]) tris
                 = soupVertices tris).
  { unfold soupVertices. induction tris as [| t rest IH]; [reflexivity |].
    cbn [flat_map]. now rewrite IH, !copyVertex_id. }
  split; [exact Hpts |]. split.
  - rewrite Hpts. clear Hpts. unfold soupVertices.
    induction tris as [| t rest IH]; [reflexivity |].
    cbn [flat_map List.length app]. rewrite IH. lia.
  - unfold weldedToSoup. rewrite map_map. rewrite <- (map_id tris) at 2.
    apply map_ext. intros [a b c]. cbn [vertices v0 v1 v2].
    now rewrite !copyVertex_id.
Qed.

Lemma weldVertices_no_tolerance_witness :
  0 <= 0 /\
  points (weldVertices [flatTri] 0) = soupVertices [flatTri] /\
  List.length (points (weldVertices [flatTri] 0)) = (3 * List.length [flatTri])%nat /\
  weldedToSoup (triangles (weldVertices [flatTri] 0)) = [flatTri].
Proof.
  split; [lra |]. apply (weldVertices_no_tolerance [flatTri] 0). lra.
Defined.

(** X16. For a positive tolerance, every corner of every input
    triangle is mapped to a pool point within the tolerance of it, and
    the pool holds nothing but corners of the input. *)
Theorem weldVertices_near (tris : Soup) (tolerance : R) :
  0 < tolerance ->
  let w := weldVertices tris tolerance in
  Forall2 (weldedNear (points w) (tolerance * tolerance)) tris
          (weldIndices tris tolerance) /\
  (forall p, In p (points w) -> In p (soupVertices tris)).
Proof.
  intro Htol. cbv zeta.
  destruct (weldVertices_inv tris tolerance Htol) as [(_ & _ & Hprov) Hall].
  split; [exact Hall | exact Hprov].
Qed.

Lemma weldVertices_near_witness :
  0 < 1e-4 /\
  Forall2 (weldedNear (points (weldVertices [flatTri] 1e-4)) (1e-4 * 1e-4)) [flatTri]
          (weldIndices [flatTri] 1e-4) /\
  (forall p, In p (points (weldVertices [flatTri] 1e-4)) ->
             In p (soupVertices [flatTri])).
Proof.
  split; [lra |]. apply (weldVertices_near [flatTri] 1e-4). lra.
Defined.

(** X17. For a positive tolerance, no two points of the welded pool are
    within the tolerance of each other. *)
Theorem weldVertices_separated (tris : Soup) (tolerance : R) :
  0 < tolerance ->
  separated (points (weldVertices tris tolerance)) (tolerance * tolerance).
Proof.
  intro Htol. destruct (weldVertices_inv tris tolerance Htol) as [(_ & Hsep & _) _].
  exact Hsep.
Qed.

Lemma weldVertices_separated_witness :
  0 < 1e-4 /\ separated (points (weldVertices [flatTri] 1e-4)) (1e-4 * 1e-4).
Proof.
  split; [lra |]. apply (weldVertices_separated [flatTri] 1e-4). lra.
Defined.

Lemma queryGrid_buildSpatialGrid_witness :
  In 0%nat (queryGrid (buildSpatialGrid [uprightTri] 1) (triBBox flatTri) 1).
Proof.
  pose proof (queryGrid_buildSpatialGrid [uprightTri] 1 (triBBox flatTri)) as H.
  cbv zeta in H. destruct H as (_ & _ & _ & H).
  exact (H Rlt_0_1 (proj1 (triBBox_ordered flatTri))
           (proj1 (proj2 (triBBox_ordered flatTri))) 0%nat uprightTri eq_refl
           flat_upright_overlap).
Defined.

(** ** Seam deduplication *)

Lemma closer_fold (canonical : list Vertex) (v : Vertex) (l : list nat) :
  forall best : R * option nat,
    let r := fold_left (closer canonical v) l best in
    (forall c cv, In c l -> nth_error canonical c = Some cv -> fst r <= distSq3 cv v) /\
    ((snd r = snd best /\ fst r = fst best) \/
     (exists c cv, snd r = Some c /\ nth_error canonical c = Some cv /\
                   distSq3 cv v = fst r /\ fst r < fst best)).
Proof.
  induction l as [| c0 l IH]; intro best; cbn [fold_left].
  - split; [intros c cv [] | left; now split].
  - specialize (IH (closer canonical v best c0)). cbv zeta in IH.
    destruct IH as [IHall IHres].
    set (r := fold_left (closer canonical v) l (closer canonical v best c0)) in *.
    assert (Hstep : fst (closer canonical v best c0) <= fst best /\
              (forall cv, nth_error canonical c0 = Some cv ->
                          fst (closer canonical v best c0) <= distSq3 cv v) /\
              ((closer canonical v best c0 = best) \/
               (exists cv, nth_error canonical c0 = Some cv /\
                  closer canonical v best c0 = (distSq3 cv v, Some c0) /\
                  distSq3 cv v < fst best))).
    { unfold closer, distSq3. destruct (nth_error canonical c0) as [cv |]; cbv zeta.
      - destruct (Rltb _ (fst best)) eqn:Hlt.
        + apply Rltb_iff in Hlt. cbn [fst]. split; [lra |]. split.
          * intros cv' Heq. injection Heq as <-. lra.
          * right. exists cv. now repeat split.
        + apply Rltb_false_iff in Hlt. split; [lra |]. split.
          * intros cv' Heq. injection Heq as <-. lra.
          * now left.
      - split; [lra |]. split; [intros cv Heq; discriminate | now left]. }
    destruct Hstep as (Hle & Hc0 & Hcase).
    assert (Hmono : fst r <= fst (closer canonical v best c0)).
    { destruct IHres as [[_ ->] | (c & cv & _ & _ & _ & Hlt)]; lra. }
    split.
    + intros c cv [<- | Hin] Hn; [specialize (Hc0 cv Hn); lra | exact (IHall c cv Hin Hn)].
    + destruct IHres as [[Hs Hf] | (c & cv & Hs & Hn & Hd & Hlt)].
      * destruct Hcase as [Heq | (cv & Hn & Heq & Hlt)].
        -- left. rewrite Hs, Hf, Heq. now split.
        -- right. exists c0, cv. rewrite Hs, Hf, Heq. cbn [fst snd]. now repeat split.
      * right. exists c, cv. repeat split; try assumption. lra.
Qed.

Lemma near_cellInv (inv t : R) (p v : Vertex) :
  0 < inv -> 0 <= t -> t * inv <= 1 -> distSq3 p v <= t * t ->
  In (cellOfInv inv p)
     (around (Zfloor (vx v * inv)) (Zfloor (vy v * inv)) (Zfloor (vz v * inv))).
Proof.
  intros Hinv Ht Hti Hd. destruct (distSq3_coords p v t Ht Hd) as (Hx & Hy & Hz).
  assert (Hn : forall a b : R, Rabs (a - b) <= t -> Rabs (a * inv - b * inv) <= 1).
  { intros a b Hab. replace (a * inv - b * inv) with ((a - b) * inv) by ring.
    rewrite Rabs_mult, (Rabs_pos_eq inv) by lra.
    apply Rle_trans with (t * inv); [| exact Hti].
    apply Rmult_le_compat_r; lra. }
  unfold cellOfInv. apply In_around; apply Zfloor_near; apply Hn; assumption.
Qed.

Lemma findOrRegister_inv (tol inv : R) (seen : list Vertex) (st : DedupState)
  (v : Vertex) :
  0 < tol -> 0 < inv -> tol * inv <= 1 -> dedupInv inv (tol * tol) seen st ->
  let '(st', i) := findOrRegister tol inv st v in
  dedupInv inv (tol * tol) (seen ++ [v]) st' /\
  closeAt (fst st') (tol * tol) i v /\
  exists extra, fst st' = fst st ++ extra.
Proof.
  intros Htol Hinv Hti (Hgrid & Hsep & Hprov). unfold findOrRegister.
  destruct st as [pts g]. cbn [fst snd] in *. cbv zeta.
  set (cands := flat_map (grid3Get g) _).
  destruct (closer_fold pts v cands (tol * tol, None)) as [Hall Hres].
  cbv zeta in Hall, Hres. cbn [fst snd] in Hall, Hres.
  destruct (snd (fold_left (closer pts v) cands (tol * tol, None))) as [c |] eqn:Hs.
  - destruct Hres as [[Hn _] | (c' & cv & Hc & Hn & Hd & Hlt)]; [discriminate |].
    injection Hc as <-. cbn [fst snd]. split; [| split].
    + split; [exact Hgrid |]. split; [exact Hsep |].
      intros p Hp. apply in_app_iff. left. now apply Hprov.
    + exists cv. split; [exact Hn | lra].
    + exists []. now rewrite app_nil_r.
  - destruct Hres as [[_ Hf] | (c' & cv & Hc & _)]; [| discriminate].
    assert (Hfar : forall i p, nth_error pts i = Some p -> tol * tol <= distSq3 p v).
    { intros i p Hi. destruct (Rle_or_lt (tol * tol) (distSq3 p v)) as [Hle | Hlt];
        [exact Hle | exfalso].
      assert (Hin : In i cands).
      { unfold cands. apply in_flat_map. exists (cellOfInv inv p).
        split; [| now apply (Hgrid i)]. apply (near_cellInv inv tol); lra. }
      specialize (Hall i p Hin Hi). lra. }
    cbn [fst snd]. rewrite !copyVertex_id. split; [| split].
    + unfold dedupInv. cbn [fst snd]. split; [| split].
      * intros i p Hi. rewrite grid3Push_get.
        destruct (Nat.lt_ge_cases i (List.length pts)) as [Hlt | Hge].
        -- rewrite nth_error_app1 in Hi by exact Hlt.
           destruct (cell3Eqb _ (cellOfInv inv p)) eqn:He.
           ++ apply cell3Eqb_eq in He. apply in_app_iff. left.
              rewrite He. now apply Hgrid.
           ++ now apply Hgrid.
        -- rewrite nth_error_app2 in Hi by exact Hge.
           destruct (i - List.length pts)%nat as [| k] eqn:Hk;
             [| destruct k; discriminate].
           injection Hi as <-.
           assert (He : cell3Eqb (Zfloor (vx v * inv), Zfloor (vy v * inv),
                                  Zfloor (vz v * inv)) (cellOfInv inv v) = true)
             by now apply cell3Eqb_eq.
           rewrite He. apply in_app_iff. right. left. lia.
      * intros i j p q Hij Hi Hj.
        destruct (Nat.lt_ge_cases i (List.length pts)) as [Hli | Hgi];
          destruct (Nat.lt_ge_cases j (List.length pts)) as [Hlj | Hgj].
        -- rewrite nth_error_app1 in Hi, Hj by assumption. now apply (Hsep i j).
        -- rewrite nth_error_app1 in Hi by assumption.
           rewrite nth_error_app2 in Hj by assumption.
           destruct (j - List.length pts)%nat as [| k]; [| destruct k; discriminate].
           injection Hj as <-. now apply (Hfar i).
        -- rewrite nth_error_app2 in Hi by assumption.
           rewrite nth_error_app1 in Hj by assumption.
           destruct (i - List.length pts)%nat as [| k]; [| destruct k; discriminate].
           injection Hi as <-. rewrite distSq3_sym. now apply (Hfar j).
        -- exfalso. rewrite nth_error_app2 in Hi, Hj by assumption.
           destruct (i - List.length pts)%nat as [| k] eqn:Hki;
             [| destruct k; discriminate].
           destruct (j - List.length pts)%nat as [| k] eqn:Hkj;
             [| destruct k; discriminate].
           lia.
      * intros p Hp. apply in_app_iff in Hp.
        apply in_app_iff. destruct Hp as [Hp | Hp]; [left; now apply Hprov | now right].
    + exists v. rewrite nth_error_app2 by lia.
      rewrite Nat.sub_diag. split; [reflexivity |]. rewrite distSq3_self. nra.
    + now exists [v].
Qed.

Lemma closeAt_app (pts extra : list Vertex) (tolSq : R) (i : nat) (v : Vertex) :
  closeAt pts tolSq i v -> closeAt (pts ++ extra) tolSq i v.
Proof.
  intros (p & Hp & Hd). exists p. split; [| exact Hd].
  rewrite nth_error_app1; [exact Hp |]. apply nth_error_Some. congruence.
Qed.

Lemma dedupNear_app (pts extra : list Vertex) (tolSq : R) (tri : Triangle)
  (idx : nat * nat * nat) :
  dedupNear pts tolSq tri idx -> dedupNear (pts ++ extra) tolSq tri idx.
Proof.
  destruct idx as [[c0 c1] c2]. intros (H0 & H1 & H2).
  repeat split; now apply closeAt_app.
Qed.

Lemma dedupLoop_inv (tol inv : R) (Htol : 0 < tol) (Hinv : 0 < inv)
  (Hti : tol * inv <= 1) (tris : Soup) :
  forall (seen : list Vertex) (st : DedupState),
    dedupInv inv (tol * tol) seen st ->
    let '(st', idxs) := dedupLoop tol inv st tris in
    dedupInv inv (tol * tol) (seen ++ soupVertices tris) st' /\
    Forall2 (dedupNear (fst st') (tol * tol)) tris idxs /\
    exists extra, fst st' = fst st ++ extra.
Proof.
  induction tris as [| tri rest IH]; intros seen st Hst.
  - cbn [dedupLoop soupVertices flat_map]. rewrite app_nil_r.
    split; [exact Hst |]. split; [constructor | exists []; now rewrite app_nil_r].
  - cbn [dedupLoop].
    pose proof (findOrRegister_inv tol inv seen st (v0 tri) Htol Hinv Hti Hst) as H0.
    destruct (findOrRegister tol inv st (v0 tri)) as [st0 c0].
    destruct H0 as (Hst0 & Hn0 & e0 & He0).
    pose proof (findOrRegister_inv tol inv _ st0 (v1 tri) Htol Hinv Hti Hst0) as H1.
    destruct (findOrRegister tol inv st0 (v1 tri)) as [st1 c1].
    destruct H1 as (Hst1 & Hn1 & e1 & He1).
    pose proof (findOrRegister_inv tol inv _ st1 (v2 tri) Htol Hinv Hti Hst1) as H2.
    destruct (findOrRegister tol inv st1 (v2 tri)) as [st2 c2].
    destruct H2 as (Hst2 & Hn2 & e2 & He2).
    specialize (IH _ st2 Hst2).
    destruct (dedupLoop tol inv st2 rest) as [stEnd idxs].
    destruct IH as (HstEnd & Hall & e3 & He3).
    split; [| split].
    + replace (seen ++ soupVertices (tri :: rest))
        with ((((seen ++ [v0 tri]) ++ [v1 tri]) ++ [v2 tri]) ++ soupVertices rest);
        [exact HstEnd |].
      unfold soupVertices. cbn [flat_map]. rewrite <- !app_assoc. reflexivity.
    + constructor; [| exact Hall].
      rewrite He3. apply dedupNear_app. repeat split.
      * rewrite He2, He1. now apply closeAt_app, closeAt_app.
      * rewrite He2. now apply closeAt_app.
      * exact Hn2.
    + exists (e0 ++ e1 ++ e2 ++ e3).
      rewrite He3, He2, He1, He0, <- !app_assoc. reflexivity.
Qed.

Lemma Forall2_In_right {A B : Type} (P : A -> B -> Prop) (l : list A) (l' : list B) :
  Forall2 P l l' -> forall b, In b l' -> exists a, In a l /\ P a b.
Proof.
  induction 1 as [| a b l l' Hab _ IH]; intros b' Hin; [destruct Hin |].
  destruct Hin as [<- | Hin].
  - exists a. split; [now left | exact Hab].
  - destruct (IH b' Hin) as (a' & Ha' & HP). exists a'. split; [now right | exact HP].
Qed.

Lemma dedupLoop_length (tol inv : R) (tris : Soup) :
  forall st, List.length (snd (dedupLoop tol inv st tris)) = List.length tris.
Proof.
  induction tris as [| tri rest IH]; intro st; [reflexivity |].
  cbn [dedupLoop].
  destruct (findOrRegister tol inv st (v0 tri)) as [st0 c0].
  destruct (findOrRegister tol inv st0 (v1 tri)) as [st1 c1].
  destruct (findOrRegister tol inv st1 (v2 tri)) as [st2 c2].
  specialize (IH st2). destruct (dedupLoop tol inv st2 rest) as [stEnd idxs].
  simpl in *. now rewrite IH.
Qed.

Lemma deduplicateSeamVertices_triangles (tris : Soup) (tol : R) :
  0 < tol ->
  (List.length (deduplicateSeamVertices tris tol) <= List.length tris)%nat /\
  Forall (dedupTriangle tris (tol * tol)) (deduplicateSeamVertices tris tol).
Proof.
  intro Htol. unfold deduplicateSeamVertices.
  destruct tris as [| t0 rest]; [split; [lia | constructor] |].
  set (tris := t0 :: rest). cbv zeta.
  assert (Hinv : 0 < 1 / (tol * 3)) by (apply Rdiv_lt_0_compat; lra).
  assert (Hti : tol * (1 / (tol * 3)) <= 1).
  { replace (tol * (1 / (tol * 3))) with (1 / 3) by (field; lra). lra. }
  assert (Hinit : dedupInv (1 / (tol * 3)) (tol * tol) [] ([], [])).
  { split; [| split].
    - intros i p Hi. destruct i; discriminate.
    - intros i j p q _ Hi. destruct i; discriminate.
    - intros p []. }
  pose proof (dedupLoop_inv tol _ Htol Hinv Hti tris [] _ Hinit) as Hloop.
  pose proof (dedupLoop_length tol (1 / (tol * 3)) tris ([], [])) as Hlen.
  destruct (dedupLoop tol (1 / (tol * 3)) ([], []) tris) as [[canonical g] idxs].
  cbn [fst snd app] in Hloop, Hlen. destruct Hloop as ((_ & Hsep & Hprov) & Hall & _).
  cbn [fst snd] in Hsep, Hprov. split.
  - rewrite length_map, <- Hlen. apply filter_length_le.
  - apply Forall_forall. intros t' Hin. apply in_map_iff in Hin.
    destruct Hin as ([[c0 c1] c2] & <- & Hin). apply filter_In in Hin.
    destruct Hin as [Hin Hnc]. apply negb_true_iff, collapsed_false_iff in Hnc.
    destruct (Forall2_In_right _ _ _ Hall _ Hin) as (t & Ht & Hnear).
    destruct Hnear as ((p0 & Hp0 & Hd0) & (p1 & Hp1 & Hd1) & (p2 & Hp2 & Hd2)).
    rewrite (nth_error_nth _ _ _ Hp0), (nth_error_nth _ _ _ Hp1),
      (nth_error_nth _ _ _ Hp2).
    unfold pairwiseDistinct in Hnc. unfold dedupTriangle. cbn [v0 v1 v2].
    split; [exists t; now repeat split |].
    repeat split.
    + apply Hprov. eapply nth_error_In; eassumption.
    + apply Hprov. eapply nth_error_In; eassumption.
    + apply Hprov. eapply nth_error_In; eassumption.
    + apply (Hsep c0 c1); tauto.
    + apply (Hsep c1 c2); tauto.
    + apply (Hsep c2 c0); [| assumption | assumption]. intro; subst; tauto.
Qed.

(** X18. For a positive tolerance [deduplicateSeamVertices] returns at
    most as many triangles as it is given, and every triangle it
    returns stands for an input triangle: each of its corners is a
    corner of the input lying strictly closer than the tolerance to the
    corresponding corner of that input triangle, and its own three
    corners are pairwise at least the tolerance apart, so no returned
    triangle is collapsed. *)
Theorem deduplicateSeamVertices_sound (tris : Soup) (tol : R) :
  0 < tol ->
  (List.length (deduplicateSeamVertices tris tol) <= List.length tris)%nat /\
  Forall (dedupTriangle tris (tol * tol)) (deduplicateSeamVertices tris tol).
Proof. exact (deduplicateSeamVertices_triangles tris tol). Qed.

Lemma deduplicateSeamVertices_sound_witness :
  (List.length (deduplicateSeamVertices [flatTri] 1) <= List.length [flatTri])%nat /\
  Forall (dedupTriangle [flatTri] (1 * 1)) (deduplicateSeamVertices [flatTri] 1).
Proof. apply (deduplicateSeamVertices_sound [flatTri] 1). lra. Defined.

(** ** Edge counts *)

Lemma countPush_lengths (m : EdgeMap) (k : string) (h : HalfEdge) :
  countPush (map (fun e => (fst e, List.length (snd e))) m) k
  = map (fun e => (fst e, List.length (snd e))) (edgeMapPush m k h).
Proof.
  induction m as [| [k0 hs] rest IH]; [reflexivity |].
  cbn [map fst snd countPush edgeMapPush]. destruct (String.eqb k0 k).
  - cbn [map fst snd]. now rewrite length_app.
  - cbn [map fst snd]. now rewrite IH.
Qed.

Lemma countEdges_lengths (tris : Soup) :
  countEdges tris
  = map (fun e => (fst e, List.length (snd e))) (buildEdgeToTris (map triKeys tris)).
Proof.
  unfold countEdges, buildEdgeToTris.
  change (@nil (string * nat))
    with (map (fun e : string * list HalfEdge => (fst e, List.length (snd e))) []).
  generalize (@nil (string * list HalfEdge)) as m. generalize 0%nat as i.
  induction tris as [| t rest IH]; intros i m; [reflexivity |].
  cbn [fold_left map buildEdgeToTrisFrom]. unfold triKeys at 1, halfEdges.
  cbn [fold_left]. unfold sortedKey. cbn [from to]. unfold vk.
  rewrite (countPush_lengths m _ (mkHalfEdge i (vKey (v0 t)) (vKey (v1 t)))).
  rewrite (countPush_lengths _ _ (mkHalfEdge i (vKey (v1 t)) (vKey (v2 t)))).
  rewrite (countPush_lengths _ _ (mkHalfEdge i (vKey (v2 t)) (vKey (v0 t)))).
  apply IH.
Qed.

Lemma tallyEdge_fold (m : CountMap) :
  forall acc : EdgeCounts,
    let r := fold_left tallyEdge m acc in
    openEdges r = (openEdges acc + List.length (filter (fun e => Nat.eqb (snd e) 1) m))%nat /\
    overShared r = (overShared acc + List.length (filter (fun e => Nat.ltb 2 (snd e)) m))%nat /\
    total r = (total acc + List.length m)%nat.
Proof.
  induction m as [| e m IH]; intro acc; cbn [fold_left filter List.length].
  - cbv zeta. lia.
  - specialize (IH (tallyEdge acc e)). cbv zeta in *.
    destruct IH as (Ho & Hs & Ht). rewrite Ho, Hs, Ht. unfold tallyEdge.
    destruct (Nat.eqb (snd e) 1) eqn:H1.
    + apply Nat.eqb_eq in H1. rewrite H1. cbn [Nat.ltb Nat.leb openEdges overShared total List.length].
      lia.
    + destruct (Nat.ltb 2 (snd e)); cbn [openEdges overShared total List.length]; lia.
Qed.

(** X19. [countOpenEdges] counts over the same edge map that
    [propagateNormals] builds: [total] is the number of distinct edge
    keys, [openEdges] the number of edges used by exactly one triangle
    side and [overShared] the number used by more than two.  Both
    counts are zero exactly when the manifold test of
    [propagateNormals] succeeds. *)
Theorem countOpenEdges_manifold (tris : Soup) :
  let edges := buildEdgeToTris (map triKeys tris) in
  let c := countOpenEdges tris in
  total c = List.length edges /\
  openEdges c = List.length (filter (fun e => Nat.eqb (List.length (snd e)) 1) edges) /\
  overShared c = List.length (filter (fun e => Nat.ltb 2 (List.length (snd e))) edges) /\
  ((openEdges c = 0%nat /\ overShared c = 0%nat) <-> isManifold edges = true).
Proof.
  cbv zeta. unfold countOpenEdges.
  destruct (tallyEdge_fold (countEdges tris) (mkCounts 0 0 0)) as (Ho & Hs & Ht).
  cbv zeta in Ho, Hs, Ht. cbn [openEdges overShared total] in Ho, Hs, Ht.
  rewrite Ho, Hs, Ht, countEdges_lengths. clear Ho Hs Ht.
  assert (Hwf : forall k hs, In (k, hs) (buildEdgeToTris (map triKeys tris)) -> hs <> []).
  { apply (buildFrom_wellFormed (map triKeys tris) [] 0).
    split; [constructor | intros k hs []]. }
  set (edges := buildEdgeToTris (map triKeys tris)) in *.
  rewrite length_map. split; [reflexivity |].
  assert (Hf : forall (p : nat -> bool) (l : EdgeMap),
             List.length (filter (fun e : string * nat => p (snd e))
                            (map (fun e => (fst e, List.length (snd e))) l))
             = List.length (filter (fun e => p (List.length (snd e))) l)).
  { intros p l. induction l as [| e l IH]; [reflexivity |].
    cbn [map filter fst snd]. destruct (p (List.length (snd e))); cbn [List.length];
      now rewrite IH. }
  rewrite (Hf (fun c => Nat.eqb c 1)), (Hf (fun c => Nat.ltb 2 c)).
  split; [reflexivity |]. split; [reflexivity |].
  unfold isManifold. clearbody edges. induction edges as [| [k hs] rest IH].
  - cbn. tauto.
  - cbn [filter forallb fst snd].
    assert (Hne : hs <> []) by (apply (Hwf k); now left).
    assert (Hrest : forall k' hs', In (k', hs') rest -> hs' <> [])
      by (intros k' hs' Hin; apply (Hwf k'); now right).
    specialize (IH Hrest). rewrite andb_true_iff, <- IH.
    destruct hs as [| h1 [| h2 [| h3 hs]]]; [congruence | | |]; cbn; lia.
Qed.

(** ** Mesh statistics *)

Lemma sumOver_from {A : Type} (f : A -> R) (l : list A) :
  forall a : R, fold_left (fun acc t => acc + f t) l a = a + sumOver f l.
Proof.
  unfold sumOver. induction l as [| t l IH]; intro a; cbn [fold_left]; [lra |].
  rewrite (IH (a + f t)), (IH (0 + f t)). lra.
Qed.

Lemma sumOver_cons {A : Type} (f : A -> R) (t : A) (l : list A) :
  sumOver f (t :: l) = f t + sumOver f l.
Proof. unfold sumOver at 1. cbn [fold_left]. rewrite sumOver_from. lra. Qed.

Lemma sumOver_Forall2 {A B : Type} (f : A -> R) (g : B -> R) (l : list A)
  (l' : list B) :
  Forall2 (fun t t' => f t = g t') l l' -> sumOver f l = sumOver g l'.
Proof.
  induction 1 as [| t t' l l' Ht _ IH]; [reflexivity |].
  now rewrite !sumOver_cons, Ht, IH.
Qed.

Lemma sumOver_map {A B : Type} (f : B -> R) (g : A -> B) (l : list A) :
  sumOver f (map g l) = sumOver (fun t => f (g t)) l.
Proof.
  induction l as [| t l IH]; [reflexivity |].
  cbn [map]. now rewrite !sumOver_cons, IH.
Qed.

Lemma sumOver_ext {A : Type} (f g : A -> R) (l : list A) :
  (forall t, f t = g t) -> sumOver f l = sumOver g l.
Proof.
  intro H. induction l as [| t l IH]; [reflexivity |].
  now rewrite !sumOver_cons, H, IH.
Qed.

Lemma sumOver_opp {A : Type} (f : A -> R) (l : list A) :
  sumOver (fun t => - f t) l = - sumOver f l.
Proof.
  induction l as [| t l IH]; [unfold sumOver; cbn [fold_left]; lra |].
  rewrite !sumOver_cons, IH. lra.
Qed.

Lemma sumOver_shift {A : Type} (f : A -> R) (c : R) (l : list A) :
  sumOver (fun t => f t + c) l = sumOver f l + INR (List.length l) * c.
Proof.
  induction l as [| t l IH]; [unfold sumOver; cbn [fold_left List.length INR]; lra |].
  rewrite !sumOver_cons, IH. change (List.length (t :: l)) with (S (List.length l)).
  rewrite S_INR. lra.
Qed.

Lemma sumOver_nonneg {A : Type} (f : A -> R) (l : list A) :
  (forall t, 0 <= f t) -> 0 <= sumOver f l.
Proof.
  intro H. induction l as [| t l IH]; [unfold sumOver; cbn [fold_left]; lra |].
  rewrite sumOver_cons. specialize (H t). lra.
Qed.

Lemma compute3DSurfaceArea_sum (tris : Soup) :
  compute3DSurfaceArea tris = sumOver triangleArea3D tris.
Proof. reflexivity. Qed.

Lemma triangleArea3D_nonneg (t : Triangle) : 0 <= triangleArea3D t.
Proof.
  unfold triangleArea3D. cbv zeta.
  match goal with |- 0 <= _ * sqrt ?x => pose proof (sqrt_pos x) end. lra.
Qed.

Lemma triangleArea3D_sameOrFlipped (t t' : Triangle) :
  sameOrFlipped t t' -> triangleArea3D t = triangleArea3D t'.
Proof.
  intros [-> | ->]; [reflexivity |].
  unfold triangleArea3D, flipTriangle. cbn [v0 v1 v2]. rewrite !copyVertex_id.
  cbv zeta. f_equal. f_equal. ring.
Qed.

Lemma flipAllNormals_sameOrFlipped (tris : Soup) :
  Forall2 sameOrFlipped tris (flipAllNormals tris).
Proof.
  unfold flipAllNormals. induction tris as [| t rest IH]; cbn [map]; constructor;
    [now right | exact IH].
Qed.

Lemma propagateNormals_sameOrFlipped (tris : Soup) :
  Forall2 sameOrFlipped tris (propagateNormals tris).
Proof.
  destruct tris as [| t0 rest]; [constructor |].
  unfold propagateNormals, computeFlips. set (tris := t0 :: rest).
  set (keys := map triKeys tris). set (n := List.length keys).
  set (final := bfsLoop (buildNeighbors n (buildEdgeToTris keys)) n (bfsStart n)).
  destruct (isManifold (buildEdgeToTris keys)).
  - apply applyFlips_shape. unfold final. rewrite bfsLoop_flipped_length.
    unfold bfsStart. cbn [flipped]. rewrite repeat_length. unfold n, keys.
    apply length_map.
  - apply ensureZUpNormals_sameOrFlipped.
Qed.

Lemma area_sameOrFlipped (l l' : Soup) :
  Forall2 sameOrFlipped l l' -> compute3DSurfaceArea l' = compute3DSurfaceArea l.
Proof.
  intro H. rewrite !compute3DSurfaceArea_sum. symmetry.
  apply sumOver_Forall2. induction H; constructor;
    [now apply triangleArea3D_sameOrFlipped | assumption].
Qed.

(** X20. [compute3DSurfaceArea] is the sum of the triangles' areas: it
    is never negative, adds up over concatenated soups, and is left
    unchanged by every re-orientation the library performs, namely
    [flipAllNormals], [ensureZUpNormals] and [propagateNormals]. *)
Theorem compute3DSurfaceArea_orientation (tris more : Soup) :
  0 <= compute3DSurfaceArea tris /\
  compute3DSurfaceArea (tris ++ more)
    = compute3DSurfaceArea tris + compute3DSurfaceArea more /\
  compute3DSurfaceArea (flipAllNormals tris) = compute3DSurfaceArea tris /\
  compute3DSurfaceArea (ensureZUpNormals tris) = compute3DSurfaceArea tris /\
  compute3DSurfaceArea (propagateNormals tris) = compute3DSurfaceArea tris.
Proof.
  split; [| split; [| split; [| split]]].
  - rewrite compute3DSurfaceArea_sum. apply sumOver_nonneg, triangleArea3D_nonneg.
  - rewrite !compute3DSurfaceArea_sum. unfold sumOver at 1.
    rewrite fold_left_app, sumOver_from. reflexivity.
  - apply area_sameOrFlipped, flipAllNormals_sameOrFlipped.
  - apply area_sameOrFlipped, ensureZUpNormals_sameOrFlipped.
  - apply area_sameOrFlipped, propagateNormals_sameOrFlipped.
Qed.

Lemma computeSignedVolume_sum (t : Triangle) (rest : Soup) :
  computeSignedVolume (t :: rest)
  = sumOver (volumeTerm (vx (soupCentre (t :: rest))) (vy (soupCentre (t :: rest)))
                        (vz (soupCentre (t :: rest)))) (t :: rest).
Proof. reflexivity. Qed.

Lemma soupCentre_flipAllNormals (tris : Soup) :
  soupCentre (flipAllNormals tris) = soupCentre tris.
Proof.
  unfold soupCentre, flipAllNormals. rewrite length_map, !sumOver_map.
  cbn [v0 v1 v2 copyVertex vx vy vz].
  rewrite (sumOver_ext (fun t => vx (v0 t) + vx (v2 t) + vx (v1 t))
                       (fun t => vx (v0 t) + vx (v1 t) + vx (v2 t)))
    by (intro; ring).
  rewrite (sumOver_ext (fun t => vy (v0 t) + vy (v2 t) + vy (v1 t))
                       (fun t => vy (v0 t) + vy (v1 t) + vy (v2 t)))
    by (intro; ring).
  rewrite (sumOver_ext (fun t => vz (v0 t) + vz (v2 t) + vz (v1 t))
                       (fun t => vz (v0 t) + vz (v1 t) + vz (v2 t)))
    by (intro; ring).
  reflexivity.
Qed.

Lemma soupCentre_translateSoup (d : Vertex) (tris : Soup) :
  tris <> [] -> soupCentre (translateSoup d tris) = translateVertex d (soupCentre tris).
Proof.
  intro Hne. unfold soupCentre, translateSoup, translateVertex.
  rewrite length_map, !sumOver_map. cbn [v0 v1 v2 vx vy vz].
  assert (Hn : INR (List.length tris) <> 0).
  { destruct tris as [| t rest]; [congruence |]. apply not_0_INR. discriminate. }
  rewrite (sumOver_ext (fun t => vx (v0 t) + vx d + (vx (v1 t) + vx d) + (vx (v2 t) + vx d))
                       (fun t => vx (v0 t) + vx (v1 t) + vx (v2 t) + 3 * vx d))
    by (intro; ring).
  rewrite (sumOver_ext (fun t => vy (v0 t) + vy d + (vy (v1 t) + vy d) + (vy (v2 t) + vy d))
                       (fun t => vy (v0 t) + vy (v1 t) + vy (v2 t) + 3 * vy d))
    by (intro; ring).
  rewrite (sumOver_ext (fun t => vz (v0 t) + vz d + (vz (v1 t) + vz d) + (vz (v2 t) + vz d))
                       (fun t => vz (v0 t) + vz (v1 t) + vz (v2 t) + 3 * vz d))
    by (intro; ring).
  rewrite !sumOver_shift. f_equal; field; exact Hn.
Qed.

(** X21. [computeSignedVolume] changes sign when every triangle is
    flipped by [flipAllNormals], and does not change when the whole
    soup is moved: the centre it subtracts moves with the soup. *)
Theorem computeSignedVolume_flip_translate (tris : Soup) (d : Vertex) :
  computeSignedVolume (flipAllNormals tris) = - computeSignedVolume tris /\
  computeSignedVolume (translateSoup d tris) = computeSignedVolume tris.
Proof.
  destruct tris as [| t0 rest]; [cbn [flipAllNormals translateSoup map computeSignedVolume];
                                  split; lra |].
  assert (Hf : forall l : Soup,
             l = flipAllNormals (t0 :: rest) \/ l = translateSoup d (t0 :: rest) ->
             computeSignedVolume l
             = sumOver (volumeTerm (vx (soupCentre l)) (vy (soupCentre l))
                                   (vz (soupCentre l))) l).
  { intros l [-> | ->]; reflexivity. }
  split.
  - rewrite (Hf _ (or_introl eq_refl)), soupCentre_flipAllNormals,
      computeSignedVolume_sum.
    unfold flipAllNormals. rewrite sumOver_map, <- sumOver_opp.
    apply sumOver_ext. intro t. unfold volumeTerm. cbn [v0 v1 v2 copyVertex vx vy vz].
    field.
  - rewrite (Hf _ (or_intror eq_refl)), soupCentre_translateSoup by discriminate.
    rewrite computeSignedVolume_sum.
    unfold translateSoup. rewrite sumOver_map.
    apply sumOver_ext. intro t. unfold volumeTerm, translateVertex.
    cbn [v0 v1 v2 vx vy vz]. field.
Qed.

Lemma abs_le_norm (a b c : R) : Rabs c <= sqrt (a * a + b * b + c * c).
Proof.
  rewrite <- sqrt_Rsqr_abs. apply sqrt_le_1_alt. unfold Rsqr. nra.
Qed.

Lemma projected_step (plane : string) (t : Triangle) (area : R) :
  let n := triNormal t in
  let step :=
    if String.eqb plane "xy" then
      if Rleb (vz n) 0 then area
      else area + Rabs ((vx (v1 t) - vx (v0 t)) * (vy (v2 t) - vy (v0 t))
                        - (vx (v2 t) - vx (v0 t)) * (vy (v1 t) - vy (v0 t))) / 2
    else if String.eqb plane "yz" then
      if Rleb (vx n) 0 then area
      else area + Rabs ((vy (v1 t) - vy (v0 t)) * (vz (v2 t) - vz (v0 t))
                        - (vy (v2 t) - vy (v0 t)) * (vz (v1 t) - vz (v0 t))) / 2
    else if String.eqb plane "xz" then
      if Rleb (vy n) 0 then area
      else area + Rabs ((vx (v1 t) - vx (v0 t)) * (vz (v2 t) - vz (v0 t))
                        - (vx (v2 t) - vx (v0 t)) * (vz (v1 t) - vz (v0 t))) / 2
    else area in
  area <= step <= area + triangleArea3D t.
Proof.
  cbv zeta. pose proof (triangleArea3D_nonneg t) as Hpos.
  unfold triangleArea3D in *. cbv zeta in *.
  set (ux := vx (v1 t) - vx (v0 t)) in *. set (uy := vy (v1 t) - vy (v0 t)) in *.
  set (uz := vz (v1 t) - vz (v0 t)) in *. set (wx := vx (v2 t) - vx (v0 t)) in *.
  set (wy := vy (v2 t) - vy (v0 t)) in *. set (wz := vz (v2 t) - vz (v0 t)) in *.
  set (cx := uy * wz - uz * wy) in *. set (cy := uz * wx - ux * wz) in *.
  set (cz := ux * wy - uy * wx) in *.
  pose proof (abs_le_norm cx cy cz) as Hz.
  pose proof (abs_le_norm cy cz cx) as Hx.
  pose proof (abs_le_norm cz cx cy) as Hy.
  replace (cy * cy + cz * cz + cx * cx) with (cx * cx + cy * cy + cz * cz) in Hx by ring.
  replace (cz * cz + cx * cx + cy * cy) with (cx * cx + cy * cy + cz * cz) in Hy by ring.
  replace (uy * wz - wy * uz) with cx by (unfold cx; ring).
  replace (ux * wz - wx * uz) with (- cy) by (unfold cy; ring).
  replace (ux * wy - wx * uy) with cz by (unfold cz; ring).
  rewrite Rabs_Ropp.
  pose proof (Rabs_pos cx). pose proof (Rabs_pos cy). pose proof (Rabs_pos cz).
  destruct (String.eqb plane "xy"); [destruct (Rleb _ 0); lra |].
  destruct (String.eqb plane "yz"); [destruct (Rleb _ 0); lra |].
  destruct (String.eqb plane "xz"); [destruct (Rleb _ 0); lra |]. lra.
Qed.

(** X22. The footprint [computeProjectedArea] reports for any of the
    three planes lies between 0 and the surface area
    [compute3DSurfaceArea] of the same soup, and for a plane name other
    than xy, yz and xz it is 0. *)
Theorem computeProjectedArea_bounds (tris : Soup) (plane : string) :
  0 <= computeProjectedArea tris plane <= compute3DSurfaceArea tris /\
  (plane <> "xy"%string -> plane <> "yz"%string -> plane <> "xz"%string ->
   computeProjectedArea tris plane = 0).
Proof.
  unfold computeProjectedArea. rewrite compute3DSurfaceArea_sum. split.
  - assert (H : forall a : R,
               a <= fold_left (fun area t =>
                       if String.eqb plane "xy" then
                         if Rleb (vz (triNormal t)) 0 then area
                         else area + Rabs ((vx (v1 t) - vx (v0 t)) * (vy (v2 t) - vy (v0 t))
                                - (vx (v2 t) - vx (v0 t)) * (vy (v1 t) - vy (v0 t))) / 2
                       else if String.eqb plane "yz" then
                         if Rleb (vx (triNormal t)) 0 then area
                         else area + Rabs ((vy (v1 t) - vy (v0 t)) * (vz (v2 t) - vz (v0 t))
                                - (vy (v2 t) - vy (v0 t)) * (vz (v1 t) - vz (v0 t))) / 2
                       else if String.eqb plane "xz" then
                         if Rleb (vy (triNormal t)) 0 then area
                         else area + Rabs ((vx (v1 t) - vx (v0 t)) * (vz (v2 t) - vz (v0 t))
                                - (vx (v2 t) - vx (v0 t)) * (vz (v1 t) - vz (v0 t))) / 2
                       else area) tris a
               <= a + sumOver triangleArea3D tris).
    { induction tris as [| t rest IH]; intro a.
      - unfold sumOver. cbn [fold_left]. lra.
      - cbn [fold_left]. rewrite sumOver_cons.
        pose proof (projected_step plane t a) as Hstep. cbv zeta in Hstep.
        match goal with |- _ <= fold_left _ _ ?s <= _ => specialize (IH s) end.
        lra. }
    specialize (H 0). cbv zeta. lra.
  - intros Hxy Hyz Hxz. apply String.eqb_neq in Hxy, Hyz, Hxz. cbv zeta.
    rewrite Hxy, Hyz, Hxz. induction tris as [| t rest IH]; [reflexivity |].
    cbn [fold_left]. exact IH.
Qed.

Lemma computeProjectedArea_bounds_witness :
  computeProjectedArea [flatTri] "up" = 0.
Proof.
  apply (proj2 (computeProjectedArea_bounds [flatTri] "up")); discriminate.
Defined.

(** ** Degenerate triangles and polyline simplification *)

Lemma subsequence_refl {A : Type} (l : list A) : subsequence l l.
Proof. induction l; constructor; assumption. Qed.

Lemma subsequence_filter {A : Type} (f : A -> bool) (l : list A) :
  subsequence (filter f l) l.
Proof.
  induction l as [| x l IH]; cbn [filter]; [constructor |].
  destruct (f x); constructor; exact IH.
Qed.

Lemma filter_idempotent {A : Type} (f : A -> bool) (l : list A) :
  filter f (filter f l) = filter f l.
Proof.
  induction l as [| x l IH]; [reflexivity |]. cbn [filter].
  destruct (f x) eqn:Hx; [| exact IH]. cbn [filter]. now rewrite Hx, IH.
Qed.

Lemma dist3_nonneg (a b : Vertex) : 0 <= dist3 a b.
Proof. unfold dist3. cbv zeta. apply sqrt_pos. Qed.

Lemma keepTriangle_spec (a r : R) (t : Triangle) :
  keepTriangle a r t = true ->
  a <= triangleArea3D t /\ r * longestEdge t * longestEdge t <= 2 * triangleArea3D t.
Proof.
  unfold keepTriangle. cbv zeta. fold (longestEdge t).
  pose proof (triangleArea3D_nonneg t) as Harea.
  assert (Hm : 0 <= longestEdge t).
  { unfold longestEdge, Rmax3. pose proof (dist3_nonneg (v0 t) (v1 t)).
    pose proof (Rmax_l (dist3 (v0 t) (v1 t))
                  (Rmax (dist3 (v1 t) (v2 t)) (dist3 (v2 t) (v0 t)))). lra. }
  set (m := longestEdge t) in *. set (s := triangleArea3D t) in *.
  destruct (Rltb s a) eqn:Ha; [discriminate |]. apply Rltb_false_iff in Ha.
  unfold Rgtb. destruct (Rltb 0 m) eqn:Hpos.
  - apply Rltb_iff in Hpos.
    destruct (Rltb (2 * s / m / m) r) eqn:Hr; [discriminate |].
    apply Rltb_false_iff in Hr. intros _. split; [exact Ha |].
    apply (Rmult_le_compat_r (m * m)) in Hr; [| nra].
    replace (2 * s / m / m * (m * m)) with (2 * s) in Hr by (field; lra). lra.
  - apply Rltb_false_iff in Hpos. intros _. split; [exact Ha |].
    replace m with 0 by lra. lra.
Qed.

(** X23. [removeDegenerateTriangles] only leaves triangles out, keeping
    the order of the rest; every triangle it keeps has an area of at
    least [minArea] and twice that area is at least [sliverRatio] times
    the square of its longest edge.  Running it again with the same
    thresholds removes nothing more, and the missing thresholds are
    1e-6 and 0.01. *)
Theorem removeDegenerateTriangles_kept (tris : Soup) (minArea sliverRatio : R) :
  let out := removeDegenerateTriangles tris (Some minArea) (Some sliverRatio) in
  subsequence out tris /\
  Forall (fun t => minArea <= triangleArea3D t /\
                   sliverRatio * longestEdge t * longestEdge t <= 2 * triangleArea3D t)
         out /\
  removeDegenerateTriangles out (Some minArea) (Some sliverRatio) = out /\
  removeDegenerateTriangles tris None None
    = removeDegenerateTriangles tris (Some 0.000001) (Some 0.01).
Proof.
  cbv zeta. unfold removeDegenerateTriangles. split; [apply subsequence_filter |].
  split; [| split; [apply filter_idempotent | reflexivity]].
  apply Forall_forall. intros t Hin. apply filter_In in Hin.
  apply keepTriangle_spec. exact (proj2 Hin).
Qed.

Lemma simplifyLoop_spec (spacing : R) (rest : list Vertex) :
  forall (prev : Vertex) (acc : R),
    subsequence (simplifyLoop spacing prev rest acc) rest /\
    (forall d, last (simplifyLoop spacing prev rest acc) d = last rest d) /\
    (rest <> [] -> simplifyLoop spacing prev rest acc <> []).
Proof.
  induction rest as [| p more IH]; intros prev acc.
  - cbn [simplifyLoop]. split; [constructor |]. split; [reflexivity | congruence].
  - cbn [simplifyLoop]. destruct more as [| q more'].
    + split; [apply subsequence_refl |]. split; [reflexivity | congruence].
    + cbv zeta. destruct (Rgeb (acc + dist3 prev p) spacing).
      * destruct (IH p 0) as (Hs & Hl & Hn). split; [now constructor |].
        split; [| congruence]. intro d.
        specialize (Hn ltac:(congruence)).
        destruct (simplifyLoop spacing p (q :: more') 0) as [| x xs] eqn:He;
          [congruence |].
        change (last (p :: x :: xs) d) with (last (x :: xs) d).
        change (last (p :: q :: more') d) with (last (q :: more') d). apply Hl.
      * destruct (IH p (acc + dist3 prev p)) as (Hs & Hl & Hn).
        split; [now constructor |]. split; [| intros _; apply Hn; congruence].
        intro d. change (last (p :: q :: more') d) with (last (q :: more') d). apply Hl.
Qed.

(** X24. [simplifyPolyline] only leaves points out: the result is the
    input with some interior points removed, the order kept, and it
    starts with the first point and ends with the last point of the
    input.  A polyline of at most two points, or a spacing of 0 or
    less, gives the input back. *)
Theorem simplifyPolyline_endpoints (points : list Vertex) (spacing : R) :
  let out := simplifyPolyline points spacing in
  subsequence out points /\
  hd_error out = hd_error points /\
  (forall d, last out d = last points d) /\
  ((List.length points <= 2)%nat \/ spacing <= 0 -> out = points).
Proof.
  cbv zeta. unfold simplifyPolyline.
  destruct ((List.length points <=? 2)%nat || Rleb spacing 0) eqn:Hshort.
  - split; [apply subsequence_refl |]. repeat split; reflexivity.
  - apply orb_false_iff in Hshort. destruct Hshort as [Hlen Hsp].
    apply Nat.leb_gt in Hlen. apply Rleb_false_iff in Hsp.
    destruct points as [| first rest]; [cbn in Hlen; lia |].
    destruct rest as [| p more]; [cbn in Hlen; lia |].
    destruct (simplifyLoop_spec spacing (p :: more) first 0) as (Hs & Hl & Hn).
    specialize (Hn ltac:(congruence)).
    split; [now constructor |]. split; [reflexivity |]. split.
    + intro d. destruct (simplifyLoop spacing first (p :: more) 0) as [| x xs] eqn:He;
        [congruence |].
      change (last (first :: x :: xs) d) with (last (x :: xs) d).
      change (last (first :: p :: more) d) with (last (p :: more) d). apply Hl.
    + intros [H | H]; [lia | lra].
Qed.

Lemma simplifyPolyline_endpoints_witness :
  simplifyPolyline [mkV 0 0 0; mkV 1 0 0; mkV 2 0 0] 0
  = [mkV 0 0 0; mkV 1 0 0; mkV 2 0 0].
Proof.
  apply (proj2 (proj2 (proj2
           (simplifyPolyline_endpoints [mkV 0 0 0; mkV 1 0 0; mkV 2 0 0] 0)))).
  right. lra.
Defined.

(** ** The tagged segments and the crossed sets *)

Lemma sorted_app (l1 l2 : list nat) :
  StronglySorted le l1 -> StronglySorted le l2 ->
  (forall x y, In x l1 -> In y l2 -> (x <= y)%nat) ->
  StronglySorted le (l1 ++ l2).
Proof.
  intros H1 H2 H. induction l1 as [| a l1 IH]; [exact H2 |].
  cbn [app]. inversion H1 as [| ? ? Hs Ha]; subst. constructor.
  - apply IH; [exact Hs |]. intros x y Hx Hy. apply H; [now right | exact Hy].
  - apply Forall_app. split; [exact Ha |]. apply Forall_forall.
    intros y Hy. apply H; [now left | exact Hy].
Qed.

Lemma sorted_constant (i : nat) (l : list nat) :
  (forall x, In x l -> x = i) -> StronglySorted le l.
Proof.
  intro H. induction l as [| a l IH]; constructor.
  - apply IH. intros x Hx. apply H. now right.
  - apply Forall_forall. intros x Hx.
    rewrite (H a (or_introl eq_refl)), (H x (or_intror Hx)). lia.
Qed.

Lemma intersectFrom_sorted (trisB : Soup) (g : Grid) (cs : R) (trisA : Soup) :
  forall i0 : nat,
    StronglySorted le (map idxA (intersectFrom trisB g cs i0 trisA)).
Proof.
  induction trisA as [| triA rest IH]; intro i0; cbn [intersectFrom map];
    [constructor |].
  rewrite map_app. apply sorted_app.
  - apply (sorted_constant i0). intros x Hx. apply in_map_iff in Hx.
    destruct Hx as (seg & <- & Hin). apply pairSegments_In in Hin.
    destruct Hin as (j & triB & s & _ & _ & _ & ->). reflexivity.
  - apply IH.
  - intros x y Hx Hy. apply in_map_iff in Hx, Hy.
    destruct Hx as (seg & <- & Hin). destruct Hy as (seg' & <- & Hin').
    apply pairSegments_In in Hin. destruct Hin as (j & triB & s & _ & _ & _ & ->).
    apply intersectFrom_In in Hin'.
    destruct Hin' as (k & tA & j' & tB & s' & _ & _ & _ & _ & ->).
    cbn [idxA]. lia.
Qed.

(** X25. Every tagged segment that [intersectMeshPairTagged] returns is
    genuine: its tags are indices of the two soups and its end points
    are the segment [triTriIntersection] gives for the two triangles
    they name.  The segments come in the order of their [idxA], and an
    empty soup on either side gives no segment. *)
Theorem intersectMeshPairTagged_genuine (trisA trisB : Soup) :
  Forall (fun seg =>
            exists triA triB s,
              nth_error trisA (idxA seg) = Some triA /\
              nth_error trisB (idxB seg) = Some triB /\
              triTriIntersection triA triB = Some s /\
              seg = mkTagged (p0 s) (p1 s) (idxA seg) (idxB seg))
         (intersectMeshPairTagged trisA trisB) /\
  StronglySorted le (map idxA (intersectMeshPairTagged trisA trisB)) /\
  intersectMeshPairTagged [] trisB = [] /\
  intersectMeshPairTagged trisA [] = [].
Proof.
  split; [| split; [| split]].
  - apply Forall_forall. intros seg Hin. apply intersectMeshPairTagged_In in Hin.
    destruct Hin as (triA & triB & s & Ha & Hb & _ & Hs & Heq).
    now exists triA, triB, s.
  - unfold intersectMeshPairTagged. apply intersectFrom_sorted.
  - reflexivity.
  - destruct (intersectMeshPairTagged trisA []) as [| seg l] eqn:He; [reflexivity |].
    assert (Hin : In seg (intersectMeshPairTagged trisA [])) by (rewrite He; now left).
    apply intersectMeshPairTagged_In in Hin.
    destruct Hin as (triA & triB & s & _ & Hb & _). destruct (idxB seg); discriminate.
Qed.

Lemma crossedPush_get (m : CrossedSet) (k i : nat) (seg : TaggedSegment) :
  crossedGet (crossedPush m k seg) i =
  if Nat.eqb k i then
    Some (match crossedGet m i with Some segs => segs ++ [seg] | None => [seg] end)
  else crossedGet m i.
Proof.
  induction m as [| [k0 segs] rest IH]; cbn [crossedPush crossedGet].
  - destruct (Nat.eqb k i); reflexivity.
  - destruct (Nat.eqb k0 k) eqn:Hk0; cbn [crossedGet].
    + apply Nat.eqb_eq in Hk0. subst k0. destruct (Nat.eqb k i); reflexivity.
    + rewrite IH. destruct (Nat.eqb k0 i) eqn:Hi; [| reflexivity].
      apply Nat.eqb_eq in Hi. subst k0. now rewrite Nat.eqb_sym, Hk0.
Qed.

Lemma buildCrossedSet_from (tag : TaggedSegment -> nat) (segs : list TaggedSegment)
  (i : nat) :
  forall m : CrossedSet,
    (forall l, crossedGet m i = Some l -> l <> []) ->
    crossedGet (fold_left (fun m' seg => crossedPush m' (tag seg) seg) segs m) i =
    match (match crossedGet m i with Some l => l | None => [] end)
          ++ filter (fun seg => Nat.eqb (tag seg) i) segs with
    | [] => None
    | l => Some l
    end.
Proof.
  induction segs as [| seg segs IH]; intros m Hm; cbn [fold_left filter].
  - rewrite app_nil_r. destruct (crossedGet m i) as [l |] eqn:He; [| reflexivity].
    specialize (Hm l eq_refl). destruct l; [congruence | reflexivity].
  - rewrite IH.
    + rewrite crossedPush_get. destruct (Nat.eqb (tag seg) i); [| reflexivity].
      destruct (crossedGet m i) as [l |]; [| reflexivity].
      now rewrite <- app_assoc.
    + intros l. rewrite crossedPush_get. destruct (Nat.eqb (tag seg) i).
      * intro H. injection H as <-. destruct (crossedGet m i) as [l' |];
          [destruct l' |]; discriminate.
      * apply Hm.
Qed.

(** X26. The crossed set [boolean] builds from the tagged segments has
    a bucket for triangle [i] exactly when some segment is tagged with
    [i], and the bucket holds all the segments tagged with [i] and no
    others, in the order the intersector emitted them. *)
Theorem buildCrossedSet_lookup (tag : TaggedSegment -> nat)
  (taggedSegments : list TaggedSegment) (i : nat) :
  crossedGet (buildCrossedSet tag taggedSegments) i =
  match filter (fun seg => Nat.eqb (tag seg) i) taggedSegments with
  | [] => None
  | l => Some l
  end.
Proof.
  unfold buildCrossedSet. rewrite buildCrossedSet_from; [reflexivity |].
  intros l H. discriminate.
Qed.

(** ** Bounding boxes *)

Lemma extMin_fold_finite (l : list R) :
  forall m0 : R,
    exists m, fold_left extMin l (Finite m0) = Finite m /\
              (m = m0 \/ In m l) /\ m <= m0 /\ forall x, In x l -> m <= x.
Proof.
  induction l as [| a l IH]; intro m0; cbn [fold_left].
  - exists m0. repeat split; [now left | lra | intros x []].
  - unfold extMin at 2, extLtb. destruct (Rltb a m0) eqn:Ha.
    + apply Rltb_iff in Ha. destruct (IH a) as (m & He & Hin & Hle & Hall).
      exists m. split; [exact He |]. split; [right; destruct Hin; [left; congruence | now right] |].
      split; [lra |]. intros x [<- | Hx]; [exact Hle | now apply Hall].
    + apply Rltb_false_iff in Ha. destruct (IH m0) as (m & He & Hin & Hle & Hall).
      exists m. split; [exact He |]. split; [destruct Hin; [now left | right; now right] |].
      split; [exact Hle |]. intros x [<- | Hx]; [lra | now apply Hall].
Qed.

Lemma extMax_fold_finite (l : list R) :
  forall m0 : R,
    exists m, fold_left extMax l (Finite m0) = Finite m /\
              (m = m0 \/ In m l) /\ m0 <= m /\ forall x, In x l -> x <= m.
Proof.
  induction l as [| a l IH]; intro m0; cbn [fold_left].
  - exists m0. repeat split; [now left | lra | intros x []].
  - unfold extMax at 2, extGtb, Rgtb. destruct (Rltb m0 a) eqn:Ha.
    + apply Rltb_iff in Ha. destruct (IH a) as (m & He & Hin & Hle & Hall).
      exists m. split; [exact He |]. split; [right; destruct Hin; [left; congruence | now right] |].
      split; [lra |]. intros x [<- | Hx]; [exact Hle | now apply Hall].
    + apply Rltb_false_iff in Ha. destruct (IH m0) as (m & He & Hin & Hle & Hall).
      exists m. split; [exact He |]. split; [destruct Hin; [now left | right; now right] |].
      split; [exact Hle |]. intros x [<- | Hx]; [lra | now apply Hall].
Qed.

Lemma extMin_fold (a : R) (l : list R) :
  exists m, fold_left extMin (a :: l) PosInfinity = Finite m /\
            In m (a :: l) /\ forall x, In x (a :: l) -> m <= x.
Proof.
  cbn [fold_left]. change (extMin PosInfinity a) with (Finite a).
  destruct (extMin_fold_finite l a) as (m & He & Hin & Hle & Hall).
  exists m. split; [exact He |]. split; [destruct Hin; [left; congruence | now right] |].
  intros x [<- | Hx]; [exact Hle | now apply Hall].
Qed.

Lemma extMax_fold (a : R) (l : list R) :
  exists m, fold_left extMax (a :: l) NegInfinity = Finite m /\
            In m (a :: l) /\ forall x, In x (a :: l) -> x <= m.
Proof.
  cbn [fold_left]. change (extMax NegInfinity a) with (Finite a).
  destruct (extMax_fold_finite l a) as (m & He & Hin & Hle & Hall).
  exists m. split; [exact He |]. split; [destruct Hin; [left; congruence | now right] |].
  intros x [<- | Hx]; [exact Hle | now apply Hall].
Qed.

Lemma computeBBox_fields (tris : Soup) :
  forall bb0 : ExtBBox,
    fold_left (fun bb t => fold_left bboxStep [v0 t; v1 t; v2 t] bb) tris bb0
    = mkEBB (fold_left extMin (map vx (soupVertices tris)) (eminX bb0))
            (fold_left extMin (map vy (soupVertices tris)) (eminY bb0))
            (fold_left extMin (map vz (soupVertices tris)) (eminZ bb0))
            (fold_left extMax (map vx (soupVertices tris)) (emaxX bb0))
            (fold_left extMax (map vy (soupVertices tris)) (emaxY bb0))
            (fold_left extMax (map vz (soupVertices tris)) (emaxZ bb0)).
Proof.
  induction tris as [| t rest IH]; intro bb0.
  - destruct bb0; reflexivity.
  - cbn [fold_left]. rewrite IH. unfold soupVertices. cbn [flat_map app map fold_left].
    reflexivity.
Qed.

Lemma computeBBox_finite (t : Triangle) (rest : Soup) :
  exists bb : BBox,
    computeBBox (t :: rest) = finiteBox bb /\
    Forall (insideBox bb) (soupVertices (t :: rest)) /\
    tightBox bb (soupVertices (t :: rest)).
Proof.
  unfold computeBBox. rewrite computeBBox_fields. cbn [eminX eminY eminZ emaxX emaxY emaxZ].
  remember (tl (soupVertices (t :: rest))) as more eqn:Hmore.
  assert (Hvs : soupVertices (t :: rest) = v0 t :: more) by (subst more; reflexivity).
  rewrite Hvs. clear Hvs Hmore. cbn [map].
  destruct (extMin_fold (vx (v0 t)) (map vx more)) as (x0 & Hx0 & Ix0 & Lx0).
  destruct (extMin_fold (vy (v0 t)) (map vy more)) as (y0 & Hy0 & Iy0 & Ly0).
  destruct (extMin_fold (vz (v0 t)) (map vz more)) as (z0 & Hz0 & Iz0 & Lz0).
  destruct (extMax_fold (vx (v0 t)) (map vx more)) as (x1 & Hx1 & Ix1 & Lx1).
  destruct (extMax_fold (vy (v0 t)) (map vy more)) as (y1 & Hy1 & Iy1 & Ly1).
  destruct (extMax_fold (vz (v0 t)) (map vz more)) as (z1 & Hz1 & Iz1 & Lz1).
  rewrite Hx0, Hy0, Hz0, Hx1, Hy1, Hz1.
  exists (mkBB x0 y0 z0 x1 y1 z1). split; [reflexivity |].
  set (vs := v0 t :: more).
  change (vx (v0 t) :: map vx more) with (map vx vs) in *.
  change (vy (v0 t) :: map vy more) with (map vy vs) in *.
  change (vz (v0 t) :: map vz more) with (map vz vs) in *.
  split.
  - apply Forall_forall. intros v Hv. unfold insideBox.
    cbn [minX minY minZ maxX maxY maxZ].
    pose proof (Lx0 _ (in_map vx _ _ Hv)). pose proof (Ly0 _ (in_map vy _ _ Hv)).
    pose proof (Lz0 _ (in_map vz _ _ Hv)). pose proof (Lx1 _ (in_map vx _ _ Hv)).
    pose proof (Ly1 _ (in_map vy _ _ Hv)). pose proof (Lz1 _ (in_map vz _ _ Hv)).
    lra.
  - unfold tightBox. cbn [minX minY minZ maxX maxY maxZ]. tauto.
Qed.

(** X27. [computeBBox] of an empty soup keeps the infinities it starts
    from.  For a soup with at least one triangle all six bounds are
    numbers, every corner of every triangle lies in the box, and each
    face of the box passes through a corner: it is the smallest
    axis-aligned box around the soup. *)
Theorem computeBBox_hull (t : Triangle) (rest : Soup) :
  computeBBox [] = mkEBB PosInfinity PosInfinity PosInfinity
                         NegInfinity NegInfinity NegInfinity /\
  exists bb : BBox,
    computeBBox (t :: rest) = finiteBox bb /\
    Forall (insideBox bb) (soupVertices (t :: rest)) /\
    tightBox bb (soupVertices (t :: rest)).
Proof. split; [reflexivity | apply computeBBox_finite]. Qed.

Lemma bboxOverlap_iff (a b : BBox) :
  bboxOverlap a b = true <->
  minX a <= maxX b /\ minX b <= maxX a /\ minY a <= maxY b /\ minY b <= maxY a /\
  minZ a <= maxZ b /\ minZ b <= maxZ a.
Proof.
  unfold bboxOverlap, Rgeb. rewrite !andb_true_iff, !Rleb_iff. tauto.
Qed.

Lemma triBBox_inside (bb : BBox) (t : Triangle) :
  insideBox bb (v0 t) -> insideBox bb (v1 t) -> insideBox bb (v2 t) ->
  minX bb <= minX (triBBox t) /\ maxX (triBBox t) <= maxX bb /\
  minY bb <= minY (triBBox t) /\ maxY (triBBox t) <= maxY bb /\
  minZ bb <= minZ (triBBox t) /\ maxZ (triBBox t) <= maxZ bb.
Proof.
  unfold insideBox, triBBox, Rmin3, Rmax3. cbn [minX minY minZ maxX maxY maxZ].
  intros H0 H1 H2.
  repeat split; repeat apply Rmin_glb; repeat apply Rmax_lub; lra.
Qed.

Lemma computeBBox_contains (tris : Soup) (t : Triangle) :
  In t tris ->
  exists bb : BBox,
    computeBBox tris = finiteBox bb /\
    insideBox bb (v0 t) /\ insideBox bb (v1 t) /\ insideBox bb (v2 t).
Proof.
  intro Hin. destruct tris as [| t0 rest]; [destruct Hin |].
  destruct (computeBBox_finite t0 rest) as (bb & He & Hall & _).
  exists bb. split; [exact He |]. rewrite Forall_forall in Hall.
  repeat split; apply Hall; unfold soupVertices; apply in_flat_map; exists t;
    (split; [exact Hin | cbn [In]; tauto]).
Qed.

(** X28. The box of a soup is a safe broad-phase test for its
    triangles: if the boxes [triBBox] of a triangle of A and of a
    triangle of B overlap, then [computeBBox A] and [computeBBox B] are
    finite and [bboxOverlap] accepts them; so two soups whose boxes do
    not overlap have no pair of triangles whose boxes overlap. *)
Theorem computeBBox_overlap (trisA trisB : Soup) (a b : Triangle) :
  In a trisA -> In b trisB ->
  bboxOverlap (triBBox a) (triBBox b) = true ->
  exists bbA bbB : BBox,
    computeBBox trisA = finiteBox bbA /\ computeBBox trisB = finiteBox bbB /\
    bboxOverlap bbA bbB = true.
Proof.
  intros Ha Hb Hov.
  destruct (computeBBox_contains trisA a Ha) as (bbA & HeA & A0 & A1 & A2).
  destruct (computeBBox_contains trisB b Hb) as (bbB & HeB & B0 & B1 & B2).
  exists bbA, bbB. split; [exact HeA |]. split; [exact HeB |].
  pose proof (triBBox_inside bbA a A0 A1 A2) as HA.
  pose proof (triBBox_inside bbB b B0 B1 B2) as HB.
  apply bboxOverlap_iff in Hov. apply bboxOverlap_iff. lra.
Qed.

Lemma flat_upright_overlap3 :
  bboxOverlap (triBBox flatTri) (triBBox uprightTri) = true.
Proof.
  unfold bboxOverlap, Rgeb, triBBox, flatTri, uprightTri, Rmin3, Rmax3.
  cbn [minX maxX minY maxY minZ maxZ vx vy vz v0 v1 v2]. rminmax. rcompare. reflexivity.
Qed.

Lemma computeBBox_overlap_witness :
  In flatTri [flatTri] /\ In uprightTri [uprightTri] /\
  bboxOverlap (triBBox flatTri) (triBBox uprightTri) = true /\
  exists bbA bbB : BBox,
    computeBBox [flatTri] = finiteBox bbA /\ computeBBox [uprightTri] = finiteBox bbB /\
    bboxOverlap bbA bbB = true.
Proof.
  split; [now left |]. split; [now left |]. split; [exact flat_upright_overlap3 |].
  apply (computeBBox_overlap [flatTri] [uprightTri] flatTri uprightTri);
    [now left | now left | exact flat_upright_overlap3].
Defined.

(** ** The flood fill of [classifyByFloodFill] *)

Lemma triListGet_push (m : TriListMap) (k : string) (i : nat) (e : string) :
  triListGet (triListPush m k i) e =
  if String.eqb k e then triListGet m e ++ [i] else triListGet m e.
Proof.
  induction m as [| [k0 l] rest IH]; cbn [triListPush triListGet].
  - destruct (String.eqb k e); reflexivity.
  - destruct (String.eqb k0 k) eqn:Hk; cbn [triListGet].
    + apply String.eqb_eq in Hk. subst k0. destruct (String.eqb k e); reflexivity.
    + rewrite IH. destruct (String.eqb k0 e) eqn:He; [| reflexivity].
      apply String.eqb_eq in He. destruct (String.eqb k e) eqn:Hke; [| reflexivity].
      apply String.eqb_eq in Hke. subst. rewrite String.eqb_refl in Hk. discriminate.
Qed.

Lemma triListGet_entry (m : TriListMap) (e : string) :
  triListGet m e <> [] -> In (e, triListGet m e) m.
Proof.
  induction m as [| [k0 l] rest IH]; cbn [triListGet]; [congruence |].
  destruct (String.eqb k0 e) eqn:He.
  - apply String.eqb_eq in He. subst k0. intros _. now left.
  - intro H. right. now apply IH.
Qed.

Lemma triListPush_all (P : nat -> Prop) (m : TriListMap) (k : string) (i : nat) :
  (forall e b x, In (e, b) m -> In x b -> P x) -> P i ->
  forall e b x, In (e, b) (triListPush m k i) -> In x b -> P x.
Proof.
  intros Hm Hi. induction m as [| [k0 l] rest IH]; cbn [triListPush].
  - intros e b x [Heq | []] Hx. injection Heq as <- <-.
    destruct Hx as [<- | []]. exact Hi.
  - destruct (String.eqb k0 k).
    + intros e b x [Heq | Hin] Hx.
      * injection Heq as <- <-. apply in_app_iff in Hx.
        destruct Hx as [Hx | [<- | []]]; [| exact Hi].
        apply (Hm k0 l x); [now left | exact Hx].
      * apply (Hm e b x); [now right | exact Hx].
    + intros e b x [Heq | Hin] Hx.
      * injection Heq as <- <-. apply (Hm k0 l x); [now left | exact Hx].
      * apply (IH (fun e' b' x' H1 H2 => Hm e' b' x' (or_intror H1) H2) e b x Hin Hx).
Qed.

Lemma fillEdgesFrom_all (crossedMap : CrossedSet) (n : nat) (tris : Soup) :
  forall (m : TriListMap) (i0 : nat),
    (i0 + List.length tris <= n)%nat ->
    (forall e b x, In (e, b) m -> In x b ->
                   (x < n)%nat /\ isCrossed crossedMap x = false) ->
    forall e b x, In (e, b) (fillEdgesFrom crossedMap m i0 tris) -> In x b ->
                  (x < n)%nat /\ isCrossed crossedMap x = false.
Proof.
  induction tris as [| t rest IH]; intros m i0 Hlen Hm; cbn [fillEdgesFrom];
    [exact Hm |].
  cbn [List.length] in Hlen. destruct (isCrossed crossedMap i0) eqn:Hc.
  - apply IH; [lia | exact Hm].
  - apply IH; [lia |]. unfold edgeKeys. cbn [fold_left].
    repeat apply triListPush_all; try (split; [lia | exact Hc]). exact Hm.
Qed.

Lemma fillEdgesFrom_get (crossedMap : CrossedSet) (tris : Soup) (e : string) :
  forall (m : TriListMap) (i0 : nat) (x : nat),
    In x (triListGet m e) \/
    (exists k t, x = (i0 + k)%nat /\ nth_error tris k = Some t /\
                 isCrossed crossedMap x = false /\ In e (edgeKeys t)) ->
    In x (triListGet (fillEdgesFrom crossedMap m i0 tris) e).
Proof.
  induction tris as [| t rest IH]; intros m i0 x H; cbn [fillEdgesFrom].
  - destruct H as [H | (k & t & _ & Hn & _)]; [exact H | destruct k; discriminate].
  - assert (Hpush : forall m' k' i', In x (triListGet m' e) ->
                                     In x (triListGet (triListPush m' k' i') e)).
    { intros m' k' i' Hx. rewrite triListGet_push. destruct (String.eqb k' e);
        [apply in_app_iff; now left | exact Hx]. }
    destruct H as [H | (k & t' & Hx & Hn & Hc & He)].
    + destruct (isCrossed crossedMap i0); apply IH; left; [exact H |].
      unfold edgeKeys. cbn [fold_left]. now repeat apply Hpush.
    + destruct k as [| k].
      * cbn [nth_error] in Hn. injection Hn as <-. rewrite Nat.add_0_r in Hx. subst x.
        rewrite Hc. apply IH. left. unfold edgeKeys in *. cbn [fold_left].
        assert (Hadd : forall m' k', In i0 (triListGet (triListPush m' k' i0) k')).
        { intros m' k'. rewrite triListGet_push, String.eqb_refl.
          apply in_app_iff. right. now left. }
        destruct He as [<- | [<- | [<- | []]]].
        -- apply Hpush, Hpush, Hadd.
        -- apply Hpush, Hadd.
        -- apply Hadd.
      * cbn [nth_error] in Hn.
        assert (Hrest : exists k0 t0, x = (S i0 + k0)%nat /\ nth_error rest k0 = Some t0 /\
                                      isCrossed crossedMap x = false /\ In e (edgeKeys t0)).
        { exists k, t'. repeat split; try assumption. lia. }
        destruct (isCrossed crossedMap i0); apply IH; right; exact Hrest.
Qed.

Lemma pairsOf_In (l : list nat) (x y : nat) :
  In (x, y) (pairsOf l) -> In x l /\ In y l.
Proof.
  induction l as [| a l IH]; cbn [pairsOf]; [intros [] |].
  intro H. apply in_app_iff in H. destruct H as [H | H].
  - apply in_map_iff in H. destruct H as (z & Heq & Hz). injection Heq as <- <-.
    split; [now left | now right].
  - destruct (IH H). split; now right.
Qed.

Lemma pairsOf_complete (l : list nat) (x y : nat) :
  In x l -> In y l -> x <> y -> In (x, y) (pairsOf l) \/ In (y, x) (pairsOf l).
Proof.
  induction l as [| a l IH]; [intros [] |]. cbn [pairsOf].
  intros [<- | Hx] [<- | Hy] Hne.
  - congruence.
  - left. apply in_app_iff. left. apply in_map_iff. now exists y.
  - right. apply in_app_iff. left. apply in_map_iff. now exists x.
  - destruct (IH Hx Hy Hne); [left | right]; apply in_app_iff; now right.
Qed.

Lemma linkPairs_In (ps : list (nat * nat)) :
  forall (arr : list (list nat)) (u w : nat),
    (forall p, In p ps -> (fst p < List.length arr)%nat /\ (snd p < List.length arr)%nat) ->
    List.length (fold_left linkPair ps arr) = List.length arr /\
    (In w (nth u (fold_left linkPair ps arr) []) <->
     In w (nth u arr []) \/
     exists p, In p ps /\ ((u = fst p /\ w = snd p) \/ (u = snd p /\ w = fst p))).
Proof.
  induction ps as [| p ps IH]; intros arr u w Hr; cbn [fold_left].
  - split; [reflexivity |]. split; [now left | intros [H | (p & [] & _)]; exact H].
  - assert (Hlen : List.length (linkPair arr p) = List.length arr)
      by (unfold linkPair; now rewrite !pushAt_length).
    destruct (Hr p (or_introl eq_refl)) as [Hp1 Hp2].
    destruct (IH (linkPair arr p) u w) as [Hl Hiff].
    { intros q Hq. rewrite Hlen. apply Hr. now right. }
    split; [now rewrite Hl |]. rewrite Hiff. unfold linkPair.
    rewrite !pushAt_In, pushAt_length. split.
    + intros [[[H | (-> & _ & ->)] | (-> & _ & ->)] | (q & Hq & H)].
      * now left.
      * right. exists p. split; [now left | now left].
      * right. exists p. split; [now left | now right].
      * right. exists q. split; [now right | exact H].
    + intros [H | (q & [<- | Hq] & [[-> ->] | [-> ->]])].
      * left. left. now left.
      * left. left. right. now repeat split.
      * left. right. now repeat split.
      * right. exists q. split; [exact Hq | now left].
      * right. exists q. split; [exact Hq | now right].
Qed.

Lemma fillNeighbors_from (n : nat) (m : TriListMap) :
  forall (arr : list (list nat)) (u w : nat),
    List.length arr = n ->
    (forall e b x, In (e, b) m -> In x b -> (x < n)%nat) ->
    In w (nth u (fold_left (fun nbrs e => fold_left linkPair (pairsOf (snd e)) nbrs)
                           m arr) []) <->
    In w (nth u arr []) \/
    exists e b, In (e, b) m /\ (In (u, w) (pairsOf b) \/ In (w, u) (pairsOf b)).
Proof.
  induction m as [| [e0 b0] rest IH]; intros arr u w Hlen Hm; cbn [fold_left snd].
  - split; [now left | intros [H | (e & b & [] & _)]; exact H].
  - assert (Hr : forall p, In p (pairsOf b0) ->
                           (fst p < List.length arr)%nat /\ (snd p < List.length arr)%nat).
    { intros [x y] Hp. apply pairsOf_In in Hp. destruct Hp as [Hx Hy]. cbn [fst snd].
      rewrite Hlen. split; apply (Hm e0 b0); solve [now left | assumption]. }
    rewrite IH.
    + destruct (linkPairs_In (pairsOf b0) arr u w Hr) as [_ Hiff]. rewrite Hiff. split.
      * intros [[H | ([x y] & Hp & H)] | (e & b & Hin & H)].
        -- now left.
        -- right. exists e0, b0. split; [now left |]. cbn [fst snd] in H.
           destruct H as [[-> ->] | [-> ->]]; [now left | now right].
        -- right. exists e, b. split; [now right | exact H].
      * intros [H | (e & b & [Heq | Hin] & H)].
        -- left. now left.
        -- injection Heq as <- <-. left. right.
           destruct H as [H | H]; [exists (u, w) | exists (w, u)];
             (split; [exact H |]); cbn [fst snd]; [now left | now right].
        -- right. exists e, b. split; [exact Hin | exact H].
    + destruct (linkPairs_In (pairsOf b0) arr u w Hr) as [Hl _]. now rewrite Hl.
    + intros e b x Hin Hx. apply (Hm e b x); [now right | exact Hx].
Qed.

Lemma setClassAt_length (l : list Z) (j : nat) (c : Z) :
  List.length (setClassAt l j c) = List.length l.
Proof.
  revert j. induction l as [| a l IH]; intro j; [destruct j; reflexivity |].
  destruct j; cbn [setClassAt List.length]; [reflexivity | now rewrite IH].
Qed.

Lemma nth_setClassAt (l : list Z) (j : nat) (c : Z) (v : nat) :
  (j < List.length l)%nat ->
  nth v (setClassAt l j c) 0%Z = if Nat.eqb v j then c else nth v l 0%Z.
Proof.
  revert j v. induction l as [| a l IH]; intros j v Hj; [cbn in Hj; lia |].
  destruct j as [| j]; cbn [setClassAt].
  - destruct v; reflexivity.
  - destruct v as [| v]; [reflexivity |]. cbn [nth Nat.eqb]. apply IH.
    cbn in Hj. lia.
Qed.

Section FillCorrect.

Variable n : nat.
Variable nbrs : list (list nat).
Variable crossedMap : CrossedSet.
Variable classes : Z -> Prop.

Hypothesis neighbours_in_range :
  forall v w, In w (nth v nbrs []) -> (w < n)%nat.
Hypothesis neighbours_symmetric :
  forall v w, In w (nth v nbrs []) -> In v (nth w nbrs []).
Hypothesis neighbours_open :
  forall v w, In w (nth v nbrs []) -> isCrossed crossedMap w = false.

Lemma fillVisit_invariant (c : Z) (curr fuel : nat) (st : Fill) (nb : nat) :
  classes c ->
  fillInvariant n nbrs crossedMap classes c (Some curr) fuel st ->
  In nb (nth curr nbrs []) ->
  fillInvariant n nbrs crossedMap classes c (Some curr) fuel (fillVisit c st nb) /\
  (getAt (fillVisited (fillVisit c st nb)) nb = true /\
   nth nb (fillResult (fillVisit c st nb)) 0%Z = c) /\
  forall v, getAt (fillVisited st) v = true ->
            getAt (fillVisited (fillVisit c st nb)) v = true /\
            nth v (fillResult (fillVisit c st nb)) 0%Z = nth v (fillResult st) 0%Z.
Proof.
  intros Hc Hst Hnb.
  pose proof Hst as (Hlv & Hlr & Hpend & Hcur & Hclos & Hopen & Hzero & Hfuel).
  pose proof (neighbours_in_range _ _ Hnb) as Hj.
  destruct (Hcur curr eq_refl) as [Hcv Hcr].
  unfold fillVisit. destruct (getAt (fillVisited st) nb) eqn:Hvj.
  - split; [exact Hst |].
    split; [| auto]. split; [exact Hvj |].
    destruct (in_dec Nat.eq_dec nb (fillQueue st)) as [Hq | Hq];
      [now apply Hpend |].
    destruct (Nat.eq_dec nb curr) as [-> | Hne]; [exact Hcr |].
    assert (Hne' : Some curr <> Some nb) by congruence.
    destruct (Hclos nb Hvj Hq Hne' curr (neighbours_symmetric _ _ Hnb)) as [_ Heq].
    congruence.
  - assert (Hjv : (nb < List.length (fillVisited st))%nat) by lia.
    assert (Hjr : (nb < List.length (fillResult st))%nat) by lia.
    assert (Hget : forall v, getAt (setAt (fillVisited st) nb true) v
                             = if Nat.eqb v nb then true else getAt (fillVisited st) v)
      by (intro v; now apply getAt_setAt).
    assert (Hres : forall v, nth v (setClassAt (fillResult st) nb c) 0%Z
                             = if Nat.eqb v nb then c else nth v (fillResult st) 0%Z)
      by (intro v; now apply nth_setClassAt).
    assert (Hmono : forall v, getAt (fillVisited st) v = true ->
              getAt (setAt (fillVisited st) nb true) v = true /\
              nth v (setClassAt (fillResult st) nb c) 0%Z = nth v (fillResult st) 0%Z).
    { intros v Hv. rewrite Hget, Hres. destruct (Nat.eqb v nb) eqn:He; [| now split].
      apply Nat.eqb_eq in He. subst v. congruence. }
    destruct (countTrue_setAt (fillVisited st) nb Hjv Hvj) as [Hcount Hlt].
    cbn [fillQueue fillVisited fillResult].
    split; [| split; [rewrite Hget, Hres, Nat.eqb_refl; now split | exact Hmono]].
    unfold fillInvariant. cbn [fillQueue fillVisited fillResult].
    split; [now rewrite setAt_length |]. split; [now rewrite setClassAt_length |].
    split.
    { intros v Hv. apply in_app_iff in Hv. destruct Hv as [Hv | [<- | []]].
      - destruct (Hpend v Hv) as [Hvis Hr]. destruct (Hmono v Hvis) as [H1 H2].
        split; [exact H1 | congruence].
      - rewrite Hget, Hres, Nat.eqb_refl. now split. }
    split.
    { intros v Hv. injection Hv as <-. destruct (Hmono curr Hcv) as [H1 H2].
      split; [exact H1 | congruence]. }
    split.
    { intros v Hv Hq Hne w Hw. rewrite Hget in Hv.
      destruct (Nat.eqb v nb) eqn:He.
      - apply Nat.eqb_eq in He. subst v. exfalso. apply Hq, in_app_iff. right. now left.
      - assert (Hq' : ~ In v (fillQueue st))
          by (intro H; apply Hq, in_app_iff; now left).
        destruct (Hclos v Hv Hq' Hne w Hw) as [Hwv Hwr].
        destruct (Hmono w Hwv) as [H1 H2]. destruct (Hmono v Hv) as [_ H3].
        split; [exact H1 | congruence]. }
    split.
    { intros v Hv. rewrite Hget in Hv. rewrite Hres.
      destruct (Nat.eqb v nb) eqn:He.
      - apply Nat.eqb_eq in He. subst v. split; [now apply (neighbours_open curr) | exact Hc].
      - now apply Hopen. }
    split.
    { intros v Hv. rewrite Hget in Hv. rewrite Hres.
      destruct (Nat.eqb v nb); [discriminate | now apply Hzero]. }
    rewrite Hcount, length_app. cbn [List.length]. lia.
Qed.

Lemma fillVisitAll_invariant (c : Z) (curr fuel : nat) (nbs : list nat) :
  classes c ->
  forall st,
    fillInvariant n nbrs crossedMap classes c (Some curr) fuel st ->
    (forall nb, In nb nbs -> In nb (nth curr nbrs [])) ->
    let st' := fold_left (fillVisit c) nbs st in
    fillInvariant n nbrs crossedMap classes c (Some curr) fuel st' /\
    (forall nb, In nb nbs ->
       getAt (fillVisited st') nb = true /\ nth nb (fillResult st') 0%Z = c) /\
    forall v, getAt (fillVisited st) v = true ->
              getAt (fillVisited st') v = true /\
              nth v (fillResult st') 0%Z = nth v (fillResult st) 0%Z.
Proof.
  intro Hc. induction nbs as [| nb nbs IH]; intros st Hst Hin; cbn [fold_left].
  - cbv zeta. split; [exact Hst |]. split; [intros nb [] | auto].
  - destruct (fillVisit_invariant c curr fuel st nb Hc Hst (Hin nb (or_introl eq_refl)))
      as (Hst1 & [Hv1 Hr1] & Hmono1).
    destruct (IH (fillVisit c st nb) Hst1
                 (fun x Hx => Hin x (or_intror Hx))) as (Hst2 & Hall & Hmono2).
    cbv zeta in *. split; [exact Hst2 |]. split.
    + intros x [<- | Hx]; [| now apply Hall].
      destruct (Hmono2 nb Hv1) as [H1 H2]. split; [exact H1 | congruence].
    + intros v Hv. destruct (Hmono1 v Hv) as [H1 H2].
      destruct (Hmono2 v H1) as [H3 H4]. split; [exact H3 | congruence].
Qed.

Lemma fillInvariant_drained (c : Z) (fuel : nat) (st : Fill) :
  fillInvariant n nbrs crossedMap classes c None fuel st -> fillQueue st = [] ->
  fillInvariant n nbrs crossedMap classes c None n st.
Proof.
  intros (Hlv & Hlr & Hpend & Hcur & Hclos & Hopen & Hzero & Hfuel) Hq.
  unfold fillInvariant. repeat (split; [assumption |]).
  rewrite Hq. cbn [List.length]. lia.
Qed.

Lemma fillLoop_drains (c : Z) (fuel : nat) :
  classes c ->
  forall st,
    fillInvariant n nbrs crossedMap classes c None fuel st ->
    let st' := fillLoop nbrs c fuel st in
    fillQueue st' = [] /\
    fillInvariant n nbrs crossedMap classes c None n st' /\
    forall v, getAt (fillVisited st) v = true ->
              getAt (fillVisited st') v = true /\
              nth v (fillResult st') 0%Z = nth v (fillResult st) 0%Z.
Proof.
  intro Hc. induction fuel as [| fuel IH]; intros st Hst; cbn [fillLoop]; cbv zeta.
  - assert (Hq : fillQueue st = []).
    { destruct Hst as (_ & _ & _ & _ & _ & _ & _ & Hfuel).
      destruct (fillQueue st); [reflexivity | cbn in Hfuel; lia]. }
    split; [exact Hq |]. split; [now apply (fillInvariant_drained c 0) | auto].
  - destruct (fillQueue st) as [| curr rest] eqn:Hq.
    + split; [exact Hq |]. split; [now apply (fillInvariant_drained c (S fuel)) | auto].
    + destruct Hst as (Hlv & Hlr & Hpend & Hcur & Hclos & Hopen & Hzero & Hfuel).
      rewrite Hq in *.
      assert (Hstep : fillInvariant n nbrs crossedMap classes c (Some curr) fuel
                        (mkFill rest (fillVisited st) (fillResult st))).
      { unfold fillInvariant. cbn [fillQueue fillVisited fillResult].
        split; [exact Hlv |]. split; [exact Hlr |]. split.
        { intros v Hv. apply Hpend. now right. }
        split.
        { intros v Hv. injection Hv as <-. apply Hpend. now left. }
        split.
        { intros v Hv Hr Hne. apply Hclos; [exact Hv | | discriminate].
          intros [<- | Hin]; [congruence | contradiction]. }
        split; [exact Hopen |]. split; [exact Hzero |].
        cbn [List.length] in Hfuel. lia. }
      destruct (fillVisitAll_invariant c curr fuel (nth curr nbrs []) Hc _ Hstep
                  (fun nb H => H)) as (Hst2 & Hall & Hmono).
      cbv zeta in Hst2, Hall, Hmono. cbn [fillVisited fillResult] in Hmono.
      set (st2 := fold_left (fillVisit c) (nth curr nbrs [])
                            (mkFill rest (fillVisited st) (fillResult st))) in *.
      assert (Hnext : fillInvariant n nbrs crossedMap classes c None fuel st2).
      { destruct Hst2 as (Hlv2 & Hlr2 & Hpend2 & Hcur2 & Hclos2 & Hopen2 & Hzero2 & Hfuel2).
        destruct (Hcur2 curr eq_refl) as [Hcv2 Hcr2].
        unfold fillInvariant.
        split; [exact Hlv2 |]. split; [exact Hlr2 |]. split; [exact Hpend2 |].
        split; [intros v Hv; discriminate |]. split.
        { intros v Hv Hnq _ w Hw. destruct (Nat.eq_dec v curr) as [-> | Hne].
          - destruct (Hall w Hw) as [Hwv Hwr]. split; [exact Hwv | congruence].
          - apply (Hclos2 v); [assumption | assumption | congruence | assumption]. }
        split; [exact Hopen2 |]. split; [exact Hzero2 | exact Hfuel2]. }
      destruct (IH st2 Hnext) as (Hq' & Hfin & Hmono').
      cbv zeta in Hq', Hfin, Hmono'. split; [exact Hq' |]. split; [exact Hfin |].
      intros v Hv. destruct (Hmono v Hv) as [H1 H2].
      destruct (Hmono' v H1) as [H3 H4]. split; [exact H3 | congruence].
Qed.

End FillCorrect.

Lemma fillInvariant_idle (n : nat) (nbrs : list (list nat)) (crossedMap : CrossedSet)
  (classes : Z -> Prop) (c c' : Z) (fuel : nat) (st : Fill) :
  fillInvariant n nbrs crossedMap classes c None fuel st -> fillQueue st = [] ->
  fillInvariant n nbrs crossedMap classes c' None fuel
                (mkFill [] (fillVisited st) (fillResult st)).
Proof.
  intros (Hlv & Hlr & Hpend & Hcur & Hclos & Hopen & Hzero & Hfuel) Hq.
  rewrite Hq in *. unfold fillInvariant. cbn [fillQueue fillVisited fillResult].
  split; [exact Hlv |]. split; [exact Hlr |]. split; [intros v [] |].
  split; [intros v Hv; discriminate |]. split; [exact Hclos |].
  split; [exact Hopen |]. split; [exact Hzero | exact Hfuel].
Qed.

Lemma classifyPointMultiAxis_sign (point : Vertex) (otherTris : Soup) (grids : Grids) :
  classifyPointMultiAxis point otherTris grids = 1%Z \/
  classifyPointMultiAxis point otherTris grids = (-1)%Z.
Proof.
  unfold classifyPointMultiAxis. destruct (countVotes _ _ _) as [ins outs].
  destruct (Nat.leb 2 ins); [now left |]. destruct (Nat.leb 1 outs); [now right |].
  destruct (Nat.eqb ins 1); [now left | now right].
Qed.

Section FillSeeds.

Variable tris : Soup.
Variable crossedMap : CrossedSet.
Variable otherTris : Soup.
Variable otherGrids : Grids.
Variable nbrs : list (list nat).

Let n : nat := List.length tris.

(** The classes a triangle can get: those of the centroids of the
    triangles that are not crossed. *)
Let seedClasses (z : Z) : Prop :=
  exists s seedTri, nth_error tris s = Some seedTri /\
                    isCrossed crossedMap s = false /\
                    z = classifyPointMultiAxis (centroid seedTri) otherTris otherGrids.

Hypothesis neighbours_in_range :
  forall v w, In w (nth v nbrs []) -> (w < n)%nat.
Hypothesis neighbours_symmetric :
  forall v w, In w (nth v nbrs []) -> In v (nth w nbrs []).
Hypothesis neighbours_open :
  forall v w, In w (nth v nbrs []) -> isCrossed crossedMap w = false.

Lemma fillSeeds_invariant (remaining : Soup) :
  forall (seed : nat) (vis : list bool) (res : list Z),
    (forall k t, nth_error remaining k = Some t -> nth_error tris (seed + k) = Some t) ->
    (seed + List.length remaining = n)%nat ->
    fillInvariant n nbrs crossedMap seedClasses 0%Z None n (mkFill [] vis res) ->
    (forall v, (v < seed)%nat -> isCrossed crossedMap v = false -> getAt vis v = true) ->
    exists vis',
      fillInvariant n nbrs crossedMap seedClasses 0%Z None n
        (mkFill [] vis'
           (fillSeeds crossedMap otherTris otherGrids nbrs n seed remaining vis res)) /\
      forall v, (v < n)%nat -> isCrossed crossedMap v = false -> getAt vis' v = true.
Proof.
  induction remaining as [| seedTri rest IH]; intros seed vis res Hrem Hlen Hinv Hbefore.
  - cbn [fillSeeds]. exists vis. split; [exact Hinv |]. cbn [List.length] in Hlen.
    intros v Hv. apply Hbefore. lia.
  - cbn [fillSeeds]. cbn [List.length] in Hlen.
    assert (Hrem' : forall k t, nth_error rest k = Some t ->
                                nth_error tris (S seed + k) = Some t).
    { intros k t Hk. replace (S seed + k)%nat with (seed + S k)%nat by lia.
      now apply Hrem. }
    destruct (getAt vis seed || isCrossed crossedMap seed) eqn:Hskip.
    + apply IH; [exact Hrem' | lia | exact Hinv |].
      intros v Hv Hc. destruct (Nat.eq_dec v seed) as [-> | Hne]; [| apply Hbefore; [lia | exact Hc]].
      rewrite Hc, orb_false_r in Hskip. exact Hskip.
    + apply orb_false_iff in Hskip. destruct Hskip as [Hvs Hcs]. cbv zeta.
      set (c := classifyPointMultiAxis (centroid seedTri) otherTris otherGrids).
      assert (Hc : seedClasses c).
      { exists seed, seedTri. split; [| now split].
        rewrite <- (Nat.add_0_r seed). now apply Hrem. }
      destruct Hinv as (Hlv & Hlr & _ & _ & Hclos & Hopen & Hzero & _).
      cbn [fillQueue fillVisited fillResult] in *.
      assert (Hsv : (seed < List.length vis)%nat) by lia.
      assert (Hsr : (seed < List.length res)%nat) by lia.
      assert (Hget : forall v, getAt (setAt vis seed true) v
                               = if Nat.eqb v seed then true else getAt vis v)
        by (intro v; now apply getAt_setAt).
      assert (Hres : forall v, nth v (setClassAt res seed c) 0%Z
                               = if Nat.eqb v seed then c else nth v res 0%Z)
        by (intro v; now apply nth_setClassAt).
      assert (Hkeep : forall v, getAt vis v = true ->
                getAt (setAt vis seed true) v = true /\
                nth v (setClassAt res seed c) 0%Z = nth v res 0%Z).
      { intros v Hv. rewrite Hget, Hres. destruct (Nat.eqb v seed) eqn:He; [| now split].
        apply Nat.eqb_eq in He. subst v. congruence. }
      destruct (countTrue_setAt vis seed Hsv Hvs) as [Hcount Hlt].
      assert (Hstart : fillInvariant n nbrs crossedMap seedClasses c None n
                         (mkFill [seed] (setAt vis seed true) (setClassAt res seed c))).
      { unfold fillInvariant. cbn [fillQueue fillVisited fillResult].
        split; [now rewrite setAt_length |]. split; [now rewrite setClassAt_length |].
        split.
        { intros v [<- | []]. rewrite Hget, Hres, Nat.eqb_refl. now split. }
        split; [intros v Hv; discriminate |]. split.
        { intros v Hv Hq _ w Hw. rewrite Hget in Hv.
          destruct (Nat.eqb v seed) eqn:He.
          - apply Nat.eqb_eq in He. subst v. exfalso. apply Hq. now left.
          - destruct (Hclos v Hv (fun H => H) ltac:(discriminate) w Hw) as [Hwv Hwr].
            destruct (Hkeep w Hwv) as [H1 H2]. destruct (Hkeep v Hv) as [_ H3].
            split; [exact H1 | congruence]. }
        split.
        { intros v Hv. rewrite Hget in Hv. rewrite Hres.
          destruct (Nat.eqb v seed) eqn:He.
          - apply Nat.eqb_eq in He. subst v. now split.
          - now apply Hopen. }
        split.
        { intros v Hv. rewrite Hget in Hv. rewrite Hres.
          destruct (Nat.eqb v seed); [discriminate | now apply Hzero]. }
        rewrite Hcount. cbn [List.length]. lia. }
      destruct (fillLoop_drains n nbrs crossedMap seedClasses neighbours_in_range
                  neighbours_symmetric neighbours_open c n Hc _ Hstart)
        as (Hq & Hfin & Hmono).
      cbv zeta in Hq, Hfin, Hmono. cbn [fillVisited fillResult] in Hmono.
      apply IH; [exact Hrem' | lia | now apply (fillInvariant_idle _ _ _ _ c) |].
      intros v Hv Hcv. apply Hmono. rewrite Hget.
      destruct (Nat.eqb v seed) eqn:He; [reflexivity |].
      apply Nat.eqb_neq in He. apply Hbefore; [lia | exact Hcv].
Qed.

End FillSeeds.

Lemma fillNeighbors_In (crossedMap : CrossedSet) (tris : Soup) (u w : nat) :
  let m := fillEdgesFrom crossedMap [] 0 tris in
  In w (nth u (fillNeighbors (List.length tris) m) []) <->
  exists e b, In (e, b) m /\ (In (u, w) (pairsOf b) \/ In (w, u) (pairsOf b)).
Proof.
  cbv zeta. unfold fillNeighbors. rewrite fillNeighbors_from.
  - rewrite nth_repeat. cbn [In]. tauto.
  - apply repeat_length.
  - intros e b x Hin Hx.
    apply (fillEdgesFrom_all crossedMap (List.length tris) tris [] 0
             ltac:(cbn; lia) ltac:(intros ? ? ? []) e b x Hin Hx).
Qed.

(** The classes of the multi-axis flood fill are those of the regions. *)
Lemma classifyByFloodFill_classes (tris : Soup) (crossedMap : CrossedSet)
  (otherTris : Soup) (otherGrids : Grids) :
  let result := classifyByFloodFill tris crossedMap otherTris otherGrids in
  List.length result = List.length tris /\
  (forall i, isCrossed crossedMap i = true -> nth i result 0%Z = 0%Z) /\
  (forall i t, nth_error tris i = Some t -> isCrossed crossedMap i = false ->
     (nth i result 0%Z = 1%Z \/ nth i result 0%Z = (-1)%Z) /\
     exists s seedTri,
       nth_error tris s = Some seedTri /\ isCrossed crossedMap s = false /\
       nth i result 0%Z
       = classifyPointMultiAxis (centroid seedTri) otherTris otherGrids) /\
  (forall i j ti tj,
     nth_error tris i = Some ti -> nth_error tris j = Some tj ->
     isCrossed crossedMap i = false -> isCrossed crossedMap j = false ->
     sharesEdge ti tj -> nth i result 0%Z = nth j result 0%Z).
Proof.
  cbv zeta. unfold classifyByFloodFill.
  set (n := List.length tris). set (m := fillEdgesFrom crossedMap [] 0 tris).
  set (nbrs := fillNeighbors n m).
  assert (Hm : forall e b x, In (e, b) m -> In x b ->
                             (x < n)%nat /\ isCrossed crossedMap x = false).
  { apply (fillEdgesFrom_all crossedMap n tris [] 0); [unfold n; cbn; lia |].
    intros ? ? ? []. }
  assert (HN : forall u w, In w (nth u nbrs []) <->
             exists e b, In (e, b) m /\ (In (u, w) (pairsOf b) \/ In (w, u) (pairsOf b)))
    by (intros u w; apply fillNeighbors_In).
  assert (Hrange : forall v w, In w (nth v nbrs []) -> (w < n)%nat).
  { intros v w H. apply HN in H. destruct H as (e & b & Hin & [Hp | Hp]);
      apply pairsOf_In in Hp; destruct Hp as [H1 H2];
      [apply (Hm e b w Hin H2) | apply (Hm e b w Hin H1)]. }
  assert (Hsym : forall v w, In w (nth v nbrs []) -> In v (nth w nbrs [])).
  { intros v w H. apply HN in H. apply HN. destruct H as (e & b & Hin & Hp).
    exists e, b. split; [exact Hin | tauto]. }
  assert (Hopen : forall v w, In w (nth v nbrs []) -> isCrossed crossedMap w = false).
  { intros v w H. apply HN in H. destruct H as (e & b & Hin & [Hp | Hp]);
      apply pairsOf_In in Hp; destruct Hp as [H1 H2];
      [apply (Hm e b w Hin H2) | apply (Hm e b w Hin H1)]. }
  destruct (fillSeeds_invariant tris crossedMap otherTris otherGrids nbrs
              Hrange Hsym Hopen tris 0 (repeat false n) (repeat 0%Z n))
    as (vis & Hinv & Hall).
  { intros k t Hk. exact Hk. }
  { reflexivity. }
  { unfold fillInvariant. cbn [fillQueue fillVisited fillResult].
    assert (Hf : forall v, getAt (repeat false n) v = false)
      by (intro v; unfold getAt; apply nth_repeat).
    split; [apply repeat_length |]. split; [apply repeat_length |].
    split; [intros v [] |]. split; [intros v Hv; discriminate |].
    split; [intros v Hv; rewrite Hf in Hv; discriminate |].
    split; [intros v Hv; rewrite Hf in Hv; discriminate |].
    split; [intros v _; apply nth_repeat |]. cbn [List.length]. lia. }
  { intros v Hv. lia. }
  fold n in Hinv, Hall.
  set (result := fillSeeds crossedMap otherTris otherGrids nbrs n 0 tris
                           (repeat false n) (repeat 0%Z n)) in *.
  destruct Hinv as (Hlv & Hlr & _ & _ & Hclos & Hcls & Hzero & _).
  cbn [fillQueue fillVisited fillResult] in *.
  split; [exact Hlr |]. split; [| split].
  - intros i Hc. destruct (getAt vis i) eqn:Hv; [| now apply Hzero].
    destruct (Hcls i Hv) as [Hnc _]. congruence.
  - intros i t Hi Hc.
    assert (Hlt : (i < n)%nat) by (apply nth_error_Some; congruence).
    destruct (Hcls i (Hall i Hlt Hc)) as [_ (s & seedTri & Hs & Hcs & Heq)].
    split; [rewrite Heq; apply classifyPointMultiAxis_sign |].
    now exists s, seedTri.
  - intros i j ti tj Hi Hj Hci Hcj (e & Hei & Hej).
    destruct (Nat.eq_dec i j) as [-> | Hne]; [reflexivity |].
    assert (Hli : (i < n)%nat) by (apply nth_error_Some; congruence).
    assert (Hini : In i (triListGet m e)).
    { apply fillEdgesFrom_get. right. exists i, ti. now repeat split. }
    assert (Hinj : In j (triListGet m e)).
    { apply fillEdgesFrom_get. right. exists j, tj. now repeat split. }
    assert (Hentry : In (e, triListGet m e) m).
    { apply triListGet_entry. intro H. rewrite H in Hini. destruct Hini. }
    assert (Hnb : In j (nth i nbrs [])).
    { apply HN. exists e, (triListGet m e). split; [exact Hentry |].
      now apply pairsOf_complete. }
    destruct (Hclos i (Hall i Hli Hci) (fun H => H) ltac:(discriminate) j Hnb) as [_ Heq].
    symmetry. exact Heq.
Qed.

(** X29. [classifyByFloodFill] returns one class per triangle.  A
    crossed triangle keeps 0.  A triangle that is not crossed gets 1 or
    -1, namely what [classifyPointMultiAxis] says about the centroid of
    some triangle that is not crossed; and two triangles that are not
    crossed and have an edge key in common get the same class, so a
    class is constant on every edge-connected piece between the
    crossed triangles. *)
Theorem classifyByFloodFill_components (tris : Soup) (crossedMap : CrossedSet)
  (otherTris : Soup) (otherGrids : Grids) :
  let result := classifyByFloodFill tris crossedMap otherTris otherGrids in
  List.length result = List.length tris /\
  (forall i, isCrossed crossedMap i = true -> nth i result 0%Z = 0%Z) /\
  (forall i t, nth_error tris i = Some t -> isCrossed crossedMap i = false ->
     (nth i result 0%Z = 1%Z \/ nth i result 0%Z = (-1)%Z) /\
     exists s seedTri,
       nth_error tris s = Some seedTri /\ isCrossed crossedMap s = false /\
       nth i result 0%Z
       = classifyPointMultiAxis (centroid seedTri) otherTris otherGrids) /\
  (forall i j ti tj,
     nth_error tris i = Some ti -> nth_error tris j = Some tj ->
     isCrossed crossedMap i = false -> isCrossed crossedMap j = false ->
     sharesEdge ti tj -> nth i result 0%Z = nth j result 0%Z).
Proof. exact (classifyByFloodFill_classes tris crossedMap otherTris otherGrids). Qed.

(** ** Splitting into the inside and the outside group *)

Section SplitStraddlingProperties.

Variable Delaunator : list (R * R) -> option (list (nat * nat * nat)).
Variable Constrainautor :
  list (nat * nat * nat) -> list (R * R) -> list (nat * nat) ->
  list (nat * nat * nat).

Lemma pushGroup_all (g : Groups) (b : bool) (t : Triangle) :
  Permutation (inside (pushGroup g b t) ++ outside (pushGroup g b t))
              ((inside g ++ outside g) ++ [t]).
Proof.
  unfold pushGroup. destruct b; cbn [inside outside].
  - rewrite <- !app_assoc. apply Permutation_app_head, Permutation_app_comm.
  - now rewrite app_assoc.
Qed.

Lemma pushGroup_keeps (g : Groups) (b : bool) (t x : Triangle) :
  (In x (inside g) -> In x (inside (pushGroup g b t))) /\
  (In x (outside g) -> In x (outside (pushGroup g b t))).
Proof.
  unfold pushGroup. destruct b; cbn [inside outside]; split; intro H;
    try exact H; apply in_app_iff; now left.
Qed.

Lemma pushSubs_all (f : Triangle -> bool) (current : Soup) :
  forall g : Groups,
    let g' := fold_left (fun g0 sub => pushGroup g0 (f sub) sub) current g in
    Permutation (inside g' ++ outside g') ((inside g ++ outside g) ++ current) /\
    forall x, (In x (inside g) -> In x (inside g')) /\
              (In x (outside g) -> In x (outside g')).
Proof.
  induction current as [| sub rest IH]; intro g; cbn [fold_left]; cbv zeta.
  - rewrite app_nil_r. split; [reflexivity | tauto].
  - destruct (IH (pushGroup g (f sub) sub)) as [Hp Hk]. cbv zeta in Hp, Hk. split.
    + rewrite Hp, pushGroup_all, <- !app_assoc. reflexivity.
    + intro x. destruct (Hk x) as [H1 H2].
      destruct (pushGroup_keeps g (f sub) sub x) as [H3 H4]. split; auto.
Qed.

Lemma splitFrom_all (classifications : list Z) (crossedMap : CrossedSet)
  (steinerKeys : list string) (vertexClassMap : VertexClassMap)
  (otherTris : Soup) (otherGrids : Grids) (remaining : Soup) :
  forall (g : Groups) (ti : nat),
    let g' := splitFrom Delaunator Constrainautor classifications crossedMap
                        steinerKeys vertexClassMap otherTris otherGrids g ti
                        remaining in
    Permutation (inside g' ++ outside g')
      ((inside g ++ outside g)
       ++ flat_map (piecesOf Delaunator Constrainautor crossedMap)
                   (combine (seq ti (List.length remaining)) remaining)) /\
    (forall x, (In x (inside g) -> In x (inside g')) /\
               (In x (outside g) -> In x (outside g'))) /\
    forall k tri,
      nth_error remaining k = Some tri -> crossedGet crossedMap (ti + k) = None ->
      if classIsInside classifications (ti + k) then In tri (inside g')
      else In tri (outside g').
Proof.
  induction remaining as [| tri rest IH]; intros g ti; cbn [splitFrom]; cbv zeta.
  - cbn [List.length seq combine flat_map]. rewrite app_nil_r.
    split; [reflexivity |]. split; [tauto |]. intros k t Hk. destruct k; discriminate.
  - cbn [List.length seq combine flat_map]. unfold piecesOf at 1. cbn [fst snd].
    destruct (crossedGet crossedMap ti) as [segments |] eqn:Hc.
    + set (f := fun sub => (classifySub steinerKeys vertexClassMap otherTris
                                        otherGrids sub =? 1)%Z).
      destruct (pushSubs_all f
                  (retriangulateWithSteinerPoints Delaunator Constrainautor tri segments) g)
        as [Hp Hk].
      cbv zeta in Hp, Hk.
      match goal with
      | |- context [splitFrom _ _ _ _ _ _ _ _ ?g1 (S ti) rest] =>
          destruct (IH g1 (S ti)) as (Hp' & Hk' & Hidx')
      end.
      cbv zeta in Hp', Hk', Hidx'. split; [| split].
      * rewrite Hp'. unfold f in Hp. rewrite Hp, <- !app_assoc. reflexivity.
      * intro x. destruct (Hk x) as [H1 H2]. destruct (Hk' x) as [H3 H4].
        split; intro H; [apply H3, H1, H | apply H4, H2, H].
      * intros k t Hn Hck. destruct k as [| k].
        -- rewrite Nat.add_0_r in Hck. congruence.
        -- cbn [nth_error] in Hn. replace (ti + S k)%nat with (S ti + k)%nat in * by lia.
           now apply Hidx'.
    + destruct (IH (pushGroup g (classIsInside classifications ti) tri) (S ti))
        as (Hp' & Hk' & Hidx').
      cbv zeta in Hp', Hk', Hidx'. split; [| split].
      * rewrite Hp', pushGroup_all, <- !app_assoc. reflexivity.
      * intro x. destruct (Hk' x) as [H3 H4].
        destruct (pushGroup_keeps g (classIsInside classifications ti) tri x) as [H1 H2].
        split; intro H; [apply H3, H1, H | apply H4, H2, H].
      * intros k t Hn Hck. destruct k as [| k].
        -- cbn [nth_error] in Hn. injection Hn as <-. rewrite Nat.add_0_r.
           destruct (Hk' tri) as [H3 H4]. unfold pushGroup in H3, H4.
           destruct (classIsInside classifications ti); cbn [inside outside] in H3, H4;
             [apply H3 | apply H4]; apply in_app_iff; right; now left.
        -- cbn [nth_error] in Hn. replace (ti + S k)%nat with (S ti + k)%nat in * by lia.
           now apply Hidx'.
Qed.

(** X30. [splitStraddlingAndClassify] loses and invents nothing: the
    two groups together hold, up to order, every triangle that is not
    crossed once and, for every crossed triangle, the sub-triangles
    [retriangulateWithSteinerPoints] makes of it with its segments.  A
    triangle that is not crossed goes to the inside group when its
    class is 1 and to the outside group otherwise. *)
Theorem splitStraddlingAndClassify_partition (tris : Soup) (classifications : list Z)
  (crossedMap : CrossedSet) (otherTris : Soup) (otherGrids : Grids) :
  let g := splitStraddlingAndClassify Delaunator Constrainautor tris classifications
                                      crossedMap otherTris otherGrids in
  Permutation (inside g ++ outside g)
              (flat_map (piecesOf Delaunator Constrainautor crossedMap)
                        (combine (seq 0 (List.length tris)) tris)) /\
  forall i tri,
    nth_error tris i = Some tri -> crossedGet crossedMap i = None ->
    if classIsInside classifications i then In tri (inside g)
    else In tri (outside g).
Proof.
  cbv zeta. unfold splitStraddlingAndClassify.
  destruct (splitFrom_all classifications crossedMap (steinerKeysOf crossedMap)
              (vertexClassesFrom crossedMap classifications [] 0 tris)
              otherTris otherGrids tris (mkGroups [] []) 0) as (Hp & _ & Hidx).
  cbv zeta in Hp, Hidx. cbn [inside outside app] in Hp. split; [exact Hp |].
  intros i tri Hi Hc. exact (Hidx i tri Hi Hc).
Qed.

End SplitStraddlingProperties.

(** * Double precision *)

(** C9. In double precision the two intersectors do not reject the same
    pairs: for the triangles [utmA] and [utmB] the plain one returns
    null, because the distance between the end points it reconstructs
    rounds below 1e-8, while the detailed one returns a record with
    [segLen] = [overlapMax - overlapMin] = 1.0011717677116394e-8. *)
Theorem triTriIntersectionDetailed_accepts_rejected_pair :
  Doubles.triTriIntersection Doubles.utmA Doubles.utmB = None /\
  option_map Doubles.segLen
             (Doubles.triTriIntersectionDetailed Doubles.utmA Doubles.utmB)
  = Some Doubles.utmSegLen.
Proof. split; vm_compute; reflexivity. Qed.

(** * The entry point and its classifier *)

(** ** The point classifier returns *)

Lemma queryGrid_range (tris : Soup) (cs : R) (bb : BBox) (j : nat) :
  In j (queryGrid (buildSpatialGrid tris cs) bb cs) -> (j < List.length tris)%nat.
Proof.
  intro H. apply (proj2 (queryGrid_spec _ bb cs)) in H.
  destruct H as (key & _ & Hb). apply binned_build in Hb.
  destruct Hb as (tri & Hn & _). apply nth_error_Some. congruence.
Qed.

Lemma countCrossings_returns (px py pz : R) (otherTris : Soup)
  (candidates : list nat) :
  (forall c, In c candidates -> (c < List.length otherTris)%nat) ->
  forall count, exists k,
    RayCast.countCrossings px py pz otherTris candidates count = Returned k.
Proof.
  induction candidates as [| c rest IH]; intros Hr count;
    cbn [RayCast.countCrossings].
  - now exists count.
  - destruct (nth_error otherTris c) as [tri |] eqn:Hc.
    + apply IH. intros c' Hc'. apply Hr. now right.
    + exfalso. apply nth_error_None in Hc.
      specialize (Hr c (or_introl eq_refl)). lia.
Qed.

Lemma countAxisCrossings_returns (px py pMain : R) (axis : Axis) (otherTris : Soup)
  (candidates : list nat) :
  (forall c, In c candidates -> (c < List.length otherTris)%nat) ->
  forall count, exists k,
    RayCast.countAxisCrossings px py pMain axis otherTris candidates count
    = Returned k.
Proof.
  induction candidates as [| c rest IH]; intros Hr count;
    cbn [RayCast.countAxisCrossings].
  - now exists count.
  - destruct (nth_error otherTris c) as [tri |] eqn:Hc.
    + apply IH. intros c' Hc'. apply Hr. now right.
    + exfalso. apply nth_error_None in Hc.
      specialize (Hr c (or_introl eq_refl)). lia.
Qed.

Lemma castRayAlongAxis_returns (point : Vertex) (otherTris : Soup) (cs : R)
  (axis : Axis) :
  exists k,
    RayCast.castRayAlongAxis point otherTris (buildSpatialGrid otherTris cs) cs axis
    = Returned k.
Proof.
  unfold RayCast.castRayAlongAxis.
  destruct (axisCoords axis point) as [[px py] pMain]. cbv zeta.
  apply countAxisCrossings_returns. intros c Hc. destruct axis.
  - exact (queryGrid_range otherTris cs _ c Hc).
  - apply in_seq in Hc. lia.
  - apply in_seq in Hc. lia.
Qed.

Lemma classifyPointByRayCast_sign (version : RayCast.Version) (point : Vertex)
  (otherTris : Soup) (g : Grid) (cs : R) (z : Z) :
  RayCast.classifyPointByRayCast version point otherTris g cs = Returned z ->
  z = 1%Z \/ z = (-1)%Z.
Proof.
  destruct version; cbn [RayCast.classifyPointByRayCast].
  - unfold RayCast.classifyPointByZRay. cbv zeta.
    destruct (RayCast.countCrossings _ _ _ _ _ _) as [| k]; cbn [andThen];
      [discriminate |].
    intro H. injection H as <-.
    destruct (Nat.eqb _ 1); [left | right]; reflexivity.
  - unfold RayCast.classifyPointByAxisVote.
    destruct (RayCast.castRayAlongAxis point otherTris g cs AxisZ) as [| zc];
      cbn [andThen]; [discriminate |].
    destruct (RayCast.castRayAlongAxis point otherTris g cs AxisX) as [| xc];
      cbn [andThen]; [discriminate |]. cbv zeta.
    destruct (Bool.eqb _ _).
    + intro H. injection H as <-.
      destruct (Nat.eqb _ 1); [left | right]; reflexivity.
    + destruct (RayCast.castRayAlongAxis point otherTris g cs AxisY) as [| yc];
        cbn [andThen]; [discriminate |].
      intro H. injection H as <-.
      match goal with |- context [if ?b then 1%Z else _] => destruct b end;
        [left | right]; reflexivity.
Qed.

(** On the grid built from the other mesh the classifier finds every
    candidate in the mesh, so it returns. *)
Lemma classifyPointByRayCast_returns (version : RayCast.Version) (point : Vertex)
  (otherTris : Soup) (cs : R) :
  exists z,
    RayCast.classifyPointByRayCast version point otherTris
                                   (buildSpatialGrid otherTris cs) cs
    = Returned z.
Proof.
  destruct version; cbn [RayCast.classifyPointByRayCast].
  - unfold RayCast.classifyPointByZRay. cbv zeta.
    destruct (countCrossings_returns (vx point) (vy point) (vz point) otherTris
                (queryGrid (buildSpatialGrid otherTris cs)
                           (mkBB (vx point) (vy point) 0 (vx point) (vy point) 0) cs)
                (fun c Hc => queryGrid_range otherTris cs _ c Hc) 0%nat) as [k Hk].
    rewrite Hk. cbn [andThen]. eexists. reflexivity.
  - unfold RayCast.classifyPointByAxisVote.
    destruct (castRayAlongAxis_returns point otherTris cs AxisZ) as [zc ->].
    destruct (castRayAlongAxis_returns point otherTris cs AxisX) as [xc ->].
    destruct (castRayAlongAxis_returns point otherTris cs AxisY) as [yc ->].
    cbn [andThen]. cbv zeta. destruct (Bool.eqb _ _); eexists; reflexivity.
Qed.

(** ** Flood fill from one seed *)

Section FloodStep.

Variable n : nat.
Variable nbrs : list (list nat).
Variable crossedMap : CrossedSet.
Variable classes : Z -> Prop.

Hypothesis neighbours_in_range :
  forall v w, In w (nth v nbrs []) -> (w < n)%nat.
Hypothesis neighbours_symmetric :
  forall v w, In w (nth v nbrs []) -> In v (nth w nbrs []).
Hypothesis neighbours_open :
  forall v w, In w (nth v nbrs []) -> isCrossed crossedMap w = false.

(** One seed: its region is filled, and what was filled before stays. *)
Lemma fillSeed_step (seed : nat) (vis : list bool) (res : list Z) (c : Z) :
  classes c ->
  fillInvariant n nbrs crossedMap classes 0%Z None n (mkFill [] vis res) ->
  (seed < n)%nat -> getAt vis seed = false -> isCrossed crossedMap seed = false ->
  let st := fillLoop nbrs c n
              (mkFill [seed] (setAt vis seed true) (setClassAt res seed c)) in
  fillInvariant n nbrs crossedMap classes 0%Z None n
                (mkFill [] (fillVisited st) (fillResult st)) /\
  forall v, v = seed \/ getAt vis v = true -> getAt (fillVisited st) v = true.
Proof.
  intros Hc Hinv Hseed Hvs Hcs. cbv zeta.
  destruct Hinv as (Hlv & Hlr & _ & _ & Hclos & Hopen & Hzero & _).
  cbn [fillQueue fillVisited fillResult] in *.
  assert (Hsv : (seed < List.length vis)%nat) by lia.
  assert (Hsr : (seed < List.length res)%nat) by lia.
  assert (Hget : forall v, getAt (setAt vis seed true) v
                           = if Nat.eqb v seed then true else getAt vis v)
    by (intro v; now apply getAt_setAt).
  assert (Hres : forall v, nth v (setClassAt res seed c) 0%Z
                           = if Nat.eqb v seed then c else nth v res 0%Z)
    by (intro v; now apply nth_setClassAt).
  assert (Hkeep : forall v, getAt vis v = true ->
            getAt (setAt vis seed true) v = true /\
            nth v (setClassAt res seed c) 0%Z = nth v res 0%Z).
  { intros v Hv. rewrite Hget, Hres. destruct (Nat.eqb v seed) eqn:He; [| now split].
    apply Nat.eqb_eq in He. subst v. congruence. }
  destruct (countTrue_setAt vis seed Hsv Hvs) as [Hcount Hlt].
  assert (Hstart : fillInvariant n nbrs crossedMap classes c None n
                     (mkFill [seed] (setAt vis seed true) (setClassAt res seed c))).
  { unfold fillInvariant. cbn [fillQueue fillVisited fillResult].
    split; [now rewrite setAt_length |]. split; [now rewrite setClassAt_length |].
    split.
    { intros v [<- | []]. rewrite Hget, Hres, Nat.eqb_refl. now split. }
    split; [intros v Hv; discriminate |]. split.
    { intros v Hv Hq _ w Hw. rewrite Hget in Hv.
      destruct (Nat.eqb v seed) eqn:He.
      - apply Nat.eqb_eq in He. subst v. exfalso. apply Hq. now left.
      - destruct (Hclos v Hv (fun H => H) ltac:(discriminate) w Hw) as [Hwv Hwr].
        destruct (Hkeep w Hwv) as [H1 H2]. destruct (Hkeep v Hv) as [_ H3].
        split; [exact H1 | congruence]. }
    split.
    { intros v Hv. rewrite Hget in Hv. rewrite Hres.
      destruct (Nat.eqb v seed) eqn:He.
      - apply Nat.eqb_eq in He. subst v. now split.
      - now apply Hopen. }
    split.
    { intros v Hv. rewrite Hget in Hv. rewrite Hres.
      destruct (Nat.eqb v seed); [discriminate | now apply Hzero]. }
    rewrite Hcount. cbn [List.length]. lia. }
  destruct (fillLoop_drains n nbrs crossedMap classes neighbours_in_range
              neighbours_symmetric neighbours_open c n Hc _ Hstart)
    as (Hq & Hfin & Hmono).
  cbv zeta in Hq, Hfin, Hmono. cbn [fillVisited fillResult] in Hmono.
  split; [now apply (fillInvariant_idle _ _ _ _ c) |].
  intros v Hv. apply Hmono. rewrite Hget.
  destruct (Nat.eqb v seed) eqn:He; [reflexivity |].
  apply Nat.eqb_neq in He. destruct Hv as [Hv | Hv]; [contradiction | exact Hv].
Qed.

End FloodStep.

Lemma fillInvariant_initial (n : nat) (nbrs : list (list nat))
  (crossedMap : CrossedSet) (classes : Z -> Prop) :
  fillInvariant n nbrs crossedMap classes 0%Z None n
                (mkFill [] (repeat false n) (repeat 0%Z n)).
Proof.
  unfold fillInvariant. cbn [fillQueue fillVisited fillResult].
  assert (Hf : forall v, getAt (repeat false n) v = false)
    by (intro v; unfold getAt; apply nth_repeat).
  split; [apply repeat_length |]. split; [apply repeat_length |].
  split; [intros v [] |]. split; [intros v Hv; discriminate |].
  split; [intros v Hv; rewrite Hf in Hv; discriminate |].
  split; [intros v Hv; rewrite Hf in Hv; discriminate |].
  split; [intros v _; apply nth_repeat |]. cbn [List.length]. lia.
Qed.

(** The neighbour lists of the flood fill: in range, symmetric, never a
    crossed triangle, and complete for two triangles with a common
    edge key. *)
Lemma fillNeighbors_facts (crossedMap : CrossedSet) (tris : Soup) :
  let n := List.length tris in
  let nbrs := fillNeighbors n (fillEdgesFrom crossedMap [] 0 tris) in
  (forall v w, In w (nth v nbrs []) -> (w < n)%nat) /\
  (forall v w, In w (nth v nbrs []) -> In v (nth w nbrs [])) /\
  (forall v w, In w (nth v nbrs []) -> isCrossed crossedMap w = false) /\
  (forall i j ti tj,
     nth_error tris i = Some ti -> nth_error tris j = Some tj ->
     isCrossed crossedMap i = false -> isCrossed crossedMap j = false ->
     sharesEdge ti tj -> i <> j -> In j (nth i nbrs [])).
Proof.
  cbv zeta.
  set (n := List.length tris). set (m := fillEdgesFrom crossedMap [] 0 tris).
  set (nbrs := fillNeighbors n m).
  assert (Hm : forall e b x, In (e, b) m -> In x b ->
                             (x < n)%nat /\ isCrossed crossedMap x = false).
  { apply (fillEdgesFrom_all crossedMap n tris [] 0); [unfold n; cbn; lia |].
    intros ? ? ? []. }
  assert (HN : forall u w, In w (nth u nbrs []) <->
             exists e b, In (e, b) m /\ (In (u, w) (pairsOf b) \/ In (w, u) (pairsOf b)))
    by (intros u w; apply fillNeighbors_In).
  split; [| split; [| split]].
  - intros v w H. apply HN in H. destruct H as (e & b & Hin & [Hp | Hp]);
      apply pairsOf_In in Hp; destruct Hp as [H1 H2];
      [apply (Hm e b w Hin H2) | apply (Hm e b w Hin H1)].
  - intros v w H. apply HN in H. apply HN. destruct H as (e & b & Hin & Hp).
    exists e, b. split; [exact Hin | tauto].
  - intros v w H. apply HN in H. destruct H as (e & b & Hin & [Hp | Hp]);
      apply pairsOf_In in Hp; destruct Hp as [H1 H2];
      [apply (Hm e b w Hin H2) | apply (Hm e b w Hin H1)].
  - intros i j ti tj Hi Hj Hci Hcj (e & Hei & Hej) Hne.
    assert (Hini : In i (triListGet m e)).
    { apply fillEdgesFrom_get. right. exists i, ti. now repeat split. }
    assert (Hinj : In j (triListGet m e)).
    { apply fillEdgesFrom_get. right. exists j, tj. now repeat split. }
    assert (Hentry : In (e, triListGet m e) m).
    { apply triListGet_entry. intro H. rewrite H in Hini. destruct Hini. }
    apply HN. exists e, (triListGet m e). split; [exact Hentry |].
    now apply pairsOf_complete.
Qed.

(** ** Flood fill with the ray-cast classifier *)

Section RayFill.

Variable version : RayCast.Version.
Variable tris : Soup.
Variable crossedMap : CrossedSet.
Variable otherTris : Soup.
Variable otherGrid : Grid.
Variable otherCellSize : R.

Let n : nat := List.length tris.

Let rayClass (p : Vertex) : Outcome Z :=
  RayCast.classifyPointByRayCast version p otherTris otherGrid otherCellSize.

Let seedClasses (z : Z) : Prop :=
  exists s seedTri, nth_error tris s = Some seedTri /\
                    isCrossed crossedMap s = false /\
                    rayClass (centroid seedTri) = Returned z.

(** Every candidate the grid proposes is a triangle of the other mesh. *)
Hypothesis classifier_returns : forall p, exists z, rayClass p = Returned z.

Lemma rayFill_seeds (nbrs : list (list nat)) (remaining : Soup) :
  (forall v w, In w (nth v nbrs []) -> (w < n)%nat) ->
  (forall v w, In w (nth v nbrs []) -> In v (nth w nbrs [])) ->
  (forall v w, In w (nth v nbrs []) -> isCrossed crossedMap w = false) ->
  forall (seed : nat) (vis : list bool) (res : list Z),
    (forall k t, nth_error remaining k = Some t -> nth_error tris (seed + k) = Some t) ->
    (seed + List.length remaining = n)%nat ->
    fillInvariant n nbrs crossedMap seedClasses 0%Z None n (mkFill [] vis res) ->
    (forall v, (v < seed)%nat -> isCrossed crossedMap v = false -> getAt vis v = true) ->
    exists vis' out,
      RayCast.fillSeeds version crossedMap otherTris otherGrid otherCellSize nbrs n seed
                     remaining vis res = Returned out /\
      fillInvariant n nbrs crossedMap seedClasses 0%Z None n (mkFill [] vis' out) /\
      forall v, (v < n)%nat -> isCrossed crossedMap v = false -> getAt vis' v = true.
Proof.
  intros Hrange Hsym Hopen.
  induction remaining as [| seedTri rest IH]; intros seed vis res Hrem Hlen Hinv Hbefore.
  - cbn [RayCast.fillSeeds]. exists vis, res. split; [reflexivity |].
    split; [exact Hinv |]. cbn [List.length] in Hlen.
    intros v Hv. apply Hbefore. lia.
  - cbn [RayCast.fillSeeds]. cbn [List.length] in Hlen.
    assert (Hrem' : forall k t, nth_error rest k = Some t ->
                                nth_error tris (S seed + k) = Some t).
    { intros k t Hk. replace (S seed + k)%nat with (seed + S k)%nat by lia.
      now apply Hrem. }
    destruct (getAt vis seed || isCrossed crossedMap seed) eqn:Hskip.
    + apply IH; [exact Hrem' | lia | exact Hinv |].
      intros v Hv Hc. destruct (Nat.eq_dec v seed) as [-> | Hne];
        [| apply Hbefore; [lia | exact Hc]].
      rewrite Hc, orb_false_r in Hskip. exact Hskip.
    + apply orb_false_iff in Hskip. destruct Hskip as [Hvs Hcs].
      destruct (classifier_returns (centroid seedTri)) as [c Hc].
      fold (rayClass (centroid seedTri)). rewrite Hc. cbn [andThen]. cbv zeta.
      assert (Hsc : seedClasses c).
      { exists seed, seedTri. split; [| now split].
        rewrite <- (Nat.add_0_r seed). now apply Hrem. }
      destruct (fillSeed_step n nbrs crossedMap seedClasses Hrange Hsym Hopen
                  seed vis res c Hsc Hinv ltac:(lia) Hvs Hcs) as [Hnext Hmono].
      cbv zeta in Hnext, Hmono.
      apply IH; [exact Hrem' | lia | exact Hnext |].
      intros v Hv Hcv. apply Hmono.
      destruct (Nat.eq_dec v seed) as [-> | Hne]; [now left | right].
      apply Hbefore; [lia | exact Hcv].
Qed.

(** The flood fill returns, and its classes are those of the regions. *)
Lemma rayFill_classes :
  exists classes,
    RayCast.classifyByFloodFill version tris crossedMap otherTris otherGrid otherCellSize
    = Returned classes /\
    classifiedByRay version tris crossedMap otherTris otherGrid otherCellSize classes.
Proof.
  unfold RayCast.classifyByFloodFill. cbv zeta. fold n.
  destruct (fillNeighbors_facts crossedMap tris) as (Hrange & Hsym & Hopen & Hnb).
  cbv zeta in Hrange, Hsym, Hopen, Hnb. fold n in Hrange, Hsym, Hopen, Hnb.
  set (nbrs := fillNeighbors n (fillEdgesFrom crossedMap [] 0 tris)) in *.
  destruct (rayFill_seeds nbrs tris Hrange Hsym Hopen 0 (repeat false n)
              (repeat 0%Z n)) as (vis & out & Hout & Hinv & Hall).
  { intros k t Hk. exact Hk. }
  { reflexivity. }
  { apply fillInvariant_initial. }
  { intros v Hv. lia. }
  exists out. split; [exact Hout |].
  destruct Hinv as (Hlv & Hlr & _ & _ & Hclos & Hcls & Hzero & _).
  cbn [fillQueue fillVisited fillResult] in *.
  unfold classifiedByRay. split; [exact Hlr |]. split; [| split].
  - intros i Hc. destruct (getAt vis i) eqn:Hv; [| now apply Hzero].
    destruct (Hcls i Hv) as [Hnc _]. congruence.
  - intros i t Hi Hc.
    assert (Hlt : (i < n)%nat) by (apply nth_error_Some; congruence).
    destruct (Hcls i (Hall i Hlt Hc)) as [_ (s & seedTri & Hs & Hcs & Heq)].
    split; [exact (classifyPointByRayCast_sign _ _ _ _ _ _ Heq) |].
    now exists s, seedTri.
  - intros i j ti tj Hi Hj Hci Hcj Hshare.
    destruct (Nat.eq_dec i j) as [-> | Hne]; [reflexivity |].
    assert (Hli : (i < n)%nat) by (apply nth_error_Some; congruence).
    destruct (Hclos i (Hall i Hli Hci) (fun H => H) ltac:(discriminate) j
                (Hnb i j ti tj Hi Hj Hci Hcj Hshare Hne)) as [_ Heq].
    symmetry. exact Heq.
Qed.

End RayFill.

(** ** Splitting with the ray-cast classifier returns *)

Section RaySplit.

Variable version : RayCast.Version.
Variable Delaunator : list (R * R) -> option (list (nat * nat * nat)).
Variable Constrainautor :
  list (nat * nat * nat) -> list (R * R) -> list (nat * nat) ->
  list (nat * nat * nat).
Variable otherTris : Soup.
Variable otherGrid : Grid.
Variable otherCellSize : R.

Hypothesis classifier_returns :
  forall p, exists z,
    RayCast.classifyPointByRayCast version p otherTris otherGrid otherCellSize = Returned z.

Lemma classifySubs_returns (current : Soup) :
  forall g, exists g',
    RayCast.classifySubs version otherTris otherGrid otherCellSize g current = Returned g'.
Proof.
  induction current as [| sub rest IH]; intro g; cbn [RayCast.classifySubs].
  - now exists g.
  - destruct (classifier_returns (centroid sub)) as [z Hz]. rewrite Hz.
    cbn [andThen]. apply IH.
Qed.

Lemma raySplit_from_returns (classifications : list Z) (crossedMap : CrossedSet)
  (remaining : Soup) :
  forall g i, exists g',
    RayCast.splitFrom version Delaunator Constrainautor classifications crossedMap otherTris
                   otherGrid otherCellSize g i remaining = Returned g'.
Proof.
  induction remaining as [| tri rest IH]; intros g i; cbn [RayCast.splitFrom].
  - now exists g.
  - destruct (crossedGet crossedMap i) as [segments |]; [| apply IH].
    cbv zeta.
    destruct (classifySubs_returns
                (retriangulateWithSteinerPoints Delaunator Constrainautor tri segments)
                g) as [g1 Hg1].
    rewrite Hg1. cbn [andThen]. apply IH.
Qed.

Lemma raySplit_returns (tris : Soup) (classifications : list Z)
  (crossedMap : CrossedSet) :
  exists g,
    RayCast.splitStraddlingAndClassify version Delaunator Constrainautor tris classifications
      crossedMap otherTris otherGrid otherCellSize = Returned g.
Proof. apply raySplit_from_returns. Qed.

End RaySplit.

(** ** The groups after steps 6 and 7 *)

Lemma apartCorners_flip (tolSq : R) (t : Triangle) :
  apartCorners tolSq t -> apartCorners tolSq (flipTriangle t).
Proof.
  intros (H01 & H12 & H20). unfold apartCorners, flipTriangle. cbn [v0 v1 v2].
  assert (Hc : forall p q, distSq3 (copyVertex p) (copyVertex q) = distSq3 p q)
    by reflexivity.
  rewrite !Hc. rewrite (distSq3_sym (v0 t) (v2 t)), (distSq3_sym (v2 t) (v1 t)),
    (distSq3_sym (v1 t) (v0 t)). now repeat split.
Qed.

Lemma sameOrFlipped_apart (tolSq : R) (l l' : Soup) :
  Forall2 sameOrFlipped l l' -> Forall (apartCorners tolSq) l ->
  Forall (apartCorners tolSq) l'.
Proof.
  induction 1 as [| t t' l l' Hs _ IH]; intro Hall; [constructor |].
  inversion Hall as [| ? ? Ht Hl]; subst. constructor; [| now apply IH].
  destruct Hs as [-> | ->]; [exact Ht | now apply apartCorners_flip].
Qed.

Section BooleanProperties.

Variable version : RayCast.Version.
Variable Delaunator : list (R * R) -> option (list (nat * nat * nat)).
Variable Constrainautor :
  list (nat * nat * nat) -> list (R * R) -> list (nat * nat) ->
  list (nat * nat * nat).

(** Whatever a group holds, after steps 6 and 7 the corners of each of
    its triangles are 1e-4 or more apart. *)
Lemma finishGroup_apart (g : Soup) :
  Forall (apartCorners (1e-4 * 1e-4)) (finishGroup g).
Proof.
  unfold finishGroup. destruct g as [| t rest]; [constructor |].
  cbn [whenNonEmpty].
  assert (Hd : Forall (apartCorners (1e-4 * 1e-4))
                      (deduplicateSeamVertices (t :: rest) 1e-4)).
  { destruct (deduplicateSeamVertices_triangles (t :: rest) 1e-4 ltac:(lra))
      as [_ Hall].
    eapply Forall_impl; [| exact Hall]. intros a Ha.
    destruct Ha as (_ & _ & _ & _ & H1 & H2 & H3). now repeat split. }
  destruct (deduplicateSeamVertices (t :: rest) 1e-4) as [| d ds] eqn:Hdd;
    [constructor |].
  cbn [whenNonEmpty].
  exact (sameOrFlipped_apart _ _ _ (propagateNormals_sameOrFlipped (d :: ds)) Hd).
Qed.

Lemma combinedSoup_apart (soupA soupB : Soup)
  (taggedSegments : list TaggedSegment) (operation : Operation) (combined : Soup) :
  combinedSoup version Delaunator Constrainautor soupA soupB taggedSegments operation
  = Returned combined ->
  Forall (apartCorners (1e-4 * 1e-4)) combined.
Proof.
  unfold combinedSoup, meshGrid. cbv zeta.
  destruct (RayCast.classifyByFloodFill _ soupA _ _ _ _) as [| classA];
    cbn [andThen]; [discriminate |].
  destruct (RayCast.classifyByFloodFill _ soupB _ _ _ _) as [| classB];
    cbn [andThen]; [discriminate |].
  destruct (RayCast.splitStraddlingAndClassify _ _ _ soupA _ _ _ _ _) as [| groupsA];
    cbn [andThen]; [discriminate |].
  destruct (RayCast.splitStraddlingAndClassify _ _ _ soupB _ _ _ _ _) as [| groupsB];
    cbn [andThen]; [discriminate |].
  intro H. injection H as <-.
  destruct operation; apply Forall_app; split; try apply finishGroup_apart.
  unfold flipSoup. apply Forall_forall. intros t Hin. apply in_map_iff in Hin.
  destruct Hin as (t0 & <- & Hin0). apply apartCorners_flip.
  exact (proj1 (Forall_forall _ _) (finishGroup_apart _) t0 Hin0).
Qed.

(** The classifier returns on the grid step 3 builds for the other
    mesh. *)
Lemma meshGrid_classifier_returns (other : Soup) (p : Vertex) :
  exists z,
    RayCast.classifyPointByRayCast version p other (fst (meshGrid other)) (snd (meshGrid other))
    = Returned z.
Proof. unfold meshGrid. cbn [fst snd]. apply classifyPointByRayCast_returns. Qed.

(** Steps 2 to 8 return: both flood fills and both splits do, and the
    combined soup is put together from the four finished groups. *)
Lemma combinedSoup_returns (soupA soupB : Soup)
  (taggedSegments : list TaggedSegment) (operation : Operation) :
  exists classA classB groupsA groupsB,
    regionClasses version soupA soupB idxA taggedSegments = Returned classA /\
    regionClasses version soupB soupA idxB taggedSegments = Returned classB /\
    classifiedByRay version soupA (buildCrossedSet idxA taggedSegments) soupB
                    (fst (meshGrid soupB)) (snd (meshGrid soupB)) classA /\
    classifiedByRay version soupB (buildCrossedSet idxB taggedSegments) soupA
                    (fst (meshGrid soupA)) (snd (meshGrid soupA)) classB /\
    RayCast.splitStraddlingAndClassify version Delaunator Constrainautor soupA classA
      (buildCrossedSet idxA taggedSegments) soupB
      (fst (meshGrid soupB)) (snd (meshGrid soupB)) = Returned groupsA /\
    RayCast.splitStraddlingAndClassify version Delaunator Constrainautor soupB classB
      (buildCrossedSet idxB taggedSegments) soupA
      (fst (meshGrid soupA)) (snd (meshGrid soupA)) = Returned groupsB /\
    combinedSoup version Delaunator Constrainautor soupA soupB taggedSegments operation
    = Returned match operation with
               | Subtract => finishGroup (outside groupsA)
                             ++ flipSoup (finishGroup (inside groupsB))
               | Union => finishGroup (outside groupsA)
                          ++ finishGroup (outside groupsB)
               | Intersect => finishGroup (inside groupsA)
                              ++ finishGroup (inside groupsB)
               end.
Proof.
  destruct (rayFill_classes version soupA (buildCrossedSet idxA taggedSegments) soupB
              (fst (meshGrid soupB)) (snd (meshGrid soupB))
              (meshGrid_classifier_returns soupB)) as (classA & HA & HpA).
  destruct (rayFill_classes version soupB (buildCrossedSet idxB taggedSegments) soupA
              (fst (meshGrid soupA)) (snd (meshGrid soupA))
              (meshGrid_classifier_returns soupA)) as (classB & HB & HpB).
  destruct (raySplit_returns version Delaunator Constrainautor soupB
              (fst (meshGrid soupB)) (snd (meshGrid soupB))
              (meshGrid_classifier_returns soupB) soupA classA
              (buildCrossedSet idxA taggedSegments)) as (groupsA & HgA).
  destruct (raySplit_returns version Delaunator Constrainautor soupA
              (fst (meshGrid soupA)) (snd (meshGrid soupA))
              (meshGrid_classifier_returns soupA) soupB classB
              (buildCrossedSet idxB taggedSegments)) as (groupsB & HgB).
  exists classA, classB, groupsA, groupsB.
  split; [exact HA |]. split; [exact HB |]. split; [exact HpA |].
  split; [exact HpB |]. split; [exact HgA |]. split; [exact HgB |].
  unfold combinedSoup.
  destruct (meshGrid soupA) as [gridA cellSizeA].
  destruct (meshGrid soupB) as [gridB cellSizeB]. cbn [fst snd] in *.
  rewrite HA. cbn [andThen]. rewrite HB. cbn [andThen].
  rewrite HgA. cbn [andThen]. rewrite HgB. cbn [andThen]. reflexivity.
Qed.

End BooleanProperties.

(** ** The entry point *)

Section EntryPoint.

Variable version : RayCast.Version.
Variable Delaunator : list (R * R) -> option (list (nat * nat * nat)).
Variable Constrainautor :
  list (nat * nat * nat) -> list (R * R) -> list (nat * nat) ->
  list (nat * nat * nat).

Let bool_op := boolean version Delaunator Constrainautor.
Let combined := combinedSoup version Delaunator Constrainautor.

(** With tagged segments, what [boolean] returns is decided by the
    combined soup. *)
Lemma boolean_tagged (soupA soupB : Soup) (operation : Operation) :
  soupA <> [] -> soupB <> [] -> intersectMeshPairTagged soupA soupB <> [] ->
  exists cmb,
    combined soupA soupB (intersectMeshPairTagged soupA soupB) operation
    = Returned cmb /\
    bool_op (Some soupA) (Some soupB) operation
    = Returned match cmb with
               | [] => None
               | _ => Some (mkResult cmb (points (weldVertices cmb 1e-4))
                                     (triangles (weldVertices cmb 1e-4)))
               end.
Proof.
  intros HA HB Hseg. unfold bool_op, combined, boolean.
  destruct soupA as [| a sA']; [contradiction |].
  destruct soupB as [| b sB']; [contradiction |].
  set (sA := a :: sA') in *. set (sB := b :: sB') in *. cbv zeta.
  destruct (intersectMeshPairTagged sA sB) as [| seg segs] eqn:Hs; [contradiction |].
  destruct (combinedSoup_returns version Delaunator Constrainautor sA sB (seg :: segs)
              operation) as (cA & cB & gA & gB & _ & _ & _ & _ & _ & _ & Hc).
  rewrite Hc. cbn [andThen]. eexists. split; [reflexivity |].
  match goal with |- context [match ?c with [] => Returned None | _ => _ end] =>
    destruct c; reflexivity end.
Qed.

(** With tagged segments, the corners of every triangle of the result
    are 1e-4 or more apart. *)
Lemma boolean_tagged_apart (soupA soupB : Soup) (operation : Operation)
  (r : BooleanResult) :
  intersectMeshPairTagged soupA soupB <> [] ->
  bool_op (Some soupA) (Some soupB) operation = Returned (Some r) ->
  Forall (apartCorners (1e-4 * 1e-4)) (soup r).
Proof.
  intros Hseg Hr.
  destruct soupA as [| a sA']; [discriminate |].
  destruct soupB as [| b sB']; [discriminate |].
  destruct (boolean_tagged (a :: sA') (b :: sB') operation ltac:(discriminate)
              ltac:(discriminate) Hseg) as (cmb & Hc & Hb).
  rewrite Hb in Hr. apply (combinedSoup_apart version Delaunator Constrainautor) in Hc.
  destruct cmb as [| t ts]; [discriminate |]. injection Hr as <-. exact Hc.
Qed.

End EntryPoint.


(** C1. For non-empty soups with no tagged segment, [intersect] gives
    null, [union] gives a record whose soup is the concatenation of the
    two soups, with |A| + |B| triangles, and [subtract] gives a record
    whose soup is A; none of the three calls throws. *)
Theorem boolean_no_segments
  (version : RayCast.Version)
  (Delaunator : list (R * R) -> option (list (nat * nat * nat)))
  (Constrainautor : list (nat * nat * nat) -> list (R * R) -> list (nat * nat) ->
                    list (nat * nat * nat))
  (soupA soupB : Soup) :
  soupA <> [] -> soupB <> [] ->
  intersectMeshPairTagged soupA soupB = [] ->
  boolean version Delaunator Constrainautor (Some soupA) (Some soupB) Intersect
  = Returned None /\
  (exists r, boolean version Delaunator Constrainautor (Some soupA) (Some soupB) Union
             = Returned (Some r) /\
             soup r = soupA ++ soupB /\
             List.length (soup r) = (List.length soupA + List.length soupB)%nat) /\
  (exists r, boolean version Delaunator Constrainautor (Some soupA) (Some soupB) Subtract
             = Returned (Some r) /\
             soup r = soupA).
Proof.
  intros HA HB Hseg. unfold boolean.
  destruct soupA as [| a sA]; [contradiction |].
  destruct soupB as [| b sB]; [contradiction |].
  cbv zeta. rewrite Hseg. split; [reflexivity |]. split.
  - eexists. split; [reflexivity |]. split; [reflexivity |].
    cbn [soup]. apply length_app.
  - eexists. split; reflexivity.
Qed.

Lemma boolean_no_segments_witness :
  boolean RayCast.SingleRay delaunatorFails constrainNothing (Some farA) (Some farB) Intersect
  = Returned None /\
  (exists r, boolean RayCast.SingleRay delaunatorFails constrainNothing (Some farA) (Some farB) Union
             = Returned (Some r) /\
             soup r = farA ++ farB /\
             List.length (soup r) = (List.length farA + List.length farB)%nat) /\
  (exists r, boolean RayCast.SingleRay delaunatorFails constrainNothing (Some farA) (Some farB) Subtract
             = Returned (Some r) /\
             soup r = farA).
Proof.
  apply (boolean_no_segments RayCast.SingleRay delaunatorFails constrainNothing farA farB).
  - discriminate.
  - discriminate.
  - exact far_no_segments.
Defined.

(** C1 fails as stated: the boxes of the soups [[tinyTri]] and
    [[skewTri]] are disjoint, yet the pair has a tagged segment, and
    [subtract] does not return a record whose soup is [[tinyTri]],
    whatever the triangulation packages do. *)
Lemma disjoint_boxes_with_segment :
  (exists bbA bbB,
     computeBBox [tinyTri] = finiteBox bbA /\ computeBBox [skewTri] = finiteBox bbB /\
     bboxOverlap bbA bbB = false) /\
  intersectMeshPairTagged [tinyTri] [skewTri] <> [] /\
  forall version Delaunator Constrainautor,
    ~ exists r,
        boolean version Delaunator Constrainautor (Some [tinyTri]) (Some [skewTri]) Subtract
        = Returned (Some r) /\
        soup r = [tinyTri].
Proof.
  assert (Hseg : intersectMeshPairTagged [tinyTri] [skewTri] <> []).
  { intro H. pose proof tiny_skew_tagged as Hin. rewrite H in Hin. destruct Hin. }
  split; [| split; [exact Hseg |]].
  - destruct (computeBBox_finite tinyTri []) as (bbA & HA & _ & HtA).
    destruct (computeBBox_finite skewTri []) as (bbB & HB & _ & HtB).
    exists bbA, bbB. split; [exact HA |]. split; [exact HB |].
    destruct HtA as (HminA & _). destruct HtB as (_ & _ & _ & HmaxB & _).
    destruct (bboxOverlap bbA bbB) eqn:Hov; [| reflexivity].
    apply bboxOverlap_iff in Hov. destruct Hov as (Hx & _).
    unfold soupVertices, tinyTri, skewTri in HminA, HmaxB.
    cbn [flat_map map app v0 v1 v2 vx In] in HminA, HmaxB.
    exfalso.
    destruct HminA as [HmA | [HmA | [HmA | []]]];
      destruct HmaxB as [HmB | [HmB | [HmB | []]]]; lra.
  - intros version Delaunator Constrainautor (r & Hr & Hsoup).
    pose proof (boolean_tagged_apart version Delaunator Constrainautor [tinyTri] [skewTri]
                  Subtract r Hseg Hr) as Hall.
    rewrite Hsoup in Hall. inversion Hall as [| ? ? Hap _]; subst.
    destruct Hap as (H01 & _). unfold distSq3, tinyTri in H01.
    cbn [v0 v1 vx vy vz] in H01. lra.
Qed.


(** ** Two inputs under the horizontal triangle *)












(** ** Candidates and crossings over the one-triangle soup *)










(** ** Which triangles are crossed *)






(** ** Region classes of a pierced pair *)

Section PiercedPair.

Variable t : Triangle.
Hypothesis below0 : vz (v0 t) < 0.
Hypothesis below1 : vz (v1 t) < 0.
Hypothesis below2 : vz (v2 t) < 0.

Let segs := intersectMeshPairTagged [uprightTri; t] [flatTri].



End PiercedPair.


